(** * Resolution engine of the LLVM IR assembly translator (package asm)

    A shallow embedding of the Go sources

    - [resolveTypeDefs], [newIRType], [astToIRTypeDef] and the per-kind
      [astToIR*Type] translators (type resolver),
    - [resolveGlobals], [newGlobal], [astToIRGlobal] and the per-kind
      translators (global and function resolver),
    - [irBasicBlock] (basic block lookup of the function body resolver),

    followed by theorems about them.

    Go pointers are modelled as locations into an explicit heap, so that
    object identity (two references denote the same node) is an equality of
    locations.  Go maps are [gmap]s; their unspecified iteration order is a
    parameter of the model.  A Go function returning [(value, error)] that
    may also panic returns a [result]. *)

From Stdlib Require Import ZArith String Ascii.
From stdpp Require Import base option list gmap strings sorting fin_maps pretty.

Local Open Scope Z_scope.

(** ** Outcomes *)

(** Dynamic kinds of the IR type nodes of package [types]. *)
Inductive type_kind :=
| KVoid | KFunc | KInt | KFloat | KMMX | KPointer | KVector | KLabel
| KToken | KMetadata | KArray | KStruct.

(** Dynamic kinds of the [ir.Constant] values stored in [gen.gs]. *)
Inductive const_kind := KGlobal | KFunction.

(** Dynamic kinds of the local values stored in [fgen.ls]. *)
Inductive local_kind := KBasicBlock | KParam | KInst.

(** Errors returned through the [error] result.  Each constructor stands for
    one [errors.Errorf] format string of the sources and carries its
    arguments. *)
Inductive error :=
(** "AST type definition with alias %q already present; prev `%s`, new `%s`" *)
| ErrTypeDefPresent (alias prev new : string)
(** "invalid named type; self-referential with type name(s) %s" *)
| ErrSelfReferential (names : string)
(** "unable to locate type definition of named type %q" *)
| ErrLocateTypeDef (alias : string)
(** "AST global identifier %q already present; prev `%s`, new `%s`" *)
| ErrGlobalPresent (name prev new : string)
(** "unable to locate local identifier %q" *)
| ErrLocateLocal (name : string)
(** "invalid basic block type; expected *ir.BasicBlock, got %T" *)
| ErrInvalidBasicBlock (got : local_kind)
(** "unable to locate global identifier %q" *)
| ErrLocateGlobal (name : string)
(** "invalid global type; expected %T, got %T" *)
| ErrInvalidGlobal (expected : const_kind) (got : const_kind)
(** an error returned by a collaborator outside these sources *)
| ErrForeign (msg : string).

(** The error kinds named by the specification. *)
Inductive error_kind :=
| DuplicateDefinitionError
| UnresolvedIdentifierError
| CyclicTypeAliasError
| LocalKindMismatchError
| UnresolvedLocalError
| OtherError.

Definition kind_of_error (e : error) : error_kind :=
  match e with
  | ErrTypeDefPresent _ _ _ => DuplicateDefinitionError
  | ErrSelfReferential _ => CyclicTypeAliasError
  | ErrLocateTypeDef _ => UnresolvedIdentifierError
  | ErrGlobalPresent _ _ _ => DuplicateDefinitionError
  | ErrLocateLocal _ => UnresolvedLocalError
  | ErrInvalidBasicBlock _ => LocalKindMismatchError
  | ErrLocateGlobal _ => UnresolvedIdentifierError
  | ErrInvalidGlobal _ _ => OtherError
  | ErrForeign _ => OtherError
  end.

(** Process aborts: one constructor per [panic] call of the sources. *)
Inductive panic :=
(** "support for type %T not yet implemented", "support for global variable
    or function %T not yet implemented" *)
| PanicNotImplemented
(** "invalid IR type for AST ... type; expected *types.X, got %T";
    [got] is [None] when the pointer does not denote a node *)
| PanicInvalidIRType (expected : type_kind) (got : option type_kind)
(** "invalid use of opaque type; only allowed in type definitions" *)
| PanicOpaqueUse
(** "invalid integer type %q; missing 'i' prefix" *)
| PanicIntPrefix (text : string)
(** "unable to parse integer type bit size %q; %v" *)
| PanicIntBitSize (text : string)
(** "support for floating-point kind %q not yet implemented" *)
| PanicFloatKind (text : string)
(** "invalid IR type for AST global ...; expected *ir.X, got %T" *)
| PanicInvalidIRConstant (expected : const_kind) (got : option const_kind)
(** [panic(err)] of the assembly loops of [resolveGlobals] *)
| PanicError (e : error)
(** a nil pointer dereference *)
| PanicNilDeref
(** a panic raised by a collaborator outside these sources *)
| PanicForeign (msg : string).

(** Outcome of a Go call: a value, an error (the recoverable channel), a
    panic (process abort), or [OutOfFuel] when the bound on the depth of a
    recursion of the model was too small. *)
Inductive result (A : Type) :=
| Ok (a : A)
| Err (e : error)
| Panic (p : panic)
| OutOfFuel.
Arguments Ok {A} a.
Arguments Err {A} e.
Arguments Panic {A} p.
Arguments OutOfFuel {A}.

#[global] Instance result_ret : MRet result := fun A a => Ok a.
#[global] Instance result_bind : MBind result := fun A B f r =>
  match r with
  | Ok a => f a
  | Err e => Err e
  | Panic p => Panic p
  | OutOfFuel => OutOfFuel
  end.

(** A [for] loop over a slice whose body may return early. *)
Definition foldM {S A : Type} (f : S -> A -> result S) : S -> list A -> result S :=
  fix go (s : S) (l : list A) : result S :=
    match l with
    | [] => Ok s
    | x :: l' => s' ← f s x; go s' l'
    end.

(** Outcome of a collaborator that is not part of these sources. *)
Inductive foreign_result (A : Type) :=
| FOk (a : A)
| FErr (msg : string)
| FPanic (msg : string).
Arguments FOk {A} a.
Arguments FErr {A} msg.
Arguments FPanic {A} msg.

Definition lift_foreign {A} (r : foreign_result A) : result A :=
  match r with
  | FOk a => Ok a
  | FErr msg => Err (ErrForeign msg)
  | FPanic msg => Panic (PanicForeign msg)
  end.

(** ** Strings *)

(** [sort.Strings]: ascending byte-wise order. *)
Definition string_le (s1 s2 : string) : Prop := String.leb s1 s2 = true.

#[global] Instance string_le_dec : RelDecision string_le :=
  fun s1 s2 => decide (String.leb s1 s2 = true).

Definition sort_Strings (l : list string) : list string :=
  merge_sort string_le l.

(** [strings.Join]. *)
Definition strings_Join (l : list string) (sep : string) : string :=
  String.concat sep l.

(** [strconv.ParseInt(s, 10, 64)]: an optional sign, then one or more
    decimal digits; the value has to fit a signed 64-bit integer. *)
Definition digit_of (c : ascii) : option Z :=
  let n := Z.of_N (N_of_ascii c) in
  if (48 <=? n) && (n <=? 57) then Some (n - 48) else None.

Fixpoint parse_digits (acc : Z) (s : string) : option Z :=
  match s with
  | EmptyString => Some acc
  | String c s' =>
      match digit_of c with
      | Some d => parse_digits (acc * 10 + d) s'
      | None => None
      end
  end.

Definition ParseInt_10_64 (s : string) : option Z :=
  let '(neg, body) :=
    match s with
    | String "+"%char r => (false, r)
    | String "-"%char r => (true, r)
    | _ => (false, s)
    end in
  match body with
  | EmptyString => None
  | _ =>
      match parse_digits 0 body with
      | Some v =>
          let v' := if neg : bool then - v else v in
          if (- 2 ^ 63 <=? v') && (v' <=? 2 ^ 63 - 1) then Some v' else None
      | None => None
      end
  end.

(** The conversion [int64(x)] of a [uint64]. *)
Definition int64_of_uint64 (x : Z) : Z :=
  if x <? 2 ^ 63 then x else x - 2 ^ 64.

(** ** Syntax trees *)

(** Trees and values owned by the parser and by the IR library, which the
    sources of the resolver only pass along. *)
Class Foreign := {
  (** [ast.FuncBody], the body of a function definition *)
  ast_FuncBody : Type;
  (** [ast.Constant], the initializer of a global definition *)
  ast_Constant : Type;
  (** [ir.Constant] as produced for an initializer *)
  ir_Init : Type;
  (** the basic blocks produced for a function body *)
  ir_Blocks : Type;
}.

(** [ast.Type].  Names are stored without their '%' prefix (the result of
    [local]); lengths are the values of [uintLit]; [Variadic] and
    [AddrSpace] are the values of [irOptVariadic] and [irOptAddrSpace]. *)
#[warnings="-register-all"]
Inductive ast_Type :=
| ast_ArrayType (Len : Z) (Elem : ast_Type)
| ast_FloatType (FloatKind : string)
| ast_FuncType (RetType : ast_Type) (Params : list ast_Type) (Variadic : bool)
| ast_IntType (Text : string)
| ast_LabelType
| ast_MMXType
| ast_MetadataType
| ast_NamedType (Name : string)
| ast_PointerType (Elem : ast_Type) (AddrSpace : Z)
| ast_StructType (Fields : list ast_Type)
| ast_PackedStructType (Fields : list ast_Type)
| ast_TokenType
| ast_VectorType (Len : Z) (Elem : ast_Type)
| ast_VoidType.

(** [ast.LlvmNode] where a type definition body is expected: the nil
    interface, [*ast.OpaqueType], or an [ast.Type]. *)
Inductive LlvmNode :=
| node_nil
| node_OpaqueType
| node_Type (t : ast_Type).

(** Attributes of a global variable, as the [irOpt*] helpers return them. *)
Record GlobalAttrs := {
  ga_Linkage : Z;
  ga_Preemption : Z;
  ga_Visibility : Z;
  ga_DLLStorageClass : Z;
  ga_TLSModel : Z;
  ga_UnnamedAddr : Z;
  ga_AddrSpace : Z;
  ga_ExternallyInitialized : bool;
  ga_Immutable : bool;
}.

(** [ast.GlobalDecl] and the part of [ast.GlobalDef] before the
    initializer.  [Name] is stored without its '@' prefix ([global]). *)
Record ast_Global := {
  ag_Name : string;
  ag_ContentType : ast_Type;
  ag_Attrs : GlobalAttrs;
}.

(** [ast.Param]; [ap_Name] is the value of [optLocal]. *)
Record ast_Param := {
  ap_Typ : ast_Type;
  ap_Name : string;
}.

(** [ast.FuncHeader]. *)
Record ast_FuncHeader := {
  ah_Name : string;
  ah_RetType : ast_Type;
  ah_Params : list ast_Param;
  ah_Variadic : bool;
  ah_Linkage : Z;
  ah_Preemption : Z;
  ah_Visibility : Z;
  ah_DLLStorageClass : Z;
  ah_UnnamedAddr : Z;
  ah_AddrSpace : Z;
}.

(** A location of the heap: a Go pointer. *)
Abbreviation loc := nat.

Section Model.
Context {F : Foreign}.

(** [ast.TopLevelEntity]. *)
Inductive TopLevelEntity :=
| TypeDef (Alias : string) (Typ : LlvmNode)
| GlobalDecl (old : ast_Global)
| GlobalDef (old : ast_Global) (Init : ast_Constant)
| FuncDecl (Header : ast_FuncHeader)
| FuncDef (Header : ast_FuncHeader) (Body : ast_FuncBody)
(** any other entity (source file name, metadata, ...) *)
| OtherEntity.

(** ** The IR object graph *)


(** The nodes of package [types].  A [types.Type] interface value is an
    [option loc]: nil, or a pointer to one of these nodes. *)
Inductive types_Type :=
| VoidType (Alias : string)
| FuncType (Alias : string) (RetType : option loc) (Params : list loc) (Variadic : bool)
| IntType (Alias : string) (BitSize : Z)
| FloatType (Alias : string) (Kind : Z)
| MMXType (Alias : string)
| PointerType (Alias : string) (ElemType : option loc) (AddrSpace : Z)
| VectorType (Alias : string) (Len : Z) (ElemType : option loc)
| LabelType (Alias : string)
| TokenType (Alias : string)
| MetadataType (Alias : string)
| ArrayType (Alias : string) (Len : Z) (ElemType : option loc)
| StructType (Alias : string) (Packed : bool) (Fields : list loc) (Opaque : bool).

Definition kind_of_type (n : types_Type) : type_kind :=
  match n with
  | VoidType _ => KVoid
  | FuncType _ _ _ _ => KFunc
  | IntType _ _ => KInt
  | FloatType _ _ => KFloat
  | MMXType _ => KMMX
  | PointerType _ _ _ => KPointer
  | VectorType _ _ _ => KVector
  | LabelType _ => KLabel
  | TokenType _ => KToken
  | MetadataType _ => KMetadata
  | ArrayType _ _ _ => KArray
  | StructType _ _ _ _ => KStruct
  end.

Definition Alias_of (n : types_Type) : string :=
  match n with
  | VoidType a | FuncType a _ _ _ | IntType a _ | FloatType a _ | MMXType a
  | PointerType a _ _ | VectorType a _ _ | LabelType a | TokenType a
  | MetadataType a | ArrayType a _ _ | StructType a _ _ _ => a
  end.

(** [ir.Global]. *)
Record ir_Global := {
  g_GlobalName : string;
  g_ContentType : option loc;
  g_Typ : option loc;
  g_Linkage : Z;
  g_Preemption : Z;
  g_Visibility : Z;
  g_DLLStorageClass : Z;
  g_TLSModel : Z;
  g_UnnamedAddr : Z;
  g_ExternallyInitialized : bool;
  g_Immutable : bool;
  g_Init : option ir_Init;
}.

(** [ir.Param]. *)
Record ir_Param := {
  p_Typ : loc;
  p_LocalName : string;
}.

(** [ir.Function]. *)
Record ir_Function := {
  f_GlobalName : string;
  f_Sig : option loc;
  f_Typ : option loc;
  f_Params : list ir_Param;
  f_Linkage : Z;
  f_Preemption : Z;
  f_Visibility : Z;
  f_DLLStorageClass : Z;
  f_UnnamedAddr : Z;
  f_Blocks : option ir_Blocks;
}.

(** The nodes behind an [ir.Constant] interface value of [gen.gs]. *)
Inductive ir_Constant :=
| Global (g : ir_Global)
| Function (f : ir_Function).

Definition kind_of_const (c : ir_Constant) : const_kind :=
  match c with
  | Global _ => KGlobal
  | Function _ => KFunction
  end.

Definition GlobalName_of (c : ir_Constant) : string :=
  match c with
  | Global g => g_GlobalName g
  | Function f => f_GlobalName f
  end.

(** [ir.Module]: the three ordered lists. *)
Record ir_Module := {
  TypeDefs : list (option loc);
  Globals : list loc;
  Funcs : list loc;
}.

(** [generator], together with the two heaps its pointers point into. *)
Record generator := {
  ts : gmap string loc;
  gs : gmap string loc;
  m : ir_Module;
  types_heap : list types_Type;
  consts_heap : list ir_Constant;
}.

Definition set_ts (gen : generator) (ts' : gmap string loc) : generator :=
  {| ts := ts'; gs := gs gen; m := m gen;
     types_heap := types_heap gen; consts_heap := consts_heap gen |}.

Definition set_gs (gen : generator) (gs' : gmap string loc) : generator :=
  {| ts := ts gen; gs := gs'; m := m gen;
     types_heap := types_heap gen; consts_heap := consts_heap gen |}.

Definition set_m (gen : generator) (m' : ir_Module) : generator :=
  {| ts := ts gen; gs := gs gen; m := m';
     types_heap := types_heap gen; consts_heap := consts_heap gen |}.

Definition set_types_heap (gen : generator) (h : list types_Type) : generator :=
  {| ts := ts gen; gs := gs gen; m := m gen;
     types_heap := h; consts_heap := consts_heap gen |}.

Definition set_consts_heap (gen : generator) (h : list ir_Constant) : generator :=
  {| ts := ts gen; gs := gs gen; m := m gen;
     types_heap := types_heap gen; consts_heap := h |}.

(** [&types.X{...}]: a fresh node at the end of the heap. *)
Definition new_type (gen : generator) (n : types_Type) : generator * loc :=
  (set_types_heap gen (types_heap gen ++ [n]), length (types_heap gen)).

(** An assignment to fields of the node [l] points to. *)
Definition update_type (gen : generator) (l : loc) (f : types_Type -> types_Type) : generator :=
  set_types_heap gen (alter f l (types_heap gen)).

(** The dynamic kind of the node a pointer denotes. *)
Definition kind_at (gen : generator) (l : loc) : option type_kind :=
  kind_of_type <$> types_heap gen !! l.

Definition new_const (gen : generator) (c : ir_Constant) : generator * loc :=
  (set_consts_heap gen (consts_heap gen ++ [c]), length (consts_heap gen)).

Definition update_const (gen : generator) (l : loc) (f : ir_Constant -> ir_Constant) : generator :=
  set_consts_heap gen (alter f l (consts_heap gen)).

Definition const_kind_at (gen : generator) (l : loc) : option const_kind :=
  kind_of_const <$> consts_heap gen !! l.

(** ** Collaborators *)

(** The [range] loops of the sources over a map. *)
Inductive range_site :=
| RangeNewIRType      (* resolveTypeDefs, "Create corresponding named IR types" *)
| RangeTypeDef        (* resolveTypeDefs, "Translate type defintions" *)
| RangeTrack          (* newIRType, names of track *)
| RangeNewGlobal      (* resolveGlobals, "Create corresponding IR global variables" *)
| RangeGlobal.        (* resolveGlobals, "Translate global variables and functions" *)

(** What the sources call but do not define. *)
Class Collaborators := {
  (** [enc.Local] and [enc.Global] *)
  enc_Local : string -> string;
  enc_Global : string -> string;
  (** [text] on the nodes of a type definition and on top-level entities *)
  text : LlvmNode -> string;
  text_entity : TopLevelEntity -> string;
  (** the order in which a [range] loop visits the entries of a map *)
  range : range_site -> forall A : Type, list (string * A) -> list (string * A);
  (** [gen.irConstant]; may allocate type nodes *)
  irConstant : generator -> option loc -> ast_Constant ->
               foreign_result (list types_Type * ir_Init);
  (** [newFuncGen(gen, f).resolveLocals]; may allocate type nodes *)
  resolveLocals : generator -> loc -> ast_FuncBody ->
                  foreign_result (list types_Type * ir_Blocks);
}.

Context {C : Collaborators}.

(** Iteration order of a Go map is unspecified but visits every entry once. *)
Definition range_ok : Prop :=
  forall (site : range_site) (A : Type) (l : list (string * A)),
    range site A l ≡ₚ l.

#[global] Instance type_kind_eq_dec : EqDecision type_kind.
Proof. solve_decision. Defined.

#[global] Instance const_kind_eq_dec : EqDecision const_kind.
Proof. solve_decision. Defined.

(** ** Type resolver *)

(** The common opening of the [astToIR*Type] translators: the type assertion
    of [t] to a pointer to the expected node; a fresh node when [t] is nil,
    a panic when the assertion fails. *)
Definition type_assert (gen : generator) (t : option loc) (k : type_kind)
    (zero : types_Type) : result (generator * loc) :=
  match t with
  | None => Ok (new_type gen zero)
  | Some l =>
      if decide (kind_at gen l = Some k) then Ok (gen, l)
      else Panic (PanicInvalidIRType k (kind_at gen l))
  end.

(** Field assignments on type nodes. *)
Definition set_RetType (r : loc) (n : types_Type) : types_Type :=
  match n with
  | FuncType a _ ps v => FuncType a (Some r) ps v
  | _ => n
  end.

Definition append_Params (p : loc) (n : types_Type) : types_Type :=
  match n with
  | FuncType a r ps v => FuncType a r (ps ++ [p]) v
  | _ => n
  end.

Definition set_Variadic (v : bool) (n : types_Type) : types_Type :=
  match n with
  | FuncType a r ps _ => FuncType a r ps v
  | _ => n
  end.

Definition set_BitSize (x : Z) (n : types_Type) : types_Type :=
  match n with
  | IntType a _ => IntType a x
  | _ => n
  end.

Definition set_Kind (k : Z) (n : types_Type) : types_Type :=
  match n with
  | FloatType a _ => FloatType a k
  | _ => n
  end.

Definition set_ElemType (e : loc) (n : types_Type) : types_Type :=
  match n with
  | PointerType a _ s => PointerType a (Some e) s
  | VectorType a len _ => VectorType a len (Some e)
  | ArrayType a len _ => ArrayType a len (Some e)
  | _ => n
  end.

Definition set_AddrSpace (s : Z) (n : types_Type) : types_Type :=
  match n with
  | PointerType a e _ => PointerType a e s
  | _ => n
  end.

Definition set_Len (len : Z) (n : types_Type) : types_Type :=
  match n with
  | VectorType a _ e => VectorType a len e
  | ArrayType a _ e => ArrayType a len e
  | _ => n
  end.

Definition set_Opaque (o : bool) (n : types_Type) : types_Type :=
  match n with
  | StructType a p fs _ => StructType a p fs o
  | _ => n
  end.

Definition set_Packed (p : bool) (n : types_Type) : types_Type :=
  match n with
  | StructType a _ fs o => StructType a p fs o
  | _ => n
  end.

Definition append_Fields (f : loc) (n : types_Type) : types_Type :=
  match n with
  | StructType a p fs o => StructType a p (fs ++ [f]) o
  | _ => n
  end.

(** [irIntTypeBitSize]. *)
Definition irIntTypeBitSize (text : string) : result Z :=
  if negb (String.prefix "i" text) then Panic (PanicIntPrefix text)
  else
    let text := String.substring 1 (String.length text - 1) text in
    match ParseInt_10_64 text with
    | Some x => Ok x
    | None => Panic (PanicIntBitSize text)
    end.

(** [irFloatKind]; the kinds of [types.FloatKind] are numbered in the order
    of their declaration. *)
Definition irFloatKind (text : string) : result Z :=
  if decide (text = "half") then Ok 0
  else if decide (text = "float") then Ok 1
  else if decide (text = "double") then Ok 2
  else if decide (text = "x86_fp80") then Ok 3
  else if decide (text = "fp128") then Ok 4
  else if decide (text = "ppc_fp128") then Ok 5
  else Panic (PanicFloatKind text).

(** The per-kind translators.  They call back into [irType], which is tied
    to [astToIRTypeDef] below. *)
Section translators.
Variable irType : generator -> ast_Type -> result (generator * loc).

Definition astToIRVoidType (gen : generator) (t : option loc) : result (generator * loc) :=
  type_assert gen t KVoid (VoidType EmptyString).

Definition astToIRFuncType (gen : generator) (t : option loc)
    (RetType : ast_Type) (Params : list ast_Type) (Variadic : bool) : result (generator * loc) :=
  '(gen, typ) ← type_assert gen t KFunc (FuncType EmptyString None [] false);
  '(gen, retType) ← irType gen RetType;
  let gen := update_type gen typ (set_RetType retType) in
  gen ← foldM (fun gen p =>
                 '(gen, param) ← irType gen p;
                 Ok (update_type gen typ (append_Params param)))
              gen Params;
  Ok (update_type gen typ (set_Variadic Variadic), typ).

Definition astToIRIntType (gen : generator) (t : option loc) (Text : string) : result (generator * loc) :=
  '(gen, typ) ← type_assert gen t KInt (IntType EmptyString 0);
  x ← irIntTypeBitSize Text;
  Ok (update_type gen typ (set_BitSize x), typ).

Definition astToIRFloatType (gen : generator) (t : option loc) (FloatKind : string) : result (generator * loc) :=
  '(gen, typ) ← type_assert gen t KFloat (FloatType EmptyString 0);
  k ← irFloatKind FloatKind;
  Ok (update_type gen typ (set_Kind k), typ).

Definition astToIRMMXType (gen : generator) (t : option loc) : result (generator * loc) :=
  type_assert gen t KMMX (MMXType EmptyString).

Definition astToIRPointerType (gen : generator) (t : option loc)
    (Elem : ast_Type) (AddrSpace : Z) : result (generator * loc) :=
  '(gen, typ) ← type_assert gen t KPointer (PointerType EmptyString None 0);
  '(gen, elemType) ← irType gen Elem;
  let gen := update_type gen typ (set_ElemType elemType) in
  Ok (update_type gen typ (set_AddrSpace AddrSpace), typ).

Definition astToIRVectorType (gen : generator) (t : option loc)
    (Len : Z) (Elem : ast_Type) : result (generator * loc) :=
  '(gen, typ) ← type_assert gen t KVector (VectorType EmptyString 0 None);
  let gen := update_type gen typ (set_Len (int64_of_uint64 Len)) in
  '(gen, elem) ← irType gen Elem;
  Ok (update_type gen typ (set_ElemType elem), typ).

Definition astToIRLabelType (gen : generator) (t : option loc) : result (generator * loc) :=
  type_assert gen t KLabel (LabelType EmptyString).

Definition astToIRTokenType (gen : generator) (t : option loc) : result (generator * loc) :=
  type_assert gen t KToken (TokenType EmptyString).

Definition astToIRMetadataType (gen : generator) (t : option loc) : result (generator * loc) :=
  type_assert gen t KMetadata (MetadataType EmptyString).

Definition astToIRArrayType (gen : generator) (t : option loc)
    (Len : Z) (Elem : ast_Type) : result (generator * loc) :=
  '(gen, typ) ← type_assert gen t KArray (ArrayType EmptyString 0 None);
  let gen := update_type gen typ (set_Len (int64_of_uint64 Len)) in
  '(gen, elem) ← irType gen Elem;
  Ok (update_type gen typ (set_ElemType elem), typ).

Definition astToIRStructType (gen : generator) (t : option loc)
    (Fields : list ast_Type) : result (generator * loc) :=
  '(gen, typ) ← type_assert gen t KStruct (StructType EmptyString false [] false);
  gen ← foldM (fun gen f =>
                 '(gen, field) ← irType gen f;
                 Ok (update_type gen typ (append_Fields field)))
              gen Fields;
  Ok (update_type gen typ (set_Opaque false), typ).

Definition astToIRPackedStructType (gen : generator) (t : option loc)
    (Fields : list ast_Type) : result (generator * loc) :=
  '(gen, typ) ← type_assert gen t KStruct (StructType EmptyString false [] false);
  let gen := update_type gen typ (set_Packed true) in
  gen ← foldM (fun gen f =>
                 '(gen, field) ← irType gen f;
                 Ok (update_type gen typ (append_Fields field)))
              gen Fields;
  Ok (update_type gen typ (set_Opaque false), typ).

End translators.

(** [astToIRNamedType]: the skeleton [t] is not looked at. *)
Definition astToIRNamedType (gen : generator) (t : option loc) (Name : string) : result (generator * loc) :=
  match ts gen !! Name with
  | Some typ => Ok (gen, typ)
  | None => Err (ErrLocateTypeDef (enc_Local Name))
  end.

(** [astToIROpaqueType]. *)
Definition astToIROpaqueType (gen : generator) (t : option loc) : result (generator * loc) :=
  match t with
  | None => Panic PanicOpaqueUse
  | Some l =>
      if decide (kind_at gen l = Some KStruct)
      then Ok (update_type gen l (set_Opaque true), l)
      else Panic (PanicInvalidIRType KStruct (kind_at gen l))
  end.

(** [astToIRTypeDef] on the nodes that are an [ast.Type]. *)
Fixpoint astToIRType (gen : generator) (t : option loc) (old : ast_Type) {struct old}
    : result (generator * loc) :=
  let irType := fun gen old => astToIRType gen None old in
  match old with
  | ast_ArrayType Len Elem => astToIRArrayType irType gen t Len Elem
  | ast_FloatType FloatKind => astToIRFloatType gen t FloatKind
  | ast_FuncType RetType Params Variadic => astToIRFuncType irType gen t RetType Params Variadic
  | ast_IntType Text => astToIRIntType gen t Text
  | ast_LabelType => astToIRLabelType gen t
  | ast_MMXType => astToIRMMXType gen t
  | ast_MetadataType => astToIRMetadataType gen t
  | ast_NamedType Name => astToIRNamedType gen t Name
  | ast_PointerType Elem AddrSpace => astToIRPointerType irType gen t Elem AddrSpace
  | ast_StructType Fields => astToIRStructType irType gen t Fields
  | ast_PackedStructType Fields => astToIRPackedStructType irType gen t Fields
  | ast_TokenType => astToIRTokenType gen t
  | ast_VectorType Len Elem => astToIRVectorType irType gen t Len Elem
  | ast_VoidType => astToIRVoidType gen t
  end.

(** [astToIRTypeDef]. *)
Definition astToIRTypeDef (gen : generator) (t : option loc) (old : LlvmNode)
    : result (generator * loc) :=
  match old with
  | node_OpaqueType => astToIROpaqueType gen t
  | node_Type old => astToIRType gen t old
  | node_nil => Panic PanicNotImplemented
  end.

(** [irType]. *)
Definition irType (gen : generator) (old : ast_Type) : result (generator * loc) :=
  astToIRTypeDef gen None (node_Type old).

(** [newIRType].  [fuel] bounds the length of the chain of named types that
    is followed. *)
Fixpoint newIRType (fuel : nat) (gen : generator) (alias : string) (old : LlvmNode)
    (index : gmap string LlvmNode) (track : gmap string bool) : result (generator * loc) :=
  match old with
  | node_OpaqueType => Ok (new_type gen (StructType alias false [] false))
  | node_Type (ast_ArrayType _ _) => Ok (new_type gen (ArrayType alias 0 None))
  | node_Type (ast_FloatType _) => Ok (new_type gen (FloatType alias 0))
  | node_Type (ast_FuncType _ _ _) => Ok (new_type gen (FuncType alias None [] false))
  | node_Type (ast_IntType _) => Ok (new_type gen (IntType alias 0))
  | node_Type ast_LabelType => Ok (new_type gen (LabelType alias))
  | node_Type ast_MMXType => Ok (new_type gen (MMXType alias))
  | node_Type ast_MetadataType => Ok (new_type gen (MetadataType alias))
  | node_Type (ast_NamedType Name) =>
      if default false (track !! alias) then
        let names := (fun '(name, _) => enc_Local name) <$> range RangeTrack bool (map_to_list track) in
        let names := sort_Strings names in
        Err (ErrSelfReferential (strings_Join names ", "))
      else
        let track := <[alias := true]> track in
        let newAlias := Name in
        let newTyp := default node_nil (index !! newAlias) in
        match fuel with
        | O => OutOfFuel
        | S fuel => newIRType fuel gen newAlias newTyp index track
        end
  | node_Type (ast_PointerType _ _) => Ok (new_type gen (PointerType alias None 0))
  | node_Type (ast_StructType _) => Ok (new_type gen (StructType alias false [] false))
  | node_Type (ast_PackedStructType _) => Ok (new_type gen (StructType alias false [] false))
  | node_Type ast_TokenType => Ok (new_type gen (TokenType alias))
  | node_Type (ast_VectorType _ _) => Ok (new_type gen (VectorType alias 0 None))
  | node_Type ast_VoidType => Ok (new_type gen (VoidType alias))
  | node_nil => Panic PanicNotImplemented
  end.

(** State of the indexing loop of [resolveTypeDefs]. *)
Record type_index := {
  index : gmap string LlvmNode;
  added : gmap string bool;
  order : list string;
}.

(** One iteration of "Index named AST types". *)
Definition indexTypeDef (st : type_index) (entity : TopLevelEntity) : result type_index :=
  match entity with
  | TypeDef alias typ =>
      let order' :=
        if negb (default false (added st !! alias)) then order st ++ [alias]
        else order st in
      let added' := <[alias := true]> (added st) in
      _ ← match typ with
          | node_OpaqueType => Ok ()
          | node_Type _ => Ok ()
          | node_nil => Panic PanicNotImplemented
          end;
      _ ← match index st !! alias with
          | Some prev =>
              match prev with
              | node_OpaqueType => Ok ()
              | _ => Err (ErrTypeDefPresent (enc_Local alias) (text prev) (text typ))
              end
          | None => Ok ()
          end;
      Ok {| index := <[alias := typ]> (index st); added := added'; order := order' |}
  | _ => Ok st
  end.

Definition indexTypeDefs (module : list TopLevelEntity) : result type_index :=
  foldM indexTypeDef {| index := ∅; added := ∅; order := [] |} module.

(** "Create corresponding named IR types (without bodies)". *)
Definition newIRTypes (gen : generator) (index : gmap string LlvmNode) : result generator :=
  foldM (fun gen '(alias, old) =>
           let track := ∅ in
           '(gen, t) ← newIRType (size index) gen alias old index track;
           Ok (set_ts gen (<[alias := t]> (ts gen))))
        (set_ts gen ∅) (range RangeNewIRType LlvmNode (map_to_list index)).

(** "Translate type defintions (including bodies)". *)
Definition astToIRTypeDefs (gen : generator) (index : gmap string LlvmNode) : result generator :=
  foldM (fun gen '(alias, old) =>
           let t := ts gen !! alias in
           '(gen, _) ← astToIRTypeDef gen t old;
           Ok gen)
        gen (range RangeTypeDef LlvmNode (map_to_list index)).

(** "Add type definitions to IR module in order of occurrence in input". *)
Definition addTypeDefs (gen : generator) (order : list string) : generator :=
  foldl (fun gen key =>
           let t := ts gen !! key in
           set_m gen {| TypeDefs := TypeDefs (m gen) ++ [t];
                        Globals := Globals (m gen); Funcs := Funcs (m gen) |})
        gen order.

(** [resolveTypeDefs]; the map it returns is [ts] of the generator. *)
Definition resolveTypeDefs (gen : generator) (module : list TopLevelEntity) : result generator :=
  st ← indexTypeDefs module;
  gen ← newIRTypes gen (index st);
  gen ← astToIRTypeDefs gen (index st);
  Ok (addTypeDefs gen (order st)).

(** ** Global and function resolver *)

(** Field assignments on globals and functions. *)
Definition set_g_ContentType (t : loc) (c : ir_Constant) : ir_Constant :=
  match c with
  | Global g =>
      Global {| g_GlobalName := g_GlobalName g; g_ContentType := Some t;
                g_Typ := g_Typ g; g_Linkage := g_Linkage g;
                g_Preemption := g_Preemption g; g_Visibility := g_Visibility g;
                g_DLLStorageClass := g_DLLStorageClass g; g_TLSModel := g_TLSModel g;
                g_UnnamedAddr := g_UnnamedAddr g;
                g_ExternallyInitialized := g_ExternallyInitialized g;
                g_Immutable := g_Immutable g; g_Init := g_Init g |}
  | _ => c
  end.

Definition set_g_Typ (t : loc) (c : ir_Constant) : ir_Constant :=
  match c with
  | Global g =>
      Global {| g_GlobalName := g_GlobalName g; g_ContentType := g_ContentType g;
                g_Typ := Some t; g_Linkage := g_Linkage g;
                g_Preemption := g_Preemption g; g_Visibility := g_Visibility g;
                g_DLLStorageClass := g_DLLStorageClass g; g_TLSModel := g_TLSModel g;
                g_UnnamedAddr := g_UnnamedAddr g;
                g_ExternallyInitialized := g_ExternallyInitialized g;
                g_Immutable := g_Immutable g; g_Init := g_Init g |}
  | _ => c
  end.

Definition set_g_Attrs (a : GlobalAttrs) (c : ir_Constant) : ir_Constant :=
  match c with
  | Global g =>
      Global {| g_GlobalName := g_GlobalName g; g_ContentType := g_ContentType g;
                g_Typ := g_Typ g; g_Linkage := ga_Linkage a;
                g_Preemption := ga_Preemption a; g_Visibility := ga_Visibility a;
                g_DLLStorageClass := ga_DLLStorageClass a; g_TLSModel := ga_TLSModel a;
                g_UnnamedAddr := ga_UnnamedAddr a;
                g_ExternallyInitialized := ga_ExternallyInitialized a;
                g_Immutable := ga_Immutable a; g_Init := g_Init g |}
  | _ => c
  end.

Definition set_g_Init (init : ir_Init) (c : ir_Constant) : ir_Constant :=
  match c with
  | Global g =>
      Global {| g_GlobalName := g_GlobalName g; g_ContentType := g_ContentType g;
                g_Typ := g_Typ g; g_Linkage := g_Linkage g;
                g_Preemption := g_Preemption g; g_Visibility := g_Visibility g;
                g_DLLStorageClass := g_DLLStorageClass g; g_TLSModel := g_TLSModel g;
                g_UnnamedAddr := g_UnnamedAddr g;
                g_ExternallyInitialized := g_ExternallyInitialized g;
                g_Immutable := g_Immutable g; g_Init := Some init |}
  | _ => c
  end.

Definition set_f_Sig (sig typ : loc) (c : ir_Constant) : ir_Constant :=
  match c with
  | Function f =>
      Function {| f_GlobalName := f_GlobalName f; f_Sig := Some sig; f_Typ := Some typ;
                  f_Params := f_Params f; f_Linkage := f_Linkage f;
                  f_Preemption := f_Preemption f; f_Visibility := f_Visibility f;
                  f_DLLStorageClass := f_DLLStorageClass f;
                  f_UnnamedAddr := f_UnnamedAddr f; f_Blocks := f_Blocks f |}
  | _ => c
  end.

Definition set_f_Linkage (hdr : ast_FuncHeader) (c : ir_Constant) : ir_Constant :=
  match c with
  | Function f =>
      Function {| f_GlobalName := f_GlobalName f; f_Sig := f_Sig f; f_Typ := f_Typ f;
                  f_Params := f_Params f; f_Linkage := ah_Linkage hdr;
                  f_Preemption := ah_Preemption hdr; f_Visibility := ah_Visibility hdr;
                  f_DLLStorageClass := ah_DLLStorageClass hdr;
                  f_UnnamedAddr := f_UnnamedAddr f; f_Blocks := f_Blocks f |}
  | _ => c
  end.

Definition append_f_Params (param : ir_Param) (c : ir_Constant) : ir_Constant :=
  match c with
  | Function f =>
      Function {| f_GlobalName := f_GlobalName f; f_Sig := f_Sig f; f_Typ := f_Typ f;
                  f_Params := f_Params f ++ [param]; f_Linkage := f_Linkage f;
                  f_Preemption := f_Preemption f; f_Visibility := f_Visibility f;
                  f_DLLStorageClass := f_DLLStorageClass f;
                  f_UnnamedAddr := f_UnnamedAddr f; f_Blocks := f_Blocks f |}
  | _ => c
  end.

Definition set_f_UnnamedAddr (u : Z) (c : ir_Constant) : ir_Constant :=
  match c with
  | Function f =>
      Function {| f_GlobalName := f_GlobalName f; f_Sig := f_Sig f; f_Typ := f_Typ f;
                  f_Params := f_Params f; f_Linkage := f_Linkage f;
                  f_Preemption := f_Preemption f; f_Visibility := f_Visibility f;
                  f_DLLStorageClass := f_DLLStorageClass f;
                  f_UnnamedAddr := u; f_Blocks := f_Blocks f |}
  | _ => c
  end.

Definition set_f_Blocks (b : ir_Blocks) (c : ir_Constant) : ir_Constant :=
  match c with
  | Function f =>
      Function {| f_GlobalName := f_GlobalName f; f_Sig := f_Sig f; f_Typ := f_Typ f;
                  f_Params := f_Params f; f_Linkage := f_Linkage f;
                  f_Preemption := f_Preemption f; f_Visibility := f_Visibility f;
                  f_DLLStorageClass := f_DLLStorageClass f;
                  f_UnnamedAddr := f_UnnamedAddr f; f_Blocks := Some b |}
  | _ => c
  end.

(** [&ir.Global{GlobalName: name}] and [&ir.Function{GlobalName: name}]. *)
Definition zero_Global (name : string) : ir_Constant :=
  Global {| g_GlobalName := name; g_ContentType := None; g_Typ := None;
            g_Linkage := 0; g_Preemption := 0; g_Visibility := 0;
            g_DLLStorageClass := 0; g_TLSModel := 0; g_UnnamedAddr := 0;
            g_ExternallyInitialized := false; g_Immutable := false;
            g_Init := None |}.

Definition zero_Function (name : string) : ir_Constant :=
  Function {| f_GlobalName := name; f_Sig := None; f_Typ := None; f_Params := [];
              f_Linkage := 0; f_Preemption := 0; f_Visibility := 0;
              f_DLLStorageClass := 0; f_UnnamedAddr := 0; f_Blocks := None |}.

(** [types.NewPointer]. *)
Definition types_NewPointer (gen : generator) (elem : loc) : generator * loc :=
  new_type gen (PointerType EmptyString (Some elem) 0).

(** The two global cases of [newGlobal]. *)
Definition newGlobal_Global (gen : generator) (name : string) (old : ast_Global)
    : result (generator * loc) :=
  let '(gen, g) := new_const gen (zero_Global name) in
  '(gen, contentType) ← irType gen (ag_ContentType old);
  let gen := update_const gen g (set_g_ContentType contentType) in
  let '(gen, typ) := types_NewPointer gen contentType in
  Ok (update_const gen g (set_g_Typ typ), g).

(** The two function cases of [newGlobal]. *)
Definition newGlobal_Function (gen : generator) (name : string) (hdr : ast_FuncHeader)
    : result (generator * loc) :=
  let '(gen, f) := new_const gen (zero_Function name) in
  let '(gen, sig) := new_type gen (FuncType EmptyString None [] false) in
  '(gen, retType) ← irType gen (ah_RetType hdr);
  let gen := update_type gen sig (set_RetType retType) in
  gen ← foldM (fun gen p =>
                 '(gen, param) ← irType gen (ap_Typ p);
                 Ok (update_type gen sig (append_Params param)))
              gen (ah_Params hdr);
  let gen := update_type gen sig (set_Variadic (ah_Variadic hdr)) in
  let '(gen, typ) := types_NewPointer gen sig in
  Ok (update_const gen f (set_f_Sig sig typ), f).

(** [newGlobal]. *)
Definition newGlobal (gen : generator) (name : string) (old : TopLevelEntity)
    : result (generator * loc) :=
  match old with
  | GlobalDecl old => newGlobal_Global gen name old
  | GlobalDef old _ => newGlobal_Global gen name old
  | FuncDecl hdr => newGlobal_Function gen name hdr
  | FuncDef hdr _ => newGlobal_Function gen name hdr
  | _ => Panic PanicNotImplemented
  end.

(** The type assertions of [g] to [*ir.Global] and to [*ir.Function] of the fill
    phase; [g] is nil when absent from [gen.gs]. *)
Definition const_assert (gen : generator) (g : option loc) (k : const_kind) : result loc :=
  match g with
  | Some l =>
      if decide (const_kind_at gen l = Some k) then Ok l
      else Panic (PanicInvalidIRConstant k (const_kind_at gen l))
  | None => Panic (PanicInvalidIRConstant k None)
  end.

(** The assignment [x.Typ.AddrSpace = a]. *)
Definition set_Typ_AddrSpace (gen : generator) (typ : option loc) (a : Z) : result generator :=
  match typ with
  | Some p => Ok (update_type gen p (set_AddrSpace a))
  | None => Panic PanicNilDeref
  end.

Definition Typ_of (gen : generator) (l : loc) : option loc :=
  match consts_heap gen !! l with
  | Some (Global g) => g_Typ g
  | Some (Function f) => f_Typ f
  | None => None
  end.

Definition ContentType_of (gen : generator) (l : loc) : option loc :=
  match consts_heap gen !! l with
  | Some (Global g) => g_ContentType g
  | _ => None
  end.

(** [astToIRGlobalDecl]. *)
Definition astToIRGlobalDecl (gen : generator) (g : option loc) (old : ast_Global)
    : result (generator * loc) :=
  global ← const_assert gen g KGlobal;
  gen ← set_Typ_AddrSpace gen (Typ_of gen global) (ga_AddrSpace (ag_Attrs old));
  Ok (update_const gen global (set_g_Attrs (ag_Attrs old)), global).

(** [astToIRGlobalDef]. *)
Definition astToIRGlobalDef (gen : generator) (g : option loc) (old : ast_Global)
    (Init : ast_Constant) : result (generator * loc) :=
  global ← const_assert gen g KGlobal;
  gen ← set_Typ_AddrSpace gen (Typ_of gen global) (ga_AddrSpace (ag_Attrs old));
  let gen := update_const gen global (set_g_Attrs (ag_Attrs old)) in
  '(h, init) ← lift_foreign (irConstant gen (ContentType_of gen global) Init);
  let gen := set_types_heap gen h in
  Ok (update_const gen global (set_g_Init init), global).

(** [astToIRFuncHeader]. *)
Definition astToIRFuncHeader (gen : generator) (f : loc) (hdr : ast_FuncHeader)
    : result generator :=
  let gen := update_const gen f (set_f_Linkage hdr) in
  gen ← foldM (fun gen p =>
                 '(gen, typ) ← irType gen (ap_Typ p);
                 let param := {| p_Typ := typ; p_LocalName := ap_Name p |} in
                 Ok (update_const gen f (append_f_Params param)))
              gen (ah_Params hdr);
  let gen := update_const gen f (set_f_UnnamedAddr (ah_UnnamedAddr hdr)) in
  set_Typ_AddrSpace gen (Typ_of gen f) (ah_AddrSpace hdr).

(** [astToIRFuncDecl]. *)
Definition astToIRFuncDecl (gen : generator) (g : option loc) (hdr : ast_FuncHeader)
    : result (generator * loc) :=
  f ← const_assert gen g KFunction;
  gen ← astToIRFuncHeader gen f hdr;
  Ok (gen, f).

(** [astToIRFuncDef]. *)
Definition astToIRFuncDef (gen : generator) (g : option loc) (hdr : ast_FuncHeader)
    (Body : ast_FuncBody) : result (generator * loc) :=
  f ← const_assert gen g KFunction;
  gen ← astToIRFuncHeader gen f hdr;
  '(h, blocks) ← lift_foreign (resolveLocals gen f Body);
  let gen := set_types_heap gen h in
  Ok (update_const gen f (set_f_Blocks blocks), f).

(** [astToIRGlobal]. *)
Definition astToIRGlobal (gen : generator) (g : option loc) (old : TopLevelEntity)
    : result (generator * loc) :=
  match old with
  | GlobalDecl old => astToIRGlobalDecl gen g old
  | GlobalDef old Init => astToIRGlobalDef gen g old Init
  | FuncDecl hdr => astToIRFuncDecl gen g hdr
  | FuncDef hdr Body => astToIRFuncDef gen g hdr Body
  | _ => Panic PanicNotImplemented
  end.

(** Modelled from the spec: [gen.global] and [gen.function], which
    [resolveGlobals] calls and these sources do not define.  A name absent
    from the table is an unresolved identifier (section 4.3); an entity of
    the other kind is reported as [irBasicBlock] reports it. *)
Definition gen_lookup (gen : generator) (k : const_kind) (name : string) : result loc :=
  match gs gen !! name with
  | None => Err (ErrLocateGlobal name)
  | Some v =>
      match const_kind_at gen v with
      | Some k' => if decide (k' = k) then Ok v else Err (ErrInvalidGlobal k k')
      | None => Panic PanicNilDeref
      end
  end.

Definition gen_global (gen : generator) (name : string) : result loc :=
  gen_lookup gen KGlobal name.

Definition gen_function (gen : generator) (name : string) : result loc :=
  gen_lookup gen KFunction name.

(** [panic(err)] on a failed lookup. *)
Definition must {A} (r : result A) : result A :=
  match r with
  | Err e => Panic (PanicError e)
  | _ => r
  end.

(** State of the indexing loop of [resolveGlobals]. *)
Record global_index := {
  gindex : gmap string TopLevelEntity;
  globalOrder : list string;
  funcOrder : list string;
}.

(** The test shared by the four cases of the indexing loop. *)
Definition indexGlobalName (st : global_index) (name : string) (entity : TopLevelEntity)
    (globalOrder' funcOrder' : list string) : result global_index :=
  match gindex st !! name with
  | Some prev =>
      Err (ErrGlobalPresent (enc_Global name) (text_entity prev) (text_entity entity))
  | None =>
      Ok {| gindex := <[name := entity]> (gindex st);
            globalOrder := globalOrder'; funcOrder := funcOrder' |}
  end.

(** One iteration of "Index global variable and function declarations and
    definitions". *)
Definition indexGlobal (st : global_index) (entity : TopLevelEntity) : result global_index :=
  match entity with
  | GlobalDecl old =>
      let name := ag_Name old in
      indexGlobalName st name entity (globalOrder st ++ [name]) (funcOrder st)
  | GlobalDef old _ =>
      let name := ag_Name old in
      indexGlobalName st name entity (globalOrder st ++ [name]) (funcOrder st)
  | FuncDecl hdr =>
      let name := ah_Name hdr in
      indexGlobalName st name entity (globalOrder st) (funcOrder st ++ [name])
  | FuncDef hdr _ =>
      let name := ah_Name hdr in
      indexGlobalName st name entity (globalOrder st) (funcOrder st ++ [name])
  | _ => Ok st
  end.

Definition indexGlobals (module : list TopLevelEntity) : result global_index :=
  foldM indexGlobal {| gindex := ∅; globalOrder := []; funcOrder := [] |} module.

(** "Create corresponding IR global variables and functions". *)
Definition newGlobals (gen : generator) (index : gmap string TopLevelEntity) : result generator :=
  foldM (fun gen '(name, old) =>
           '(gen, g) ← newGlobal gen name old;
           Ok (set_gs gen (<[name := g]> (gs gen))))
        (set_gs gen ∅) (range RangeNewGlobal TopLevelEntity (map_to_list index)).

(** "Translate global variables and functions (including bodies)". *)
Definition astToIRGlobals (gen : generator) (index : gmap string TopLevelEntity) : result generator :=
  foldM (fun gen '(name, old) =>
           let g := gs gen !! name in
           '(gen, _) ← astToIRGlobal gen g old;
           Ok gen)
        gen (range RangeGlobal TopLevelEntity (map_to_list index)).

(** "Add global variable declarations and definitions to IR module". *)
Definition addGlobals (gen : generator) (globalOrder : list string) : result generator :=
  foldM (fun gen key =>
           g ← must (gen_global gen key);
           Ok (set_m gen {| TypeDefs := TypeDefs (m gen);
                            Globals := Globals (m gen) ++ [g];
                            Funcs := Funcs (m gen) |}))
        gen globalOrder.

(** "Add function declarations and definitions to IR module". *)
Definition addFuncs (gen : generator) (funcOrder : list string) : result generator :=
  foldM (fun gen key =>
           f ← must (gen_function gen key);
           Ok (set_m gen {| TypeDefs := TypeDefs (m gen);
                            Globals := Globals (m gen);
                            Funcs := Funcs (m gen) ++ [f] |}))
        gen funcOrder.

(** [resolveGlobals]; the map it returns is [gs] of the generator. *)
Definition resolveGlobals (gen : generator) (module : list TopLevelEntity) : result generator :=
  st ← indexGlobals module;
  gen ← newGlobals gen (gindex st);
  gen ← astToIRGlobals gen (gindex st);
  gen ← addGlobals gen (globalOrder st);
  addFuncs gen (funcOrder st).

(** ** Function body resolver: basic block lookup *)

(** The dynamic value of a [value.Named] stored in [fgen.ls]. *)
Inductive value_Named :=
| BasicBlock (block : loc)
| Param (param : loc)
| Inst (inst : loc).

Definition kind_of_local (v : value_Named) : local_kind :=
  match v with
  | BasicBlock _ => KBasicBlock
  | Param _ => KParam
  | Inst _ => KInst
  end.

(** [funcGen]: the per-function local table. *)
Record funcGen := {
  fgen_gen : generator;
  fgen_f : loc;
  ls : gmap string value_Named;
}.

(** [irBasicBlock]; [Name] is the label without its '%' prefix ([local]). *)
Definition irBasicBlock (fgen : funcGen) (Name : string) : result loc :=
  let name := Name in
  match ls fgen !! name with
  | None => Err (ErrLocateLocal name)
  | Some v =>
      match v with
      | BasicBlock block => Ok block
      | _ => Err (ErrInvalidBasicBlock (kind_of_local v))
      end
  end.

(** ** Vocabulary of the statements *)

(** The name a top-level entity defines, per category. *)
Definition type_name (e : TopLevelEntity) : option string :=
  match e with
  | TypeDef Alias _ => Some Alias
  | _ => None
  end.

Definition global_var_name (e : TopLevelEntity) : option string :=
  match e with
  | GlobalDecl old | GlobalDef old _ => Some (ag_Name old)
  | _ => None
  end.

Definition func_name (e : TopLevelEntity) : option string :=
  match e with
  | FuncDecl hdr | FuncDef hdr _ => Some (ah_Name hdr)
  | _ => None
  end.

(** Global variables and functions share one name space. *)
Definition global_name (e : TopLevelEntity) : option string :=
  match e with
  | GlobalDecl old | GlobalDef old _ => Some (ag_Name old)
  | FuncDecl hdr | FuncDef hdr _ => Some (ah_Name hdr)
  | _ => None
  end.

(** First-occurrence order: every name once, at the place it is first seen. *)
Fixpoint first_occurrences (l : list string) : list string :=
  match l with
  | [] => []
  | x :: l' => x :: filter (fun y => y <> x) (first_occurrences l')
  end.

(** What the indexing loop of [resolveGlobals] has built after the entities
    [p]. *)
Definition indexed_globals (p : list TopLevelEntity) (st : global_index) : Prop :=
  NoDup (omap global_name p) /\
  (forall name, name ∈ omap global_name p -> is_Some (gindex st !! name)) /\
  (forall name e, gindex st !! name = Some e -> e ∈ p /\ global_name e = Some name) /\
  globalOrder st = omap global_var_name p /\
  funcOrder st = omap func_name p.

(** The kind of IR node the translator of an AST type asserts; a named type
    has none, its translator does not look at the skeleton. *)
Definition expected_kind (old : ast_Type) : option type_kind :=
  match old with
  | ast_ArrayType _ _ => Some KArray
  | ast_FloatType _ => Some KFloat
  | ast_FuncType _ _ _ => Some KFunc
  | ast_IntType _ => Some KInt
  | ast_LabelType => Some KLabel
  | ast_MMXType => Some KMMX
  | ast_MetadataType => Some KMetadata
  | ast_NamedType _ => None
  | ast_PointerType _ _ => Some KPointer
  | ast_StructType _ => Some KStruct
  | ast_PackedStructType _ => Some KStruct
  | ast_TokenType => Some KToken
  | ast_VectorType _ _ => Some KVector
  | ast_VoidType => Some KVoid
  end.

Definition node_kind (old : LlvmNode) : option type_kind :=
  match old with
  | node_nil => None
  | node_OpaqueType => Some KStruct
  | node_Type t => expected_kind t
  end.

(** The node of kind [k] with alias [alias] and no body. *)
Definition zero_type (k : type_kind) (alias : string) : types_Type :=
  match k with
  | KVoid => VoidType alias
  | KFunc => FuncType alias None [] false
  | KInt => IntType alias 0
  | KFloat => FloatType alias 0
  | KMMX => MMXType alias
  | KPointer => PointerType alias None 0
  | KVector => VectorType alias 0 None
  | KLabel => LabelType alias
  | KToken => TokenType alias
  | KMetadata => MetadataType alias
  | KArray => ArrayType alias 0 None
  | KStruct => StructType alias false [] false
  end.

(** [gen'] is [gen] after allocations of type nodes and assignments to the
    node [t] only; tables, module and constants are the same, every node
    keeps its kind and alias. *)
Definition heap_extends (t : option loc) (gen gen' : generator) : Prop :=
  ts gen' = ts gen /\ gs gen' = gs gen /\ m gen' = m gen /\
  consts_heap gen' = consts_heap gen /\
  (length (types_heap gen) <= length (types_heap gen'))%nat /\
  (forall l n, types_heap gen !! l = Some n -> Some l <> t ->
     types_heap gen' !! l = Some n) /\
  (forall l n, types_heap gen !! l = Some n ->
     exists n', types_heap gen' !! l = Some n' /\
       kind_of_type n' = kind_of_type n /\ Alias_of n' = Alias_of n).

(** Pairwise relation of two lists, by recursion on the second. *)
Definition all2 {A B : Type} (P : A -> B -> Prop) (l1 : list A) (l2 : list B) : Prop :=
  (fix go (l2 : list B) (l1 : list A) {struct l2} : Prop :=
     match l2, l1 with
     | [], [] => True
     | y :: l2, x :: l1 => P x y /\ go l2 l1
     | _, _ => False
     end) l2 l1.

(** The body of node [n] is the translation of the AST type [old], given
    what it means for a location to denote a nested AST type. *)
Definition node_denotes (den : loc -> ast_Type -> Prop) (n : types_Type)
    (old : ast_Type) : Prop :=
  match old, n with
  | ast_ArrayType len elem, ArrayType _ len' (Some e) =>
      len' = int64_of_uint64 len /\ den e elem
  | ast_FloatType k, FloatType _ k' => irFloatKind k = Ok k'
  | ast_FuncType r ps v, FuncType _ (Some r') ps' v' =>
      den r' r /\ all2 den ps' ps /\ v' = v
  | ast_IntType text, IntType _ bits => irIntTypeBitSize text = Ok bits
  | ast_LabelType, LabelType _ => True
  | ast_MMXType, MMXType _ => True
  | ast_MetadataType, MetadataType _ => True
  | ast_PointerType elem a, PointerType _ (Some e) a' => den e elem /\ a' = a
  | ast_StructType fields, StructType _ packed fs opaque =>
      packed = false /\ opaque = false /\ all2 den fs fields
  | ast_PackedStructType fields, StructType _ packed fs opaque =>
      packed = true /\ opaque = false /\ all2 den fs fields
  | ast_TokenType, TokenType _ => True
  | ast_VectorType len elem, VectorType _ len' (Some e) =>
      len' = int64_of_uint64 len /\ den e elem
  | ast_VoidType, VoidType _ => True
  | _, _ => False
  end.

(** Location [r] denotes the AST type [old]: a named type denotes the node
    its name is bound to in [gen.ts]; any other type denotes a node of its
    own, at or after [base], whose body is the translation of [old]. *)
Fixpoint denotes (base : nat) (gen : generator) (r : loc) (old : ast_Type)
    {struct old} : Prop :=
  match old with
  | ast_NamedType Name => ts gen !! Name = Some r
  | _ =>
      (base <= r)%nat /\
      exists n, types_heap gen !! r = Some n /\ node_denotes (denotes base gen) n old
  end.

(** A field assignment keeps the kind and the alias of a node. *)
Definition preserves_kind (f : types_Type -> types_Type) : Prop :=
  forall n, kind_of_type (f n) = kind_of_type n /\ Alias_of (f n) = Alias_of n.

(** The skeleton phase after the index entries [entries]: every alias among
    them is bound, to nodes of its own without body, of the kind of its
    entry; nothing else of the generator [gen0] has changed. *)
Definition skeletons (gen0 : generator) (entries : list (string * LlvmNode))
    (gen : generator) : Prop :=
  gs gen = gs gen0 /\ m gen = m gen0 /\ consts_heap gen = consts_heap gen0 /\
  (length (types_heap gen0) <= length (types_heap gen))%nat /\
  (forall alias, is_Some (ts gen !! alias) <-> alias ∈ entries.*1) /\
  (forall a1 a2 l, ts gen !! a1 = Some l -> ts gen !! a2 = Some l -> a1 = a2) /\
  (forall alias l, ts gen !! alias = Some l ->
     exists k a, types_heap gen !! l = Some (zero_type k a) /\
       forall old k0, (alias, old) ∈ entries -> node_kind old = Some k0 ->
         k0 = k /\ a = alias).

(** The track of [newIRType]: the aliases visited so far, all set to true,
    all of them indexed. *)
Definition track_ok (index : gmap string LlvmNode) (track : gmap string bool) : Prop :=
  forall alias v, track !! alias = Some v -> v = true /\ is_Some (index !! alias).

(** The fill phase after the index entries [entries]. [base] is the size of
    the heap when the phase starts: the skeletons lie below it, the nodes
    of nested types at or above it. *)
Definition filled (index : gmap string LlvmNode) (base : nat)
    (entries : list (string * LlvmNode)) (gen : generator) : Prop :=
  (base <= length (types_heap gen))%nat /\
  (forall alias l, ts gen !! alias = Some l -> (l < base)%nat) /\
  (forall a1 a2 l, ts gen !! a1 = Some l -> ts gen !! a2 = Some l -> a1 = a2) /\
  (forall alias, is_Some (ts gen !! alias) -> is_Some (index !! alias)) /\
  (forall alias old, index !! alias = Some old ->
     exists l n, ts gen !! alias = Some l /\ types_heap gen !! l = Some n /\
       (forall k, node_kind old = Some k -> kind_of_type n = k /\ Alias_of n = alias) /\
       (alias ∉ entries.*1 -> exists k a, n = zero_type k a) /\
       (alias ∈ entries.*1 ->
          match old with
          | node_Type old =>
              expected_kind old <> None -> node_denotes (denotes base gen) n old
          | node_OpaqueType => n = StructType alias false [] true
          | node_nil => True
          end)).

(** What the indexing loop of [resolveTypeDefs] has built after the
    entities [p]. *)
Definition indexed_types (p : list TopLevelEntity) (st : type_index) : Prop :=
  order st = first_occurrences (omap type_name p) /\
  (forall a, default false (added st !! a) = true <-> a ∈ omap type_name p) /\
  (forall a, is_Some (index st !! a) <-> a ∈ omap type_name p) /\
  (forall a, index st !! a <> Some node_nil).

(** The table of named types after the resolution of the index [ix]: the
    names of the index, each bound to a node of its own; the node of a
    definition that is not a bare alias has the kind and the alias of the
    definition and the body the definition describes. *)
Definition resolved_types (ix : gmap string LlvmNode) (gen : generator) : Prop :=
  (forall alias, is_Some (ts gen !! alias) <-> is_Some (ix !! alias)) /\
  (forall a1 a2 l, ts gen !! a1 = Some l -> ts gen !! a2 = Some l -> a1 = a2) /\
  (forall alias old, ix !! alias = Some old ->
     exists l n, ts gen !! alias = Some l /\ types_heap gen !! l = Some n /\
       (forall k, node_kind old = Some k -> kind_of_type n = k /\ Alias_of n = alias) /\
       match old with
       | node_Type old => expected_kind old <> None -> node_denotes (denotes 0 gen) n old
       | node_OpaqueType => n = StructType alias false [] true
       | node_nil => True
       end).

(** The kind of IR value the skeleton of a top-level entity is. *)
Definition entity_kind (e : TopLevelEntity) : option const_kind :=
  match e with
  | GlobalDecl _ | GlobalDef _ _ => Some KGlobal
  | FuncDecl _ | FuncDef _ _ => Some KFunction
  | _ => None
  end.

(** The pointer type [Typ] of a global or function. *)
Definition Typ_field (c : ir_Constant) : option loc :=
  match c with
  | Global g => g_Typ g
  | Function f => f_Typ f
  end.

(** A field assignment keeps the kind and the name of a global or function,
    and does not reset its pointer type to nil. *)
Definition preserves_const (f : ir_Constant -> ir_Constant) : Prop :=
  forall c, kind_of_const (f c) = kind_of_const c /\
            GlobalName_of (f c) = GlobalName_of c /\
            (is_Some (Typ_field c) -> is_Some (Typ_field (f c))).

(** [gen'] is [gen] after allocations of and assignments to globals,
    functions and type nodes: the tables and the module are the same, every
    global and function is still there, with its kind and name, and its
    pointer type if it had one. *)
Definition consts_preserved (gen gen' : generator) : Prop :=
  ts gen' = ts gen /\ gs gen' = gs gen /\ m gen' = m gen /\
  (length (consts_heap gen) <= length (consts_heap gen'))%nat /\
  (forall l c, consts_heap gen !! l = Some c ->
     exists c', consts_heap gen' !! l = Some c' /\
       kind_of_const c' = kind_of_const c /\ GlobalName_of c' = GlobalName_of c /\
       (is_Some (Typ_field c) -> is_Some (Typ_field c'))).

(** The table of globals binds the names of the index [ix], each to a
    global or function of that name, of the kind of its entity, with a
    pointer type. *)
Definition resolved_globals (ix : gmap string TopLevelEntity) (gen : generator) : Prop :=
  (forall name, is_Some (gs gen !! name) -> is_Some (ix !! name)) /\
  (forall name old, ix !! name = Some old ->
     exists l c, gs gen !! name = Some l /\ consts_heap gen !! l = Some c /\
       GlobalName_of c = name /\ entity_kind old = Some (kind_of_const c) /\
       is_Some (Typ_field c)).

(** The skeleton phase of [resolveGlobals] after the index entries
    [entries]. *)
Definition gskeletons (gen0 : generator) (entries : list (string * TopLevelEntity))
    (gen : generator) : Prop :=
  ts gen = ts gen0 /\ m gen = m gen0 /\
  (forall name, is_Some (gs gen !! name) <-> name ∈ entries.*1) /\
  (forall name l, gs gen !! name = Some l ->
     exists c, consts_heap gen !! l = Some c /\ GlobalName_of c = name /\
       is_Some (Typ_field c) /\
       forall old, (name, old) ∈ entries -> entity_kind old = Some (kind_of_const c)).

(** The panics of the helpers that read a literal of the AST. *)
Definition literal_panic (q : panic) : Prop :=
  match q with
  | PanicIntPrefix _ | PanicIntBitSize _ | PanicFloatKind _ => True
  | _ => False
  end.

(** The ways the translation of a type with skeleton [t] and asserted kind
    [k] ends: with the table of named types unchanged; with the error of a
    named type absent from the table; with the panic of a skeleton of
    another kind or of a literal; never out of fuel. *)
Definition type_outcome (gen : generator) (t : option loc) (k : option type_kind)
    (r : result (generator * loc)) : Prop :=
  match r with
  | Ok (gen', _) => ts gen' = ts gen
  | Err e => exists name, e = ErrLocateTypeDef (enc_Local name) /\ ts gen !! name = None
  | Panic q =>
      (exists l k', t = Some l /\ k = Some k' /\ kind_at gen l <> Some k' /\
         q = PanicInvalidIRType k' (kind_at gen l)) \/
      literal_panic q
  | OutOfFuel => False
  end.

(** The same for a loop that translates nested types. *)
Definition loop_outcome (gen : generator) (r : result generator) : Prop :=
  match r with
  | Ok gen' => ts gen' = ts gen
  | Err e => exists name, e = ErrLocateTypeDef (enc_Local name) /\ ts gen !! name = None
  | Panic q => literal_panic q
  | OutOfFuel => False
  end.

(** The ways a step of the global resolver that translates types and calls
    the collaborators ends: the error of a named type absent from the
    table or of a collaborator, the panic of a malformed literal or of a
    collaborator; never out of fuel. *)
Definition global_outcome {A : Type} (gen : generator) (r : result A) : Prop :=
  match r with
  | Ok _ => True
  | Err e =>
      (exists name, e = ErrLocateTypeDef (enc_Local name) /\ ts gen !! name = None) \/
      (exists msg, e = ErrForeign msg)
  | Panic q => literal_panic q \/ (exists msg, q = PanicForeign msg)
  | OutOfFuel => False
  end.

(** The types [irType] can translate with the table of named types of
    [gen]: every named type in them is bound in the table, every integer
    type and floating-point kind in them can be read. *)
Fixpoint translatable (gen : generator) (old : ast_Type) {struct old} : Prop :=
  match old with
  | ast_ArrayType _ Elem => translatable gen Elem
  | ast_FloatType FloatKind => exists k, irFloatKind FloatKind = Ok k
  | ast_FuncType RetType Params _ =>
      translatable gen RetType /\
      foldr (fun p acc => translatable gen p /\ acc) True Params
  | ast_IntType Text => exists x, irIntTypeBitSize Text = Ok x
  | ast_NamedType Name => is_Some (ts gen !! Name)
  | ast_PointerType Elem _ => translatable gen Elem
  | ast_StructType Fields => foldr (fun f acc => translatable gen f /\ acc) True Fields
  | ast_PackedStructType Fields =>
      foldr (fun f acc => translatable gen f /\ acc) True Fields
  | ast_VectorType _ Elem => translatable gen Elem
  | ast_LabelType | ast_MMXType | ast_MetadataType | ast_TokenType | ast_VoidType => True
  end.

End Model.

(** ** An instance of the collaborators, to run the model on inputs *)

(** Modelled from the spec: the trees of the parser and of the function
    body resolver, which are not among the sources.  Of a function body
    only the global names its instructions refer to (the callees of its
    calls) are kept; of a constant only an integer. *)
Definition demo_Foreign : Foreign :=
  {| ast_FuncBody := list string; ast_Constant := Z; ir_Init := Z;
     ir_Blocks := list nat |}.

Definition demo_text (n : LlvmNode) : string :=
  match n with
  | node_nil => EmptyString
  | node_OpaqueType => "opaque"
  | node_Type (ast_NamedType Name) => String.append "%" Name
  | node_Type (ast_StructType _) => "{...}"
  | node_Type _ => "type"
  end.

Definition demo_text_entity (e : @TopLevelEntity demo_Foreign) : string :=
  match e with
  | TypeDef Alias _ => String.append "%" Alias
  | GlobalDecl old => String.append "external global @" (ag_Name old)
  | GlobalDef old _ => String.append "global @" (ag_Name old)
  | FuncDecl hdr => String.append "declare @" (ah_Name hdr)
  | FuncDef hdr _ => String.append "define @" (ah_Name hdr)
  | OtherEntity => EmptyString
  end.

(** Modelled from the spec: the function body resolver (section 4.4 and
    the errors of section 4.3), which is not among the sources.  Every
    global name the body refers to is looked up in [gen.gs]; a name absent
    from the table is an error. *)
Definition demo_resolveLocals (gen : @generator demo_Foreign) (f : nat)
    (body : list string) : foreign_result (list types_Type * list nat) :=
  match mapM (fun name => gs gen !! name) body with
  | Some callees => FOk (types_heap gen, callees)
  | None => FErr "unable to locate global identifier"
  end.

(** Maps are visited in the order of [map_to_list], or in the reverse of it
    when [rev] is set. *)
Definition demo_Collaborators (rev : bool) : @Collaborators demo_Foreign :=
  {| enc_Local := String.append "%";
     enc_Global := String.append "@";
     text := demo_text;
     text_entity := demo_text_entity;
     range := fun _ A l => if rev then reverse l else l;
     irConstant := fun gen _ c => FOk (types_heap gen, c);
     resolveLocals := demo_resolveLocals |}.

(** The generator before resolution: empty tables, empty module. *)
Definition new_generator {F : Foreign} : generator :=
  {| ts := ∅; gs := ∅;
     m := {| TypeDefs := []; Globals := []; Funcs := [] |};
     types_heap := []; consts_heap := [] |}.

(** Inputs to run the model on: attributes, a global variable of type
    [i32], a function without parameters that returns nothing. *)
Definition demo_attrs : GlobalAttrs :=
  {| ga_Linkage := 0; ga_Preemption := 0; ga_Visibility := 0; ga_DLLStorageClass := 0;
     ga_TLSModel := 0; ga_UnnamedAddr := 0; ga_AddrSpace := 0;
     ga_ExternallyInitialized := false; ga_Immutable := false |}.

Definition demo_global (name : string) : ast_Global :=
  {| ag_Name := name; ag_ContentType := ast_IntType "i32"; ag_Attrs := demo_attrs |}.

Definition demo_header (name : string) : ast_FuncHeader :=
  {| ah_Name := name; ah_RetType := ast_VoidType; ah_Params := []; ah_Variadic := false;
     ah_Linkage := 0; ah_Preemption := 0; ah_Visibility := 0; ah_DLLStorageClass := 0;
     ah_UnnamedAddr := 0; ah_AddrSpace := 0 |}.

(** A module in which [f] calls [g] before [g] is defined, [%t] is declared
    opaque before it is defined, and [%s] refers to [%t] before the
    definition of [%t]. *)
Definition demo_module : list (@TopLevelEntity demo_Foreign) :=
  [@FuncDef demo_Foreign (demo_header "f") ["g"%string];
   TypeDef "t" node_OpaqueType;
   @GlobalDef demo_Foreign (demo_global "x") 7;
   @FuncDef demo_Foreign (demo_header "g") [];
   TypeDef "s" (node_Type (ast_StructType [ast_NamedType "t"]));
   TypeDef "t" (node_Type (ast_IntType "i8"));
   GlobalDecl (demo_global "y")].

(** The names of the entries of the three lists of the module of [gen]. *)
Definition module_names {F : Foreign} (gen : generator)
    : list (option string) * list (option string) * list (option string) :=
  ((fun t => l ← t; Alias_of <$> (types_heap gen !! l)) <$> TypeDefs (m gen),
   (fun l => GlobalName_of <$> (consts_heap gen !! l)) <$> Globals (m gen),
   (fun l => GlobalName_of <$> (consts_heap gen !! l)) <$> Funcs (m gen)).

(** * Theorems *)

Section Proofs.
Context {F : Foreign} {C : Collaborators}.

(** ** The result monad and its loops *)

Lemma bind_Ok {A B} (r : result A) (f : A -> result B) (b : B) :
  r ≫= f = Ok b -> exists a, r = Ok a /\ f a = Ok b.
Proof. destruct r; simpl; intros; try discriminate. eauto. Qed.

Lemma foldM_app {S A} (f : S -> A -> result S) (s : S) (l1 l2 : list A) :
  foldM f s (l1 ++ l2) = foldM f s l1 ≫= fun s' => foldM f s' l2.
Proof.
  revert s. induction l1 as [|x l1 IH]; intros s; simpl; [done|].
  destruct (f s x); simpl; auto.
Qed.

Lemma foldM_cons {S A} (f : S -> A -> result S) (s : S) (x : A) (l : list A) :
  foldM f s (x :: l) = f s x ≫= fun s' => foldM f s' l.
Proof. reflexivity. Qed.

(** An invariant of a loop that runs to its end holds at its end. *)
Lemma foldM_invariant {S A} (f : S -> A -> result S) (P : S -> Prop) (l : list A) :
  (forall s x s', x ∈ l -> P s -> f s x = Ok s' -> P s') ->
  forall s s', P s -> foldM f s l = Ok s' -> P s'.
Proof.
  induction l as [|x l IH]; intros Hstep s s' HP Hrun; simpl in Hrun.
  - injection Hrun as <-. exact HP.
  - apply bind_Ok in Hrun as (s1 & H1 & H2).
    eapply IH; [| |exact H2].
    + intros. eapply Hstep; eauto. by right.
    + eapply Hstep; eauto. by left.
Qed.

(** ** Basic block lookup *)

(** C7: [irBasicBlock] returns the block bound to the label; a label absent
    from the local table is an unresolved-local error naming the label; a
    label bound to a local that is not a basic block is a kind-mismatch
    error. *)
Theorem irBasicBlock_cases (fgen : funcGen) (name : string) :
  (forall block, ls fgen !! name = Some (BasicBlock block) ->
     irBasicBlock fgen name = Ok block) /\
  (ls fgen !! name = None ->
     irBasicBlock fgen name = Err (ErrLocateLocal name) /\
     kind_of_error (ErrLocateLocal name) = UnresolvedLocalError) /\
  (forall v, ls fgen !! name = Some v -> kind_of_local v <> KBasicBlock ->
     exists e, irBasicBlock fgen name = Err e /\
               kind_of_error e = LocalKindMismatchError).
Proof.
  unfold irBasicBlock. split; [|split].
  - intros block ->. reflexivity.
  - intros ->. split; reflexivity.
  - intros v -> Hv. destruct v; simpl in *; try congruence; eauto.
Qed.

(** ** Indexing of type definitions *)

Lemma indexTypeDef_other (st : type_index) (e : TopLevelEntity) :
  type_name e = None -> indexTypeDef st e = Ok st.
Proof. by destruct e. Qed.

Lemma indexTypeDef_accept (st : type_index) (alias : string) (typ : LlvmNode) :
  typ <> node_nil ->
  index st !! alias = None \/ index st !! alias = Some node_OpaqueType ->
  indexTypeDef st (TypeDef alias typ) =
    Ok {| index := <[alias := typ]> (index st);
          added := <[alias := true]> (added st);
          order := if negb (default false (added st !! alias))
                   then order st ++ [alias] else order st |}.
Proof.
  intros Hnil Hprev. unfold indexTypeDef.
  destruct typ; [done| |]; simpl; by destruct Hprev as [-> | ->].
Qed.

Lemma indexTypeDef_reject (st : type_index) (alias : string) (typ prev : LlvmNode) :
  typ <> node_nil ->
  index st !! alias = Some prev -> prev <> node_OpaqueType ->
  indexTypeDef st (TypeDef alias typ) =
    Err (ErrTypeDefPresent (enc_Local alias) (text prev) (text typ)).
Proof.
  intros Hnil Hprev Hop. unfold indexTypeDef.
  destruct typ; [done| |]; simpl; rewrite Hprev; by destruct prev.
Qed.

(** C10: while indexing, a repeated type name is rejected exactly when the
    entry indexed before for it is not an opaque type; an accepted entry
    overwrites the earlier one; a concrete definition followed by another
    definition of its name fails; any number of opaque declarations of one
    name is accepted. *)
Theorem indexTypeDef_duplicate_iff (st : type_index) (alias : string) (typ : LlvmNode) :
  typ <> node_nil ->
  ((exists e, indexTypeDef st (TypeDef alias typ) = Err e) <->
   (exists prev, index st !! alias = Some prev /\ prev <> node_OpaqueType)) /\
  (forall prev, index st !! alias = Some prev -> prev <> node_OpaqueType ->
     indexTypeDef st (TypeDef alias typ) =
       Err (ErrTypeDefPresent (enc_Local alias) (text prev) (text typ))) /\
  (forall st', indexTypeDef st (TypeDef alias typ) = Ok st' ->
     index st' = <[alias := typ]> (index st)) /\
  (forall pre post t st1,
     indexTypeDefs (pre ++ [TypeDef alias (node_Type t)]) = Ok st1 ->
     indexTypeDefs (pre ++ [TypeDef alias (node_Type t); TypeDef alias typ] ++ post) =
       Err (ErrTypeDefPresent (enc_Local alias) (text (node_Type t)) (text typ))) /\
  (forall n,
     indexTypeDefs (replicate (S n) (TypeDef alias node_OpaqueType)) =
       Ok {| index := {[alias := node_OpaqueType]};
             added := {[alias := true]}; order := [alias] |}).
Proof.
  intros Hnil.
  assert (Hcase : (exists prev, index st !! alias = Some prev /\ prev <> node_OpaqueType) \/
                  (index st !! alias = None \/ index st !! alias = Some node_OpaqueType)).
  { destruct (index st !! alias) as [[| |t]|];
      first [ by right; eauto | left; eexists; split; [done|discriminate] ]. }
  split; [|split; [|split; [|split]]].
  - split.
    + intros [e He]. destruct Hcase as [?|Hacc]; [done|].
      rewrite (indexTypeDef_accept _ _ _ Hnil Hacc) in He. discriminate.
    + intros (prev & Hprev & Hop). eexists. by apply indexTypeDef_reject.
  - intros. by apply indexTypeDef_reject.
  - intros st' Hst'. destruct Hcase as [(prev & Hprev & Hop)|Hacc].
    + rewrite (indexTypeDef_reject _ _ _ _ Hnil Hprev Hop) in Hst'. discriminate.
    + rewrite (indexTypeDef_accept _ _ _ Hnil Hacc) in Hst'. by injection Hst' as <-.
  - intros pre post t st1 Hrun. unfold indexTypeDefs in *.
    rewrite foldM_app in Hrun. apply bind_Ok in Hrun as (st0 & Hpre & Hstep).
    rewrite foldM_cons in Hstep. apply bind_Ok in Hstep as (st1' & Hstep & Heq).
    simpl in Heq. injection Heq as ->.
    rewrite foldM_app, Hpre. cbn [app mbind result_bind].
    rewrite !foldM_cons, Hstep. cbn [mbind result_bind].
    assert (Hidx : index st1 !! alias = Some (node_Type t)).
    { unfold indexTypeDef in Hstep. simpl in Hstep.
      apply bind_Ok in Hstep as (_ & _ & Hstep). injection Hstep as <-.
      simpl. apply lookup_insert_eq. }
    rewrite foldM_cons, (indexTypeDef_reject _ _ _ _ Hnil Hidx); [done|discriminate].
  - intros n. unfold indexTypeDefs. simpl.
    rewrite insert_empty.
    assert (Hloop : forall k,
      foldM indexTypeDef
        {| index := {[alias := node_OpaqueType]};
           added := {[alias := true]}; order := [alias] |}
        (replicate k (TypeDef alias node_OpaqueType)) =
      Ok {| index := {[alias := node_OpaqueType]};
            added := {[alias := true]}; order := [alias] |}).
    { induction k as [|k IH]; [done|]. simpl.
      rewrite !lookup_singleton_eq. simpl.
      rewrite !insert_singleton_eq. exact IH. }
    rewrite insert_empty. apply Hloop.
Qed.

(** ** Indexing of globals and functions *)

Lemma global_name_cases (e : TopLevelEntity) :
  (global_name e = None /\ global_var_name e = None /\ func_name e = None) \/
  (exists name, global_name e = Some name /\
     ((global_var_name e = Some name /\ func_name e = None) \/
      (global_var_name e = None /\ func_name e = Some name))).
Proof. destruct e; simpl; eauto 8. Qed.

Lemma indexed_globals_nil :
  indexed_globals [] {| gindex := ∅; globalOrder := []; funcOrder := [] |}.
Proof.
  split; [constructor|]. split; [|split; [|done]]; simpl.
  - intros name H. by apply elem_of_nil in H.
  - intros name e H. by rewrite lookup_empty in H.
Qed.

Lemma indexGlobal_other (st : global_index) (e : TopLevelEntity) :
  global_name e = None -> indexGlobal st e = Ok st.
Proof. by destruct e. Qed.

Lemma indexGlobal_named (st : global_index) (e : TopLevelEntity) (name : string) :
  global_name e = Some name ->
  indexGlobal st e =
    match gindex st !! name with
    | Some prev =>
        Err (ErrGlobalPresent (enc_Global name) (text_entity prev) (text_entity e))
    | None =>
        Ok {| gindex := <[name := e]> (gindex st);
              globalOrder := globalOrder st ++ from_option (fun n => [n]) [] (global_var_name e);
              funcOrder := funcOrder st ++ from_option (fun n => [n]) [] (func_name e) |}
    end.
Proof.
  destruct e; simpl; try discriminate; intros [= <-];
    unfold indexGlobalName; destruct (gindex st !! _); try done;
    by rewrite app_nil_r.
Qed.

Lemma indexed_globals_skip (p : list TopLevelEntity) (st : global_index) (e : TopLevelEntity) :
  global_name e = None -> indexed_globals p st -> indexed_globals (p ++ [e]) st.
Proof.
  intros He (Hnd & Hdom & Hin & Hgo & Hfo).
  destruct (global_name_cases e) as [(_ & Hg & Hf)|(name & Hn & _)]; [|congruence].
  unfold indexed_globals. rewrite !omap_app. simpl. rewrite He, Hg, Hf, !app_nil_r.
  split; [done|]. split; [done|]. split; [|done].
  intros name e' H. destruct (Hin _ _ H). split; [set_solver|done].
Qed.

Lemma indexed_globals_add (p : list TopLevelEntity) (st : global_index)
    (e : TopLevelEntity) (name : string) :
  global_name e = Some name -> gindex st !! name = None ->
  indexed_globals p st ->
  indexed_globals (p ++ [e])
    {| gindex := <[name := e]> (gindex st);
       globalOrder := globalOrder st ++ from_option (fun n => [n]) [] (global_var_name e);
       funcOrder := funcOrder st ++ from_option (fun n => [n]) [] (func_name e) |}.
Proof.
  intros He Hfresh (Hnd & Hdom & Hin & Hgo & Hfo).
  unfold indexed_globals. rewrite !omap_app. simpl. rewrite He. simpl.
  split; [|split; [|split; [|split]]].
  - apply NoDup_app. split; [done|]. split; [|apply NoDup_singleton].
    intros x Hx Hx'. apply list_elem_of_singleton in Hx' as ->.
    destruct (Hdom _ Hx) as [? ?]. congruence.
  - intros x Hx. apply elem_of_app in Hx as [Hx|Hx].
    + destruct (decide (x = name)) as [->|Hne].
      * rewrite lookup_insert_eq. eauto.
      * rewrite lookup_insert_ne by done. auto.
    + apply list_elem_of_singleton in Hx as ->. rewrite lookup_insert_eq. eauto.
  - intros x e' H. destruct (decide (x = name)) as [->|Hne].
    + rewrite lookup_insert_eq in H. injection H as <-. split; [set_solver|done].
    + rewrite lookup_insert_ne in H by done. destruct (Hin _ _ H). split; [set_solver|done].
  - rewrite Hgo. by destruct (global_var_name e).
  - rewrite Hfo. by destruct (func_name e).
Qed.

(** The indexing loop either indexes every entity, and then no name is
    repeated, or stops at the first repeated name. *)
Lemma indexGlobals_run (rest p : list TopLevelEntity) (st : global_index) :
  indexed_globals p st ->
  (exists st', foldM indexGlobal st rest = Ok st' /\ indexed_globals (p ++ rest) st') \/
  (exists name prev new l1 l2 l3,
     p ++ rest = l1 ++ prev :: l2 ++ new :: l3 /\
     global_name prev = Some name /\ global_name new = Some name /\
     foldM indexGlobal st rest =
       Err (ErrGlobalPresent (enc_Global name) (text_entity prev) (text_entity new))).
Proof.
  revert p st. induction rest as [|x rest IH]; intros p st Hinv.
  - left. exists st. by rewrite app_nil_r.
  - rewrite foldM_cons.
    replace (p ++ x :: rest) with ((p ++ [x]) ++ rest) by by rewrite <- app_assoc.
    destruct (global_name x) as [name|] eqn:Hx.
    + rewrite (indexGlobal_named _ _ _ Hx).
      destruct (gindex st !! name) as [prev|] eqn:Hprev.
      * right. destruct Hinv as (_ & _ & Hin & _).
        destruct (Hin _ _ Hprev) as [Hmem Hname].
        apply list_elem_of_split in Hmem as (l1 & l2 & ->).
        exists name, prev, x, l1, l2, rest. repeat split; auto.
        by rewrite <- !app_assoc.
      * simpl. apply IH. by apply indexed_globals_add.
    + rewrite (indexGlobal_other _ _ Hx). simpl. apply IH.
      by apply indexed_globals_skip.
Qed.

Lemma repeated_name_not_NoDup (l1 l2 l3 : list TopLevelEntity)
    (prev new : TopLevelEntity) (name : string) :
  global_name prev = Some name -> global_name new = Some name ->
  ~ NoDup (omap global_name (l1 ++ prev :: l2 ++ new :: l3)).
Proof.
  intros Hp Hn Hnd. rewrite omap_app in Hnd. apply NoDup_app in Hnd as (_ & _ & Hnd).
  simpl in Hnd. rewrite Hp in Hnd. apply NoDup_cons in Hnd as [Hnot _].
  apply Hnot. rewrite omap_app. simpl. rewrite Hn. set_solver.
Qed.

(** [indexGlobals] succeeds exactly on the modules without a repeated
    global or function name. *)
Lemma indexGlobals_Ok (module : list TopLevelEntity) (st : global_index) :
  indexGlobals module = Ok st -> indexed_globals module st.
Proof.
  intros Hrun. unfold indexGlobals in Hrun.
  destruct (indexGlobals_run module [] _ indexed_globals_nil)
    as [(st' & Hst' & Hinv)|(name & prev & new & l1 & l2 & l3 & _ & _ & _ & Herr)].
  - rewrite Hrun in Hst'. by injection Hst' as <-.
  - rewrite Hrun in Herr. discriminate.
Qed.

(** C5: in a module in which a name occurs more than once among the global
    variable and function declarations and definitions, [resolveGlobals]
    fails with the duplicate-definition error that carries the text of the
    earlier and of the repeating entity. *)
Theorem resolveGlobals_duplicate (gen : generator) (module : list TopLevelEntity) :
  ~ NoDup (omap global_name module) ->
  exists name prev new l1 l2 l3,
    module = l1 ++ prev :: l2 ++ new :: l3 /\
    global_name prev = Some name /\ global_name new = Some name /\
    resolveGlobals gen module =
      Err (ErrGlobalPresent (enc_Global name) (text_entity prev) (text_entity new)) /\
    kind_of_error
      (ErrGlobalPresent (enc_Global name) (text_entity prev) (text_entity new)) =
      DuplicateDefinitionError.
Proof.
  intros Hdup.
  destruct (indexGlobals_run module [] _ indexed_globals_nil)
    as [(st' & _ & Hinv)|(name & prev & new & l1 & l2 & l3 & Heq & Hp & Hn & Herr)].
  - destruct Hinv as (Hnd & _). by destruct Hdup.
  - exists name, prev, new, l1, l2, l3. repeat split; auto.
    unfold resolveGlobals, indexGlobals. by rewrite Herr.
Qed.

(** ** Sorting of names *)

Lemma ascii_compare_refl (c : ascii) : Ascii.compare c c = Eq.
Proof. unfold Ascii.compare. apply N.compare_refl. Qed.

Lemma ascii_compare_Eq (c1 c2 : ascii) : Ascii.compare c1 c2 = Eq -> c1 = c2.
Proof. apply Ascii.compare_eq_iff. Qed.

Lemma ascii_compare_Lt_trans (c1 c2 c3 : ascii) :
  Ascii.compare c1 c2 = Lt -> Ascii.compare c2 c3 = Lt -> Ascii.compare c1 c3 = Lt.
Proof.
  unfold Ascii.compare. rewrite !N.compare_lt_iff. apply N.lt_trans.
Qed.

Lemma string_compare_cons (c1 c2 : ascii) (s1 s2 : string) :
  String.compare (String c1 s1) (String c2 s2) =
    match Ascii.compare c1 c2 with
    | Eq => String.compare s1 s2
    | r => r
    end.
Proof. reflexivity. Qed.

Lemma string_compare_Eq (s1 s2 : string) : String.compare s1 s2 = Eq -> s1 = s2.
Proof. apply String.compare_eq_iff. Qed.

Lemma string_compare_refl (s : string) : String.compare s s = Eq.
Proof.
  induction s as [|c s IH]; [done|].
  by rewrite string_compare_cons, ascii_compare_refl.
Qed.

Lemma string_compare_Lt_trans (s1 s2 s3 : string) :
  String.compare s1 s2 = Lt -> String.compare s2 s3 = Lt -> String.compare s1 s3 = Lt.
Proof.
  revert s2 s3. induction s1 as [|c1 s1 IH]; intros [|c2 s2] [|c3 s3]; try done.
  rewrite !string_compare_cons.
  destruct (Ascii.compare c1 c2) eqn:H12; try done;
    destruct (Ascii.compare c2 c3) eqn:H23; try done; intros Ha Hb.
  - apply ascii_compare_Eq in H12 as ->. rewrite H23. eauto.
  - apply ascii_compare_Eq in H12 as ->. by rewrite H23.
  - apply ascii_compare_Eq in H23 as <-. by rewrite H12.
  - by rewrite (ascii_compare_Lt_trans _ _ _ H12 H23).
Qed.

Lemma string_le_compare (s1 s2 : string) :
  string_le s1 s2 <-> String.compare s1 s2 <> Gt.
Proof.
  unfold string_le, String.leb. destruct (String.compare s1 s2); split; done.
Qed.

#[local] Instance string_le_total : Total string_le.
Proof. intros s1 s2. apply String.leb_total. Qed.

#[local] Instance string_le_antisym : AntiSymm (=) string_le.
Proof. intros s1 s2. apply String.leb_antisym. Qed.

#[local] Instance string_le_trans : Transitive string_le.
Proof.
  intros s1 s2 s3. rewrite !string_le_compare. intros H12 H23.
  destruct (String.compare s1 s2) eqn:E12; [| |done].
  - by apply string_compare_Eq in E12 as ->.
  - destruct (String.compare s2 s3) eqn:E23; [| |done].
    + apply string_compare_Eq in E23 as <-. by rewrite E12.
    + by rewrite (string_compare_Lt_trans _ _ _ E12 E23).
Qed.

(** The outcome of [sort.Strings] does not depend on the order of its input. *)
Lemma sort_Strings_Permutation (l1 l2 : list string) :
  l1 ≡ₚ l2 -> sort_Strings l1 = sort_Strings l2.
Proof.
  intros Hperm. unfold sort_Strings.
  apply (Sorted_unique string_le); try apply Sorted_merge_sort; try apply _.
  by rewrite !merge_sort_Permutation.
Qed.

Lemma sort_Strings_Sorted (l : list string) : Sorted string_le (sort_Strings l).
Proof. apply Sorted_merge_sort. apply _. Qed.

Lemma sort_Strings_perm (l : list string) : sort_Strings l ≡ₚ l.
Proof. apply merge_sort_Permutation. Qed.

(** ** The heap of type nodes *)

Ltac inv_bind H :=
  let H1 := fresh H "a" in
  let H2 := fresh H "b" in
  apply bind_Ok in H as (? & H1 & H2); simpl in H2.

Lemma heap_extends_refl (t : option loc) (gen : generator) : heap_extends t gen gen.
Proof. unfold heap_extends. repeat split; eauto. Qed.

Lemma heap_extends_trans (t : option loc) (g1 g2 g3 : generator) :
  heap_extends t g1 g2 -> heap_extends t g2 g3 -> heap_extends t g1 g3.
Proof.
  intros (Ht1 & Hg1 & Hm1 & Hc1 & Hl1 & Hf1 & Hk1) (Ht2 & Hg2 & Hm2 & Hc2 & Hl2 & Hf2 & Hk2).
  unfold heap_extends. repeat split; try congruence; try lia.
  - intros l n Hl Hne. eauto.
  - intros l n Hl. destruct (Hk1 _ _ Hl) as (n' & Hl' & Hkn & Han).
    destruct (Hk2 _ _ Hl') as (n'' & Hl'' & Hkn' & Han').
    exists n''. repeat split; congruence.
Qed.

Lemma heap_extends_weaken (t : option loc) (g1 g2 : generator) :
  heap_extends None g1 g2 -> heap_extends t g1 g2.
Proof.
  intros (Ht1 & Hg1 & Hm1 & Hc1 & Hl1 & Hf1 & Hk1).
  unfold heap_extends. repeat split; auto.
Qed.

Lemma heap_extends_new_type (t : option loc) (gen : generator) (n : types_Type) :
  heap_extends t gen (new_type gen n).1.
Proof.
  unfold heap_extends, new_type. simpl. repeat split; auto.
  - rewrite length_app. lia.
  - intros l n' Hl _. by apply lookup_app_l_Some.
  - intros l n' Hl. exists n'. repeat split; auto. by apply lookup_app_l_Some.
Qed.

Lemma new_type_lookup (gen : generator) (n : types_Type) :
  types_heap (new_type gen n).1 !! (new_type gen n).2 = Some n.
Proof.
  unfold new_type. simpl. rewrite lookup_app_r by lia.
  by rewrite Nat.sub_diag.
Qed.

Lemma heap_extends_update (t : option loc) (g1 g2 : generator) (l : loc)
    (f : types_Type -> types_Type) :
  heap_extends t g1 g2 -> preserves_kind f ->
  Some l = t \/ (length (types_heap g1) <= l)%nat ->
  heap_extends t g1 (update_type g2 l f).
Proof.
  intros (Ht1 & Hg1 & Hm1 & Hc1 & Hl1 & Hf1 & Hk1) Hf Hl.
  unfold heap_extends, update_type. simpl. rewrite length_alter.
  repeat split; auto.
  - intros l' n Hl' Hne. rewrite list_lookup_alter_ne; [eauto|].
    intros ->. destruct Hl as [Hl|Hl]; [congruence|].
    apply lookup_lt_Some in Hl'. lia.
  - intros l' n Hl'. destruct (Hk1 _ _ Hl') as (n' & Hn' & Hkn & Han).
    destruct (decide (l = l')) as [->|Hne].
    + exists (f n'). rewrite list_lookup_alter_eq, Hn'. simpl.
      destruct (Hf n') as [-> ->]. auto.
    + exists n'. rewrite list_lookup_alter_ne by done. auto.
Qed.

Lemma preserves_kind_set_RetType r : preserves_kind (set_RetType r).
Proof. by intros []. Qed.
Lemma preserves_kind_append_Params p : preserves_kind (append_Params p).
Proof. by intros []. Qed.
Lemma preserves_kind_set_Variadic v : preserves_kind (set_Variadic v).
Proof. by intros []. Qed.
Lemma preserves_kind_set_BitSize x : preserves_kind (set_BitSize x).
Proof. by intros []. Qed.
Lemma preserves_kind_set_Kind k : preserves_kind (set_Kind k).
Proof. by intros []. Qed.
Lemma preserves_kind_set_ElemType e : preserves_kind (set_ElemType e).
Proof. by intros []. Qed.
Lemma preserves_kind_set_AddrSpace s : preserves_kind (set_AddrSpace s).
Proof. by intros []. Qed.
Lemma preserves_kind_set_Len len : preserves_kind (set_Len len).
Proof. by intros []. Qed.
Lemma preserves_kind_set_Opaque o : preserves_kind (set_Opaque o).
Proof. by intros []. Qed.
Lemma preserves_kind_set_Packed p : preserves_kind (set_Packed p).
Proof. by intros []. Qed.
Lemma preserves_kind_append_Fields f : preserves_kind (append_Fields f).
Proof. by intros []. Qed.

Create HintDb heap discriminated.
#[local] Hint Resolve heap_extends_refl heap_extends_new_type
  preserves_kind_set_RetType preserves_kind_append_Params
  preserves_kind_set_Variadic preserves_kind_set_BitSize preserves_kind_set_Kind
  preserves_kind_set_ElemType preserves_kind_set_AddrSpace preserves_kind_set_Len
  preserves_kind_set_Opaque preserves_kind_set_Packed preserves_kind_append_Fields
  : heap.

(** The type assertion that opens a translator either keeps the skeleton or
    allocates a node. *)
Lemma type_assert_Ok (gen gen1 : generator) (t : option loc) (k : type_kind)
    (zero : types_Type) (typ : loc) :
  type_assert gen t k zero = Ok (gen1, typ) ->
  (t = Some typ /\ gen1 = gen /\ kind_at gen typ = Some k) \/
  (t = None /\ gen1 = (new_type gen zero).1 /\ typ = (new_type gen zero).2).
Proof.
  unfold type_assert. destruct t as [l|].
  - case_decide; [|done]. intros [= <- <-]. auto.
  - intros [= <- <-]. auto.
Qed.

Lemma type_assert_frame (gen gen1 : generator) (t : option loc) (k : type_kind)
    (zero : types_Type) (typ : loc) :
  type_assert gen t k zero = Ok (gen1, typ) ->
  heap_extends t gen gen1 /\
  (Some typ = t \/ (length (types_heap gen) <= typ)%nat) /\
  (typ < length (types_heap gen1))%nat.
Proof.
  intros H. apply type_assert_Ok in H as [(-> & -> & Hk)|(-> & -> & ->)].
  - split; [apply heap_extends_refl|]. split; [auto|].
    unfold kind_at in Hk. destruct (types_heap gen !! typ) eqn:E; [|done].
    by apply lookup_lt_Some in E.
  - split; [apply heap_extends_new_type|]. split; [right; simpl; lia|].
    simpl. rewrite length_app. simpl. lia.
Qed.

Lemma update_type_length (gen : generator) (l : loc) (f : types_Type -> types_Type) :
  length (types_heap (update_type gen l f)) = length (types_heap gen).
Proof. unfold update_type. simpl. apply length_alter. Qed.

(** ** Induction on AST types *)

(** The induction principle of [ast_Type] with the hypotheses for the types
    nested in parameter and field lists. *)
Lemma ast_Type_nested_ind (P : ast_Type -> Prop) :
  (forall len elem, P elem -> P (ast_ArrayType len elem)) ->
  (forall k, P (ast_FloatType k)) ->
  (forall r ps v, P r -> Forall P ps -> P (ast_FuncType r ps v)) ->
  (forall text, P (ast_IntType text)) ->
  P ast_LabelType -> P ast_MMXType -> P ast_MetadataType ->
  (forall name, P (ast_NamedType name)) ->
  (forall elem a, P elem -> P (ast_PointerType elem a)) ->
  (forall fields, Forall P fields -> P (ast_StructType fields)) ->
  (forall fields, Forall P fields -> P (ast_PackedStructType fields)) ->
  P ast_TokenType ->
  (forall len elem, P elem -> P (ast_VectorType len elem)) ->
  P ast_VoidType ->
  forall t, P t.
Proof.
  intros HArray HFloat HFunc HInt HLabel HMMX HMeta HNamed HPtr HStruct HPacked
    HToken HVector HVoid.
  fix IH 1. intros t.
  assert (Hlist : forall l : list ast_Type, Forall P l).
  { fix IHl 1. intros [|x l]; constructor; [apply IH | apply IHl]. }
  destruct t.
  - apply HArray, IH.
  - apply HFloat.
  - apply HFunc; [apply IH | apply Hlist].
  - apply HInt.
  - apply HLabel.
  - apply HMMX.
  - apply HMeta.
  - apply HNamed.
  - apply HPtr, IH.
  - apply HStruct, Hlist.
  - apply HPacked, Hlist.
  - apply HToken.
  - apply HVector, IH.
  - apply HVoid.
Qed.

(** ** The fill phase allocates and assigns to the skeleton only *)

Lemma heap_extends_kind_at (t : option loc) (g g' : generator) (l : loc) (k : type_kind) :
  heap_extends t g g' -> kind_at g l = Some k -> kind_at g' l = Some k.
Proof.
  intros (_ & _ & _ & _ & _ & _ & Hk) H. unfold kind_at in *.
  destruct (types_heap g !! l) as [n|] eqn:E; [|done].
  destruct (Hk _ _ E) as (n' & -> & Hkn & _). simpl in *. congruence.
Qed.

Lemma kind_at_update (gen : generator) (l l' : loc) (f : types_Type -> types_Type) :
  preserves_kind f -> kind_at (update_type gen l f) l' = kind_at gen l'.
Proof.
  intros Hf. unfold kind_at, update_type. simpl.
  destruct (decide (l = l')) as [->|Hne].
  - rewrite list_lookup_alter_eq. destruct (types_heap gen !! l'); [|done].
    simpl. by destruct (Hf t) as [-> _].
  - by rewrite list_lookup_alter_ne.
Qed.

Lemma type_assert_spec (gen gen1 : generator) (t : option loc) (k : type_kind)
    (zero : types_Type) (typ : loc) :
  kind_of_type zero = k ->
  type_assert gen t k zero = Ok (gen1, typ) ->
  heap_extends t gen gen1 /\
  (t = Some typ \/ (t = None /\ typ = length (types_heap gen))) /\
  kind_at gen1 typ = Some k.
Proof.
  intros Hz H. apply type_assert_Ok in H as [(-> & -> & Hk)|(-> & -> & ->)].
  - split; [apply heap_extends_refl|]. auto.
  - split; [apply heap_extends_new_type|]. split; [auto|].
    unfold kind_at. rewrite new_type_lookup. simpl. by rewrite Hz.
Qed.

Lemma fresh_or_skeleton (gen : generator) (t : option loc) (typ : loc) :
  t = Some typ \/ (t = None /\ typ = length (types_heap gen)) ->
  Some typ = t \/ (length (types_heap gen) <= typ)%nat.
Proof. intros [->|[_ ->]]; auto. Qed.

(** The loops over parameters and fields. *)
Lemma fields_loop_frame (irTy : generator -> ast_Type -> result (generator * loc))
    (upd : loc -> types_Type -> types_Type) (t : option loc) (typ : loc)
    (gen0 : generator) (fields : list ast_Type) :
  (forall x, preserves_kind (upd x)) ->
  Forall (fun f => forall g g' r, irTy g f = Ok (g', r) -> heap_extends None g g') fields ->
  Some typ = t \/ (length (types_heap gen0) <= typ)%nat ->
  forall gen gen',
    heap_extends t gen0 gen ->
    foldM (fun gen f => '(gen, field) ← irTy gen f;
                        Ok (update_type gen typ (upd field))) gen fields = Ok gen' ->
    heap_extends t gen0 gen'.
Proof.
  intros Hupd Hall Htyp. induction Hall as [|f fields Hf _ IH]; intros gen gen' Hext Hrun.
  - simpl in Hrun. by injection Hrun as <-.
  - rewrite foldM_cons in Hrun. inv_bind Hrun. inv_bind Hruna.
    destruct x0 as [g1 field]. simpl in *. injection Hrunab as <-.
    eapply IH; [|exact Hrunb].
    apply heap_extends_update; auto.
    eapply heap_extends_trans; [exact Hext|].
    apply heap_extends_weaken. eauto.
Qed.

Section translator_frames.
Variable irTy : generator -> ast_Type -> result (generator * loc).

#[local] Abbreviation sub_frame old :=
  (forall g g' r, irTy g old = Ok (g', r) -> heap_extends None g g').

#[local] Abbreviation frame gen t gen' r k :=
  (heap_extends t gen gen' /\
   (t = Some r \/ (t = None /\ r = length (types_heap gen))) /\
   kind_at gen' r = Some k).

Lemma leaf_frame gen t k zero gen' r :
  kind_of_type zero = k ->
  type_assert gen t k zero = Ok (gen', r) -> frame gen t gen' r k.
Proof. apply type_assert_spec. Qed.

Lemma astToIRIntType_frame gen t text gen' r :
  astToIRIntType gen t text = Ok (gen', r) -> frame gen t gen' r KInt.
Proof.
  unfold astToIRIntType. intros H. inv_bind H. destruct x as [g1 typ].
  inv_bind Hb. injection Hbb as <- <-.
  apply type_assert_spec in Ha as (Hext & Hty & Hk); [|done].
  split; [|split; [done|]].
  - apply heap_extends_update; auto with heap. by apply fresh_or_skeleton.
  - by rewrite kind_at_update by auto with heap.
Qed.

Lemma astToIRFloatType_frame gen t text gen' r :
  astToIRFloatType gen t text = Ok (gen', r) -> frame gen t gen' r KFloat.
Proof.
  unfold astToIRFloatType. intros H. inv_bind H. destruct x as [g1 typ].
  inv_bind Hb. injection Hbb as <- <-.
  apply type_assert_spec in Ha as (Hext & Hty & Hk); [|done].
  split; [|split; [done|]].
  - apply heap_extends_update; auto with heap. by apply fresh_or_skeleton.
  - by rewrite kind_at_update by auto with heap.
Qed.

Lemma astToIRPointerType_frame gen t elem a gen' r :
  sub_frame elem ->
  astToIRPointerType irTy gen t elem a = Ok (gen', r) -> frame gen t gen' r KPointer.
Proof.
  unfold astToIRPointerType. intros Hsub H. inv_bind H. destruct x as [g1 typ].
  inv_bind Hb. destruct x as [g2 e]. injection Hbb as <- <-.
  apply type_assert_spec in Ha as (Hext & Hty & Hk); [|done].
  apply Hsub in Hba.
  assert (Hext2 : heap_extends t gen g2).
  { eapply heap_extends_trans; [exact Hext|]. by apply heap_extends_weaken. }
  split; [|split; [done|]].
  - apply heap_extends_update; [|auto with heap|by apply fresh_or_skeleton].
    apply heap_extends_update; [exact Hext2|auto with heap|by apply fresh_or_skeleton].
  - rewrite !kind_at_update by auto with heap.
    eapply heap_extends_kind_at; [exact Hba|exact Hk].
Qed.

Lemma astToIRArrayType_frame gen t len elem gen' r :
  sub_frame elem ->
  astToIRArrayType irTy gen t len elem = Ok (gen', r) -> frame gen t gen' r KArray.
Proof.
  unfold astToIRArrayType. intros Hsub H. inv_bind H. destruct x as [g1 typ].
  inv_bind Hb. destruct x as [g2 e]. injection Hbb as <- <-.
  apply type_assert_spec in Ha as (Hext & Hty & Hk); [|done].
  apply Hsub in Hba.
  assert (Hext1 : heap_extends t gen (update_type g1 typ (set_Len (int64_of_uint64 len)))).
  { apply heap_extends_update; auto with heap. by apply fresh_or_skeleton. }
  split; [|split; [done|]].
  - apply heap_extends_update; auto with heap; [|by apply fresh_or_skeleton].
    eapply heap_extends_trans; [exact Hext1|]. by apply heap_extends_weaken.
  - rewrite kind_at_update by auto with heap.
    eapply heap_extends_kind_at; [exact Hba|].
    by rewrite kind_at_update by auto with heap.
Qed.

Lemma astToIRVectorType_frame gen t len elem gen' r :
  sub_frame elem ->
  astToIRVectorType irTy gen t len elem = Ok (gen', r) -> frame gen t gen' r KVector.
Proof.
  unfold astToIRVectorType. intros Hsub H. inv_bind H. destruct x as [g1 typ].
  inv_bind Hb. destruct x as [g2 e]. injection Hbb as <- <-.
  apply type_assert_spec in Ha as (Hext & Hty & Hk); [|done].
  apply Hsub in Hba.
  assert (Hext1 : heap_extends t gen (update_type g1 typ (set_Len (int64_of_uint64 len)))).
  { apply heap_extends_update; auto with heap. by apply fresh_or_skeleton. }
  split; [|split; [done|]].
  - apply heap_extends_update; auto with heap; [|by apply fresh_or_skeleton].
    eapply heap_extends_trans; [exact Hext1|]. by apply heap_extends_weaken.
  - rewrite kind_at_update by auto with heap.
    eapply heap_extends_kind_at; [exact Hba|].
    by rewrite kind_at_update by auto with heap.
Qed.

Lemma fields_loop_kind upd typ fields gen gen' k :
  (forall x, preserves_kind (upd x)) ->
  Forall (fun f => sub_frame f) fields ->
  foldM (fun gen f => '(gen, field) ← irTy gen f;
                      Ok (update_type gen typ (upd field))) gen fields = Ok gen' ->
  kind_at gen typ = Some k -> kind_at gen' typ = Some k.
Proof.
  intros Hupd Hsub Hrun. apply (heap_extends_kind_at (Some typ)).
  eapply fields_loop_frame; [exact Hupd | exact Hsub | by left
                            | apply heap_extends_refl | exact Hrun].
Qed.

Lemma astToIRStructType_frame gen t fields gen' r :
  Forall (fun f => sub_frame f) fields ->
  astToIRStructType irTy gen t fields = Ok (gen', r) -> frame gen t gen' r KStruct.
Proof.
  unfold astToIRStructType. intros Hsub H. inv_bind H. destruct x as [g1 typ].
  inv_bind Hb. injection Hbb as <- <-.
  apply type_assert_spec in Ha as (Hext & Hty & Hk); [|done].
  assert (Hext2 : heap_extends t gen x).
  { eapply fields_loop_frame; [| exact Hsub | | exact Hext | exact Hba];
      auto with heap. by apply fresh_or_skeleton. }
  split; [|split; [done|]].
  - apply heap_extends_update; auto with heap. by apply fresh_or_skeleton.
  - rewrite kind_at_update by auto with heap.
    eapply fields_loop_kind; [| exact Hsub | exact Hba | exact Hk]. auto with heap.
Qed.

Lemma astToIRPackedStructType_frame gen t fields gen' r :
  Forall (fun f => sub_frame f) fields ->
  astToIRPackedStructType irTy gen t fields = Ok (gen', r) -> frame gen t gen' r KStruct.
Proof.
  unfold astToIRPackedStructType. intros Hsub H. inv_bind H. destruct x as [g1 typ].
  inv_bind Hb. injection Hbb as <- <-.
  apply type_assert_spec in Ha as (Hext & Hty & Hk); [|done].
  assert (Hext1 : heap_extends t gen (update_type g1 typ (set_Packed true))).
  { apply heap_extends_update; auto with heap. by apply fresh_or_skeleton. }
  assert (Hext2 : heap_extends t gen x).
  { eapply fields_loop_frame; [| exact Hsub | | exact Hext1 | exact Hba];
      auto with heap. by apply fresh_or_skeleton. }
  split; [|split; [done|]].
  - apply heap_extends_update; auto with heap. by apply fresh_or_skeleton.
  - rewrite kind_at_update by auto with heap.
    eapply fields_loop_kind; [| exact Hsub | exact Hba |]; [auto with heap|].
    by rewrite kind_at_update by auto with heap.
Qed.

Lemma astToIRFuncType_frame gen t ret params v gen' r :
  sub_frame ret -> Forall (fun f => sub_frame f) params ->
  astToIRFuncType irTy gen t ret params v = Ok (gen', r) -> frame gen t gen' r KFunc.
Proof.
  unfold astToIRFuncType. intros Hret Hsub H. inv_bind H. destruct x as [g1 typ].
  inv_bind Hb. destruct x as [g2 retType]. inv_bind Hbb. injection Hbbb as <- <-.
  apply type_assert_spec in Ha as (Hext & Hty & Hk); [|done].
  apply Hret in Hba.
  assert (Hext1 : heap_extends t gen (update_type g2 typ (set_RetType retType))).
  { apply heap_extends_update; auto with heap; [|by apply fresh_or_skeleton].
    eapply heap_extends_trans; [exact Hext|]. by apply heap_extends_weaken. }
  assert (Hext2 : heap_extends t gen x).
  { eapply fields_loop_frame; [| exact Hsub | | exact Hext1 | exact Hbba];
      auto with heap. by apply fresh_or_skeleton. }
  split; [|split; [done|]].
  - apply heap_extends_update; auto with heap. by apply fresh_or_skeleton.
  - rewrite kind_at_update by auto with heap.
    eapply fields_loop_kind; [| exact Hsub | exact Hbba |]; [auto with heap|].
    rewrite kind_at_update by auto with heap.
    eapply heap_extends_kind_at; [exact Hba|exact Hk].
Qed.

End translator_frames.

Lemma astToIRType_unfold (gen : generator) (t : option loc) (old : ast_Type) :
  astToIRType gen t old =
    let irType := fun gen old => astToIRType gen None old in
    match old with
    | ast_ArrayType Len Elem => astToIRArrayType irType gen t Len Elem
    | ast_FloatType FloatKind => astToIRFloatType gen t FloatKind
    | ast_FuncType RetType Params Variadic => astToIRFuncType irType gen t RetType Params Variadic
    | ast_IntType Text => astToIRIntType gen t Text
    | ast_LabelType => astToIRLabelType gen t
    | ast_MMXType => astToIRMMXType gen t
    | ast_MetadataType => astToIRMetadataType gen t
    | ast_NamedType Name => astToIRNamedType gen t Name
    | ast_PointerType Elem AddrSpace => astToIRPointerType irType gen t Elem AddrSpace
    | ast_StructType Fields => astToIRStructType irType gen t Fields
    | ast_PackedStructType Fields => astToIRPackedStructType irType gen t Fields
    | ast_TokenType => astToIRTokenType gen t
    | ast_VectorType Len Elem => astToIRVectorType irType gen t Len Elem
    | ast_VoidType => astToIRVoidType gen t
    end.
Proof. by destruct old. Qed.

Lemma astToIRNamedType_Ok (gen gen' : generator) (t : option loc) (name : string) (r : loc) :
  astToIRNamedType gen t name = Ok (gen', r) -> gen' = gen /\ ts gen !! name = Some r.
Proof.
  unfold astToIRNamedType. destruct (ts gen !! name); [|done].
  by intros [= <- <-].
Qed.

(** The translation of a type allocates nodes and assigns to the skeleton
    [t] only; its result is the skeleton, or a fresh node when there is
    none, of the kind of the AST type; a named type is looked up. *)
Lemma astToIRType_frame (old : ast_Type) :
  forall gen t gen' r,
    astToIRType gen t old = Ok (gen', r) ->
    heap_extends t gen gen' /\
    match expected_kind old with
    | Some k =>
        (t = Some r \/ (t = None /\ r = length (types_heap gen))) /\
        kind_at gen' r = Some k
    | None => gen' = gen
    end.
Proof.
  induction old using ast_Type_nested_ind; intros gen t gen' r Hrun;
    rewrite astToIRType_unfold in Hrun; cbv zeta in Hrun; simpl expected_kind.
  - apply astToIRArrayType_frame in Hrun; [naive_solver|].
    intros g g' r' Hsub. by apply IHold in Hsub as [? _].
  - apply astToIRFloatType_frame in Hrun. naive_solver.
  - apply astToIRFuncType_frame in Hrun; [naive_solver| |].
    + intros g g' r' Hsub. by apply IHold in Hsub as [? _].
    + eapply Forall_impl; [exact H|]. simpl. intros f Hf g g' r' Hsub.
      by apply Hf in Hsub as [? _].
  - apply astToIRIntType_frame in Hrun. naive_solver.
  - apply leaf_frame in Hrun; [naive_solver|done].
  - apply leaf_frame in Hrun; [naive_solver|done].
  - apply leaf_frame in Hrun; [naive_solver|done].
  - apply astToIRNamedType_Ok in Hrun as [-> _]. split; [apply heap_extends_refl|done].
  - apply astToIRPointerType_frame in Hrun; [naive_solver|].
    intros g g' r' Hsub. by apply IHold in Hsub as [? _].
  - apply astToIRStructType_frame in Hrun; [naive_solver|].
    eapply Forall_impl; [exact H|]. simpl. intros f Hf g g' r' Hsub.
    by apply Hf in Hsub as [? _].
  - apply astToIRPackedStructType_frame in Hrun; [naive_solver|].
    eapply Forall_impl; [exact H|]. simpl. intros f Hf g g' r' Hsub.
    by apply Hf in Hsub as [? _].
  - apply leaf_frame in Hrun; [naive_solver|done].
  - apply astToIRVectorType_frame in Hrun; [naive_solver|].
    intros g g' r' Hsub. by apply IHold in Hsub as [? _].
  - apply leaf_frame in Hrun; [naive_solver|done].
Qed.

Lemma irType_frame (gen gen' : generator) (old : ast_Type) (r : loc) :
  irType gen old = Ok (gen', r) -> heap_extends None gen gen'.
Proof. unfold irType, astToIRTypeDef. intros H. by apply astToIRType_frame in H as [? _]. Qed.

Lemma astToIROpaqueType_frame (gen gen' : generator) (t : option loc) (r : loc) :
  astToIROpaqueType gen t = Ok (gen', r) ->
  heap_extends t gen gen' /\ t = Some r /\ kind_at gen' r = Some KStruct.
Proof.
  unfold astToIROpaqueType. destruct t as [l|]; [|done].
  case_decide as Hk; [|done]. intros [= <- <-].
  split; [|split; [done|]].
  - apply heap_extends_update; auto with heap.
  - by rewrite kind_at_update by auto with heap.
Qed.

(** The same for a type definition. *)
Lemma astToIRTypeDef_frame (gen gen' : generator) (t : option loc) (old : LlvmNode) (r : loc) :
  astToIRTypeDef gen t old = Ok (gen', r) ->
  heap_extends t gen gen' /\
  match node_kind old with
  | Some k =>
      (t = Some r \/ (t = None /\ r = length (types_heap gen))) /\
      kind_at gen' r = Some k
  | None => gen' = gen
  end.
Proof.
  destruct old as [| |old]; simpl; [done| |].
  - intros H. apply astToIROpaqueType_frame in H. naive_solver.
  - apply astToIRType_frame.
Qed.

(** ** What a location denotes *)

Lemma denotes_unfold (base : nat) (gen : generator) (r : loc) (old : ast_Type) :
  denotes base gen r old =
    match old with
    | ast_NamedType Name => ts gen !! Name = Some r
    | _ =>
        (base <= r)%nat /\
        exists n, types_heap gen !! r = Some n /\ node_denotes (denotes base gen) n old
    end.
Proof. by destruct old. Qed.

Lemma all2_cons {A B} (P : A -> B -> Prop) (x : A) (y : B) (l1 : list A) (l2 : list B) :
  all2 P (x :: l1) (y :: l2) <-> P x y /\ all2 P l1 l2.
Proof. reflexivity. Qed.

Lemma all2_impl {A B} (P Q : A -> B -> Prop) (l1 : list A) (l2 : list B) :
  Forall (fun y => forall x, P x y -> Q x y) l2 -> all2 P l1 l2 -> all2 Q l1 l2.
Proof.
  intros Hall. revert l1. induction Hall as [|y l2 Hy _ IH]; intros [|x l1]; try done.
  rewrite !all2_cons. intros [? ?]. split; auto.
Qed.

Lemma all2_Forall2 {A B} (P : A -> B -> Prop) (l1 : list A) (l2 : list B) :
  all2 P l1 l2 <-> Forall2 P l1 l2.
Proof.
  revert l1. induction l2 as [|y l2 IH]; intros [|x l1].
  - split; [constructor|done].
  - split; [done|]. intros H. inversion H.
  - split; [done|]. intros H. inversion H.
  - rewrite all2_cons, IH. split.
    + intros [? ?]. by constructor.
    + intros H. inversion H. auto.
Qed.

(** What a location denotes depends on the table of named types and on the
    nodes from [base] on only, and holds for any smaller [base]. *)
Lemma denotes_mono (b b' : nat) (gen gen' : generator) (old : ast_Type) :
  (b' <= b)%nat -> ts gen' = ts gen ->
  (forall l n, (b <= l)%nat -> types_heap gen !! l = Some n ->
     types_heap gen' !! l = Some n) ->
  forall r, denotes b gen r old -> denotes b' gen' r old.
Proof.
  intros Hb Hts Hagree.
  induction old using ast_Type_nested_ind; intros r; rewrite !denotes_unfold;
    try (intros (Hr & n & Hn & Hden); split; [lia|];
         exists n; split; [by apply Hagree|]; revert Hden; simpl;
         destruct n; try done).
  - destruct ElemType; [|done]. intros [? ?]. auto.
  - destruct RetType; [|done]. intros (? & ? & ?). repeat split; auto.
    eapply all2_impl; [|eassumption]. exact H.
  - by rewrite Hts.
  - destruct ElemType; [|done]. intros [? ?]. auto.
  - intros (? & ? & ?). repeat split; auto. eapply all2_impl; [|eassumption]. exact H.
  - intros (? & ? & ?). repeat split; auto. eapply all2_impl; [|eassumption]. exact H.
  - destruct ElemType; [|done]. intros [? ?]. auto.
Qed.

Lemma denotes_stable (b : nat) (t : option loc) (gen gen' : generator)
    (old : ast_Type) (r : loc) :
  heap_extends t gen gen' -> (forall l, t = Some l -> (l < b)%nat) ->
  denotes b gen r old -> denotes b gen' r old.
Proof.
  intros (Hts & _ & _ & _ & _ & Hframe & _) Ht.
  apply denotes_mono; [lia|done|].
  intros l n Hl Hn. apply Hframe; [done|].
  intros <-. specialize (Ht l eq_refl). lia.
Qed.

Lemma denotes_weaken (b b' : nat) (gen : generator) (old : ast_Type) (r : loc) :
  (b' <= b)%nat -> denotes b gen r old -> denotes b' gen r old.
Proof. intros Hb. apply denotes_mono; auto. Qed.

Lemma all2_denotes_stable (b : nat) (t : option loc) (gen gen' : generator)
    (olds : list ast_Type) (rs : list loc) :
  heap_extends t gen gen' -> (forall l, t = Some l -> (l < b)%nat) ->
  all2 (denotes b gen) rs olds -> all2 (denotes b gen') rs olds.
Proof.
  intros Hext Ht. apply all2_impl. apply Forall_forall.
  intros old _ r. by apply (denotes_stable b t).
Qed.

(** ** The fill phase builds the body the AST type describes *)

Lemma kind_zero_type (k : type_kind) (a : string) : kind_of_type (zero_type k a) = k.
Proof. by destruct k. Qed.

Lemma Alias_zero_type (k : type_kind) (a : string) : Alias_of (zero_type k a) = a.
Proof. by destruct k. Qed.

Lemma type_assert_zero (gen gen1 : generator) (t : option loc) (k : type_kind)
    (zero : types_Type) (typ : loc) :
  zero = zero_type k EmptyString ->
  (forall l, t = Some l -> exists a, types_heap gen !! l = Some (zero_type k a)) ->
  type_assert gen t k zero = Ok (gen1, typ) ->
  exists a, types_heap gen1 !! typ = Some (zero_type k a).
Proof.
  intros -> Hz H. apply type_assert_Ok in H as [(-> & -> & _)|(-> & -> & ->)]; [eauto|].
  exists EmptyString. apply new_type_lookup.
Qed.

Lemma heap_extends_lookup (g g' : generator) (l : loc) (n : types_Type) :
  heap_extends None g g' -> types_heap g !! l = Some n -> types_heap g' !! l = Some n.
Proof. intros (_ & _ & _ & _ & _ & Hframe & _) Hl. by apply Hframe. Qed.

Lemma heap_extends_length (t : option loc) (g g' : generator) :
  heap_extends t g g' -> (length (types_heap g) <= length (types_heap g'))%nat.
Proof. by intros (_ & _ & _ & _ & ? & _). Qed.

Lemma update_type_lookup (g : generator) (l : loc) (f : types_Type -> types_Type) :
  types_heap (update_type g l f) !! l = f <$> types_heap g !! l.
Proof. unfold update_type. simpl. apply list_lookup_alter_eq. Qed.

Lemma heap_extends_update_self (g : generator) (l : loc) (f : types_Type -> types_Type) :
  preserves_kind f -> heap_extends (Some l) g (update_type g l f).
Proof. intros Hf. apply heap_extends_update; auto with heap. Qed.

Lemma all2_denotes_mono (b b' : nat) (t : option loc) (gen gen' : generator)
    (olds : list ast_Type) (rs : list loc) :
  (b' <= b)%nat -> heap_extends t gen gen' -> (forall l, t = Some l -> (l < b)%nat) ->
  all2 (denotes b gen) rs olds -> all2 (denotes b' gen') rs olds.
Proof.
  intros Hb Hext Ht. apply all2_impl. apply Forall_forall.
  intros old _ r Hden. apply (denotes_weaken b); [done|].
  by apply (denotes_stable b t gen).
Qed.

Lemma foldl_append_Fields (a : string) (p o : bool) (fs locs : list loc) :
  foldl (fun n x => append_Fields x n) (StructType a p fs o) locs =
    StructType a p (fs ++ locs) o.
Proof.
  revert fs. induction locs as [|x locs IH]; intros fs; simpl.
  - by rewrite app_nil_r.
  - by rewrite IH, <- app_assoc.
Qed.

Lemma foldl_append_Params (a : string) (r : option loc) (v : bool) (ps locs : list loc) :
  foldl (fun n x => append_Params x n) (FuncType a r ps v) locs =
    FuncType a r (ps ++ locs) v.
Proof.
  revert ps. induction locs as [|x locs IH]; intros ps; simpl.
  - by rewrite app_nil_r.
  - by rewrite IH, <- app_assoc.
Qed.

Section translator_contents.
Variable irTy : generator -> ast_Type -> result (generator * loc).

#[local] Abbreviation sub_den old :=
  (forall g g' r, irTy g old = Ok (g', r) ->
     heap_extends None g g' /\ denotes (length (types_heap g)) g' r old).

Lemma sub_den_frame (fields : list ast_Type) :
  Forall (fun f => sub_den f) fields ->
  Forall (fun f => forall g g' r, irTy g f = Ok (g', r) -> heap_extends None g g') fields.
Proof.
  intros H. eapply Forall_impl; [exact H|].
  intros f Hf g g' r Hrun. by apply Hf in Hrun as [? _].
Qed.

Lemma fields_loop_content (upd : loc -> types_Type -> types_Type) (typ : loc) (b : nat)
    (fields : list ast_Type) :
  (forall x, preserves_kind (upd x)) ->
  Forall (fun f => sub_den f) fields ->
  (typ < b)%nat ->
  forall gen gen' n0,
    (b <= length (types_heap gen))%nat ->
    types_heap gen !! typ = Some n0 ->
    foldM (fun gen f => '(gen, field) ← irTy gen f;
                        Ok (update_type gen typ (upd field))) gen fields = Ok gen' ->
    exists locs,
      types_heap gen' !! typ = Some (foldl (fun n x => upd x n) n0 locs) /\
      all2 (denotes b gen') locs fields /\
      (b <= length (types_heap gen'))%nat.
Proof.
  intros Hupd Hall Htyp.
  induction Hall as [|f fields Hf Hfields IH]; intros gen gen' n0 Hb Hn0 Hrun.
  - simpl in Hrun. injection Hrun as <-. by exists [].
  - rewrite foldM_cons in Hrun. inv_bind Hrun. inv_bind Hruna.
    destruct x0 as [g1 field]. simpl in *. injection Hrunab as <-.
    destruct (Hf _ _ _ Hrunaa) as [Hext Hden].
    pose proof (heap_extends_length _ _ _ Hext) as Hlen.
    destruct (IH (update_type g1 typ (upd field)) gen' (upd field n0)) as (locs & Hn & Hall2 & Hb');
      [rewrite update_type_length; lia
      |rewrite update_type_lookup, (heap_extends_lookup _ _ _ _ Hext Hn0); done
      |exact Hrunb|].
    exists (field :: locs). split; [exact Hn|]. split; [|exact Hb'].
    apply all2_cons. split; [|exact Hall2].
    apply (denotes_stable b (Some typ) (update_type g1 typ (upd field)));
      [|by intros ? [= <-]|].
    + eapply fields_loop_frame; [exact Hupd | by apply sub_den_frame | by left
                                | apply heap_extends_refl | exact Hrunb].
    + apply (denotes_stable b (Some typ) g1); [by apply heap_extends_update_self
                                              |by intros ? [= <-]|].
      by apply (denotes_weaken (length (types_heap gen))).
Qed.

#[local] Abbreviation skeleton_zero gen t k :=
  (forall l, t = Some l -> exists a, types_heap gen !! l = Some (zero_type k a)).

#[local] Abbreviation content gen gen' r old :=
  (exists n, types_heap gen' !! r = Some n /\
     node_denotes (denotes (length (types_heap gen)) gen') n old).

Lemma leaf_content gen t k zero gen' r old :
  zero = zero_type k EmptyString -> skeleton_zero gen t k ->
  (forall a den, node_denotes den (zero_type k a) old) ->
  type_assert gen t k zero = Ok (gen', r) -> content gen gen' r old.
Proof.
  intros Hzero Hz Hden H.
  destruct (type_assert_zero _ _ _ _ _ _ Hzero Hz H) as [a Ha]. eauto.
Qed.

Lemma astToIRIntType_content gen t text gen' r :
  skeleton_zero gen t KInt ->
  astToIRIntType gen t text = Ok (gen', r) -> content gen gen' r (ast_IntType text).
Proof.
  unfold astToIRIntType. intros Hz H. inv_bind H. destruct x as [g1 typ].
  inv_bind Hb. injection Hbb as <- <-.
  destruct (type_assert_zero _ _ _ _ _ _ eq_refl Hz Ha) as [a Hn].
  eexists. rewrite update_type_lookup, Hn. split; [done|]. exact Hba.
Qed.

Lemma astToIRFloatType_content gen t text gen' r :
  skeleton_zero gen t KFloat ->
  astToIRFloatType gen t text = Ok (gen', r) -> content gen gen' r (ast_FloatType text).
Proof.
  unfold astToIRFloatType. intros Hz H. inv_bind H. destruct x as [g1 typ].
  inv_bind Hb. injection Hbb as <- <-.
  destruct (type_assert_zero _ _ _ _ _ _ eq_refl Hz Ha) as [a Hn].
  eexists. rewrite update_type_lookup, Hn. split; [done|]. exact Hba.
Qed.

Lemma astToIRPointerType_content gen t elem a gen' r :
  skeleton_zero gen t KPointer -> sub_den elem ->
  astToIRPointerType irTy gen t elem a = Ok (gen', r) ->
  content gen gen' r (ast_PointerType elem a).
Proof.
  unfold astToIRPointerType. intros Hz Hsub H. inv_bind H. destruct x as [g1 typ].
  inv_bind Hb. destruct x as [g2 e]. injection Hbb as <- <-.
  destruct (type_assert_zero _ _ _ _ _ _ eq_refl Hz Ha) as [al Hn].
  apply type_assert_spec in Ha as (Hext & _ & _); [|done].
  destruct (Hsub _ _ _ Hba) as [Hext2 Hden].
  eexists. rewrite !update_type_lookup, (heap_extends_lookup _ _ _ _ Hext2 Hn).
  split; [done|]. simpl. split; [|done].
  apply lookup_lt_Some in Hn.
  apply (denotes_weaken (length (types_heap g1))); [by eapply heap_extends_length|].
  apply (denotes_stable _ (Some typ) g2); [|by intros ? [= <-]|done].
  eapply heap_extends_trans; apply heap_extends_update_self; auto with heap.
Qed.

Lemma astToIRArrayType_content gen t len elem gen' r :
  skeleton_zero gen t KArray -> sub_den elem ->
  astToIRArrayType irTy gen t len elem = Ok (gen', r) ->
  content gen gen' r (ast_ArrayType len elem).
Proof.
  unfold astToIRArrayType. intros Hz Hsub H. inv_bind H. destruct x as [g1 typ].
  inv_bind Hb. destruct x as [g2 e]. injection Hbb as <- <-.
  destruct (type_assert_zero _ _ _ _ _ _ eq_refl Hz Ha) as [al Hn].
  apply type_assert_spec in Ha as (Hext & _ & _); [|done].
  destruct (Hsub _ _ _ Hba) as [Hext2 Hden].
  assert (Hn1 : types_heap (update_type g1 typ (set_Len (int64_of_uint64 len))) !! typ =
                Some (ArrayType al (int64_of_uint64 len) None)).
  { by rewrite update_type_lookup, Hn. }
  eexists. rewrite update_type_lookup, (heap_extends_lookup _ _ _ _ Hext2 Hn1).
  split; [done|]. simpl. split; [done|].
  apply lookup_lt_Some in Hn.
  apply (denotes_weaken (length (types_heap g1))); [by eapply heap_extends_length|].
  apply (denotes_stable _ (Some typ) g2); [|by intros ? [= <-]|].
  - apply heap_extends_update_self; auto with heap.
  - by rewrite update_type_length in Hden.
Qed.

Lemma astToIRVectorType_content gen t len elem gen' r :
  skeleton_zero gen t KVector -> sub_den elem ->
  astToIRVectorType irTy gen t len elem = Ok (gen', r) ->
  content gen gen' r (ast_VectorType len elem).
Proof.
  unfold astToIRVectorType. intros Hz Hsub H. inv_bind H. destruct x as [g1 typ].
  inv_bind Hb. destruct x as [g2 e]. injection Hbb as <- <-.
  destruct (type_assert_zero _ _ _ _ _ _ eq_refl Hz Ha) as [al Hn].
  apply type_assert_spec in Ha as (Hext & _ & _); [|done].
  destruct (Hsub _ _ _ Hba) as [Hext2 Hden].
  assert (Hn1 : types_heap (update_type g1 typ (set_Len (int64_of_uint64 len))) !! typ =
                Some (VectorType al (int64_of_uint64 len) None)).
  { by rewrite update_type_lookup, Hn. }
  eexists. rewrite update_type_lookup, (heap_extends_lookup _ _ _ _ Hext2 Hn1).
  split; [done|]. simpl. split; [done|].
  apply lookup_lt_Some in Hn.
  apply (denotes_weaken (length (types_heap g1))); [by eapply heap_extends_length|].
  apply (denotes_stable _ (Some typ) g2); [|by intros ? [= <-]|].
  - apply heap_extends_update_self; auto with heap.
  - by rewrite update_type_length in Hden.
Qed.

Lemma astToIRStructType_content gen t fields gen' r :
  skeleton_zero gen t KStruct -> Forall (fun f => sub_den f) fields ->
  astToIRStructType irTy gen t fields = Ok (gen', r) ->
  content gen gen' r (ast_StructType fields).
Proof.
  unfold astToIRStructType. intros Hz Hsub H. inv_bind H. destruct x as [g1 typ].
  inv_bind Hb. injection Hbb as <- <-.
  destruct (type_assert_zero _ _ _ _ _ _ eq_refl Hz Ha) as [al Hn].
  apply type_assert_spec in Ha as (Hext & _ & _); [|done].
  pose proof (lookup_lt_Some _ _ _ Hn) as Hlt.
  destruct (fields_loop_content _ typ (length (types_heap g1)) fields
              (fun x => preserves_kind_append_Fields x) Hsub Hlt g1 x _ (le_n _) Hn Hba)
    as (locs & Hnode & Hall & _).
  simpl in Hnode. rewrite foldl_append_Fields in Hnode. simpl in Hnode.
  eexists. rewrite update_type_lookup, Hnode. split; [done|]. simpl.
  split; [done|]. split; [done|].
  apply (all2_denotes_mono (length (types_heap g1)) _ (Some typ) x);
    [by eapply heap_extends_length | apply heap_extends_update_self; auto with heap
    | by intros ? [= <-] | done].
Qed.

Lemma astToIRPackedStructType_content gen t fields gen' r :
  skeleton_zero gen t KStruct -> Forall (fun f => sub_den f) fields ->
  astToIRPackedStructType irTy gen t fields = Ok (gen', r) ->
  content gen gen' r (ast_PackedStructType fields).
Proof.
  unfold astToIRPackedStructType. intros Hz Hsub H. inv_bind H. destruct x as [g1 typ].
  inv_bind Hb. injection Hbb as <- <-.
  destruct (type_assert_zero _ _ _ _ _ _ eq_refl Hz Ha) as [al Hn].
  apply type_assert_spec in Ha as (Hext & _ & _); [|done].
  pose proof (lookup_lt_Some _ _ _ Hn) as Hlt.
  assert (Hn1 : types_heap (update_type g1 typ (set_Packed true)) !! typ =
                Some (StructType al true [] false)).
  { by rewrite update_type_lookup, Hn. }
  assert (Hlen1 : (length (types_heap g1) <=
                   length (types_heap (update_type g1 typ (set_Packed true))))%nat).
  { by rewrite update_type_length. }
  destruct (fields_loop_content _ typ (length (types_heap g1)) fields
              (fun x => preserves_kind_append_Fields x) Hsub Hlt _ x _ Hlen1 Hn1 Hba)
    as (locs & Hnode & Hall & _).
  rewrite foldl_append_Fields in Hnode. simpl in Hnode.
  eexists. rewrite update_type_lookup, Hnode. split; [done|]. simpl.
  split; [done|]. split; [done|].
  apply (all2_denotes_mono (length (types_heap g1)) _ (Some typ) x);
    [by eapply heap_extends_length | apply heap_extends_update_self; auto with heap
    | by intros ? [= <-] | done].
Qed.

Lemma astToIRFuncType_content gen t ret params v gen' r :
  skeleton_zero gen t KFunc -> sub_den ret -> Forall (fun f => sub_den f) params ->
  astToIRFuncType irTy gen t ret params v = Ok (gen', r) ->
  content gen gen' r (ast_FuncType ret params v).
Proof.
  unfold astToIRFuncType. intros Hz Hret Hsub H. inv_bind H. destruct x as [g1 typ].
  inv_bind Hb. destruct x as [g2 retType]. inv_bind Hbb. injection Hbbb as <- <-.
  destruct (type_assert_zero _ _ _ _ _ _ eq_refl Hz Ha) as [al Hn].
  apply type_assert_spec in Ha as (Hext & _ & _); [|done].
  pose proof (lookup_lt_Some _ _ _ Hn) as Hlt.
  destruct (Hret _ _ _ Hba) as [Hext2 Hden].
  pose proof (heap_extends_length _ _ _ Hext2) as Hlen2.
  assert (Hn1 : types_heap (update_type g2 typ (set_RetType retType)) !! typ =
                Some (FuncType al (Some retType) [] false)).
  { by rewrite update_type_lookup, (heap_extends_lookup _ _ _ _ Hext2 Hn). }
  assert (Hlen1 : (length (types_heap g1) <=
                   length (types_heap (update_type g2 typ (set_RetType retType))))%nat).
  { by rewrite update_type_length. }
  destruct (fields_loop_content _ typ (length (types_heap g1)) params
              (fun x => preserves_kind_append_Params x) Hsub Hlt _ x _ Hlen1 Hn1 Hbba)
    as (locs & Hnode & Hall & _).
  rewrite foldl_append_Params in Hnode. simpl in Hnode.
  assert (Hloop : heap_extends (Some typ) (update_type g2 typ (set_RetType retType)) x).
  { eapply fields_loop_frame; [| by apply sub_den_frame | by left
                              | apply heap_extends_refl | exact Hbba]. auto with heap. }
  eexists. rewrite update_type_lookup, Hnode. split; [done|]. simpl.
  split; [|split; [|done]].
  - apply (denotes_weaken (length (types_heap g1))); [by eapply heap_extends_length|].
    apply (denotes_stable _ (Some typ) g2); [|by intros ? [= <-]|done].
    eapply heap_extends_trans;
      [apply (heap_extends_update_self g2 typ (set_RetType retType)); auto with heap|].
    eapply heap_extends_trans; [exact Hloop|].
    apply heap_extends_update_self; auto with heap.
  - apply (all2_denotes_mono (length (types_heap g1)) _ (Some typ) x);
      [by eapply heap_extends_length | apply heap_extends_update_self; auto with heap
      | by intros ? [= <-] | done].
Qed.

End translator_contents.

(** The translation of an AST type fills the skeleton, a node without body,
    with the body the type describes; without a skeleton, its result
    denotes the type, by nodes allocated during the call. *)
Lemma astToIRType_content (old : ast_Type) :
  forall gen t gen' r,
    astToIRType gen t old = Ok (gen', r) ->
    (forall k, expected_kind old = Some k ->
       (forall l, t = Some l -> exists a, types_heap gen !! l = Some (zero_type k a)) ->
       exists n, types_heap gen' !! r = Some n /\
         node_denotes (denotes (length (types_heap gen)) gen') n old) /\
    (t = None -> denotes (length (types_heap gen)) gen' r old).
Proof.
  induction old using ast_Type_nested_ind; intros gen t gen' r Hrun;
    (match goal with |- ?A /\ _ => assert (Hpart : A) end;
     [ intros k0 Hk Hz; simpl in Hk; try discriminate; injection Hk as <-;
       rewrite astToIRType_unfold in Hrun; cbv zeta in Hrun
     | split; [exact Hpart|]; intros ->;
       pose proof (astToIRType_frame _ _ _ _ _ Hrun) as [_ Hfr];
       rewrite denotes_unfold; simpl expected_kind in *;
       try (destruct Hfr as [[?|[_ ->]] _]; [done|];
            split; [lia|]; by apply (Hpart _ eq_refl)) ]).
  all: try (eapply leaf_content; [| exact Hz | | exact Hrun]; done).
  - eapply astToIRArrayType_content; [exact Hz| |exact Hrun].
    intros g g' r' Hsub. split; [by apply astToIRType_frame in Hsub as [? _]|].
    by apply IHold in Hsub as [_ ?]; auto.
  - by eapply astToIRFloatType_content.
  - eapply astToIRFuncType_content; [exact Hz| | |exact Hrun].
    + intros g g' r' Hsub. split; [by apply astToIRType_frame in Hsub as [? _]|].
      by apply IHold in Hsub as [_ ?]; auto.
    + eapply Forall_impl; [exact H|]. simpl. intros f Hf g g' r' Hsub.
      split; [by apply astToIRType_frame in Hsub as [? _]|].
      by apply Hf in Hsub as [_ ?]; auto.
  - by eapply astToIRIntType_content.
  - rewrite astToIRType_unfold in Hrun. cbv zeta in Hrun.
    apply astToIRNamedType_Ok in Hrun as [-> ?]. done.
  - eapply astToIRPointerType_content; [exact Hz| |exact Hrun].
    intros g g' r' Hsub. split; [by apply astToIRType_frame in Hsub as [? _]|].
    by apply IHold in Hsub as [_ ?]; auto.
  - eapply astToIRStructType_content; [exact Hz| |exact Hrun].
    eapply Forall_impl; [exact H|]. simpl. intros f Hf g g' r' Hsub.
    split; [by apply astToIRType_frame in Hsub as [? _]|].
    by apply Hf in Hsub as [_ ?]; auto.
  - eapply astToIRPackedStructType_content; [exact Hz| |exact Hrun].
    eapply Forall_impl; [exact H|]. simpl. intros f Hf g g' r' Hsub.
    split; [by apply astToIRType_frame in Hsub as [? _]|].
    by apply Hf in Hsub as [_ ?]; auto.
  - eapply astToIRVectorType_content; [exact Hz| |exact Hrun].
    intros g g' r' Hsub. split; [by apply astToIRType_frame in Hsub as [? _]|].
    by apply IHold in Hsub as [_ ?]; auto.
Qed.

(** ** Skeleton creation *)

Lemma newIRType_concrete (fuel : nat) (gen : generator) (alias : string) (old : LlvmNode)
    (index : gmap string LlvmNode) (track : gmap string bool) (k : type_kind) :
  node_kind old = Some k ->
  newIRType fuel gen alias old index track = Ok (new_type gen (zero_type k alias)).
Proof.
  destruct old as [| |old]; [done| |]; destruct fuel; simpl.
  - by intros [= <-].
  - by intros [= <-].
  - destruct old; simpl; intros [= <-]; done.
  - destruct old; simpl; intros [= <-]; done.
Qed.

Lemma newIRType_named (fuel : nat) (gen : generator) (alias name : string)
    (index : gmap string LlvmNode) (track : gmap string bool) :
  newIRType fuel gen alias (node_Type (ast_NamedType name)) index track =
    if default false (track !! alias) then
      Err (ErrSelfReferential
             (strings_Join
                (sort_Strings ((fun '(name, _) => enc_Local name) <$>
                                 range RangeTrack bool (map_to_list track))) ", "))
    else
      match fuel with
      | O => OutOfFuel
      | S fuel =>
          newIRType fuel gen name (default node_nil (index !! name)) index
            (<[alias := true]> track)
      end.
Proof. by destruct fuel. Qed.

Lemma newIRType_nil (fuel : nat) (gen : generator) (alias : string)
    (index : gmap string LlvmNode) (track : gmap string bool) :
  newIRType fuel gen alias node_nil index track = Panic PanicNotImplemented.
Proof. by destruct fuel. Qed.

Lemma node_kind_cases (old : LlvmNode) :
  old = node_nil \/ (exists k, node_kind old = Some k) \/
  (exists name, old = node_Type (ast_NamedType name)).
Proof. destruct old as [| |[]]; simpl; eauto. Qed.

(** A skeleton is a fresh node without body; its kind and alias are those
    of the definition unless the definition is a bare alias. *)
Lemma newIRType_Ok (fuel : nat) (index : gmap string LlvmNode) :
  forall gen alias old track gen' l,
    newIRType fuel gen alias old index track = Ok (gen', l) ->
    exists k a, (gen', l) = new_type gen (zero_type k a) /\
      forall k0, node_kind old = Some k0 -> k0 = k /\ a = alias.
Proof.
  induction fuel as [|fuel IH]; intros gen alias old track gen' l Hrun;
    destruct (node_kind_cases old) as [->|[[k Hk]|[name ->]]].
  - by rewrite newIRType_nil in Hrun.
  - rewrite (newIRType_concrete _ _ _ _ _ _ _ Hk) in Hrun. injection Hrun as <- <-.
    exists k, alias. split; [done|]. intros k0. rewrite Hk. by intros [= <-].
  - rewrite newIRType_named in Hrun. by destruct (default false (track !! alias)).
  - by rewrite newIRType_nil in Hrun.
  - rewrite (newIRType_concrete _ _ _ _ _ _ _ Hk) in Hrun. injection Hrun as <- <-.
    exists k, alias. split; [done|]. intros k0. rewrite Hk. by intros [= <-].
  - rewrite newIRType_named in Hrun.
    destruct (default false (track !! alias)); [done|].
    apply IH in Hrun as (k & a & Heq & _). exists k, a. split; [done|]. done.
Qed.

Lemma track_ok_size (index : gmap string LlvmNode) (track : gmap string bool) :
  track_ok index track -> (size track <= size index)%nat.
Proof.
  intros Htrack. rewrite <- (size_dom track), <- (size_dom index).
  apply subseteq_size. intros a Ha. apply elem_of_dom in Ha as [v Hv].
  apply elem_of_dom. by destruct (Htrack _ _ Hv).
Qed.

Lemma track_ok_insert (index : gmap string LlvmNode) (track : gmap string bool)
    (alias : string) :
  track_ok index track -> is_Some (index !! alias) ->
  track_ok index (<[alias := true]> track).
Proof.
  intros Htrack Hidx a v. destruct (decide (a = alias)) as [->|Hne].
  - rewrite lookup_insert_eq. by intros [= <-].
  - rewrite lookup_insert_ne by done. apply Htrack.
Qed.

(** The chain of named types that [newIRType] follows is no longer than the
    index: with [size index] as fuel it does not run out. *)
Lemma newIRType_fuel (index : gmap string LlvmNode) (fuel : nat) :
  forall gen alias old track,
    track_ok index track ->
    old = node_nil \/ index !! alias = Some old ->
    (size index <= size track + fuel)%nat ->
    newIRType fuel gen alias old index track <> OutOfFuel.
Proof.
  induction fuel as [|fuel IH]; intros gen alias old track Htrack Hold Hsize;
    destruct (node_kind_cases old) as [->|[[k Hk]|[name ->]]];
    try (by rewrite newIRType_nil);
    try (by rewrite (newIRType_concrete _ _ _ _ _ _ _ Hk));
    (destruct Hold as [?|Hidx]; [done|]);
    rewrite newIRType_named;
    (destruct (track !! alias) as [v|] eqn:Halias;
       [by destruct (Htrack _ _ Halias) as [-> _]|simpl]);
    pose proof (track_ok_insert _ _ alias Htrack (mk_is_Some _ _ Hidx)) as Htrack';
    pose proof (track_ok_size _ _ Htrack') as Hle;
    rewrite (map_size_insert_None _ _ _ Halias) in Hle.
  - lia.
  - apply IH; [done| |rewrite (map_size_insert_None _ _ _ Halias); lia].
    destruct (index !! name); simpl; auto.
Qed.

(** ** Alias cycles and absent alias targets *)

Lemma range_elem_of (site : range_site) {A} (l : list (string * A)) (x : string * A) :
  range_ok -> x ∈ range site A l <-> x ∈ l.
Proof. intros Hrange. by rewrite (Hrange site A l). Qed.

Lemma newIRType_cycle2 (fuel : nat) (gen : generator) (A B : string)
    (index : gmap string LlvmNode) :
  range_ok -> A <> B ->
  index !! A = Some (node_Type (ast_NamedType B)) ->
  index !! B = Some (node_Type (ast_NamedType A)) ->
  (2 <= fuel)%nat ->
  newIRType fuel gen A (node_Type (ast_NamedType B)) index ∅ =
    Err (ErrSelfReferential
           (strings_Join (sort_Strings [enc_Local A; enc_Local B]) ", ")).
Proof.
  intros Hrange Hne HA HB Hfuel.
  destruct fuel as [|[|fuel]]; [lia|lia|].
  rewrite newIRType_named, lookup_empty. simpl default. cbv iota.
  rewrite HB. simpl default.
  rewrite newIRType_named, lookup_insert_ne, lookup_empty by done.
  simpl default. cbv iota. rewrite HA. simpl default.
  rewrite newIRType_named, lookup_insert_ne, lookup_insert_eq by done.
  simpl default. cbv iota. do 3 f_equal.
  apply sort_Strings_Permutation.
  rewrite (Hrange RangeTrack bool _).
  rewrite map_to_list_insert by (by rewrite lookup_insert_ne, lookup_empty).
  rewrite insert_empty, map_to_list_singleton. simpl. apply perm_swap.
Qed.

(** C3: for two type definitions that are aliases of each other, skeleton
    creation from either of them fails with the cyclic alias error; its
    message lists the encoded names of both, sorted, whatever the order in
    which maps are visited; so does the resolution of the module made of
    the two definitions. *)
Theorem newIRType_mutual_cycle (gen : generator) (A B : string)
    (ix : gmap string LlvmNode) (fuel : nat) :
  range_ok -> A <> B ->
  ix !! A = Some (node_Type (ast_NamedType B)) ->
  ix !! B = Some (node_Type (ast_NamedType A)) ->
  (2 <= fuel)%nat ->
  let names := sort_Strings [enc_Local A; enc_Local B] in
  let e := ErrSelfReferential (strings_Join names ", ") in
  newIRType fuel gen A (node_Type (ast_NamedType B)) ix ∅ = Err e /\
  newIRType fuel gen B (node_Type (ast_NamedType A)) ix ∅ = Err e /\
  kind_of_error e = CyclicTypeAliasError /\
  Sorted string_le names /\ names ≡ₚ [enc_Local A; enc_Local B] /\
  resolveTypeDefs gen [TypeDef A (node_Type (ast_NamedType B));
                       TypeDef B (node_Type (ast_NamedType A))] = Err e.
Proof.
  intros Hrange Hne HA HB Hfuel names e.
  assert (Hswap : sort_Strings [enc_Local B; enc_Local A] = names).
  { apply sort_Strings_Permutation, perm_swap. }
  split; [by apply newIRType_cycle2|].
  split; [unfold e; rewrite <- Hswap; by apply newIRType_cycle2|].
  split; [done|]. split; [apply sort_Strings_Sorted|].
  split; [apply sort_Strings_perm|].
  unfold resolveTypeDefs, indexTypeDefs.
  rewrite foldM_cons, (indexTypeDef_accept _ A); [|done|left; apply lookup_empty].
  cbn [mbind result_bind]. cbv beta.
  rewrite foldM_cons, (indexTypeDef_accept _ B);
    [|done|left; simpl; by rewrite lookup_insert_ne, lookup_empty].
  cbn [mbind result_bind index foldM]. cbv beta.
  set (idx := <[B := node_Type (ast_NamedType A)]>
                (<[A := node_Type (ast_NamedType B)]> ∅) : gmap string LlvmNode).
  assert (HidxA : idx !! A = Some (node_Type (ast_NamedType B))).
  { unfold idx. by rewrite lookup_insert_ne, lookup_insert_eq. }
  assert (HidxB : idx !! B = Some (node_Type (ast_NamedType A))).
  { unfold idx. by rewrite lookup_insert_eq. }
  assert (Hsize : size idx = 2%nat).
  { unfold idx. rewrite map_size_insert_None
      by (by rewrite lookup_insert_ne, lookup_empty).
    by rewrite insert_empty, map_size_singleton. }
  unfold newIRTypes. rewrite Hsize.
  destruct (range RangeNewIRType LlvmNode (map_to_list idx)) as [|[alias old] rest] eqn:Hr.
  - pose proof (Hrange RangeNewIRType LlvmNode (map_to_list idx)) as Hperm.
    rewrite Hr in Hperm. symmetry in Hperm. apply Permutation_nil_r in Hperm.
    apply map_to_list_empty_iff in Hperm. rewrite Hperm in HidxA.
    by rewrite lookup_empty in HidxA.
  - assert (Hin : (alias, old) ∈ map_to_list idx).
    { apply (range_elem_of RangeNewIRType _ _ Hrange). rewrite Hr. by left. }
    apply elem_of_map_to_list in Hin.
    rewrite foldM_cons.
    destruct (decide (alias = B)) as [->|HneB].
    + rewrite HidxB in Hin. injection Hin as <-.
      rewrite (newIRType_cycle2 2 _ B A idx); [|done|congruence|done|done|lia].
      cbn [mbind result_bind]. unfold e. by rewrite Hswap.
    + destruct (decide (alias = A)) as [->|HneA].
      * rewrite HidxA in Hin. injection Hin as <-.
        by rewrite (newIRType_cycle2 2 _ A B idx).
      * unfold idx in Hin. by rewrite !lookup_insert_ne, lookup_empty in Hin.
Qed.

(** C8: a reference to a type name absent from the type table is the
    recoverable unresolved-identifier error with the encoded name when it is
    resolved in the fill phase; but when the absent name is the target of a
    bare alias, skeleton creation looks it up in the index without testing
    its presence and panics on the nil node. *)
Theorem absent_alias_target_panics (gen : generator) (a b : string)
    (ix : gmap string LlvmNode) (t : option loc) (fuel : nat) :
  range_ok -> a <> b ->
  (ts gen !! b = None ->
     astToIRTypeDef gen t (node_Type (ast_NamedType b)) =
       Err (ErrLocateTypeDef (enc_Local b)) /\
     kind_of_error (ErrLocateTypeDef (enc_Local b)) = UnresolvedIdentifierError) /\
  (ix !! b = None ->
     newIRType (S fuel) gen a (node_Type (ast_NamedType b)) ix ∅ =
       Panic PanicNotImplemented) /\
  resolveTypeDefs gen [TypeDef a (node_Type (ast_NamedType b))] =
    Panic PanicNotImplemented.
Proof.
  intros Hrange Hne. split; [|split].
  - intros Hb. simpl. unfold astToIRNamedType. by rewrite Hb.
  - intros Hb. rewrite newIRType_named, lookup_empty. simpl default. cbv iota.
    rewrite Hb. apply newIRType_nil.
  - unfold resolveTypeDefs, indexTypeDefs.
    rewrite foldM_cons, (indexTypeDef_accept _ a); [|done|left; apply lookup_empty].
    cbn [mbind result_bind index foldM]. cbv beta.
    rewrite insert_empty. unfold newIRTypes.
    rewrite map_size_singleton, map_to_list_singleton.
    assert (Hr : range RangeNewIRType LlvmNode [(a, node_Type (ast_NamedType b))] =
                 [(a, node_Type (ast_NamedType b))]).
    { apply Permutation_singleton_r. apply Hrange. }
    rewrite Hr, foldM_cons.
    rewrite newIRType_named, lookup_empty. simpl default. cbv iota.
    rewrite lookup_singleton_ne by done. simpl default.
    by rewrite newIRType_nil.
Qed.

(** An invariant of a loop that depends on the entries visited so far. *)
Lemma foldM_invariant_prefix {S A} (f : S -> A -> result S) (P : list A -> S -> Prop)
    (l : list A) :
  (forall p x rest s s', l = p ++ x :: rest -> P p s -> f s x = Ok s' -> P (p ++ [x]) s') ->
  forall s s', P [] s -> foldM f s l = Ok s' -> P l s'.
Proof.
  intros Hstep.
  assert (Hgen : forall rest p s s', l = p ++ rest -> P p s ->
                   foldM f s rest = Ok s' -> P l s').
  { induction rest as [|x rest IH]; intros p s s' Hl HP Hrun.
    - simpl in Hrun. injection Hrun as <-. by rewrite Hl, app_nil_r.
    - rewrite foldM_cons in Hrun. inv_bind Hrun.
      apply (IH (p ++ [x]) x0 s'); [by rewrite <- app_assoc| |done].
      by eapply Hstep. }
  intros s s'. by apply (Hgen l []).
Qed.

Lemma skeletons_init (gen0 : generator) : skeletons gen0 [] (set_ts gen0 ∅).
Proof.
  unfold skeletons. simpl. repeat split; auto.
  - intros [? H]. by rewrite lookup_empty in H.
  - intros H. by apply elem_of_nil in H.
  - intros a1 a2 l H. by rewrite lookup_empty in H.
  - intros alias l H. by rewrite lookup_empty in H.
Qed.

Lemma skeletons_step (gen0 gen gen' : generator) (p : list (string * LlvmNode))
    (alias : string) (old : LlvmNode) (fuel : nat) (ix : gmap string LlvmNode) :
  skeletons gen0 p gen -> alias ∉ p.*1 ->
  ('(gen, t) ← newIRType fuel gen alias old ix ∅;
   Ok (set_ts gen (<[alias := t]> (ts gen)))) = Ok gen' ->
  skeletons gen0 (p ++ [(alias, old)]) gen'.
Proof.
  intros (Hgs & Hm & Hc & Hlen & Hdom & Hinj & Hnode) Hfresh Hrun.
  inv_bind Hrun. destruct x as [gen1 l]. injection Hrunb as <-.
  apply newIRType_Ok in Hruna as (k & a & Heq & Hkind).
  injection Heq as -> ->.
  assert (Hbound : forall x lx, ts gen !! x = Some lx -> (lx < length (types_heap gen))%nat).
  { intros x lx Hx. destruct (Hnode _ _ Hx) as (? & ? & Hl & _).
    by apply lookup_lt_Some in Hl. }
  unfold skeletons. simpl. split; [done|]. split; [done|]. split; [done|].
  split; [rewrite length_app; lia|]. split; [|split].
  - intros x. rewrite fmap_app, elem_of_app. simpl.
    rewrite list_elem_of_singleton, <- Hdom.
    destruct (decide (x = alias)) as [->|Hne].
    + rewrite lookup_insert_eq. split; eauto.
    + rewrite lookup_insert_ne by done. split; [auto|]. by intros [?|?].
  - intros a1 a2 lx.
    destruct (decide (a1 = alias)) as [->|Hne1];
      destruct (decide (a2 = alias)) as [->|Hne2]; [done| | |].
    + rewrite lookup_insert_eq, lookup_insert_ne by done.
      intros [= <-] H2. apply Hbound in H2. lia.
    + rewrite lookup_insert_eq, lookup_insert_ne by done.
      intros H1 [= <-]. apply Hbound in H1. lia.
    + rewrite !lookup_insert_ne by done. apply Hinj.
  - intros x lx. destruct (decide (x = alias)) as [->|Hne].
    + rewrite lookup_insert_eq. intros [= <-]. exists k, a. split.
      * rewrite lookup_app_r by lia. by rewrite Nat.sub_diag.
      * intros old' k0 Hin. apply elem_of_app in Hin as [Hin|Hin].
        -- destruct Hfresh. apply list_elem_of_fmap. by exists (alias, old').
        -- apply list_elem_of_singleton in Hin. injection Hin as ->. apply Hkind.
    + rewrite lookup_insert_ne by done. intros Hx.
      destruct (Hnode _ _ Hx) as (k' & a' & Hl & Hk'). exists k', a'. split.
      * by apply lookup_app_l_Some.
      * intros old' k0 Hin. apply elem_of_app in Hin as [Hin|Hin]; [by apply Hk'|].
        apply list_elem_of_singleton in Hin. congruence.
Qed.

Lemma range_NoDup_fst (site : range_site) {A} (mp : gmap string A) :
  range_ok -> NoDup (range site A (map_to_list mp)).*1.
Proof.
  intros Hrange. rewrite (Hrange site A _). apply NoDup_fst_map_to_list.
Qed.

Lemma NoDup_fst_split {A} (p rest : list (string * A)) (alias : string) (x : A) :
  NoDup (p ++ (alias, x) :: rest).*1 -> alias ∉ p.*1.
Proof.
  rewrite fmap_app. intros Hnd Hin. apply NoDup_app in Hnd as (_ & Hdisj & _).
  apply (Hdisj _ Hin). simpl. by left.
Qed.

(** After the skeleton phase every alias of the index, and no other name,
    is bound to a node of its own without body. *)
Lemma newIRTypes_Ok (gen gen' : generator) (ix : gmap string LlvmNode) :
  range_ok -> newIRTypes gen ix = Ok gen' ->
  skeletons gen (range RangeNewIRType LlvmNode (map_to_list ix)) gen'.
Proof.
  intros Hrange Hrun. unfold newIRTypes in Hrun.
  pose proof (range_NoDup_fst RangeNewIRType ix Hrange) as Hnd.
  revert Hrun. apply foldM_invariant_prefix; [|apply skeletons_init].
  intros p [alias old] rest s s' Hl Hp Hstep.
  eapply skeletons_step; [exact Hp| |exact Hstep].
  rewrite Hl in Hnd. by eapply NoDup_fst_split.
Qed.

(** ** The fill phase over the index *)

Lemma node_denotes_mono (den1 den2 : loc -> ast_Type -> Prop) (n : types_Type)
    (old : ast_Type) :
  (forall e o, den1 e o -> den2 e o) ->
  node_denotes den1 n old -> node_denotes den2 n old.
Proof.
  intros Hden.
  assert (Hall : forall rs olds, all2 den1 rs olds -> all2 den2 rs olds).
  { intros rs olds. apply all2_impl. apply Forall_forall. auto. }
  destruct old, n; simpl; try done;
    try (destruct ElemType; [|done]); try (destruct RetType; [|done]);
    naive_solver.
Qed.

Lemma zero_type_inj (k k' : type_kind) (a a' : string) (n : types_Type) :
  n = zero_type k a -> kind_of_type n = k' -> Alias_of n = a' ->
  n = zero_type k' a'.
Proof. intros -> <- <-. by rewrite kind_zero_type, Alias_zero_type. Qed.

Lemma filled_init (gen0 gen : generator) (ix : gmap string LlvmNode)
    (entries : list (string * LlvmNode)) :
  entries ≡ₚ map_to_list ix -> skeletons gen0 entries gen ->
  filled ix (length (types_heap gen)) [] gen.
Proof.
  intros Hperm (Hgs & Hm & Hc & Hlen & Hdom & Hinj & Hnode).
  unfold filled. split; [done|]. split; [|split; [done|split]].
  - intros alias l Hl. destruct (Hnode _ _ Hl) as (? & ? & Hn & _).
    by apply lookup_lt_Some in Hn.
  - intros alias Hts. apply Hdom in Hts.
    apply list_elem_of_fmap in Hts as ([a old] & -> & Hin). simpl.
    rewrite Hperm in Hin. apply elem_of_map_to_list in Hin. eauto.
  - intros alias old Hix.
    assert (Hin : (alias, old) ∈ entries).
    { rewrite Hperm. by apply elem_of_map_to_list. }
    assert (Hts : is_Some (ts gen !! alias)).
    { apply Hdom. apply list_elem_of_fmap. by exists (alias, old). }
    destruct Hts as [l Hl]. destruct (Hnode _ _ Hl) as (k & a & Hn & Hk).
    exists l, (zero_type k a). split; [done|]. split; [done|]. split; [|split].
    + intros k0 Hk0. destruct (Hk _ _ Hin Hk0) as [-> ->].
      by rewrite kind_zero_type, Alias_zero_type.
    + eauto.
    + intros H. by apply elem_of_nil in H.
Qed.

Lemma filled_step (ix : gmap string LlvmNode) (base : nat)
    (p : list (string * LlvmNode)) (alias : string) (old : LlvmNode)
    (gen gen' : generator) :
  filled ix base p gen -> ix !! alias = Some old -> alias ∉ p.*1 ->
  ('(gen, _) ← astToIRTypeDef gen (ts gen !! alias) old; Ok gen) = Ok gen' ->
  filled ix base (p ++ [(alias, old)]) gen'.
Proof.
  intros (Hbase & Hlt & Hinj & Hdom & Hent) Hix Hfresh Hrun.
  inv_bind Hrun. destruct x as [g r]. injection Hrunb as ->.
  destruct (Hent _ _ Hix) as (l & n & Hl & Hn & Hkind & Hzero & _).
  destruct (Hzero Hfresh) as (k & a & Hz).
  rewrite Hl in Hruna.
  pose proof (astToIRTypeDef_frame _ _ _ _ _ Hruna) as [Hext Hres].
  pose proof Hext as (Hts & _ & _ & _ & _ & Hframe & Hkinds).
  unfold filled. rewrite Hts.
  split; [pose proof (heap_extends_length _ _ _ Hext); lia|].
  split; [done|]. split; [done|]. split; [done|].
  intros alias' old' Hix'.
  destruct (decide (alias' = alias)) as [->|Hne].
  - rewrite Hix in Hix'. injection Hix' as <-.
    destruct (Hkinds _ _ Hn) as (n' & Hn' & Hkn & Han).
    exists l, n'. split; [done|]. split; [done|]. split; [|split].
    + intros k0 Hk0. destruct (Hkind _ Hk0). split; congruence.
    + intros Hnot. destruct Hnot. rewrite fmap_app, elem_of_app. right. simpl. by left.
    + intros _. destruct old as [| |old]; [done| |].
      * simpl in Hruna. unfold astToIROpaqueType in Hruna.
        case_decide; [|done]. injection Hruna as <- <-.
        rewrite update_type_lookup, Hn in Hn'. simpl in Hn'. injection Hn' as <-.
        destruct (Hkind KStruct eq_refl) as [Hk Ha].
        by rewrite (zero_type_inj _ _ _ _ _ Hz Hk Ha).
      * intros Hexp. destruct (expected_kind old) as [k0|] eqn:Hk0; [|done].
        simpl in Hres, Hruna. rewrite Hk0 in Hres.
        destruct Hres as [[[= <-]|[? _]] _]; [|done].
        destruct (Hkind k0 Hk0) as [Hk Ha].
        pose proof (astToIRType_content _ _ _ _ _ Hruna) as [Hcontent _].
        destruct (Hcontent k0 Hk0) as (n2 & Hn2 & Hden).
        { intros ? [= <-]. exists alias. rewrite Hn. f_equal.
          by apply (zero_type_inj k _ a). }
        rewrite Hn' in Hn2. injection Hn2 as <-.
        eapply node_denotes_mono; [|exact Hden].
        intros e o. by apply denotes_weaken.
  - destruct (Hent _ _ Hix') as (l' & n' & Hl' & Hn' & Hkind' & Hzero' & Hdone').
    assert (Hll : Some l' <> Some l).
    { intros [= ->]. apply Hne. by eapply Hinj. }
    exists l', n'. split; [done|]. split; [by apply Hframe|]. split; [done|].
    rewrite fmap_app, elem_of_app. simpl. rewrite list_elem_of_singleton.
    split.
    + intros Hnot. apply Hzero'. intros ?. apply Hnot. by left.
    + intros [Hin|?]; [|done]. specialize (Hdone' Hin).
      destruct old' as [| |old']; [done|done|].
      intros Hexp. eapply node_denotes_mono; [|by apply Hdone'].
      intros e o. apply (denotes_stable base (Some l)); [done|].
      intros ? [= <-]. by eapply Hlt.
Qed.

Lemma astToIRTypeDefs_Ok (gen gen' : generator) (ix : gmap string LlvmNode) (base : nat) :
  range_ok -> filled ix base [] gen ->
  astToIRTypeDefs gen ix = Ok gen' ->
  filled ix base (range RangeTypeDef LlvmNode (map_to_list ix)) gen'.
Proof.
  intros Hrange Hinit Hrun. unfold astToIRTypeDefs in Hrun.
  pose proof (range_NoDup_fst RangeTypeDef ix Hrange) as Hnd.
  revert Hrun. apply foldM_invariant_prefix; [|exact Hinit].
  intros p [alias old] rest s s' Hl Hp Hstep.
  eapply filled_step; [exact Hp| | |exact Hstep].
  - apply elem_of_map_to_list. apply (range_elem_of RangeTypeDef _ _ Hrange).
    rewrite Hl. apply elem_of_app. right. by left.
  - rewrite Hl in Hnd. by eapply NoDup_fst_split.
Qed.

(** The fill phase leaves the tables, the module and the constants alone. *)
Lemma astToIRTypeDefs_frame (gen gen' : generator) (ix : gmap string LlvmNode) :
  astToIRTypeDefs gen ix = Ok gen' ->
  ts gen' = ts gen /\ gs gen' = gs gen /\ m gen' = m gen /\
  consts_heap gen' = consts_heap gen.
Proof.
  unfold astToIRTypeDefs.
  apply (foldM_invariant _ (fun g => ts g = ts gen /\ gs g = gs gen /\ m g = m gen /\
                                      consts_heap g = consts_heap gen)); [|done].
  intros s [alias old] s' _ (Hts & Hgs & Hm & Hc) Hstep.
  inv_bind Hstep. destruct x as [g r]. injection Hstepb as ->.
  apply astToIRTypeDef_frame in Hstepa as [(Hts' & Hgs' & Hm' & Hc' & _) _].
  repeat split; congruence.
Qed.

(** ** First-occurrence order *)

Lemma first_occurrences_elem_of (l : list string) (a : string) :
  a ∈ first_occurrences l <-> a ∈ l.
Proof.
  induction l as [|x l IH]; simpl; [done|].
  rewrite !elem_of_cons, list_elem_of_filter, IH.
  destruct (decide (a = x)); naive_solver.
Qed.

Lemma first_occurrences_NoDup (l : list string) : NoDup (first_occurrences l).
Proof.
  induction l as [|x l IH]; simpl; [constructor|].
  apply NoDup_cons. split; [|by apply NoDup_filter].
  rewrite list_elem_of_filter. naive_solver.
Qed.

Lemma first_occurrences_snoc (l : list string) (x : string) :
  first_occurrences (l ++ [x]) =
    if decide (x ∈ l) then first_occurrences l else first_occurrences l ++ [x].
Proof.
  induction l as [|y l IH]; simpl.
  - destruct (decide (x ∈ [])) as [H|_]; [by apply elem_of_nil in H|done].
  - rewrite IH.
    destruct (decide (x ∈ l)) as [Hin|Hnin];
      destruct (decide (x ∈ y :: l)) as [Hin'|Hnin']; [done| | |].
    + destruct Hnin'. by right.
    + apply elem_of_cons in Hin' as [->|?]; [|done].
      rewrite filter_app, filter_cons_False, filter_nil by (intros H; by apply H).
      by rewrite app_nil_r.
    + rewrite filter_app, filter_cons_True; [done|].
      intros ->. apply Hnin'. by left.
Qed.

Lemma first_occurrences_length (l : list string) :
  length (first_occurrences l) = size (list_to_set l : gset string).
Proof.
  rewrite <- (size_list_to_set (C := gset string) (first_occurrences l))
    by apply first_occurrences_NoDup.
  f_equal. apply set_eq. intros a.
  by rewrite !elem_of_list_to_set, first_occurrences_elem_of.
Qed.

Lemma filter_ne_not_elem_of (l : list string) (x : string) :
  x ∉ l -> filter (fun y => y <> x) l = l.
Proof.
  induction l as [|y l IH]; [done|]. intros Hx.
  rewrite filter_cons_True by (intros ->; apply Hx; by left).
  f_equal. apply IH. intros ?. apply Hx. by right.
Qed.

Lemma first_occurrences_NoDup_id (l : list string) :
  NoDup l -> first_occurrences l = l.
Proof.
  induction 1 as [|x l Hx Hnd IH]; simpl; [done|].
  by rewrite IH, filter_ne_not_elem_of.
Qed.

(** ** Indexing of type definitions, as a whole *)

Lemma indexed_types_nil :
  indexed_types [] {| index := ∅; added := ∅; order := [] |}.
Proof.
  unfold indexed_types. simpl. split; [done|]. split; [|split].
  - intros a. rewrite lookup_empty. simpl. split; [done|]. intros H. by apply elem_of_nil in H.
  - intros a. rewrite lookup_empty. split; [by intros [? ?]|]. intros H. by apply elem_of_nil in H.
  - intros a. by rewrite lookup_empty.
Qed.

Lemma indexed_types_step (p : list TopLevelEntity) (st st' : type_index)
    (e : TopLevelEntity) :
  indexed_types p st -> indexTypeDef st e = Ok st' -> indexed_types (p ++ [e]) st'.
Proof.
  intros (Hord & Hadd & Hidx & Hnil) Hstep.
  destruct (type_name e) as [alias|] eqn:He.
  - destruct e; try discriminate. injection He as ->.
    unfold indexTypeDef in Hstep. inv_bind Hstep. inv_bind Hstepb.
    injection Hstepbb as <-.
    unfold indexed_types. rewrite omap_app. simpl.
    split; [|split; [|split]].
    + rewrite first_occurrences_snoc, Hord.
      destruct (decide (alias ∈ omap type_name p)) as [Hin|Hnin].
      * apply Hadd in Hin. by rewrite Hin.
      * destruct (default false (added st !! alias)) eqn:E; [|done].
        by apply Hadd in E.
    + intros a. rewrite elem_of_app, list_elem_of_singleton, <- Hadd.
      destruct (decide (a = alias)) as [->|Hne].
      * rewrite lookup_insert_eq. simpl. naive_solver.
      * rewrite lookup_insert_ne by done. naive_solver.
    + intros a. rewrite elem_of_app, list_elem_of_singleton, <- Hidx.
      destruct (decide (a = alias)) as [->|Hne].
      * rewrite lookup_insert_eq. naive_solver.
      * rewrite lookup_insert_ne by done. naive_solver.
    + intros a. destruct (decide (a = alias)) as [->|Hne].
      * rewrite lookup_insert_eq. intros [= ->]. done.
      * rewrite lookup_insert_ne by done. apply Hnil.
  - rewrite (indexTypeDef_other _ _ He) in Hstep. injection Hstep as <-.
    unfold indexed_types. rewrite omap_app. simpl. rewrite He. simpl.
    by rewrite app_nil_r.
Qed.

(** The order recorded by the index is the first-occurrence order of the
    type names, and the index binds exactly these names. *)
Lemma indexTypeDefs_Ok (module : list TopLevelEntity) (st : type_index) :
  indexTypeDefs module = Ok st -> indexed_types module st.
Proof.
  unfold indexTypeDefs. apply foldM_invariant_prefix; [|apply indexed_types_nil].
  intros p x rest s s' _. apply indexed_types_step.
Qed.

(** ** Resolution of the type definitions of a module *)

Lemma addTypeDefs_spec (names : list string) (gen : generator) :
  ts (addTypeDefs gen names) = ts gen /\
  gs (addTypeDefs gen names) = gs gen /\
  types_heap (addTypeDefs gen names) = types_heap gen /\
  consts_heap (addTypeDefs gen names) = consts_heap gen /\
  TypeDefs (m (addTypeDefs gen names)) =
    TypeDefs (m gen) ++ ((fun key => ts gen !! key) <$> names) /\
  Globals (m (addTypeDefs gen names)) = Globals (m gen) /\
  Funcs (m (addTypeDefs gen names)) = Funcs (m gen).
Proof.
  revert gen. induction names as [|key names IH]; intros gen.
  - simpl. by rewrite app_nil_r.
  - unfold addTypeDefs in *. simpl foldl.
    destruct (IH (set_m gen
      {| TypeDefs := TypeDefs (m gen) ++ [ts gen !! key];
         Globals := Globals (m gen); Funcs := Funcs (m gen) |}))
      as (-> & -> & -> & -> & -> & -> & ->).
    simpl. by rewrite <- app_assoc.
Qed.

Lemma resolved_types_of_filled (ix : gmap string LlvmNode) (base : nat)
    (entries : list (string * LlvmNode)) (gen gen' : generator) :
  entries ≡ₚ map_to_list ix -> filled ix base entries gen ->
  ts gen' = ts gen -> types_heap gen' = types_heap gen ->
  resolved_types ix gen'.
Proof.
  intros Hperm (Hbase & Hlt & Hinj & Hdom & Hent) Hts Hheap.
  unfold resolved_types. rewrite Hts, Hheap. split; [|split; [done|]].
  - intros alias. split; [apply Hdom|]. intros [old Hold].
    destruct (Hent _ _ Hold) as (l & _ & Hl & _). eauto.
  - intros alias old Hold.
    destruct (Hent _ _ Hold) as (l & n & Hl & Hn & Hkind & _ & Hdone).
    exists l, n. split; [done|]. split; [done|]. split; [done|].
    assert (Hin : alias ∈ entries.*1).
    { apply list_elem_of_fmap. exists (alias, old). split; [done|].
      rewrite Hperm. by apply elem_of_map_to_list. }
    specialize (Hdone Hin). destruct old as [| |old]; [done|done|].
    intros Hexp. eapply node_denotes_mono; [|by apply Hdone].
    intros e o. apply denotes_mono; [lia|done|]. intros ? ? _. by rewrite Hheap.
Qed.

(** A successful [resolveTypeDefs] has indexed the module, bound every
    type name to its filled node, and appended the nodes to the type
    definitions of the IR module in the order recorded by the index. *)
Lemma resolveTypeDefs_Ok (gen gen' : generator) (module : list TopLevelEntity) :
  range_ok -> resolveTypeDefs gen module = Ok gen' ->
  exists st,
    indexTypeDefs module = Ok st /\
    resolved_types (index st) gen' /\
    gs gen' = gs gen /\ consts_heap gen' = consts_heap gen /\
    TypeDefs (m gen') = TypeDefs (m gen) ++ ((fun key => ts gen' !! key) <$> order st) /\
    Globals (m gen') = Globals (m gen) /\ Funcs (m gen') = Funcs (m gen).
Proof.
  intros Hrange Hrun. unfold resolveTypeDefs in Hrun.
  inv_bind Hrun. rename x into st. inv_bind Hrunb. rename x into g1.
  inv_bind Hrunbb. rename x into g2. injection Hrunbbb as <-.
  exists st. split; [done|].
  pose proof (newIRTypes_Ok _ _ _ Hrange Hrunba) as Hskel.
  pose proof (filled_init _ _ _ _ (Hrange _ _ _) Hskel) as Hinit.
  pose proof (astToIRTypeDefs_Ok _ _ _ _ Hrange Hinit Hrunbba) as Hfilled.
  destruct (astToIRTypeDefs_frame _ _ _ Hrunbba) as (Hts & Hgs & Hm & Hc).
  destruct Hskel as (Hgs1 & Hm1 & Hc1 & _).
  destruct (addTypeDefs_spec (order st) g2) as (Ha1 & Ha2 & Ha3 & Ha4 & Ha5 & Ha6 & Ha7).
  split; [|split; [congruence|split; [congruence|split; [|split; congruence]]]].
  - eapply resolved_types_of_filled; [apply (Hrange RangeTypeDef)|exact Hfilled|done|done].
  - rewrite Ha5, Ha1. congruence.
Qed.

(** ** How the translation of a type can fail *)

Lemma type_outcome_nested (gen : generator) (t : option loc) (k : option type_kind)
    (r : result (generator * loc)) :
  type_outcome gen None None r -> type_outcome gen t k r.
Proof.
  destruct r as [[g l]|e|q|]; simpl; auto.
  intros [(l & k' & ? & _)|?]; [done|auto].
Qed.

Lemma type_outcome_None (gen : generator) (k : option type_kind)
    (r : result (generator * loc)) :
  type_outcome gen None k r -> type_outcome gen None None r.
Proof.
  destruct r as [[g l]|e|q|]; simpl; auto.
  intros [(l & k' & ? & _)|?]; [done|auto].
Qed.

Lemma irIntTypeBitSize_panic (text : string) (q : panic) :
  irIntTypeBitSize text = Panic q -> literal_panic q.
Proof.
  unfold irIntTypeBitSize. destruct (negb _); [by intros [= <-]|].
  destruct (ParseInt_10_64 _); [done|]. by intros [= <-].
Qed.

Lemma irIntTypeBitSize_cases (text : string) :
  (exists x, irIntTypeBitSize text = Ok x) \/
  (exists q, irIntTypeBitSize text = Panic q /\ literal_panic q).
Proof.
  unfold irIntTypeBitSize. destruct (negb _); [right; by eexists|].
  destruct (ParseInt_10_64 _); [left|right]; by eexists.
Qed.

Lemma irFloatKind_cases (text : string) :
  (exists x, irFloatKind text = Ok x) \/
  (exists q, irFloatKind text = Panic q /\ literal_panic q).
Proof.
  unfold irFloatKind. repeat (case_decide; [left; by eexists|]).
  right. by eexists.
Qed.

Section translator_outcomes.
Variable irTy : generator -> ast_Type -> result (generator * loc).

#[local] Abbreviation sub_outcome old :=
  (forall g, type_outcome g None None (irTy g old)).

Lemma fields_loop_outcome (upd : loc -> types_Type -> types_Type) (typ : loc)
    (fields : list ast_Type) :
  Forall (fun f => sub_outcome f) fields ->
  forall gen,
    loop_outcome gen
      (foldM (fun gen f => '(gen, field) ← irTy gen f;
                           Ok (update_type gen typ (upd field))) gen fields).
Proof.
  induction 1 as [|f fields Hf _ IH]; intros gen; [done|].
  rewrite foldM_cons. specialize (Hf gen).
  destruct (irTy gen f) as [[g1 field]|e|q|]; simpl in *; [| |by destruct Hf as [(?&?&?&_)|?]|done].
  - specialize (IH (update_type g1 typ (upd field))).
    destruct (foldM _ _ fields) as [g2|e|q|]; simpl in *; [congruence| |done|done].
    destruct IH as (name & -> & Hname). exists name. split; [done|]. congruence.
  - done.
Qed.

Lemma type_assert_outcome (gen : generator) (t : option loc) (k : type_kind)
    (zero : types_Type) :
  match type_assert gen t k zero with
  | Ok (g1, _) => ts g1 = ts gen
  | Panic q =>
      exists l, t = Some l /\ kind_at gen l <> Some k /\
                q = PanicInvalidIRType k (kind_at gen l)
  | _ => False
  end.
Proof.
  unfold type_assert. destruct t as [l|]; [|done].
  case_decide; [done|]. eauto.
Qed.

Ltac assert_outcome gen t k zero :=
  let Ha := fresh "Ha" in
  pose proof (type_assert_outcome gen t k zero) as Ha;
  destruct (type_assert gen t k zero) as [[?g1 ?typ]| |?q|];
  [simpl | done
  | destruct Ha as (?l & -> & ? & ->); left; eexists _, _;
    split; [done|split; [done|split; done]]
  | done].

Lemma leaf_outcome gen t k zero :
  type_outcome gen t (Some k) (type_assert gen t k zero).
Proof. assert_outcome gen t k zero. done. Qed.

Lemma astToIRIntType_outcome gen t text :
  type_outcome gen t (Some KInt) (astToIRIntType gen t text).
Proof.
  unfold astToIRIntType. assert_outcome gen t KInt (IntType EmptyString 0).
  destruct (irIntTypeBitSize_cases text) as [[x ->]|(q & -> & Hq)]; simpl; auto.
Qed.

Lemma astToIRFloatType_outcome gen t text :
  type_outcome gen t (Some KFloat) (astToIRFloatType gen t text).
Proof.
  unfold astToIRFloatType. assert_outcome gen t KFloat (FloatType EmptyString 0).
  destruct (irFloatKind_cases text) as [[x ->]|(q & -> & Hq)]; simpl; auto.
Qed.

Ltac sub_outcome H g :=
  let Hs := fresh "Hs" in
  pose proof (H g) as Hs;
  destruct (irTy g _) as [[?g2 ?e]|?e|?q|];
  simpl in Hs |- *;
  [ | destruct Hs as (?name & -> & ?); eexists; split; [done|congruence]
    | destruct Hs as [(?&?&?&_)|?]; [done|by right]
    | done ].

Lemma astToIRPointerType_outcome gen t elem a :
  sub_outcome elem ->
  type_outcome gen t (Some KPointer) (astToIRPointerType irTy gen t elem a).
Proof.
  intros Hsub. unfold astToIRPointerType.
  assert_outcome gen t KPointer (PointerType EmptyString None 0).
  sub_outcome Hsub g1. congruence.
Qed.

Lemma astToIRArrayType_outcome gen t len elem :
  sub_outcome elem ->
  type_outcome gen t (Some KArray) (astToIRArrayType irTy gen t len elem).
Proof.
  intros Hsub. unfold astToIRArrayType.
  assert_outcome gen t KArray (ArrayType EmptyString 0 None).
  sub_outcome Hsub (update_type g1 typ (set_Len (int64_of_uint64 len))). congruence.
Qed.

Lemma astToIRVectorType_outcome gen t len elem :
  sub_outcome elem ->
  type_outcome gen t (Some KVector) (astToIRVectorType irTy gen t len elem).
Proof.
  intros Hsub. unfold astToIRVectorType.
  assert_outcome gen t KVector (VectorType EmptyString 0 None).
  sub_outcome Hsub (update_type g1 typ (set_Len (int64_of_uint64 len))). congruence.
Qed.

Ltac loop_outcome H upd typ g :=
  let Hl := fresh "Hl" in
  pose proof (fields_loop_outcome upd typ _ H g) as Hl;
  destruct (foldM _ g _) as [?g3|?e|?q|]; simpl in Hl |- *;
  [ | destruct Hl as (?name & -> & ?); eexists; split; [done|congruence]
    | by right | done ].

Lemma astToIRStructType_outcome gen t fields :
  Forall (fun f => sub_outcome f) fields ->
  type_outcome gen t (Some KStruct) (astToIRStructType irTy gen t fields).
Proof.
  intros Hsub. unfold astToIRStructType.
  assert_outcome gen t KStruct (StructType EmptyString false [] false).
  loop_outcome Hsub append_Fields typ g1. congruence.
Qed.

Lemma astToIRPackedStructType_outcome gen t fields :
  Forall (fun f => sub_outcome f) fields ->
  type_outcome gen t (Some KStruct) (astToIRPackedStructType irTy gen t fields).
Proof.
  intros Hsub. unfold astToIRPackedStructType.
  assert_outcome gen t KStruct (StructType EmptyString false [] false).
  loop_outcome Hsub append_Fields typ (update_type g1 typ (set_Packed true)). congruence.
Qed.

Lemma astToIRFuncType_outcome gen t ret params v :
  sub_outcome ret -> Forall (fun f => sub_outcome f) params ->
  type_outcome gen t (Some KFunc) (astToIRFuncType irTy gen t ret params v).
Proof.
  intros Hret Hsub. unfold astToIRFuncType.
  assert_outcome gen t KFunc (FuncType EmptyString None [] false).
  sub_outcome Hret g1.
  loop_outcome Hsub append_Params typ (update_type g2 typ (set_RetType e)). congruence.
Qed.

End translator_outcomes.

Lemma astToIRNamedType_outcome (gen : generator) (t : option loc) (name : string) :
  type_outcome gen t None (astToIRNamedType gen t name).
Proof.
  unfold astToIRNamedType. destruct (ts gen !! name) eqn:E; simpl; eauto.
Qed.

(** The translation of a type ends with a result, with the error of a named
    type that is not in the table, or with a panic: of a skeleton of another
    kind than the type asserts, at the top only, or of a malformed literal. *)
Lemma astToIRType_outcome (old : ast_Type) :
  forall gen t, type_outcome gen t (expected_kind old) (astToIRType gen t old).
Proof.
  induction old using ast_Type_nested_ind; intros gen t;
    rewrite astToIRType_unfold; cbv zeta; simpl expected_kind.
  - apply astToIRArrayType_outcome. intros g. eapply type_outcome_None, IHold.
  - apply astToIRFloatType_outcome.
  - apply astToIRFuncType_outcome; [intros g; eapply type_outcome_None, IHold|].
    eapply Forall_impl; [exact H|]. intros f Hf g. eapply type_outcome_None, Hf.
  - apply astToIRIntType_outcome.
  - apply leaf_outcome.
  - apply leaf_outcome.
  - apply leaf_outcome.
  - apply astToIRNamedType_outcome.
  - apply astToIRPointerType_outcome. intros g. eapply type_outcome_None, IHold.
  - apply astToIRStructType_outcome.
    eapply Forall_impl; [exact H|]. intros f Hf g. eapply type_outcome_None, Hf.
  - apply astToIRPackedStructType_outcome.
    eapply Forall_impl; [exact H|]. intros f Hf g. eapply type_outcome_None, Hf.
  - apply leaf_outcome.
  - apply astToIRVectorType_outcome. intros g. eapply type_outcome_None, IHold.
  - apply leaf_outcome.
Qed.

(** ** How the resolution of the type definitions can fail *)

(** A loop that does not run to its end stops at a step that fails, in a
    state that satisfies the invariant of the loop. *)
Lemma foldM_failure {S A} (f : S -> A -> result S) (P : list A -> S -> Prop)
    (l : list A) :
  (forall p x rest s s', l = p ++ x :: rest -> P p s -> f s x = Ok s' -> P (p ++ [x]) s') ->
  forall s r, P [] s -> foldM f s l = r -> (forall s', r <> Ok s') ->
    exists p x rest s1, l = p ++ x :: rest /\ P p s1 /\ f s1 x = r.
Proof.
  intros Hstep.
  assert (Hgen : forall rest p s r, l = p ++ rest -> P p s ->
            foldM f s rest = r -> (forall s', r <> Ok s') ->
            exists p x rest s1, l = p ++ x :: rest /\ P p s1 /\ f s1 x = r).
  { induction rest as [|x rest IH]; intros p s r Hl HP Hrun Hfail.
    - simpl in Hrun. by destruct (Hfail s).
    - rewrite foldM_cons in Hrun. destruct (f s x) as [s2|e|q|] eqn:Hx.
      + simpl in Hrun. apply (IH (p ++ [x]) s2 r); [by rewrite <- app_assoc| |done|done].
        by eapply Hstep.
      + exists p, x, rest, s. simpl in Hrun. by rewrite Hx.
      + exists p, x, rest, s. simpl in Hrun. by rewrite Hx.
      + exists p, x, rest, s. simpl in Hrun. by rewrite Hx. }
  intros s r. by apply (Hgen l []).
Qed.

Lemma indexTypeDef_outcome (st : type_index) (e : TopLevelEntity) :
  match indexTypeDef st e with
  | Ok _ => True
  | Err e => exists alias prev new, e = ErrTypeDefPresent alias prev new
  | Panic q => q = PanicNotImplemented
  | OutOfFuel => False
  end.
Proof.
  destruct e; simpl; try done.
  destruct Typ; simpl; [done| |]; destruct (index st !! Alias) as [[| |]|]; simpl; eauto.
Qed.

Lemma newIRType_outcome (ix : gmap string LlvmNode) (fuel : nat) :
  forall gen alias old track,
    match newIRType fuel gen alias old ix track with
    | Ok _ => True
    | Err e => exists names, e = ErrSelfReferential names
    | Panic q => q = PanicNotImplemented
    | OutOfFuel => True
    end.
Proof.
  induction fuel as [|fuel IH]; intros gen alias old track;
    destruct (node_kind_cases old) as [->|[[k Hk]|[name ->]]];
    try (by rewrite newIRType_nil);
    try (by rewrite (newIRType_concrete _ _ _ _ _ _ _ Hk));
    rewrite newIRType_named; destruct (default false (track !! alias)); eauto.
  apply IH.
Qed.

Lemma track_ok_empty (ix : gmap string LlvmNode) : track_ok ix ∅.
Proof. intros a v H. by rewrite lookup_empty in H. Qed.

(** The ways [astToIRTypeDef] ends on the skeleton of its definition. *)
Lemma astToIRTypeDef_outcome (gen : generator) (l : loc) (old : LlvmNode) (n : types_Type) :
  old <> node_nil -> types_heap gen !! l = Some n ->
  (forall k, node_kind old = Some k -> kind_of_type n = k) ->
  match astToIRTypeDef gen (Some l) old with
  | Ok _ => True
  | Err e => exists name, e = ErrLocateTypeDef (enc_Local name) /\ ts gen !! name = None
  | Panic q => literal_panic q
  | OutOfFuel => False
  end.
Proof.
  intros Hnil Hn Hkind.
  assert (Hk : forall k, node_kind old = Some k -> kind_at gen l = Some k).
  { intros k Hk. unfold kind_at. rewrite Hn. simpl. f_equal. by apply Hkind. }
  destruct old as [| |old]; [done| |]; simpl.
  - unfold astToIROpaqueType. by rewrite decide_True by by apply Hk.
  - pose proof (astToIRType_outcome old gen (Some l)) as Hout.
    destruct (astToIRType gen (Some l) old) as [[g r]|e|q|]; simpl in *; try done.
    destruct Hout as [(l' & k' & [= <-] & Hexp & Hne & _)|?]; [|done].
    destruct Hne. by apply Hk.
Qed.

(** [resolveTypeDefs] ends with a result, with one of three errors, or with
    a panic on a nil node or on a malformed literal: it never panics on a
    skeleton of the wrong kind, nor on an opaque type out of place, and it
    never runs out of fuel. *)
Lemma resolveTypeDefs_outcome (gen : generator) (module : list TopLevelEntity) :
  range_ok ->
  match resolveTypeDefs gen module with
  | Ok _ => True
  | Err e =>
      (exists alias prev new, e = ErrTypeDefPresent alias prev new) \/
      (exists names, e = ErrSelfReferential names) \/
      (exists name, e = ErrLocateTypeDef (enc_Local name))
  | Panic q => q = PanicNotImplemented \/ literal_panic q
  | OutOfFuel => False
  end.
Proof.
  intros Hrange. unfold resolveTypeDefs.
  destruct (indexTypeDefs module) as [st|e|q|] eqn:Hindex; simpl.
  2-4: unfold indexTypeDefs in Hindex;
    apply (foldM_failure _ (fun _ _ => True)) in Hindex
      as (p & x & rest & s1 & _ & _ & Hx); [|done|done|done];
    pose proof (indexTypeDef_outcome s1 x) as Hout; rewrite Hx in Hout; eauto.
  apply indexTypeDefs_Ok in Hindex as (_ & _ & _ & Hnil).
  destruct (newIRTypes gen (index st)) as [g1|e|q|] eqn:Hnew; simpl.
  2-4: unfold newIRTypes in Hnew;
    apply (foldM_failure _ (fun _ _ => True)) in Hnew
      as (p & [alias old] & rest & s1 & Hl & _ & Hx); [|done|done|done];
    pose proof (newIRType_outcome (index st) (size (index st)) s1 alias old ∅) as Hout;
    destruct (newIRType (size (index st)) s1 alias old (index st) ∅)
      as [[g t]|e'|q'|] eqn:Hn; simpl in Hx; try done.
  2: { injection Hx as <-. destruct Hout as [names ->]. eauto. }
  2: { injection Hx as <-. auto. }
  2: { apply newIRType_fuel in Hn; [done|apply track_ok_empty| |lia].
       right. apply elem_of_map_to_list.
       apply (range_elem_of RangeNewIRType _ _ Hrange). rewrite Hl.
       apply elem_of_app. right. by left. }
  pose proof (newIRTypes_Ok _ _ _ Hrange Hnew) as Hskel.
  pose proof (filled_init _ _ _ _ (Hrange _ _ _) Hskel) as Hinit.
  destruct (astToIRTypeDefs g1 (index st)) as [g2|e|q|] eqn:Hfill; simpl; [done| | |].
  all: unfold astToIRTypeDefs in Hfill;
    pose proof (range_NoDup_fst RangeTypeDef (index st) Hrange) as Hnd;
    apply (foldM_failure _ (filled (index st) (length (types_heap g1)))) in Hfill
      as (p & [alias old] & rest & s1 & Hl & Hp & Hx); [| |exact Hinit|done].
  1,3,5: assert (Hix : index st !! alias = Some old)
    by (apply elem_of_map_to_list, (range_elem_of RangeTypeDef _ _ Hrange);
        rewrite Hl; apply elem_of_app; right; by left);
    destruct Hp as (_ & _ & _ & _ & Hent);
    destruct (Hent _ _ Hix) as (l & n & Hts & Hn & Hkind & _);
    rewrite Hts in Hx;
    assert (Hold : old <> node_nil) by (intros ->; by apply (Hnil alias));
    pose proof (astToIRTypeDef_outcome s1 l old n Hold Hn
                  (fun k Hk => proj1 (Hkind k Hk))) as Hout;
    destruct (astToIRTypeDef s1 (Some l) old) as [[g r]|e'|q'|]; simpl in Hx; try done.
  1: { injection Hx as <-. destruct Hout as (name & -> & _). eauto. }
  1: { injection Hx as <-. auto. }
  all: intros p' [a' o'] rest' s s' Hl' Hp' Hstep';
    eapply filled_step; [exact Hp'| | |exact Hstep'];
    [ apply elem_of_map_to_list, (range_elem_of RangeTypeDef _ _ Hrange);
      rewrite Hl'; apply elem_of_app; right; by left
    | rewrite Hl' in Hnd; by eapply NoDup_fst_split ].
Qed.

(** ** The heap of globals and functions *)

Lemma preserves_const_set_g_ContentType t : preserves_const (set_g_ContentType t).
Proof. intros []; simpl; eauto. Qed.
Lemma preserves_const_set_g_Typ t : preserves_const (set_g_Typ t).
Proof. intros []; simpl; eauto. Qed.
Lemma preserves_const_set_g_Attrs a : preserves_const (set_g_Attrs a).
Proof. intros []; simpl; eauto. Qed.
Lemma preserves_const_set_g_Init i : preserves_const (set_g_Init i).
Proof. intros []; simpl; eauto. Qed.
Lemma preserves_const_set_f_Sig s t : preserves_const (set_f_Sig s t).
Proof. intros []; simpl; eauto. Qed.
Lemma preserves_const_set_f_Linkage h : preserves_const (set_f_Linkage h).
Proof. intros []; simpl; eauto. Qed.
Lemma preserves_const_append_f_Params p : preserves_const (append_f_Params p).
Proof. intros []; simpl; eauto. Qed.
Lemma preserves_const_set_f_UnnamedAddr u : preserves_const (set_f_UnnamedAddr u).
Proof. intros []; simpl; eauto. Qed.
Lemma preserves_const_set_f_Blocks b : preserves_const (set_f_Blocks b).
Proof. intros []; simpl; eauto. Qed.

Create HintDb consts discriminated.
#[local] Hint Resolve preserves_const_set_g_ContentType preserves_const_set_g_Typ
  preserves_const_set_g_Attrs preserves_const_set_g_Init preserves_const_set_f_Sig
  preserves_const_set_f_Linkage preserves_const_append_f_Params
  preserves_const_set_f_UnnamedAddr preserves_const_set_f_Blocks : consts.

Lemma consts_preserved_refl (gen : generator) : consts_preserved gen gen.
Proof. unfold consts_preserved. repeat split; eauto. Qed.

Lemma consts_preserved_trans (g1 g2 g3 : generator) :
  consts_preserved g1 g2 -> consts_preserved g2 g3 -> consts_preserved g1 g3.
Proof.
  intros (Ht1 & Hg1 & Hm1 & Hl1 & Hk1) (Ht2 & Hg2 & Hm2 & Hl2 & Hk2).
  unfold consts_preserved. split; [congruence|]. split; [congruence|].
  split; [congruence|]. split; [lia|].
  intros l c Hl. destruct (Hk1 _ _ Hl) as (c' & Hl' & Hkc & Hnc & Htc).
  destruct (Hk2 _ _ Hl') as (c'' & Hl'' & Hkc' & Hnc' & Htc').
  exists c''. split; [done|]. split; [congruence|]. split; [congruence|auto].
Qed.

Lemma consts_preserved_same (g1 g2 : generator) :
  ts g2 = ts g1 -> gs g2 = gs g1 -> m g2 = m g1 ->
  consts_heap g2 = consts_heap g1 -> consts_preserved g1 g2.
Proof.
  intros Ht Hg Hm Hc. unfold consts_preserved. rewrite Hc.
  repeat split; eauto.
Qed.

Lemma consts_preserved_heap_extends (t : option loc) (g1 g2 : generator) :
  heap_extends t g1 g2 -> consts_preserved g1 g2.
Proof. intros (? & ? & ? & ? & _). by apply consts_preserved_same. Qed.

Lemma consts_preserved_update_type (g : generator) (l : loc) (f : types_Type -> types_Type) :
  consts_preserved g (update_type g l f).
Proof. by apply consts_preserved_same. Qed.

Lemma consts_preserved_set_types_heap (g : generator) (h : list types_Type) :
  consts_preserved g (set_types_heap g h).
Proof. by apply consts_preserved_same. Qed.

Lemma consts_preserved_new_type (g : generator) (n : types_Type) :
  consts_preserved g (new_type g n).1.
Proof. by apply consts_preserved_same. Qed.

Lemma consts_preserved_new_const (g : generator) (c : ir_Constant) :
  consts_preserved g (new_const g c).1.
Proof.
  unfold consts_preserved, new_const. simpl. repeat split; auto.
  - rewrite length_app. lia.
  - intros l c' Hl. exists c'. split; [by apply lookup_app_l_Some|auto].
Qed.

Lemma consts_preserved_update_const (g : generator) (l : loc)
    (f : ir_Constant -> ir_Constant) :
  preserves_const f -> consts_preserved g (update_const g l f).
Proof.
  intros Hf. unfold consts_preserved, update_const. simpl. rewrite length_alter.
  repeat split; auto.
  intros l' c Hl'. destruct (decide (l = l')) as [->|Hne].
  - exists (f c). rewrite list_lookup_alter_eq, Hl'. simpl.
    by destruct (Hf c) as (-> & -> & ?).
  - exists c. by rewrite list_lookup_alter_ne.
Qed.

Lemma irType_consts (gen gen' : generator) (old : ast_Type) (r : loc) :
  irType gen old = Ok (gen', r) -> consts_preserved gen gen'.
Proof. intros H. apply irType_frame in H. by eapply consts_preserved_heap_extends. Qed.

Lemma set_Typ_AddrSpace_consts (gen gen' : generator) (typ : option loc) (a : Z) :
  set_Typ_AddrSpace gen typ a = Ok gen' -> consts_preserved gen gen'.
Proof.
  unfold set_Typ_AddrSpace. destruct typ; [|done]. intros [= <-].
  apply consts_preserved_update_type.
Qed.

Lemma foldM_consts {A} (f : generator -> A -> result generator) (l : list A) :
  (forall g x g', f g x = Ok g' -> consts_preserved g g') ->
  forall gen gen', foldM f gen l = Ok gen' -> consts_preserved gen gen'.
Proof.
  intros Hf gen gen'.
  apply (foldM_invariant f (fun g => consts_preserved gen g)); [|apply consts_preserved_refl].
  intros s x s' _ Hs Hx. eapply consts_preserved_trans; eauto.
Qed.

(** ** Skeletons of globals and functions *)

Lemma cp_update_const (g g1 : generator) (l : loc) (f : ir_Constant -> ir_Constant) :
  preserves_const f -> consts_preserved g g1 -> consts_preserved g (update_const g1 l f).
Proof.
  intros Hf H. eapply consts_preserved_trans; [exact H|].
  by apply consts_preserved_update_const.
Qed.

Lemma cp_set_types_heap (g g1 : generator) (h : list types_Type) :
  consts_preserved g g1 -> consts_preserved g (set_types_heap g1 h).
Proof.
  intros H. eapply consts_preserved_trans; [exact H|].
  apply consts_preserved_set_types_heap.
Qed.

Lemma cp_update_type (g g1 : generator) (l : loc) (f : types_Type -> types_Type) :
  consts_preserved g g1 -> consts_preserved g (update_type g1 l f).
Proof. apply cp_set_types_heap. Qed.

Lemma params_loop_consts (typ : loc) (params : list ast_Param) (gen gen' : generator) :
  foldM (fun gen p => '(gen, param) ← irType gen (ap_Typ p);
                      Ok (update_type gen typ (append_Params param))) gen params = Ok gen' ->
  consts_preserved gen gen'.
Proof.
  apply foldM_consts. intros g0 p g0' Hp. inv_bind Hp.
  destruct x as [g2 param]. injection Hpb as <-.
  apply cp_update_type. by eapply irType_consts.
Qed.

Lemma update_const_lookup (g : generator) (l : loc) (f : ir_Constant -> ir_Constant) :
  consts_heap (update_const g l f) !! l = f <$> consts_heap g !! l.
Proof. unfold update_const. simpl. apply list_lookup_alter_eq. Qed.

Lemma new_const_lookup (gen : generator) (c : ir_Constant) :
  consts_heap (new_const gen c).1 !! length (consts_heap gen) = Some c.
Proof.
  unfold new_const. simpl. rewrite lookup_app_r by lia. by rewrite Nat.sub_diag.
Qed.

(** What the skeleton of an entity named [name] with zero value [zero] is:
    a fresh node that keeps the kind and the name of [zero] and has a
    pointer type. *)
Lemma newGlobal_Global_Ok (gen gen' : generator) (name : string) (old : ast_Global) (g : loc) :
  newGlobal_Global gen name old = Ok (gen', g) ->
  g = length (consts_heap gen) /\
  consts_preserved (new_const gen (zero_Global name)).1 gen' /\
  exists c, consts_heap gen' !! g = Some c /\ is_Some (Typ_field c).
Proof.
  unfold newGlobal_Global, types_NewPointer, new_type. cbv beta iota zeta.
  change (new_const gen (zero_Global name))
    with ((new_const gen (zero_Global name)).1, length (consts_heap gen)).
  cbv beta iota. intros H. inv_bind H. destruct x as [g1 contentType].
  injection Hb as <- <-. split; [done|].
  assert (Hpres : consts_preserved (new_const gen (zero_Global name)).1
            (update_const g1 (length (consts_heap gen)) (set_g_ContentType contentType))).
  { apply cp_update_const; [auto with consts|]. by eapply irType_consts. }
  split.
  - apply cp_update_const; [auto with consts|]. by apply cp_set_types_heap.
  - destruct Hpres as (_ & _ & _ & _ & Hkeep).
    destruct (Hkeep _ _ (new_const_lookup gen (zero_Global name))) as (c & Hc & Hk & _).
    rewrite update_const_lookup. cbn [consts_heap set_types_heap]. rewrite Hc. simpl.
    eexists. split; [done|]. destruct c; [simpl; eauto|done].
Qed.

Lemma newGlobal_Function_Ok (gen gen' : generator) (name : string) (hdr : ast_FuncHeader)
    (f : loc) :
  newGlobal_Function gen name hdr = Ok (gen', f) ->
  f = length (consts_heap gen) /\
  consts_preserved (new_const gen (zero_Function name)).1 gen' /\
  exists c, consts_heap gen' !! f = Some c /\ is_Some (Typ_field c).
Proof.
  unfold newGlobal_Function, types_NewPointer, new_type. cbv beta iota zeta.
  change (new_const gen (zero_Function name))
    with ((new_const gen (zero_Function name)).1, length (consts_heap gen)).
  cbv beta iota. intros H. inv_bind H. destruct x as [g1 retType].
  inv_bind Hb. injection Hbb as <- <-. split; [done|].
  assert (Hpres : consts_preserved (new_const gen (zero_Function name)).1
            (update_type x (length (types_heap (new_const gen (zero_Function name)).1))
               (set_Variadic (ah_Variadic hdr)))).
  { apply cp_update_type.
    eapply consts_preserved_trans; [|by eapply params_loop_consts].
    apply cp_update_type.
    eapply consts_preserved_trans; [|by eapply irType_consts].
    by apply consts_preserved_same. }
  split.
  - apply cp_update_const; [auto with consts|]. by apply cp_set_types_heap.
  - destruct Hpres as (_ & _ & _ & _ & Hkeep).
    destruct (Hkeep _ _ (new_const_lookup gen (zero_Function name))) as (c & Hc & Hk & _).
    rewrite update_const_lookup. cbn [consts_heap set_types_heap update_type] in *.
    rewrite Hc. simpl.
    eexists. split; [done|]. destruct c; [done|simpl; eauto].
Qed.

(** The skeleton of an entity is a fresh global or function, named as the
    entity, of the kind of the entity, with a pointer type. *)
Lemma newGlobal_Ok (gen gen' : generator) (name : string) (old : TopLevelEntity) (g : loc) :
  newGlobal gen name old = Ok (gen', g) ->
  consts_preserved gen gen' /\
  g = length (consts_heap gen) /\
  exists c, consts_heap gen' !! g = Some c /\ GlobalName_of c = name /\
            entity_kind old = Some (kind_of_const c) /\ is_Some (Typ_field c).
Proof.
  intros H.
  assert (Hcase : exists zero, entity_kind old = Some (kind_of_const zero) /\
            GlobalName_of zero = name /\
            g = length (consts_heap gen) /\
            consts_preserved (new_const gen zero).1 gen' /\
            exists c, consts_heap gen' !! g = Some c /\ is_Some (Typ_field c)).
  { destruct old; simpl in H; try done.
    - apply newGlobal_Global_Ok in H as (? & ? & ?). exists (zero_Global name). eauto.
    - apply newGlobal_Global_Ok in H as (? & ? & ?). exists (zero_Global name). eauto.
    - apply newGlobal_Function_Ok in H as (? & ? & ?). exists (zero_Function name). eauto.
    - apply newGlobal_Function_Ok in H as (? & ? & ?). exists (zero_Function name). eauto. }
  destruct Hcase as (zero & Hkz & Hnz & -> & Hpres & c & Hc & Htyp).
  split; [|split; [done|]].
  - eapply consts_preserved_trans; [apply consts_preserved_new_const|exact Hpres].
  - destruct Hpres as (_ & _ & _ & _ & Hkeep).
    destruct (Hkeep _ _ (new_const_lookup gen zero)) as (c' & Hc' & Hkc & Hnc & _).
    rewrite Hc in Hc'. injection Hc' as <-.
    exists c. split; [done|]. split; [congruence|]. split; [congruence|done].
Qed.

Lemma gskeletons_init (gen0 : generator) : gskeletons gen0 [] (set_gs gen0 ∅).
Proof.
  unfold gskeletons. simpl. repeat split; auto.
  - intros [? H]. by rewrite lookup_empty in H.
  - intros H. by apply elem_of_nil in H.
  - intros name l H. by rewrite lookup_empty in H.
Qed.

Lemma gskeletons_step (gen0 gen gen' : generator) (p : list (string * TopLevelEntity))
    (name : string) (old : TopLevelEntity) :
  gskeletons gen0 p gen -> name ∉ p.*1 ->
  ('(gen, g) ← newGlobal gen name old;
   Ok (set_gs gen (<[name := g]> (gs gen)))) = Ok gen' ->
  gskeletons gen0 (p ++ [(name, old)]) gen'.
Proof.
  intros (Hts & Hm & Hdom & Hnode) Hfresh Hrun.
  inv_bind Hrun. destruct x as [gen1 g]. injection Hrunb as <-.
  apply newGlobal_Ok in Hruna
    as ((Hts1 & Hgs1 & Hm1 & Hlen1 & Hkeep) & -> & c & Hc & Hname & Hkind & Htyp).
  unfold gskeletons. simpl. split; [congruence|]. split; [congruence|]. split.
  - intros x. rewrite fmap_app, elem_of_app. simpl.
    rewrite list_elem_of_singleton, <- Hdom, Hgs1.
    destruct (decide (x = name)) as [->|Hne].
    + rewrite lookup_insert_eq. split; eauto.
    + rewrite lookup_insert_ne by done. split; [auto|]. by intros [?|?].
  - intros x lx. rewrite Hgs1. destruct (decide (x = name)) as [->|Hne].
    + rewrite lookup_insert_eq. intros [= <-]. exists c. split; [done|]. split; [done|].
      split; [done|].
      intros old' Hin. apply elem_of_app in Hin as [Hin|Hin].
      * destruct Hfresh. apply list_elem_of_fmap. by exists (name, old').
      * apply list_elem_of_singleton in Hin. by injection Hin as ->.
    + rewrite lookup_insert_ne by done. intros Hx.
      destruct (Hnode _ _ Hx) as (c0 & Hl & Hn0 & Ht0 & Hk0).
      destruct (Hkeep _ _ Hl) as (c' & Hl' & Hkc & Hnc & Htc).
      exists c'. split; [done|]. split; [congruence|]. split; [auto|].
      intros old' Hin. apply elem_of_app in Hin as [Hin|Hin].
      * rewrite Hkc. by apply Hk0.
      * apply list_elem_of_singleton in Hin. congruence.
Qed.

Lemma newGlobals_Ok (gen gen' : generator) (ix : gmap string TopLevelEntity) :
  range_ok -> newGlobals gen ix = Ok gen' ->
  gskeletons gen (range RangeNewGlobal TopLevelEntity (map_to_list ix)) gen'.
Proof.
  intros Hrange Hrun. unfold newGlobals in Hrun.
  pose proof (range_NoDup_fst RangeNewGlobal ix Hrange) as Hnd.
  revert Hrun. apply foldM_invariant_prefix; [|apply gskeletons_init].
  intros p [name old] rest s s' Hl Hp Hstep.
  eapply gskeletons_step; [exact Hp| |exact Hstep].
  rewrite Hl in Hnd. by eapply NoDup_fst_split.
Qed.

Lemma resolved_globals_of_gskeletons (gen0 gen : generator)
    (ix : gmap string TopLevelEntity) (entries : list (string * TopLevelEntity)) :
  entries ≡ₚ map_to_list ix -> gskeletons gen0 entries gen -> resolved_globals ix gen.
Proof.
  intros Hperm (_ & _ & Hdom & Hnode). split.
  - intros name Hgs. apply Hdom in Hgs.
    apply list_elem_of_fmap in Hgs as ([a old] & -> & Hin). simpl.
    rewrite Hperm in Hin. apply elem_of_map_to_list in Hin. eauto.
  - intros name old Hix.
    assert (Hin : (name, old) ∈ entries).
    { rewrite Hperm. by apply elem_of_map_to_list. }
    assert (Hgs : is_Some (gs gen !! name)).
    { apply Hdom. apply list_elem_of_fmap. by exists (name, old). }
    destruct Hgs as [l Hl]. destruct (Hnode _ _ Hl) as (c & Hc & Hn & Ht & Hk).
    exists l, c. eauto 8.
Qed.

Lemma resolved_globals_preserved (ix : gmap string TopLevelEntity) (gen gen' : generator) :
  consts_preserved gen gen' -> resolved_globals ix gen -> resolved_globals ix gen'.
Proof.
  intros (_ & Hgs & _ & _ & Hkeep) [Hdom Hent]. split; rewrite Hgs; [done|].
  intros name old Hix. destruct (Hent _ _ Hix) as (l & c & Hl & Hc & Hn & Hk & Ht).
  destruct (Hkeep _ _ Hc) as (c' & Hc' & Hkc & Hnc & Htc).
  exists l, c'. split; [done|]. split; [done|]. split; [congruence|].
  split; [congruence|auto].
Qed.

(** ** The fill phase of globals and functions *)

Lemma header_loop_consts (f : loc) (params : list ast_Param) (gen gen' : generator) :
  foldM (fun gen p =>
           '(gen, typ) ← irType gen (ap_Typ p);
           let param := {| p_Typ := typ; p_LocalName := ap_Name p |} in
           Ok (update_const gen f (append_f_Params param))) gen params = Ok gen' ->
  consts_preserved gen gen'.
Proof.
  apply foldM_consts. intros g0 p g0' Hp. inv_bind Hp.
  destruct x as [g2 typ]. injection Hpb as <-.
  apply cp_update_const; [auto with consts|]. by eapply irType_consts.
Qed.

Lemma astToIRFuncHeader_Ok (gen gen' : generator) (f : loc) (hdr : ast_FuncHeader) :
  astToIRFuncHeader gen f hdr = Ok gen' -> consts_preserved gen gen'.
Proof.
  unfold astToIRFuncHeader. intros H. inv_bind H.
  eapply consts_preserved_trans; [|by eapply set_Typ_AddrSpace_consts].
  apply cp_update_const; [auto with consts|].
  eapply consts_preserved_trans; [|by eapply header_loop_consts].
  apply consts_preserved_update_const; auto with consts.
Qed.

Lemma lift_foreign_Ok {A} (r : foreign_result A) (a : A) :
  lift_foreign r = Ok a -> r = FOk a.
Proof. destruct r; simpl; congruence. Qed.

(** The fill of a global or function keeps every global and function, with
    its kind, its name and its pointer type. *)
Lemma astToIRGlobal_Ok (gen gen' : generator) (g : option loc) (old : TopLevelEntity) (r : loc) :
  astToIRGlobal gen g old = Ok (gen', r) -> consts_preserved gen gen'.
Proof.
  destruct old; simpl; try done.
  - unfold astToIRGlobalDecl. intros H. inv_bind H. inv_bind Hb. injection Hbb as <- <-.
    apply cp_update_const; [auto with consts|]. by eapply set_Typ_AddrSpace_consts.
  - unfold astToIRGlobalDef. intros H. inv_bind H. inv_bind Hb. inv_bind Hbb.
    destruct x1 as [h init]. injection Hbbb as <- <-.
    apply cp_update_const; [auto with consts|]. apply cp_set_types_heap.
    apply cp_update_const; [auto with consts|]. by eapply set_Typ_AddrSpace_consts.
  - unfold astToIRFuncDecl. intros H. inv_bind H. inv_bind Hb. injection Hbb as <- <-.
    by eapply astToIRFuncHeader_Ok.
  - unfold astToIRFuncDef. intros H. inv_bind H. inv_bind Hb. inv_bind Hbb.
    destruct x1 as [h blocks]. injection Hbbb as <- <-.
    apply cp_update_const; [auto with consts|]. apply cp_set_types_heap.
    by eapply astToIRFuncHeader_Ok.
Qed.

Lemma irType_outcome (gen : generator) (old : ast_Type) :
  type_outcome gen None None (irType gen old).
Proof. unfold irType. simpl. eapply type_outcome_None, astToIRType_outcome. Qed.

Lemma irType_loop_outcome {A} (proj : A -> ast_Type)
    (upd : generator -> A -> loc -> generator) (l : list A) :
  (forall g x r, ts (upd g x r) = ts g) ->
  forall gen,
    loop_outcome gen
      (foldM (fun gen x => '(gen, r) ← irType gen (proj x); Ok (upd gen x r)) gen l).
Proof.
  intros Hupd. induction l as [|x l IH]; intros gen; [done|].
  rewrite foldM_cons. pose proof (irType_outcome gen (proj x)) as Hp.
  destruct (irType gen (proj x)) as [[g1 r]|e|q|]; simpl in *;
    [| done | by destruct Hp as [(?&?&?&_)|?] | done].
  specialize (IH (upd g1 x r)).
  destruct (foldM _ _ l) as [g2|e|q|]; simpl in *; [| |done|done].
  - rewrite IH, Hupd. done.
  - destruct IH as (name & -> & Hname). exists name. split; [done|].
    rewrite Hupd in Hname. congruence.
Qed.

Lemma header_loop_outcome (f : loc) (params : list ast_Param) (gen : generator) :
  loop_outcome gen
    (foldM (fun gen p =>
              '(gen, typ) ← irType gen (ap_Typ p);
              let param := {| p_Typ := typ; p_LocalName := ap_Name p |} in
              Ok (update_const gen f (append_f_Params param))) gen params).
Proof.
  exact (irType_loop_outcome ap_Typ
           (fun gen p typ => update_const gen f
              (append_f_Params {| p_Typ := typ; p_LocalName := ap_Name p |}))
           params (fun _ _ _ => eq_refl) gen).
Qed.

Lemma sig_loop_outcome (sig : loc) (params : list ast_Param) (gen : generator) :
  loop_outcome gen
    (foldM (fun gen p =>
              '(gen, param) ← irType gen (ap_Typ p);
              Ok (update_type gen sig (append_Params param))) gen params).
Proof.
  exact (irType_loop_outcome ap_Typ
           (fun gen p param => update_type gen sig (append_Params param))
           params (fun _ _ _ => eq_refl) gen).
Qed.

Lemma Typ_of_preserved (gen gen' : generator) (l : loc) (c : ir_Constant) :
  consts_preserved gen gen' -> consts_heap gen !! l = Some c ->
  is_Some (Typ_field c) -> is_Some (Typ_of gen' l).
Proof.
  intros (_ & _ & _ & _ & Hkeep) Hc Ht.
  destruct (Hkeep _ _ Hc) as (c' & Hc' & _ & _ & Ht').
  unfold Typ_of. rewrite Hc'. destruct c'; by apply Ht'.
Qed.

Lemma astToIRFuncHeader_outcome (gen : generator) (f : loc) (hdr : ast_FuncHeader)
    (c : ir_Constant) :
  consts_heap gen !! f = Some c -> is_Some (Typ_field c) ->
  loop_outcome gen (astToIRFuncHeader gen f hdr).
Proof.
  intros Hc Ht. unfold astToIRFuncHeader.
  pose proof (header_loop_outcome f (ah_Params hdr)
                (update_const gen f (set_f_Linkage hdr))) as Hloop.
  destruct (foldM _ _ (ah_Params hdr)) as [g1|e|q|] eqn:Hrun; simpl in *; [| done..].
  assert (Hpres : consts_preserved gen
            (update_const g1 f (set_f_UnnamedAddr (ah_UnnamedAddr hdr)))).
  { apply cp_update_const; [auto with consts|].
    eapply consts_preserved_trans; [|by eapply header_loop_consts].
    apply consts_preserved_update_const; auto with consts. }
  destruct (Typ_of_preserved _ _ _ _ Hpres Hc Ht) as [p ->]. simpl. done.
Qed.

Lemma const_assert_kind (gen : generator) (l : loc) (c : ir_Constant) (k : const_kind) :
  consts_heap gen !! l = Some c -> kind_of_const c = k ->
  const_assert gen (Some l) k = Ok l.
Proof.
  intros Hc Hk. unfold const_assert, const_kind_at. rewrite Hc. simpl.
  by rewrite Hk, decide_True.
Qed.

Lemma lift_foreign_outcome {A B} (gen : generator) (r : foreign_result A)
    (f : A -> result B) :
  (forall a, global_outcome gen (f a)) ->
  global_outcome gen (lift_foreign r ≫= f).
Proof. intros Hf. destruct r; simpl; eauto. Qed.

Lemma loop_outcome_global (gen : generator) (r : result generator) :
  loop_outcome gen r -> global_outcome gen r.
Proof. destruct r; simpl; auto. Qed.

(** On the skeleton of its entity, the fill never panics on the kind of the
    skeleton nor on a nil pointer type. *)
Lemma astToIRGlobal_outcome (gen : generator) (l : loc) (old : TopLevelEntity)
    (c : ir_Constant) :
  consts_heap gen !! l = Some c -> entity_kind old = Some (kind_of_const c) ->
  is_Some (Typ_field c) ->
  global_outcome gen (astToIRGlobal gen (Some l) old).
Proof.
  intros Hc Hk Ht.
  assert (HTyp : is_Some (Typ_of gen l)).
  { unfold Typ_of. rewrite Hc. by destruct c. }
  destruct old; simpl in Hk; try done; injection Hk as Hk; simpl.
  - unfold astToIRGlobalDecl. rewrite (const_assert_kind _ _ _ _ Hc) by done.
    cbn [mbind result_bind]. cbv beta. destruct HTyp as [p ->]. done.
  - unfold astToIRGlobalDef. rewrite (const_assert_kind _ _ _ _ Hc) by done.
    cbn [mbind result_bind]. cbv beta. destruct HTyp as [p ->].
    cbn [set_Typ_AddrSpace mbind result_bind]. cbv beta.
    apply lift_foreign_outcome. by intros [h init].
  - unfold astToIRFuncDecl. rewrite (const_assert_kind _ _ _ _ Hc) by done. simpl.
    pose proof (astToIRFuncHeader_outcome gen l Header c Hc Ht) as Hh.
    destruct (astToIRFuncHeader gen l Header); simpl in *; auto.
  - unfold astToIRFuncDef. rewrite (const_assert_kind _ _ _ _ Hc) by done. simpl.
    pose proof (astToIRFuncHeader_outcome gen l Header c Hc Ht) as Hh.
    destruct (astToIRFuncHeader gen l Header) as [g1|e|q|]; simpl in *; auto.
    destruct (resolveLocals g1 l Body) as [[h blocks]|msg|msg]; simpl; eauto.
Qed.

(** The skeleton of an indexed entity fails on its types only. *)
Lemma newGlobal_outcome (gen : generator) (name : string) (old : TopLevelEntity) :
  is_Some (entity_kind old) -> global_outcome gen (newGlobal gen name old).
Proof.
  intros [k Hk].
  assert (Hg : forall g, global_outcome gen (newGlobal_Global gen name g)).
  { intros g. unfold newGlobal_Global, types_NewPointer, new_type, new_const.
    cbv beta iota zeta.
    pose proof (irType_outcome
      (set_consts_heap gen (consts_heap gen ++ [zero_Global name])) (ag_ContentType g)) as Ho.
    destruct (irType _ (ag_ContentType g)) as [[g1 t]|e|q|]; simpl in *;
      [done| auto | destruct Ho as [(?&?&?&_)|?]; [done|auto] | done]. }
  assert (Hf : forall h, global_outcome gen (newGlobal_Function gen name h)).
  { intros h. unfold newGlobal_Function, types_NewPointer, new_type, new_const.
    cbv beta iota zeta.
    set (g0 := set_types_heap _ _).
    pose proof (irType_outcome g0 (ah_RetType h)) as Ho.
    destruct (irType g0 (ah_RetType h)) as [[g1 t]|e|q|]; simpl in *;
      [| auto | destruct Ho as [(?&?&?&_)|?]; [done|auto] | done].
    pose proof (sig_loop_outcome (length (types_heap gen)) (ah_Params h)
                  (update_type g1 (length (types_heap gen)) (set_RetType t))) as Hloop.
    destruct (foldM _ _ (ah_Params h)) as [g2|e|q|]; simpl in *; [done| |auto|done].
    destruct Hloop as (nm & -> & Hnm). left. exists nm. split; [done|]. congruence. }
  destruct old; simpl in *; try done; auto.
Qed.

(** ** Assembly of the globals and functions *)

Lemma gen_lookup_Ok (gen : generator) (k : const_kind) (name : string) (l : loc) :
  must (gen_lookup gen k name) = Ok l <->
  gs gen !! name = Some l /\ const_kind_at gen l = Some k.
Proof.
  unfold gen_lookup. destruct (gs gen !! name) as [v|]; simpl; [|split; [done|by intros [? _]]].
  destruct (const_kind_at gen v) as [k'|] eqn:Hk; simpl.
  - case_decide as Hd; simpl.
    + subst k'. split; [by intros [= <-]|]. by intros [[= <-] _].
    + split; [done|]. intros [[= <-] Hk']. rewrite Hk in Hk'. by injection Hk' as <-.
  - split; [done|]. intros [[= <-] Hk']. by rewrite Hk in Hk'.
Qed.

Lemma addGlobals_Ok (names : list string) (gen gen' : generator) :
  addGlobals gen names = Ok gen' ->
  ts gen' = ts gen /\ gs gen' = gs gen /\ types_heap gen' = types_heap gen /\
  consts_heap gen' = consts_heap gen /\
  TypeDefs (m gen') = TypeDefs (m gen) /\ Funcs (m gen') = Funcs (m gen) /\
  exists locs, Globals (m gen') = Globals (m gen) ++ locs /\
    Forall2 (fun name l => gs gen !! name = Some l /\ const_kind_at gen l = Some KGlobal)
      names locs.
Proof.
  unfold addGlobals. revert gen. induction names as [|key names IH]; intros gen Hrun.
  - simpl in Hrun. injection Hrun as <-. repeat split; auto.
    exists []. by rewrite app_nil_r.
  - rewrite foldM_cons in Hrun. inv_bind Hrun. inv_bind Hruna. injection Hrunab as <-.
    apply gen_lookup_Ok in Hrunaa as [Hgs Hk].
    apply IH in Hrunb as (-> & -> & -> & -> & -> & -> & locs & -> & Hall).
    simpl. repeat split; auto. exists (x0 :: locs). rewrite <- app_assoc. split; [done|].
    constructor; [done|]. exact Hall.
Qed.

Lemma addFuncs_Ok (names : list string) (gen gen' : generator) :
  addFuncs gen names = Ok gen' ->
  ts gen' = ts gen /\ gs gen' = gs gen /\ types_heap gen' = types_heap gen /\
  consts_heap gen' = consts_heap gen /\
  TypeDefs (m gen') = TypeDefs (m gen) /\ Globals (m gen') = Globals (m gen) /\
  exists locs, Funcs (m gen') = Funcs (m gen) ++ locs /\
    Forall2 (fun name l => gs gen !! name = Some l /\ const_kind_at gen l = Some KFunction)
      names locs.
Proof.
  unfold addFuncs. revert gen. induction names as [|key names IH]; intros gen Hrun.
  - simpl in Hrun. injection Hrun as <-. repeat split; auto.
    exists []. by rewrite app_nil_r.
  - rewrite foldM_cons in Hrun. inv_bind Hrun. inv_bind Hruna. injection Hrunab as <-.
    apply gen_lookup_Ok in Hrunaa as [Hgs Hk].
    apply IH in Hrunb as (-> & -> & -> & -> & -> & -> & locs & -> & Hall).
    simpl. repeat split; auto. exists (x0 :: locs). rewrite <- app_assoc. split; [done|].
    constructor; [done|]. exact Hall.
Qed.

Lemma NoDup_omap_inj {A B} (f : A -> option B) (l : list A) (x y : A) (b : B) :
  NoDup (omap f l) -> x ∈ l -> y ∈ l -> f x = Some b -> f y = Some b -> x = y.
Proof.
  induction l as [|z l IH]; intros Hnd Hx Hy Hfx Hfy; [by apply elem_of_nil in Hx|].
  simpl in Hnd. apply elem_of_cons in Hx as [->|Hx]; apply elem_of_cons in Hy as [->|Hy].
  - done.
  - rewrite Hfx in Hnd. apply NoDup_cons in Hnd as [Hnot _]. destruct Hnot.
    apply list_elem_of_omap. eauto.
  - rewrite Hfy in Hnd. apply NoDup_cons in Hnd as [Hnot _]. destruct Hnot.
    apply list_elem_of_omap. eauto.
  - apply IH; auto. destruct (f z); [by apply NoDup_cons in Hnd as [_ ?]|done].
Qed.

(** The names of the two orders are bound in the index to entities of
    their category. *)
Lemma indexed_globals_order (module : list TopLevelEntity) (st : global_index) :
  indexed_globals module st ->
  (forall name, name ∈ globalOrder st ->
     exists old, gindex st !! name = Some old /\ entity_kind old = Some KGlobal) /\
  (forall name, name ∈ funcOrder st ->
     exists old, gindex st !! name = Some old /\ entity_kind old = Some KFunction) /\
  (forall name old, gindex st !! name = Some old -> is_Some (entity_kind old)).
Proof.
  intros (Hnd & Hdom & Hin & Hgo & Hfo).
  assert (Hfind : forall (f : TopLevelEntity -> option string) name,
            (forall e, f e = Some name -> global_name e = Some name) ->
            name ∈ omap f module ->
            exists old, gindex st !! name = Some old /\ f old = Some name).
  { intros f name Hf Hname. apply list_elem_of_omap in Hname as (e & He & Hfe).
    destruct (Hdom name) as [old Hold].
    { apply list_elem_of_omap. exists e. auto. }
    exists old. split; [done|]. destruct (Hin _ _ Hold) as [Hmem Hgn].
    by rewrite (NoDup_omap_inj global_name module old e name Hnd Hmem He Hgn (Hf _ Hfe)). }
  split; [|split].
  - intros name Hname. rewrite Hgo in Hname.
    destruct (Hfind global_var_name name) as (old & Hold & Hf); [|done|].
    + by intros [].
    + exists old. split; [done|]. by destruct old.
  - intros name Hname. rewrite Hfo in Hname.
    destruct (Hfind func_name name) as (old & Hold & Hf); [|done|].
    + by intros [].
    + exists old. split; [done|]. by destruct old.
  - intros name old Hold. destruct (Hin _ _ Hold) as [_ Hgn]. by destruct old.
Qed.

(** A successful [resolveGlobals] has indexed the module, bound every
    global and function name to a value of its kind and name, and appended
    the values to the two lists of the IR module in the orders recorded by
    the index. *)
Lemma resolveGlobals_Ok (gen gen' : generator) (module : list TopLevelEntity) :
  range_ok -> resolveGlobals gen module = Ok gen' ->
  exists st globals funcs,
    indexGlobals module = Ok st /\
    resolved_globals (gindex st) gen' /\
    ts gen' = ts gen /\ TypeDefs (m gen') = TypeDefs (m gen) /\
    Globals (m gen') = Globals (m gen) ++ globals /\
    Funcs (m gen') = Funcs (m gen) ++ funcs /\
    Forall2 (fun name l => gs gen' !! name = Some l /\ const_kind_at gen' l = Some KGlobal)
      (globalOrder st) globals /\
    Forall2 (fun name l => gs gen' !! name = Some l /\ const_kind_at gen' l = Some KFunction)
      (funcOrder st) funcs.
Proof.
  intros Hrange Hrun. unfold resolveGlobals in Hrun.
  inv_bind Hrun. rename x into st. inv_bind Hrunb. rename x into g1.
  inv_bind Hrunbb. rename x into g2. inv_bind Hrunbbb. rename x into g3.
  pose proof (newGlobals_Ok _ _ _ Hrange Hrunba) as Hskel.
  pose proof (resolved_globals_of_gskeletons _ _ _ _ (Hrange _ _ _) Hskel) as Hres1.
  assert (Hpres : consts_preserved g1 g2).
  { unfold astToIRGlobals in Hrunbba. revert Hrunbba. apply foldM_consts.
    intros g [name old] g' Hstep. inv_bind Hstep. destruct x as [g0 r].
    injection Hstepb as <-. by eapply astToIRGlobal_Ok. }
  pose proof (resolved_globals_preserved _ _ _ Hpres Hres1) as Hres2.
  destruct Hskel as (Hts1 & Hm1 & _). destruct Hpres as (Hts2 & Hgs2 & Hm2 & _).
  apply addGlobals_Ok in Hrunbbba as (Hts3 & Hgs3 & Hth3 & Hch3 & Htd3 & Hfu3 & globals & Hgl3 & Hall3).
  apply addFuncs_Ok in Hrunbbbb as (Hts4 & Hgs4 & Hth4 & Hch4 & Htd4 & Hgl4 & funcs & Hfu4 & Hall4).
  exists st, globals, funcs. split; [done|]. split; [|split; [|split; [|split; [|split; [|split]]]]].
  - destruct Hres2 as [Hd He]. split; rewrite Hgs4, Hgs3; [done|].
    intros name old Hix. destruct (He _ _ Hix) as (l & c & ? & ? & ?).
    exists l, c. rewrite Hch4, Hch3. auto.
  - simpl in *. congruence.
  - simpl in *. congruence.
  - simpl in *. congruence.
  - simpl in *. congruence.
  - eapply Forall2_impl; [exact Hall3|]. intros name l [? ?].
    unfold const_kind_at in *. rewrite Hgs4, Hgs3, Hch4, Hch3. auto.
  - eapply Forall2_impl; [exact Hall4|]. intros name l [? ?].
    unfold const_kind_at in *. rewrite Hgs4, Hch4. auto.
Qed.

(** ** How the resolution of globals and functions can fail *)

Lemma resolved_lookup (ix : gmap string TopLevelEntity) (gen : generator)
    (name : string) (old : TopLevelEntity) (k : const_kind) :
  resolved_globals ix gen -> ix !! name = Some old -> entity_kind old = Some k ->
  exists l, must (gen_lookup gen k name) = Ok l.
Proof.
  intros [_ Hent] Hix Hk. destruct (Hent _ _ Hix) as (l & c & Hl & Hc & _ & Hkc & _).
  exists l. apply gen_lookup_Ok. split; [done|].
  unfold const_kind_at. rewrite Hc. simpl. congruence.
Qed.

Lemma assembly_never_fails (k : const_kind) (ix : gmap string TopLevelEntity)
    (add : generator -> loc -> generator) (names : list string) :
  (forall g l, gs (add g l) = gs g /\ consts_heap (add g l) = consts_heap g) ->
  (forall name, name ∈ names ->
     exists old, ix !! name = Some old /\ entity_kind old = Some k) ->
  forall gen, resolved_globals ix gen ->
    exists gen', foldM (fun gen key => l ← must (gen_lookup gen k key); Ok (add gen l))
                   gen names = Ok gen'.
Proof.
  intros Hadd. induction names as [|key names IH]; intros Hnames gen Hres.
  - by exists gen.
  - rewrite foldM_cons.
    destruct (Hnames key) as (old & Hix & Hk); [by left|].
    destruct (resolved_lookup _ _ _ _ _ Hres Hix Hk) as [l ->]. simpl.
    apply IH; [intros; apply Hnames; by right|].
    destruct (Hadd gen l) as [Hg Hc]. destruct Hres as [Hd He].
    split; rewrite Hg; [done|]. intros name o Ho.
    destruct (He _ _ Ho) as (l' & c & ? & ? & ?). exists l', c. rewrite Hc. auto.
Qed.

(** Once the names are indexed, [resolveGlobals] ends with a result, with
    the error of a named type absent from the table or of a collaborator,
    or with the panic of a malformed literal or of a collaborator: neither
    the kind assertions of the fill phase, nor the lookups of the assembly,
    nor the pointer type of a skeleton make it panic. *)
Lemma resolveGlobals_indexed_outcome (gen : generator) (module : list TopLevelEntity)
    (st : global_index) :
  range_ok -> indexGlobals module = Ok st ->
  match resolveGlobals gen module with
  | Ok _ => True
  | Err e =>
      (exists name, e = ErrLocateTypeDef (enc_Local name)) \/
      (exists msg, e = ErrForeign msg)
  | Panic q => literal_panic q \/ (exists msg, q = PanicForeign msg)
  | OutOfFuel => False
  end.
Proof.
  intros Hrange Hindex. unfold resolveGlobals.
  pose proof (indexGlobals_Ok _ _ Hindex) as Hinv.
  rewrite Hindex. simpl.
  destruct (indexed_globals_order _ _ Hinv) as (Hgo & Hfo & Hkinds).
  assert (Hglobal : forall g (r : result generator),
            global_outcome g r ->
            match r with
            | Ok _ => True
            | Err e =>
                (exists name, e = ErrLocateTypeDef (enc_Local name)) \/
                (exists msg, e = ErrForeign msg)
            | Panic q => literal_panic q \/ (exists msg, q = PanicForeign msg)
            | OutOfFuel => False
            end).
  { intros g [| | |]; simpl; [done| |done|done].
    intros [(nm & -> & _)|?]; eauto. }
  destruct (newGlobals gen (gindex st)) as [g1|e|q|] eqn:Hnew; simpl.
  2-4: unfold newGlobals in Hnew;
    apply (foldM_failure _ (fun _ _ => True)) in Hnew
      as (p & [name old] & rest & s1 & Hl & _ & Hx); [|done|done|done];
    assert (Hix : gindex st !! name = Some old)
      by (apply elem_of_map_to_list, (range_elem_of RangeNewGlobal _ _ Hrange);
          rewrite Hl; apply elem_of_app; right; by left);
    pose proof (newGlobal_outcome s1 name old (Hkinds _ _ Hix)) as Hout;
    destruct (newGlobal s1 name old) as [[g r]|e'|q'|]; simpl in Hx; try done;
    injection Hx as <-; apply (Hglobal s1 (Err e')) || apply (Hglobal s1 (Panic q'));
    exact Hout.
  pose proof (newGlobals_Ok _ _ _ Hrange Hnew) as Hskel.
  pose proof (resolved_globals_of_gskeletons _ _ _ _ (Hrange _ _ _) Hskel) as Hres1.
  assert (Hstep : forall (p : list (string * TopLevelEntity)) x
            (rest : list (string * TopLevelEntity)) s s',
            range RangeGlobal TopLevelEntity (map_to_list (gindex st)) = p ++ x :: rest ->
            consts_preserved g1 s ->
            (let '(name, old) := x in
             '(gen, _) ← astToIRGlobal s (gs s !! name) old; Ok gen) = Ok s' ->
            consts_preserved g1 s').
  { intros p [name old] rest s s' _ Hs Hx. inv_bind Hx. destruct x as [g0 r].
    injection Hxb as <-. eapply consts_preserved_trans; [exact Hs|].
    by eapply astToIRGlobal_Ok. }
  destruct (astToIRGlobals g1 (gindex st)) as [g2|e|q|] eqn:Hfill; simpl.
  2-4: unfold astToIRGlobals in Hfill;
    apply (foldM_failure _ (fun _ g => consts_preserved g1 g)) in Hfill
      as (p & [name old] & rest & s1 & Hl & Hp & Hx);
      [|exact Hstep|apply consts_preserved_refl|done];
    assert (Hix : gindex st !! name = Some old)
      by (apply elem_of_map_to_list, (range_elem_of RangeGlobal _ _ Hrange);
          rewrite Hl; apply elem_of_app; right; by left);
    destruct (resolved_globals_preserved _ _ _ Hp Hres1) as [_ Hent];
    destruct (Hent _ _ Hix) as (l & c & Hgs & Hc & _ & Hk & Ht);
    rewrite Hgs in Hx;
    pose proof (astToIRGlobal_outcome s1 l old c Hc Hk Ht) as Hout;
    destruct (astToIRGlobal s1 (Some l) old) as [[g r]|e'|q'|]; simpl in Hx; try done;
    injection Hx as <-; apply (Hglobal s1 (Err e')) || apply (Hglobal s1 (Panic q'));
    exact Hout.
  assert (Hres2 : resolved_globals (gindex st) g2).
  { apply (resolved_globals_preserved _ g1); [|done].
    unfold astToIRGlobals in Hfill. revert Hfill.
    apply (foldM_invariant_prefix _ (fun _ g => consts_preserved g1 g));
      [exact Hstep|apply consts_preserved_refl]. }
  destruct (assembly_never_fails KGlobal (gindex st)
              (fun gen g => set_m gen {| TypeDefs := TypeDefs (m gen);
                                         Globals := Globals (m gen) ++ [g];
                                         Funcs := Funcs (m gen) |})
              (globalOrder st) (fun _ _ => conj eq_refl eq_refl) Hgo g2 Hres2)
    as [g3 Hg3].
  unfold addGlobals, gen_global. rewrite Hg3. simpl.
  assert (Hres3 : resolved_globals (gindex st) g3).
  { apply addGlobals_Ok in Hg3 as (_ & Hgs3 & _ & Hch3 & _).
    destruct Hres2 as [Hd He]. split; rewrite Hgs3; [done|].
    intros name o Ho. destruct (He _ _ Ho) as (l' & c & ? & ? & ?).
    exists l', c. rewrite Hch3. auto. }
  destruct (assembly_never_fails KFunction (gindex st)
              (fun gen f => set_m gen {| TypeDefs := TypeDefs (m gen);
                                         Globals := Globals (m gen);
                                         Funcs := Funcs (m gen) ++ [f] |})
              (funcOrder st) (fun _ _ => conj eq_refl eq_refl) Hfo g3 Hres3)
    as [g4 Hg4].
  unfold addFuncs, gen_function. by rewrite Hg4.
Qed.

(** With the indexing loop, the error of a repeated name is the third
    error [resolveGlobals] can end with. *)
Lemma resolveGlobals_outcome (gen : generator) (module : list TopLevelEntity) :
  range_ok ->
  match resolveGlobals gen module with
  | Ok _ => True
  | Err e =>
      (exists name prev new, e = ErrGlobalPresent name prev new) \/
      (exists name, e = ErrLocateTypeDef (enc_Local name)) \/
      (exists msg, e = ErrForeign msg)
  | Panic q => literal_panic q \/ (exists msg, q = PanicForeign msg)
  | OutOfFuel => False
  end.
Proof.
  intros Hrange.
  destruct (indexGlobals_run module [] _ indexed_globals_nil)
    as [(st & Hindex & Hinv)|(name & prev & new & l1 & l2 & l3 & _ & _ & _ & Herr)].
  2: { unfold resolveGlobals, indexGlobals. rewrite Herr. simpl. eauto 6. }
  pose proof (resolveGlobals_indexed_outcome gen module st Hrange Hindex) as H.
  destruct (resolveGlobals gen module); try done. destruct H; auto.
Qed.

(** ** Kind of the skeleton against kind of the definition *)

Lemma astToIRType_mismatch (gen : generator) (l : loc) (old : ast_Type) (k : type_kind) :
  expected_kind old = Some k -> kind_at gen l <> Some k ->
  astToIRType gen (Some l) old = Panic (PanicInvalidIRType k (kind_at gen l)).
Proof.
  intros Hk Hne. rewrite astToIRType_unfold. cbv zeta.
  destruct old; simpl in Hk; try discriminate; injection Hk as <-;
    unfold astToIRArrayType, astToIRFloatType, astToIRFuncType, astToIRIntType,
      astToIRLabelType, astToIRMMXType, astToIRMetadataType, astToIRPointerType,
      astToIRStructType, astToIRPackedStructType, astToIRTokenType,
      astToIRVectorType, astToIRVoidType, type_assert;
    by rewrite decide_False.
Qed.

Lemma const_assert_mismatch (gen : generator) (g : option loc) (k : const_kind) :
  g ≫= const_kind_at gen <> Some k ->
  const_assert gen g k = Panic (PanicInvalidIRConstant k (g ≫= const_kind_at gen)).
Proof.
  unfold const_assert. destruct g as [l|]; simpl; [|done].
  intros Hne. by rewrite decide_False.
Qed.

(** C9: a fill-phase call whose skeleton is of another kind than its raw
    node panics, for types, for opaque types and for globals and functions
    alike, instead of returning an error; and the resolution of a module,
    where every skeleton comes from the skeleton phase over the same index,
    never ends with such a panic. *)
Theorem kind_mismatch_panics_and_is_unreachable (gen : generator) (l : loc)
    (old : ast_Type) (k : type_kind) (g : option loc) (e : TopLevelEntity)
    (kc : const_kind) (module : list TopLevelEntity) :
  range_ok ->
  (expected_kind old = Some k -> kind_at gen l <> Some k ->
     astToIRTypeDef gen (Some l) (node_Type old) =
       Panic (PanicInvalidIRType k (kind_at gen l))) /\
  (kind_at gen l <> Some KStruct ->
     astToIRTypeDef gen (Some l) node_OpaqueType =
       Panic (PanicInvalidIRType KStruct (kind_at gen l))) /\
  (entity_kind e = Some kc -> g ≫= const_kind_at gen <> Some kc ->
     astToIRGlobal gen g e =
       Panic (PanicInvalidIRConstant kc (g ≫= const_kind_at gen))) /\
  (forall k' got, resolveTypeDefs gen module <> Panic (PanicInvalidIRType k' got)) /\
  (forall k' got, resolveGlobals gen module <> Panic (PanicInvalidIRType k' got)) /\
  (forall k' got, resolveGlobals gen module <> Panic (PanicInvalidIRConstant k' got)).
Proof.
  intros Hrange. split; [|split; [|split; [|split; [|split]]]].
  - intros Hk Hne. simpl. by apply astToIRType_mismatch.
  - intros Hne. simpl. unfold astToIROpaqueType. by rewrite decide_False.
  - intros Hk Hne.
    destruct e; simpl in Hk; try discriminate; injection Hk as <-; simpl;
      unfold astToIRGlobalDecl, astToIRGlobalDef, astToIRFuncDecl, astToIRFuncDef;
      by rewrite const_assert_mismatch.
  - intros k' got Hp. pose proof (resolveTypeDefs_outcome gen module Hrange) as Hout.
    rewrite Hp in Hout. by destruct Hout.
  - intros k' got Hp. pose proof (resolveGlobals_outcome gen module Hrange) as Hout.
    rewrite Hp in Hout. by destruct Hout as [?|[? ?]].
  - intros k' got Hp. pose proof (resolveGlobals_outcome gen module Hrange) as Hout.
    rewrite Hp in Hout. by destruct Hout as [?|[? ?]].
Qed.

(** ** The lists of the assembled module *)

(** C2: after a successful resolution the type definition list of the IR
    module has one entry for each of the N distinct type names, its global
    list one for each of the M globals and its function list one for each of
    the K functions of the module; the entries are the values the names are
    bound to, in the order in which the names first occur in the module,
    whatever the order in which the tables are visited. *)
Theorem module_lists_in_first_occurrence_order (gen gen1 gen2 : generator)
    (module : list TopLevelEntity) :
  range_ok ->
  resolveTypeDefs gen module = Ok gen1 ->
  resolveGlobals gen1 module = Ok gen2 ->
  let types := first_occurrences (omap type_name module) in
  let globals := omap global_var_name module in
  let funcs := omap func_name module in
  NoDup types /\ (forall a, a ∈ types <-> a ∈ omap type_name module) /\
  length types = size (list_to_set (omap type_name module) : gset string) /\
  NoDup (omap global_name module) /\
  exists tl gl fl,
    TypeDefs (m gen2) = TypeDefs (m gen) ++ tl /\
    Globals (m gen2) = Globals (m gen) ++ gl /\
    Funcs (m gen2) = Funcs (m gen) ++ fl /\
    length tl = length types /\ length gl = length globals /\
    length fl = length funcs /\
    Forall2 (fun name t => exists l n, t = Some l /\ ts gen2 !! name = Some l /\
               types_heap gen1 !! l = Some n) types tl /\
    Forall2 (fun name l => gs gen2 !! name = Some l /\
               exists g, consts_heap gen2 !! l = Some (Global g) /\
                         g_GlobalName g = name) globals gl /\
    Forall2 (fun name l => gs gen2 !! name = Some l /\
               exists f, consts_heap gen2 !! l = Some (Function f) /\
                         f_GlobalName f = name) funcs fl.
Proof.
  intros Hrange Htypes Hglobals types globals funcs.
  destruct (resolveTypeDefs_Ok _ _ _ Hrange Htypes)
    as (st & Hidx & (Hdom & Hinj & Hent) & Hgs1 & Hc1 & Htd1 & Hgl1 & Hfu1).
  destruct (resolveGlobals_Ok _ _ _ Hrange Hglobals)
    as (gst & gl & fl & Hgidx & Hres & Hts2 & Htd2 & Hgl2 & Hfu2 & Hallg & Hallf).
  pose proof (indexTypeDefs_Ok _ _ Hidx) as (Hord & _ & Hidom & _).
  pose proof (indexGlobals_Ok _ _ Hgidx) as (Hnd & _ & _ & Hgo & Hfo).
  split; [apply first_occurrences_NoDup|].
  split; [apply first_occurrences_elem_of|].
  split; [apply first_occurrences_length|]. split; [done|].
  exists ((fun key => ts gen1 !! key) <$> types), gl, fl.
  split; [rewrite Htd2, Htd1; by rewrite Hord|].
  split; [congruence|]. split; [congruence|].
  split; [by rewrite length_fmap|].
  split; [unfold globals; rewrite <- Hgo; symmetry; by eapply Forall2_length|].
  split; [unfold funcs; rewrite <- Hfo; symmetry; by eapply Forall2_length|].
  split; [|split].
  - apply Forall2_fmap_r, Forall_Forall2_diag, Forall_forall. intros name Hname.
    apply first_occurrences_elem_of, Hidom in Hname as [old Hold].
    destruct (Hent _ _ Hold) as (l & n & Hl & Hn & _).
    exists l, n. rewrite Hts2. auto.
  - unfold globals. rewrite <- Hgo. eapply Forall2_impl; [exact Hallg|].
    intros name l [Hl Hk]. split; [done|].
    destruct Hres as [Hd He]. destruct (Hd name) as [o Ho]; [by eexists|].
    destruct (He _ _ Ho) as (l' & c & Hl' & Hc & Hn & _).
    rewrite Hl in Hl'. injection Hl' as <-.
    unfold const_kind_at in Hk. rewrite Hc in Hk.
    destruct c as [g0|f0]; [|done]. by exists g0.
  - unfold funcs. rewrite <- Hfo. eapply Forall2_impl; [exact Hallf|].
    intros name l [Hl Hk]. split; [done|].
    destruct Hres as [Hd He]. destruct (Hd name) as [o Ho]; [by eexists|].
    destruct (He _ _ Ho) as (l' & c & Hl' & Hc & Hn & _).
    rewrite Hl in Hl'. injection Hl' as <-.
    unfold const_kind_at in Hk. rewrite Hc in Hk.
    destruct c as [g0|f0]; [done|]. by exists f0.
Qed.

(** ** Identity of the nodes of named types *)

(** The entry the index keeps for a name is its last definition. *)
Lemma indexTypeDefs_last (l1 l2 : list TopLevelEntity) (alias : string) (typ : LlvmNode)
    (st : type_index) :
  indexTypeDefs (l1 ++ TypeDef alias typ :: l2) = Ok st ->
  alias ∉ omap type_name l2 ->
  index st !! alias = Some typ.
Proof.
  unfold indexTypeDefs. rewrite foldM_app. intros Hrun Hnot.
  apply bind_Ok in Hrun as (x & Hruna & Hrunb).
  rewrite foldM_cons in Hrunb. apply bind_Ok in Hrunb as (x0 & Hrunba & Hrunbb).
  assert (Hx0 : index x0 !! alias = Some typ).
  { unfold indexTypeDef in Hrunba. inv_bind Hrunba. inv_bind Hrunbab.
    injection Hrunbabb as <-. simpl. apply lookup_insert_eq. }
  eapply (foldM_invariant _ (fun s => index s !! alias = Some typ));
    [|exact Hx0|exact Hrunbb].
  intros s e s' He Hs Hstep. destruct (type_name e) as [a|] eqn:Hn.
  - destruct e; try discriminate. injection Hn as ->.
    unfold indexTypeDef in Hstep. inv_bind Hstep. inv_bind Hstepb.
    injection Hstepbb as <-. simpl. rewrite lookup_insert_ne; [done|].
    intros ->. apply Hnot. apply list_elem_of_omap. eexists. split; [exact He|done].
  - rewrite (indexTypeDef_other _ _ Hn) in Hstep. by injection Hstep as <-.
Qed.

(** What does hold of the table of named types: a reference to a type name
    resolves, without allocating, to the node the table binds the name to;
    the fill of a definition that is not a bare alias assigns to its
    skeleton only and returns the skeleton itself; and after the resolution
    of a module distinct names are bound to distinct nodes, the name of a
    bare alias too. *)
Lemma named_type_identity (gen gen' gen1 gen2 genm : generator) (t : option loc)
    (name a1 a2 : string) (r r' l l0 : loc) (old : LlvmNode)
    (module : list TopLevelEntity) :
  range_ok ->
  (astToIRTypeDef gen t (node_Type (ast_NamedType name)) = Ok (gen', r) ->
     gen' = gen /\ ts gen !! name = Some r) /\
  (node_kind old <> None ->
     astToIRTypeDef gen1 (Some l) old = Ok (gen2, r') ->
     r' = l /\ ts gen2 = ts gen1 /\
     forall l' n, types_heap gen1 !! l' = Some n -> l' <> l ->
       types_heap gen2 !! l' = Some n) /\
  (resolveTypeDefs gen module = Ok genm ->
     ts genm !! a1 = Some l0 -> ts genm !! a2 = Some l0 -> a1 = a2).
Proof.
  intros Hrange. split; [|split].
  - simpl. apply astToIRNamedType_Ok.
  - intros Hk Hrun. apply astToIRTypeDef_frame in Hrun as [Hext Hres].
    destruct (node_kind old) as [k|]; [|done].
    destruct Hres as [[[= <-]|[? _]] _]; [|done].
    destruct Hext as (Hts & _ & _ & _ & _ & Hframe & _).
    split; [done|]. split; [done|]. intros l' n Hl' Hne. apply Hframe; [done|].
    by intros [= ->].
  - intros Hrun. apply (resolveTypeDefs_Ok _ _ _ Hrange) in Hrun
      as (st & _ & (_ & Hinj & _) & _). apply Hinj.
Qed.

(** ** The node of a bare alias *)

(** The skeleton phase gives a bare alias of a concretely defined type a
    node of the kind of that type, named after that type, without body. *)
Lemma newIRTypes_alias_node (gen g1 : generator) (ix : gmap string LlvmNode)
    (a b : string) (target : LlvmNode) (k : type_kind) :
  range_ok -> newIRTypes gen ix = Ok g1 ->
  ix !! a = Some (node_Type (ast_NamedType b)) ->
  ix !! b = Some target -> node_kind target = Some k ->
  exists la, ts g1 !! a = Some la /\ types_heap g1 !! la = Some (zero_type k b).
Proof.
  intros Hrange Hrun Ha Hb Hk.
  assert (Hin : (a, node_Type (ast_NamedType b)) ∈
                  range RangeNewIRType LlvmNode (map_to_list ix)).
  { apply (range_elem_of _ _ _ Hrange). by apply elem_of_map_to_list. }
  pose proof (range_NoDup_fst RangeNewIRType ix Hrange) as Hnodup.
  unfold newIRTypes in Hrun. revert Hrun Hin.
  generalize (set_ts gen ∅).
  intros g0 Hrun Hin.
  cut ((a, node_Type (ast_NamedType b)) ∈ range RangeNewIRType LlvmNode (map_to_list ix) ->
       exists la, ts g1 !! a = Some la /\ types_heap g1 !! la = Some (zero_type k b));
    [by intros H; apply H|].
  revert Hrun.
  apply (foldM_invariant_prefix _
           (fun p g => (a, node_Type (ast_NamedType b)) ∈ p ->
              exists la, ts g !! a = Some la /\
                         types_heap g !! la = Some (zero_type k b))).
  2: { by intros ?%elem_of_nil. }
  intros p [alias old] rest s s' Hl HP Hstep Hmem.
  apply bind_Ok in Hstep as ([g t] & Hnew & Hstep). cbv beta iota in Hstep.
  injection Hstep as <-. cbn [ts set_ts types_heap].
  rewrite Hl in Hnodup. pose proof (NoDup_fst_split _ _ _ _ Hnodup) as Hfresh.
  apply elem_of_app in Hmem as [Hmem|Hmem].
  - destruct (HP Hmem) as (la & Hla & Hnode).
    assert (Hal : alias <> a).
    { intros ->. apply Hfresh. apply list_elem_of_fmap. by eexists (_, _). }
    destruct (newIRType_Ok _ _ _ _ _ _ _ _ Hnew) as (k' & a' & Heq & _).
    unfold new_type in Heq. injection Heq as -> ->.
    exists la. simpl. rewrite lookup_insert_ne by exact Hal. split; [done|].
    by apply lookup_app_l_Some.
  - apply list_elem_of_singleton in Hmem. injection Hmem as <- <-.
    assert (Hsize : exists fuel, size ix = S fuel).
    { destruct (size ix) eqn:E; [|eauto].
      apply map_size_empty_iff in E. by rewrite E, lookup_empty in Ha. }
    destruct Hsize as [fuel Hsize]. rewrite Hsize in Hnew.
    rewrite newIRType_named, lookup_empty in Hnew. simpl default in Hnew.
    cbv iota in Hnew. rewrite Hb in Hnew. simpl default in Hnew.
    rewrite (newIRType_concrete _ _ _ _ _ _ k Hk) in Hnew.
    unfold new_type in Hnew. injection Hnew as <- <-.
    exists (length (types_heap s)). rewrite lookup_insert_eq. split; [done|].
    simpl. rewrite lookup_app_r by lia. by rewrite Nat.sub_diag.
Qed.

(** The fill phase does not touch the node of a bare alias: the fill of
    the alias changes nothing, the fill of any other definition assigns to
    the node of that definition only. *)
Lemma astToIRTypeDefs_alias_untouched (g1 g2 : generator) (ix : gmap string LlvmNode)
    (a b : string) (la : loc) (n : types_Type) :
  range_ok ->
  (forall a1 a2 l, ts g1 !! a1 = Some l -> ts g1 !! a2 = Some l -> a1 = a2) ->
  astToIRTypeDefs g1 ix = Ok g2 ->
  ix !! a = Some (node_Type (ast_NamedType b)) ->
  ts g1 !! a = Some la -> types_heap g1 !! la = Some n ->
  types_heap g2 !! la = Some n.
Proof.
  intros Hrange Hinj Hrun Ha Hla Hn. unfold astToIRTypeDefs in Hrun.
  cut (ts g2 = ts g1 /\ types_heap g2 !! la = Some n); [by intros [_ ?]|].
  revert Hrun.
  apply (foldM_invariant _ (fun g => ts g = ts g1 /\ types_heap g !! la = Some n));
    [|done].
  intros s [alias old] s' Hin [Hts Hnode] Hstep.
  apply (range_elem_of _ _ _ Hrange), elem_of_map_to_list in Hin.
  apply bind_Ok in Hstep as ([g r] & Hfill & Hstep). cbv beta iota in Hstep.
  injection Hstep as <-.
  destruct (decide (alias = a)) as [->|Hne].
  - rewrite Ha in Hin. injection Hin as <-. simpl in Hfill.
    apply astToIRNamedType_Ok in Hfill as [-> _]. done.
  - apply astToIRTypeDef_frame in Hfill as [(Hts' & _ & _ & _ & _ & Hframe & _) _].
    split; [congruence|]. apply Hframe; [done|].
    rewrite Hts. intros Heq. apply Hne. symmetry in Heq. by eapply Hinj.
Qed.

(** C1: the node of a bare alias.  In a module that resolves, let the
    last definition of [a] be the bare alias [%a = type %b] and the last
    definition of [b] a definition with a body of kind [k] (or opaque).
    Then the table binds [a] and [b] to two different nodes, and the node of
    [a] is still the skeleton the first phase made for it: a node of kind
    [k] that carries the alias [b] and has no body.  The fill of that
    skeleton changes nothing and returns the node of [b] instead of the
    skeleton it was given. *)
Theorem bare_alias_node_is_an_unfilled_copy (gen gen' : generator)
    (l1 l2 m1 m2 : list TopLevelEntity) (a b : string) (target : LlvmNode)
    (k : type_kind) :
  range_ok ->
  l1 ++ TypeDef a (node_Type (ast_NamedType b)) :: l2 = m1 ++ TypeDef b target :: m2 ->
  a ∉ omap type_name l2 -> b ∉ omap type_name m2 -> node_kind target = Some k ->
  resolveTypeDefs gen (l1 ++ TypeDef a (node_Type (ast_NamedType b)) :: l2) = Ok gen' ->
  exists la lb,
    ts gen' !! a = Some la /\ ts gen' !! b = Some lb /\ la <> lb /\
    types_heap gen' !! la = Some (zero_type k b) /\
    astToIRTypeDef gen' (Some la) (node_Type (ast_NamedType b)) = Ok (gen', lb).
Proof.
  intros Hrange Hmod Ha Hb Hk Hrun.
  assert (Hne : a <> b).
  { intros ->. pose proof Hrun as Hrun'. unfold resolveTypeDefs in Hrun'.
    apply bind_Ok in Hrun' as (st & Hst & _).
    pose proof (indexTypeDefs_last _ _ _ _ _ Hst Ha) as H1.
    rewrite Hmod in Hst. pose proof (indexTypeDefs_last _ _ _ _ _ Hst Hb) as H2.
    rewrite H1 in H2. injection H2 as <-. discriminate. }
  unfold resolveTypeDefs in Hrun.
  apply bind_Ok in Hrun as (st & Hst & Hrun).
  apply bind_Ok in Hrun as (g1 & Hg1 & Hrun).
  apply bind_Ok in Hrun as (g2 & Hg2 & Hrun). injection Hrun as <-.
  pose proof (indexTypeDefs_last _ _ _ _ _ Hst Ha) as Hixa.
  rewrite Hmod in Hst. pose proof (indexTypeDefs_last _ _ _ _ _ Hst Hb) as Hixb.
  destruct (newIRTypes_alias_node _ _ _ _ _ _ _ Hrange Hg1 Hixa Hixb Hk)
    as (la & Hla & Hnode).
  pose proof (newIRTypes_Ok _ _ _ Hrange Hg1) as (_ & _ & _ & _ & Hdom & Hinj & _).
  pose proof (astToIRTypeDefs_alias_untouched _ _ _ _ _ _ _ Hrange Hinj Hg2 Hixa Hla Hnode)
    as Hnode2.
  destruct (astToIRTypeDefs_frame _ _ _ Hg2) as (Hts & _).
  destruct (proj2 (Hdom b)) as [lb Hlb].
  { apply list_elem_of_fmap. exists (b, target). split; [done|].
    apply (range_elem_of _ _ _ Hrange). by apply elem_of_map_to_list. }
  destruct (addTypeDefs_spec (order st) g2) as (Hats & _ & Hah & _).
  exists la, lb. rewrite Hats, Hah, Hts.
  split; [done|]. split; [done|].
  split; [intros ->; apply Hne; by eapply Hinj|]. split; [done|].
  simpl. unfold astToIRNamedType. by rewrite Hats, Hts, Hlb.
Qed.

(** ** Structs that embed a pointer to themselves *)

Lemma all2_lookup {A B} (P : A -> B -> Prop) (l1 : list A) (l2 : list B) (i : nat) (y : B) :
  all2 P l1 l2 -> l2 !! i = Some y -> exists x, l1 !! i = Some x /\ P x y.
Proof.
  rewrite all2_Forall2. intros Hall Hy.
  destruct (Forall2_lookup_r _ _ _ _ _ Hall Hy) as (x & ? & ?). eauto.
Qed.

Lemma fill_self_struct (gen : generator) (d : string) (l : loc) (a : Z) :
  ts gen !! d = Some l -> kind_at gen l = Some KStruct ->
  exists gen',
    astToIRTypeDef gen (Some l)
      (node_Type (ast_StructType [ast_PointerType (ast_NamedType d) a])) = Ok (gen', l).
Proof.
  intros Hd Hk. simpl. unfold astToIRStructType, type_assert.
  rewrite decide_True by done. cbn [mbind result_bind]. cbv beta iota.
  rewrite foldM_cons, astToIRType_unfold. cbv zeta.
  unfold astToIRPointerType, type_assert, new_type.
  cbn [mbind result_bind]. cbv beta iota.
  rewrite astToIRType_unfold. cbv zeta. unfold astToIRNamedType.
  cbn [ts set_types_heap]. rewrite Hd.
  cbn [mbind result_bind foldM]. cbv beta iota. eauto.
Qed.

(** C6: the resolution of type definitions always terminates; the module
    whose one definition is a struct with a pointer to itself resolves
    without error; and whenever a module resolves, a struct definition
    (the last one of its name) that has a pointer to its own name among its
    fields is bound to a struct node whose field at that place is a pointer
    node whose element is that same struct node. *)
Theorem self_referential_struct (gen gen' : generator) (l1 l2 : list TopLevelEntity)
    (d : string) (fields : list ast_Type) (i : nat) (a : Z) :
  range_ok ->
  let module := l1 ++ TypeDef d (node_Type (ast_StructType fields)) :: l2 in
  resolveTypeDefs gen module <> OutOfFuel /\
  (exists g,
     resolveTypeDefs gen
       [TypeDef d (node_Type (ast_StructType [ast_PointerType (ast_NamedType d) a]))] =
     Ok g) /\
  (resolveTypeDefs gen module = Ok gen' ->
   d ∉ omap type_name l2 ->
   fields !! i = Some (ast_PointerType (ast_NamedType d) a) ->
   exists l fs p a',
     ts gen' !! d = Some l /\
     types_heap gen' !! l = Some (StructType d false fs false) /\
     fs !! i = Some p /\
     types_heap gen' !! p = Some (PointerType a' (Some l) a)).
Proof.
  intros Hrange module. split; [|split].
  - intros Hfuel. pose proof (resolveTypeDefs_outcome gen module Hrange) as Hout.
    by rewrite Hfuel in Hout.
  - unfold resolveTypeDefs, indexTypeDefs.
    rewrite foldM_cons, (indexTypeDef_accept _ d); [|done|left; apply lookup_empty].
    cbn [mbind result_bind index order foldM]. cbv beta. rewrite insert_empty.
    set (S := node_Type (ast_StructType [ast_PointerType (ast_NamedType d) a])).
    assert (Hr : forall site, range site LlvmNode [(d, S)] = [(d, S)]).
    { intros site. apply Permutation_singleton_r. apply Hrange. }
    unfold newIRTypes. rewrite map_to_list_singleton, Hr, foldM_cons.
    rewrite (newIRType_concrete _ _ d S _ _ KStruct eq_refl).
    unfold new_type at 1. cbn [mbind result_bind foldM]. cbv beta iota.
    unfold astToIRTypeDefs. rewrite map_to_list_singleton, Hr, foldM_cons.
    set (g1 := set_ts _ _).
    assert (Hd : ts g1 !! d = Some (length (types_heap gen))).
    { unfold g1. simpl. apply lookup_insert_eq. }
    assert (Hk : kind_at g1 (length (types_heap gen)) = Some KStruct).
    { unfold kind_at, g1. simpl. rewrite lookup_app_r by lia.
      by rewrite Nat.sub_diag. }
    rewrite Hd. destruct (fill_self_struct g1 d _ a Hd Hk) as [g2 Hg2].
    unfold S. rewrite Hg2. cbn [mbind result_bind foldM]. cbv beta iota. eauto.
  - intros Hrun Hlast Hfield.
    destruct (resolveTypeDefs_Ok _ _ _ Hrange Hrun) as (st & Hidx & (_ & _ & Hent) & _).
    pose proof (indexTypeDefs_last _ _ _ _ _ Hidx Hlast) as Hd.
    destruct (Hent _ _ Hd) as (l & n & Hl & Hn & Hkind & Hden).
    destruct (Hkind KStruct eq_refl) as [Hk Ha].
    specialize (Hden ltac:(done)). simpl in Hden.
    destruct n; try done. simpl in Ha. subst Alias.
    destruct Hden as (-> & -> & Hall).
    destruct (all2_lookup _ _ _ _ _ Hall Hfield) as (p & Hp & Hpd).
    rewrite denotes_unfold in Hpd. destruct Hpd as (_ & n' & Hn' & Hnd).
    simpl in Hnd. destruct n'; try done. destruct ElemType as [e|]; [|done].
    destruct Hnd as [He ->]. rewrite Hl in He. injection He as <-. eauto 10.
Qed.


(** ** An opaque declaration before the definition of the same name *)

(** Two runs of a loop from related states stay related, when every
    iteration keeps the relation. *)
Lemma foldM_sim {S A} (f : S -> A -> result S) (R : S -> S -> Prop) (l : list A) :
  (forall s s' x t, x ∈ l -> R s s' -> f s x = Ok t ->
     exists t', f s' x = Ok t' /\ R t t') ->
  forall s s' t, R s s' -> foldM f s l = Ok t ->
    exists t', foldM f s' l = Ok t' /\ R t t'.
Proof.
  induction l as [|x l IH]; intros Hstep s s' t HR Hrun.
  - simpl in Hrun. injection Hrun as <-. exists s'. by split.
  - rewrite foldM_cons in Hrun. apply bind_Ok in Hrun as (u & Hu & Hrun).
    destruct (Hstep s s' x u) as (u' & Hu' & HR'); [left|done|done|].
    rewrite foldM_cons, Hu'. cbn [mbind result_bind].
    eapply IH; [|exact HR'|exact Hrun].
    intros s0 s0' y t0 Hy. apply Hstep. by right.
Qed.

Lemma filter_not_elem_of_cons (x : string) (l1 l : list string) :
  filter (fun y => y <> x) (filter (fun y => y ∉ l1) l) = filter (fun y => y ∉ x :: l1) l.
Proof.
  induction l as [|y l IH]; [done|].
  rewrite !filter_cons.
  destruct (decide (y ∉ l1)) as [Hy|Hy].
  - rewrite filter_cons. destruct (decide (y <> x)) as [Hx|Hx].
    + rewrite decide_True by (rewrite not_elem_of_cons; done). by rewrite IH.
    + rewrite decide_False by (rewrite not_elem_of_cons; tauto). done.
  - rewrite decide_False by (rewrite not_elem_of_cons; tauto). done.
Qed.

Lemma first_occurrences_app (l1 l2 : list string) :
  first_occurrences (l1 ++ l2) =
    first_occurrences l1 ++ filter (fun y => y ∉ l1) (first_occurrences l2).
Proof.
  induction l1 as [|x l1 IH]; simpl.
  - induction (first_occurrences l2) as [|y l IH]; [done|].
    rewrite filter_cons, decide_True by apply not_elem_of_nil. by rewrite <- IH.
  - f_equal. rewrite IH, filter_app. f_equal. apply filter_not_elem_of_cons.
Qed.

(** A name that does not occur in [l1] and comes next takes the place after
    the first occurrences of [l1]. *)
Lemma first_occurrences_position (l1 l2 : list string) (x : string) :
  x ∉ l1 ->
  first_occurrences (l1 ++ x :: l2) !! length (first_occurrences l1) = Some x.
Proof.
  intros Hx. rewrite first_occurrences_app. simpl.
  rewrite filter_cons, decide_True by done.
  by rewrite list_lookup_middle.
Qed.

(** The index built from a module does not change when an opaque
    declaration of a name is put before the definition of that name. *)
Lemma indexTypeDefs_placeholder (pre mid post : list TopLevelEntity) (T : string)
    (typ : LlvmNode) (st0 : type_index) :
  T ∉ omap type_name pre -> T ∉ omap type_name mid ->
  indexTypeDefs (pre ++ mid ++ TypeDef T typ :: post) = Ok st0 ->
  exists st,
    indexTypeDefs (pre ++ TypeDef T node_OpaqueType :: mid ++ TypeDef T typ :: post) = Ok st /\
    index st = index st0.
Proof.
  intros Hpre Hmid Hrun. unfold indexTypeDefs in *.
  rewrite foldM_app in Hrun. apply bind_Ok in Hrun as (s1 & Hs1 & Hrun).
  rewrite foldM_app in Hrun. apply bind_Ok in Hrun as (s2 & Hs2 & Hrun).
  rewrite foldM_cons in Hrun. apply bind_Ok in Hrun as (s3 & Hs3 & Hrun).
  pose proof (indexTypeDefs_Ok pre s1 Hs1) as (_ & _ & Hix1 & _).
  assert (HT1 : index s1 !! T = None).
  { destruct (index s1 !! T) eqn:E; [|done].
    exfalso. apply Hpre, Hix1. by eexists. }
  rewrite foldM_app, Hs1. cbn [mbind result_bind].
  rewrite foldM_cons, indexTypeDef_accept by (done || by left).
  cbn [mbind result_bind]. rewrite foldM_app.
  match goal with |- exists st, (foldM _ ?s mid ≫= _) = _ /\ _ => set (s1' := s) end.
  assert (exists s2', foldM indexTypeDef s1' mid = Ok s2' /\
            index s2 !! T = None /\
            index s2' = <[T:=node_OpaqueType]> (index s2) /\
            added s2' = <[T:=true]> (added s2)) as (s2' & Hs2' & HT2 & Hi2 & Ha2).
  { apply (foldM_sim indexTypeDef
             (fun s s' => index s !! T = None /\
                          index s' = <[T:=node_OpaqueType]> (index s) /\
                          added s' = <[T:=true]> (added s)) mid) with (s := s1);
      [|by subst s1'|exact Hs2].
    intros s s' x t Hx (HT & Hi & Ha) Hstep.
    destruct x as [a typ'| | | | |]; simpl in Hstep |- *;
      try (injection Hstep as <-; eexists; split; [done|]; done).
    assert (a <> T) as Hne.
    { intros ->. apply Hmid. apply list_elem_of_omap. eexists; split; [exact Hx|done]. }
    rewrite Hi, lookup_insert_ne by done.
    destruct typ'; simpl in *; try discriminate.
    all: destruct (index s !! a) as [[]|] eqn:E; simpl in *; try discriminate.
    all: injection Hstep as <-; eexists.
    all: split; [done|]; simpl.
    all: rewrite lookup_insert_ne by done.
    all: split; [done|].
    all: split; [try rewrite Hi|try rewrite Ha]; by apply insert_insert_ne. }
  rewrite Hs2'. cbn [mbind result_bind]. rewrite foldM_cons.
  assert (typ <> node_nil) as Htyp.
  { intros ->. simpl in Hs3. discriminate. }
  assert (Hs3e : s3 = {| index := <[T:=typ]> (index s2);
                         added := <[T:=true]> (added s2);
                         order := if negb (default false (added s2 !! T))
                                  then order s2 ++ [T] else order s2 |}).
  { rewrite indexTypeDef_accept in Hs3 by (done || by left). by injection Hs3. }
  rewrite indexTypeDef_accept by (done || (right; rewrite Hi2; apply lookup_insert_eq)).
  cbn [mbind result_bind].
  match goal with |- exists st, foldM _ ?s post = _ /\ _ => set (s3' := s) end.
  assert (exists st, foldM indexTypeDef s3' post = Ok st /\
            index st = index st0 /\ added st = added st0) as (st & Hst & Hi & _).
  { apply (foldM_sim indexTypeDef
             (fun s s' => index s' = index s /\ added s' = added s) post) with (s := s3);
      [| |exact Hrun].
    - intros s s' x t _ (Hi & Ha) Hstep.
      destruct x as [a typ'| | | | |]; simpl in Hstep |- *;
        try (injection Hstep as <-; eexists; split; [done|]; done).
      rewrite Hi.
      destruct typ'; simpl in *; try discriminate.
      all: destruct (index s !! a) as [[]|] eqn:E; simpl in *; try discriminate.
      all: injection Hstep as <-; eexists.
      all: split; [done|]; simpl.
      all: by rewrite ?Hi, ?Ha.
    - subst s3 s3'. simpl. rewrite Hi2, Ha2. by rewrite !insert_insert_eq. }
  eauto.
Qed.


(** C4: a type name [T] declared as an opaque placeholder and defined later
    in the module with a concrete body: the indexing loop accepts the
    definition instead of reporting a duplicate, and keeps the place [T] got
    at the placeholder; the module resolves whenever the module without the
    placeholder does, to the same table and the same nodes; and in the
    resolved module the node of [T] has the kind, the alias and the body of
    the definition, and is the entry of the list of type definitions at the
    place of the first occurrence of [T], and at no other place. *)
Theorem opaque_then_concrete (gen g0 g : generator) (pre mid post : list TopLevelEntity)
    (T : string) (body : ast_Type) (k : type_kind) :
  range_ok ->
  T ∉ omap type_name pre -> T ∉ omap type_name mid -> T ∉ omap type_name post ->
  expected_kind body = Some k ->
  let module0 := pre ++ mid ++ TypeDef T (node_Type body) :: post in
  let module :=
    pre ++ TypeDef T node_OpaqueType :: mid ++ TypeDef T (node_Type body) :: post in
  let i := length (first_occurrences (omap type_name pre)) in
  (forall st, indexTypeDefs (pre ++ TypeDef T node_OpaqueType :: mid) = Ok st ->
     exists st', indexTypeDef st (TypeDef T (node_Type body)) = Ok st' /\
       index st' !! T = Some (node_Type body) /\ order st' = order st) /\
  (resolveTypeDefs gen module0 = Ok g0 ->
     exists g', resolveTypeDefs gen module = Ok g' /\
       ts g' = ts g0 /\ types_heap g' = types_heap g0) /\
  (resolveTypeDefs gen module = Ok g ->
     exists l n tl, ts g !! T = Some l /\ types_heap g !! l = Some n /\
       kind_of_type n = k /\ Alias_of n = T /\ node_denotes (denotes 0 g) n body /\
       TypeDefs (m g) = TypeDefs (m gen) ++ tl /\
       length tl = length (first_occurrences (omap type_name module)) /\
       tl !! i = Some (Some l) /\ forall j, tl !! j = Some (Some l) -> j = i).
Proof.
  intros Hrange Hpre Hmid Hpost Hk module0 module i. split; [|split].
  - intros st Hst.
    pose proof (indexTypeDefs_last pre mid T node_OpaqueType st Hst Hmid) as HT.
    pose proof (indexTypeDefs_Ok _ _ Hst) as (_ & Hadded & _).
    assert (Ha : default false (added st !! T) = true).
    { apply Hadded. rewrite omap_app. apply elem_of_app. right. simpl. left. }
    rewrite indexTypeDef_accept by (done || by right).
    eexists. split; [done|]. simpl. rewrite Ha. split; [apply lookup_insert_eq|done].
  - intros Hrun. unfold resolveTypeDefs in Hrun |- *.
    apply bind_Ok in Hrun as (st0 & Hst0 & Hrun).
    apply bind_Ok in Hrun as (g1 & Hg1 & Hrun).
    apply bind_Ok in Hrun as (g2 & Hg2 & Hrun).
    injection Hrun as <-.
    destruct (indexTypeDefs_placeholder pre mid post T _ st0 Hpre Hmid Hst0)
      as (st & Hst & Hi).
    subst module. rewrite Hst. cbn [mbind result_bind]. rewrite Hi, Hg1.
    cbn [mbind result_bind]. rewrite Hg2. cbn [mbind result_bind].
    eexists. split; [done|].
    pose proof (addTypeDefs_spec (order st) g2) as (-> & _ & -> & _).
    pose proof (addTypeDefs_spec (order st0) g2) as (-> & _ & -> & _). done.
  - intros Hrun.
    destruct (resolveTypeDefs_Ok _ _ _ Hrange Hrun)
      as (st & Hst & (_ & Hinj & Hres) & _ & _ & Hdefs & _).
    assert (Hmod : module = (pre ++ TypeDef T node_OpaqueType :: mid) ++
                              TypeDef T (node_Type body) :: post).
    { subst module. by rewrite <- app_assoc. }
    assert (HT : index st !! T = Some (node_Type body)).
    { rewrite Hmod in Hst. eapply indexTypeDefs_last; eauto. }
    destruct (Hres _ _ HT) as (l & n & Hl & Hn & Hkind & Hden).
    destruct (Hkind k Hk) as [Hkn Han].
    pose proof (indexTypeDefs_Ok _ _ Hst) as (Horder & _).
    assert (Hi : order st !! i = Some T).
    { rewrite Horder. subst module. rewrite omap_app. simpl.
      by apply first_occurrences_position. }
    exists l, n, ((fun key => ts g !! key) <$> order st).
    split; [done|]. split; [done|]. split; [done|]. split; [done|].
    split; [apply Hden; by rewrite Hk|]. split; [done|].
    split; [by rewrite length_fmap, Horder|].
    split; [by rewrite list_lookup_fmap, Hi; simpl; rewrite Hl|].
    intros j Hj. rewrite list_lookup_fmap in Hj.
    destruct (order st !! j) as [a|] eqn:Ea; simpl in Hj; [|done].
    injection Hj as Hj. rewrite (Hinj a T l Hj Hl) in Ea.
    eapply NoDup_lookup; [|exact Ea|exact Hi].
    rewrite Horder. apply first_occurrences_NoDup.
Qed.

(** * Further properties of the resolvers *)

(** ** The ways the resolvers end *)

(** X1: the type resolver terminates, and it ends in one of these ways
    only: with the resolved generator; with the duplicate-definition error
    of the indexing loop, the cyclic-alias error of skeleton creation or the
    unresolved-identifier error of the fill phase; or with the panic of a
    node that is no type (a nil alias target among them) or of an integer
    or floating-point literal that cannot be read.  Whatever the module, it
    never aborts on a skeleton of the wrong kind, on an opaque type without
    skeleton or on a nil pointer. *)
Theorem resolveTypeDefs_failure_modes (gen : generator) (module : list TopLevelEntity) :
  range_ok ->
  resolveTypeDefs gen module <> OutOfFuel /\
  (forall e, resolveTypeDefs gen module = Err e ->
     (kind_of_error e = DuplicateDefinitionError /\
      exists alias prev new, e = ErrTypeDefPresent alias prev new) \/
     (kind_of_error e = CyclicTypeAliasError /\
      exists names, e = ErrSelfReferential names) \/
     (kind_of_error e = UnresolvedIdentifierError /\
      exists name, e = ErrLocateTypeDef (enc_Local name))) /\
  (forall q, resolveTypeDefs gen module = Panic q ->
     q = PanicNotImplemented \/
     exists text, q = PanicIntPrefix text \/ q = PanicIntBitSize text \/
                  q = PanicFloatKind text).
Proof.
  intros Hrange. pose proof (resolveTypeDefs_outcome gen module Hrange) as H.
  destruct (resolveTypeDefs gen module) as [g|e|q|]; [| | |done].
  - split; [done|]. split; intros ? [=].
  - split; [done|]. split; [|intros ? [=]].
    intros e' [= <-].
    destruct H as [(a & p & n & ->)|[(names & ->)|(name & ->)]].
    + left. eauto 6.
    + right. left. eauto.
    + right. right. eauto.
  - split; [done|]. split; [intros ? [=]|].
    intros q' [= <-]. destruct H as [->|H]; [by left|right].
    destruct q; try done; eauto.
Qed.

(** X2: the resolver of globals and functions ends in one of these ways
    only: with the resolved generator; with the duplicate-definition error
    of the indexing loop, the unresolved-identifier error of a type of a
    signature or of a content type, or an error of a collaborator; or with
    the panic of a literal of a type that cannot be read or of a
    collaborator.  The lookups of the assembly loops never fail, and no
    skeleton is ever of the wrong kind. *)
Theorem resolveGlobals_failure_modes (gen : generator) (module : list TopLevelEntity) :
  range_ok ->
  resolveGlobals gen module <> OutOfFuel /\
  (forall e, resolveGlobals gen module = Err e ->
     (kind_of_error e = DuplicateDefinitionError /\
      exists name prev new, e = ErrGlobalPresent name prev new) \/
     (kind_of_error e = UnresolvedIdentifierError /\
      exists name, e = ErrLocateTypeDef (enc_Local name)) \/
     (exists msg, e = ErrForeign msg)) /\
  (forall q, resolveGlobals gen module = Panic q ->
     (exists text, q = PanicIntPrefix text \/ q = PanicIntBitSize text \/
                   q = PanicFloatKind text) \/
     (exists msg, q = PanicForeign msg)) /\
  (forall e, resolveGlobals gen module <> Panic (PanicError e)) /\
  resolveGlobals gen module <> Panic PanicNilDeref /\
  resolveGlobals gen module <> Panic PanicNotImplemented.
Proof.
  intros Hrange. pose proof (resolveGlobals_outcome gen module Hrange) as H.
  destruct (resolveGlobals gen module) as [g|e|q|]; [| | |done].
  - split; [done|]. split; [intros ? [=]|]. split; [intros ? [=]|]. by repeat split.
  - split; [done|]. split; [|by repeat split].
    intros e' [= <-].
    destruct H as [(a & p & n & ->)|[(name & ->)|(msg & ->)]].
    + left. eauto 6.
    + right. left. eauto.
    + right. right. eauto.
  - split; [done|]. split; [intros ? [=]|].
    split; [|split; [|split]].
    + intros q' [= <-]. destruct H as [H|H]; [left|by right].
      destruct q; try done; eauto.
    + intros e [= ->]. by destruct H as [H|[msg H]].
    + intros [= ->]. by destruct H as [H|[msg H]].
    + intros [= ->]. by destruct H as [H|[msg H]].
Qed.

(** X5: the translation of a type that is no definition ([irType]) ends
    with a generator that has the same table of named types, with the
    unresolved-identifier error of a named type that is absent from the
    table, or with the panic of a literal that cannot be read; it has no
    skeleton and so never aborts on a kind mismatch, and it cannot meet an
    opaque type. *)
Theorem irType_failure_modes (gen : generator) (old : ast_Type) :
  match irType gen old with
  | Ok (gen', _) => ts gen' = ts gen
  | Err e =>
      kind_of_error e = UnresolvedIdentifierError /\
      exists name, e = ErrLocateTypeDef (enc_Local name) /\ ts gen !! name = None
  | Panic q =>
      exists text, q = PanicIntPrefix text \/ q = PanicIntBitSize text \/
                   q = PanicFloatKind text
  | OutOfFuel => False
  end.
Proof.
  pose proof (astToIRType_outcome old gen None) as H.
  unfold irType, astToIRTypeDef.
  destruct (astToIRType gen None old) as [[g r]|e|q|]; simpl in H; [done| | |done].
  - destruct H as (name & -> & Hname). split; [done|]. eauto.
  - destruct H as [(l & k & [=] & _)|H]. destruct q; try done; eauto.
Qed.

(** ** What the translation of a type builds *)

(** X4: the translation of a type that is no definition ([irType]) only
    allocates: the tables, the module, the globals and every type node that
    existed before are unchanged.  The location it returns denotes the type:
    for a named type it is the node the table binds the name to, and
    nothing is allocated; for any other type it is a node allocated by this
    call, the first one, of the kind of the type, whose body is the
    translation of the type, nested types included. *)
Theorem irType_allocates_and_denotes (gen gen' : generator) (old : ast_Type) (r : loc) :
  irType gen old = Ok (gen', r) ->
  ts gen' = ts gen /\ gs gen' = gs gen /\ m gen' = m gen /\
  consts_heap gen' = consts_heap gen /\
  (forall l n, types_heap gen !! l = Some n -> types_heap gen' !! l = Some n) /\
  denotes (length (types_heap gen)) gen' r old /\
  (expected_kind old = None -> gen' = gen) /\
  (forall k, expected_kind old = Some k ->
     r = length (types_heap gen) /\ kind_at gen' r = Some k).
Proof.
  unfold irType, astToIRTypeDef. intros Hrun.
  destruct (astToIRType_frame old _ _ _ _ Hrun) as [Hext Hkind].
  destruct (astToIRType_content old _ _ _ _ Hrun) as [_ Hden].
  pose proof Hext as (Hts & Hgs & Hm & Hc & _ & _ & _).
  split; [done|]. split; [done|]. split; [done|]. split; [done|].
  split; [intros l n; by apply heap_extends_lookup|].
  split; [by apply Hden|].
  destruct (expected_kind old) as [k|]; split; try done.
  intros k' [= <-]. by destruct Hkind as [[[=]|[_ ->]] Hk].
Qed.

(** ** Skeletons of bare aliases *)

(** X6: skeleton creation allocates exactly one node, without body, at the
    end of the heap, whatever the definition.  For a definition that is not
    a bare alias the node has the kind of the definition and its alias.  For
    a bare alias [%a = type %b] of a type with a concrete definition the
    node is a second node of the kind of [%b] that carries the alias [b] of
    the aliased type, not the alias [a] of the definition. *)
Theorem newIRType_alias_takes_target_name (gen gen' : generator) (a b : string)
    (ix : gmap string LlvmNode) (track : gmap string bool) (old target : LlvmNode)
    (k : type_kind) (fuel : nat) (l : loc) :
  ix !! b = Some target -> node_kind target = Some k ->
  newIRType (S fuel) gen a (node_Type (ast_NamedType b)) ix ∅ =
    Ok (set_types_heap gen (types_heap gen ++ [zero_type k b]), length (types_heap gen)) /\
  newIRType fuel gen b target ix track =
    Ok (set_types_heap gen (types_heap gen ++ [zero_type k b]), length (types_heap gen)) /\
  (newIRType fuel gen a old ix track = Ok (gen', l) ->
   exists k' a',
     gen' = set_types_heap gen (types_heap gen ++ [zero_type k' a']) /\
     l = length (types_heap gen)).
Proof.
  intros Hb Hk. split; [|split].
  - rewrite newIRType_named, lookup_empty. simpl default. cbv iota.
    rewrite Hb. simpl default. by rewrite (newIRType_concrete _ _ _ _ _ _ k Hk).
  - by rewrite (newIRType_concrete _ _ _ _ _ _ k Hk).
  - intros Hrun. destruct (newIRType_Ok _ _ _ _ _ _ _ _ Hrun) as (k' & a' & Heq & _).
    exists k', a'. unfold new_type in Heq. by injection Heq as -> ->.
Qed.

(** X7: a type defined as an alias of itself, [%a = type %a], is a cycle of
    one name: skeleton creation fails with the cyclic-alias error whose
    message is the encoded name alone, and so does the resolution of the
    module made of that definition. *)
Theorem self_alias_is_cyclic (gen : generator) (a : string)
    (ix : gmap string LlvmNode) (fuel : nat) :
  range_ok ->
  ix !! a = Some (node_Type (ast_NamedType a)) ->
  let e := ErrSelfReferential (enc_Local a) in
  newIRType (S fuel) gen a (node_Type (ast_NamedType a)) ix ∅ = Err e /\
  kind_of_error e = CyclicTypeAliasError /\
  resolveTypeDefs gen [TypeDef a (node_Type (ast_NamedType a))] = Err e.
Proof.
  intros Hrange Ha e.
  assert (Hcycle : forall g (ix' : gmap string LlvmNode) fuel',
            ix' !! a = Some (node_Type (ast_NamedType a)) ->
            newIRType (S fuel') g a (node_Type (ast_NamedType a)) ix' ∅ = Err e).
  { intros g ix' fuel' Hix.
    rewrite newIRType_named, lookup_empty. simpl default. cbv iota.
    rewrite Hix. simpl default.
    rewrite newIRType_named, lookup_insert_eq. simpl default. cbv iota.
    unfold e. do 2 f_equal.
    rewrite (sort_Strings_Permutation _ [enc_Local a]); [done|].
    rewrite (Hrange RangeTrack bool _).
    by rewrite insert_empty, map_to_list_singleton. }
  split; [by apply Hcycle|]. split; [done|].
  unfold resolveTypeDefs, indexTypeDefs.
  rewrite foldM_cons, (indexTypeDef_accept _ a); [|done|left; apply lookup_empty].
  cbn [mbind result_bind index foldM]. cbv beta.
  unfold newIRTypes. rewrite insert_empty, map_size_singleton.
  pose proof (Hrange RangeNewIRType LlvmNode
                (map_to_list ({[a := node_Type (ast_NamedType a)]} : gmap string LlvmNode)))
    as Hperm.
  rewrite map_to_list_singleton in Hperm. apply Permutation_singleton_r in Hperm.
  rewrite map_to_list_singleton, Hperm.
  rewrite foldM_cons, Hcycle; [done|apply lookup_singleton_eq].
Qed.

(** ** The table of named types after resolution *)

(** X3: after a successful resolution the table of named types binds the
    type names of the module and no other name, whatever it held before;
    the globals, the table of globals and the global and function lists of
    the module are untouched.  The last definition of a name is the one
    that counts: when it has a body that is not a bare alias, the node of
    the name has the kind of that body, the name as alias, and the
    translation of that body as content. *)
Theorem resolveTypeDefs_binds_defined_names (gen gen' : generator)
    (module : list TopLevelEntity) :
  range_ok -> resolveTypeDefs gen module = Ok gen' ->
  (forall a, is_Some (ts gen' !! a) <-> a ∈ omap type_name module) /\
  gs gen' = gs gen /\ consts_heap gen' = consts_heap gen /\
  Globals (m gen') = Globals (m gen) /\ Funcs (m gen') = Funcs (m gen) /\
  (forall l1 l2 a body k,
     module = l1 ++ TypeDef a (node_Type body) :: l2 ->
     a ∉ omap type_name l2 -> expected_kind body = Some k ->
     exists l n,
       ts gen' !! a = Some l /\ types_heap gen' !! l = Some n /\
       kind_of_type n = k /\ Alias_of n = a /\
       node_denotes (denotes 0 gen') n body).
Proof.
  intros Hrange Hrun.
  destruct (resolveTypeDefs_Ok _ _ _ Hrange Hrun)
    as (st & Hst & (Hdom & _ & Hres) & Hgs & Hc & _ & Hg & Hf).
  pose proof (indexTypeDefs_Ok _ _ Hst) as (_ & _ & Hix & _).
  split; [intros a; by rewrite Hdom, Hix|].
  split; [done|]. split; [done|]. split; [done|]. split; [done|].
  intros l1 l2 a body k -> Ha Hk.
  pose proof (indexTypeDefs_last _ _ _ _ _ Hst Ha) as Hlast.
  destruct (Hres _ _ Hlast) as (l & n & Hl & Hn & Hkind & Hden).
  destruct (Hkind k Hk) as [Hkn Han].
  exists l, n. split; [done|]. split; [done|]. split; [done|]. split; [done|].
  apply Hden. by rewrite Hk.
Qed.

(** X8: a type whose last definition in the module is opaque resolves to a
    struct node with the name as alias, no fields, not packed, and the
    opaque flag set. *)
Theorem opaque_definition_resolves_to_opaque_struct (gen gen' : generator)
    (l1 l2 : list TopLevelEntity) (a : string) :
  range_ok ->
  resolveTypeDefs gen (l1 ++ TypeDef a node_OpaqueType :: l2) = Ok gen' ->
  a ∉ omap type_name l2 ->
  exists l, ts gen' !! a = Some l /\
            types_heap gen' !! l = Some (StructType a false [] true).
Proof.
  intros Hrange Hrun Ha.
  destruct (resolveTypeDefs_Ok _ _ _ Hrange Hrun) as (st & Hst & (_ & _ & Hres) & _).
  pose proof (indexTypeDefs_last _ _ _ _ _ Hst Ha) as Hlast.
  destruct (Hres _ _ Hlast) as (l & n & Hl & Hn & _ & ->). eauto.
Qed.

(** ** Skeletons of globals and functions *)

Lemma foldM_fmap {S A B} (f : S -> B -> result S) (g : A -> B) (s : S) (l : list A) :
  foldM f s (g <$> l) = foldM (fun s x => f s (g x)) s l.
Proof.
  revert s. induction l as [|x l IH]; intros s; [done|].
  rewrite fmap_cons, !foldM_cons. destruct (f s (g x)); simpl; auto.
Qed.

(** The signature [newGlobal] builds field by field is the translation of
    the function type of the header. *)
Lemma newGlobal_Function_sig (gen : generator) (name : string) (hdr : ast_FuncHeader) :
  newGlobal_Function gen name hdr =
    '(g1, sig) ← irType (new_const gen (zero_Function name)).1
                   (ast_FuncType (ah_RetType hdr) (ap_Typ <$> ah_Params hdr)
                      (ah_Variadic hdr));
    Ok (update_const (types_NewPointer g1 sig).1 (length (consts_heap gen))
          (set_f_Sig sig (types_NewPointer g1 sig).2),
        length (consts_heap gen)).
Proof.
  unfold newGlobal_Function, irType, astToIRTypeDef.
  rewrite (astToIRType_unfold _ None (ast_FuncType _ _ _)). cbv zeta.
  unfold astToIRFuncType, type_assert, new_const, new_type, types_NewPointer, new_type.
  cbn [mbind result_bind fst snd]. cbv beta iota.
  destruct (astToIRType _ None (ah_RetType hdr)) as [[g r]|e|q|];
    cbn [mbind result_bind]; cbv beta iota; try done.
  rewrite foldM_fmap.
  match goal with |- (?a ≫= _) = _ => destruct a as [g'|e|q|] end;
    cbn [mbind result_bind]; cbv beta iota; done.
Qed.

(** X9: the skeleton of a function has its signature resolved eagerly.
    [newGlobal] allocates one function, of the given name, after the
    globals and functions that exist, and changes none of them; its
    signature is a node that denotes the function type of the header,
    return type, parameter types in their order and variadic flag; its type
    is a new pointer node to the signature, in address space 0; it has no
    parameters and no body yet.  The tables, the module and the type nodes
    that existed are unchanged. *)
Theorem newGlobal_function_skeleton (gen gen' : generator) (name : string)
    (old : TopLevelEntity) (hdr : ast_FuncHeader) (body : ast_FuncBody) (f : loc) :
  old = FuncDecl hdr \/ old = FuncDef hdr body ->
  newGlobal gen name old = Ok (gen', f) ->
  f = length (consts_heap gen) /\
  ts gen' = ts gen /\ gs gen' = gs gen /\ m gen' = m gen /\
  (forall l n, types_heap gen !! l = Some n -> types_heap gen' !! l = Some n) /\
  exists sig p,
    consts_heap gen' =
      consts_heap gen ++
        [Function {| f_GlobalName := name; f_Sig := Some sig; f_Typ := Some p;
                     f_Params := []; f_Linkage := 0; f_Preemption := 0;
                     f_Visibility := 0; f_DLLStorageClass := 0; f_UnnamedAddr := 0;
                     f_Blocks := None |}] /\
    denotes (length (types_heap gen)) gen' sig
      (ast_FuncType (ah_RetType hdr) (ap_Typ <$> ah_Params hdr) (ah_Variadic hdr)) /\
    types_heap gen' !! p = Some (PointerType EmptyString (Some sig) 0).
Proof.
  intros Hold Hrun.
  assert (Hrun' : newGlobal_Function gen name hdr = Ok (gen', f)).
  { destruct Hold as [->| ->]; exact Hrun. }
  clear Hrun Hold. rewrite newGlobal_Function_sig in Hrun'.
  apply bind_Ok in Hrun' as ([g1 sig] & Hsig & Hrun). cbv beta iota in Hrun.
  injection Hrun as <- <-.
  destruct (irType_frame _ _ _ _ Hsig) as (Hts & Hgs & Hm & Hc & Hlen & Hframe & _).
  unfold irType, astToIRTypeDef in Hsig.
  destruct (astToIRType_content _ _ _ _ _ Hsig) as [_ Hden].
  specialize (Hden eq_refl). simpl in Hts, Hgs, Hm, Hc, Hlen, Hframe.
  split; [done|]. split; [done|]. split; [done|]. split; [done|].
  split.
  { intros l n Hl. unfold types_NewPointer, new_type. simpl.
    apply lookup_app_l_Some. by apply Hframe. }
  exists sig, (length (types_heap g1)).
  split; [|split].
  - unfold update_const, types_NewPointer, new_type. simpl. rewrite Hc.
    rewrite alter_app_r_alt by lia. rewrite Nat.sub_diag. done.
  - eapply denotes_mono; [| | |exact Hden]; [simpl; lia|done|].
    intros l n _ Hl. unfold types_NewPointer, new_type. simpl.
    by apply lookup_app_l_Some.
  - unfold update_const, types_NewPointer, new_type. simpl.
    rewrite lookup_app_r by lia. by rewrite Nat.sub_diag.
Qed.

(** X10: the skeleton of a global variable has its content type resolved
    eagerly.  [newGlobal] allocates one global, of the given name, after
    the globals and functions that exist, and changes none of them; its
    content type denotes the content type of the declaration or
    definition; its type is a new pointer node to the content type, in
    address space 0; its attributes are the zero values and it has no
    initializer yet.  The tables, the module and the type nodes that
    existed are unchanged. *)
Theorem newGlobal_global_skeleton (gen gen' : generator) (name : string)
    (e : TopLevelEntity) (old : ast_Global) (init : ast_Constant) (g : loc) :
  e = GlobalDecl old \/ e = GlobalDef old init ->
  newGlobal gen name e = Ok (gen', g) ->
  g = length (consts_heap gen) /\
  ts gen' = ts gen /\ gs gen' = gs gen /\ m gen' = m gen /\
  (forall l n, types_heap gen !! l = Some n -> types_heap gen' !! l = Some n) /\
  exists ct p,
    consts_heap gen' =
      consts_heap gen ++
        [Global {| g_GlobalName := name; g_ContentType := Some ct; g_Typ := Some p;
                   g_Linkage := 0; g_Preemption := 0; g_Visibility := 0;
                   g_DLLStorageClass := 0; g_TLSModel := 0; g_UnnamedAddr := 0;
                   g_ExternallyInitialized := false; g_Immutable := false;
                   g_Init := None |}] /\
    denotes (length (types_heap gen)) gen' ct (ag_ContentType old) /\
    types_heap gen' !! p = Some (PointerType EmptyString (Some ct) 0).
Proof.
  intros He Hrun.
  assert (Hrun' : newGlobal_Global gen name old = Ok (gen', g)).
  { destruct He as [->| ->]; exact Hrun. }
  clear Hrun He. unfold newGlobal_Global, new_const in Hrun'.
  cbv beta iota in Hrun'.
  apply bind_Ok in Hrun' as ([g1 ct] & Hct & Hrun). cbv beta iota in Hrun.
  unfold types_NewPointer, new_type in Hrun. cbv beta iota in Hrun.
  injection Hrun as <- <-.
  destruct (irType_frame _ _ _ _ Hct) as (Hts & Hgs & Hm & Hc & Hlen & Hframe & _).
  unfold irType, astToIRTypeDef in Hct.
  destruct (astToIRType_content _ _ _ _ _ Hct) as [_ Hden].
  specialize (Hden eq_refl). simpl in Hts, Hgs, Hm, Hc, Hlen, Hframe, Hden.
  split; [done|]. split; [done|]. split; [done|]. split; [done|].
  split.
  { intros l n Hl. simpl. apply lookup_app_l_Some. by apply Hframe. }
  exists ct, (length (types_heap g1)).
  split; [|split].
  - unfold update_const. simpl. rewrite Hc.
    rewrite !alter_app_r_alt by (rewrite ?length_app; simpl; lia).
    rewrite Nat.sub_diag. done.
  - eapply denotes_mono; [| | |exact Hden]; [simpl; lia|done|].
    intros l n _ Hl. unfold update_const. simpl.
    by apply lookup_app_l_Some.
  - unfold update_const. simpl.
    rewrite lookup_app_r by lia. by rewrite Nat.sub_diag.
Qed.

(** ** The header of a function in the fill phase *)

Lemma foldl_append_f_Params (F0 : ir_Function) (prms : list ir_Param) :
  foldl (fun c prm => append_f_Params prm c) (Function F0) prms =
    Function {| f_GlobalName := f_GlobalName F0; f_Sig := f_Sig F0; f_Typ := f_Typ F0;
                f_Params := f_Params F0 ++ prms; f_Linkage := f_Linkage F0;
                f_Preemption := f_Preemption F0; f_Visibility := f_Visibility F0;
                f_DLLStorageClass := f_DLLStorageClass F0;
                f_UnnamedAddr := f_UnnamedAddr F0; f_Blocks := f_Blocks F0 |}.
Proof.
  revert F0. induction prms as [|prm prms IH]; intros F0; simpl.
  - rewrite app_nil_r. by destruct F0.
  - rewrite IH. simpl. by rewrite <- app_assoc.
Qed.

(** The loop over the parameters of a header: it appends to the parameters
    of the function [f], in order, one parameter for each parameter of the
    header, and otherwise only allocates type nodes. *)
Lemma header_loop_content (f : loc) (b : nat) (params : list ast_Param) :
  forall gen gen' c0,
    (b <= length (types_heap gen))%nat ->
    consts_heap gen !! f = Some c0 ->
    foldM (fun gen p =>
             '(gen, typ) ← irType gen (ap_Typ p);
             let param := {| p_Typ := typ; p_LocalName := ap_Name p |} in
             Ok (update_const gen f (append_f_Params param)))
          gen params = Ok gen' ->
    exists prms,
      consts_heap gen' !! f = Some (foldl (fun c prm => append_f_Params prm c) c0 prms) /\
      Forall2 (fun prm ap => p_LocalName prm = ap_Name ap /\
                             denotes b gen' (p_Typ prm) (ap_Typ ap)) prms params /\
      ts gen' = ts gen /\ gs gen' = gs gen /\ m gen' = m gen /\
      (forall l n, types_heap gen !! l = Some n -> types_heap gen' !! l = Some n) /\
      (forall l c, l <> f -> consts_heap gen !! l = Some c ->
         consts_heap gen' !! l = Some c).
Proof.
  induction params as [|ap params IH]; intros gen gen' c0 Hb Hc0 Hrun.
  - simpl in Hrun. injection Hrun as <-. exists []. simpl. by repeat split.
  - rewrite foldM_cons in Hrun. apply bind_Ok in Hrun as (g2 & Hstep & Hrun).
    apply bind_Ok in Hstep as ([g1 typ] & Htyp & Hstep). cbv beta iota zeta in Hstep.
    injection Hstep as <-.
    destruct (irType_frame _ _ _ _ Htyp) as (Hts & Hgs & Hm & Hc & Hlen & Hframe & _).
    unfold irType, astToIRTypeDef in Htyp.
    destruct (astToIRType_content _ _ _ _ _ Htyp) as [_ Hden]. specialize (Hden eq_refl).
    set (prm := {| p_Typ := typ; p_LocalName := ap_Name ap |}) in *.
    destruct (IH (update_const g1 f (append_f_Params prm)) gen' (append_f_Params prm c0))
      as (prms & Hf & Hall & Hts' & Hgs' & Hm' & Hframe' & Hcons');
      [simpl; lia|by rewrite update_const_lookup, Hc, Hc0|exact Hrun|].
    exists (prm :: prms). simpl in *.
    split; [exact Hf|]. split; [|split; [congruence|split; [congruence|split; [congruence|]]]].
    + constructor; [|exact Hall]. split; [done|].
      eapply (denotes_mono (length (types_heap gen))); [exact Hb| | |exact Hden].
      * by rewrite Hts'.
      * intros l n _ Hl. by apply Hframe'.
    + split.
      * intros l n Hl. apply Hframe'. by apply Hframe.
      * intros l c Hne Hl. apply Hcons'; [done|].
        rewrite list_lookup_alter_ne by done. by rewrite Hc.
Qed.

(** X11: the fill of the header of a function.  Given the skeleton of the
    function, with its pointer type, [astToIRFuncHeader] copies linkage,
    preemption, visibility, DLL storage class and unnamed-address policy
    from the header; appends to the parameters of the function one
    parameter for each parameter of the header, in order, with the name of
    that parameter and a type that denotes its type; it translates these
    types anew, so that a type that is not a named type gets a node of its
    own, apart from the node the signature has for it; and it sets the
    address space of the pointer type of the function.  Name, signature and
    body of the function, every other global and function, and every other
    type node are unchanged. *)
Theorem astToIRFuncHeader_fills_header (gen gen' : generator) (f p : loc)
    (hdr : ast_FuncHeader) (F0 : ir_Function) (np : types_Type) :
  consts_heap gen !! f = Some (Function F0) ->
  f_Typ F0 = Some p -> types_heap gen !! p = Some np ->
  astToIRFuncHeader gen f hdr = Ok gen' ->
  ts gen' = ts gen /\ gs gen' = gs gen /\ m gen' = m gen /\
  (forall l c, l <> f -> consts_heap gen !! l = Some c ->
     consts_heap gen' !! l = Some c) /\
  (forall l n, l <> p -> types_heap gen !! l = Some n -> types_heap gen' !! l = Some n) /\
  types_heap gen' !! p = Some (set_AddrSpace (ah_AddrSpace hdr) np) /\
  exists prms,
    consts_heap gen' !! f =
      Some (Function {| f_GlobalName := f_GlobalName F0; f_Sig := f_Sig F0;
                        f_Typ := Some p; f_Params := f_Params F0 ++ prms;
                        f_Linkage := ah_Linkage hdr; f_Preemption := ah_Preemption hdr;
                        f_Visibility := ah_Visibility hdr;
                        f_DLLStorageClass := ah_DLLStorageClass hdr;
                        f_UnnamedAddr := ah_UnnamedAddr hdr;
                        f_Blocks := f_Blocks F0 |}) /\
    Forall2 (fun prm ap =>
               p_LocalName prm = ap_Name ap /\
               denotes (length (types_heap gen)) gen' (p_Typ prm) (ap_Typ ap) /\
               (expected_kind (ap_Typ ap) <> None ->
                  (length (types_heap gen) <= p_Typ prm)%nat))
            prms (ah_Params hdr).
Proof.
  intros Hf HTyp Hp Hrun. unfold astToIRFuncHeader in Hrun.
  apply bind_Ok in Hrun as (g1 & Hloop & Hrun).
  destruct (header_loop_content f (length (types_heap gen)) (ah_Params hdr)
              (update_const gen f (set_f_Linkage hdr)) g1
              (set_f_Linkage hdr (Function F0)))
    as (prms & Hf1 & Hall & Hts & Hgs & Hm & Hframe & Hcons);
    [done|by rewrite update_const_lookup, Hf|exact Hloop|].
  simpl in Hts, Hgs, Hm, Hframe, Hcons.
  cbn [set_f_Linkage] in Hf1. rewrite foldl_append_f_Params in Hf1. simpl in Hf1.
  unfold Typ_of in Hrun. rewrite update_const_lookup, Hf1 in Hrun.
  simpl in Hrun. rewrite HTyp in Hrun. simpl in Hrun. injection Hrun as <-.
  simpl. split; [done|]. split; [done|]. split; [done|].
  split.
  { intros l c Hne Hl. rewrite list_lookup_alter_ne by done. apply Hcons; [done|].
    by rewrite list_lookup_alter_ne. }
  split.
  { intros l n Hne Hl. rewrite list_lookup_alter_ne by done. by apply Hframe. }
  split.
  { rewrite list_lookup_alter_eq, (Hframe _ _ Hp). done. }
  exists prms. split.
  { rewrite list_lookup_alter_eq, Hf1. simpl. by rewrite HTyp. }
  eapply Forall2_impl; [exact Hall|].
  intros prm ap [Hname Hden]. split; [done|].
  assert (Hp' : (p < length (types_heap gen))%nat) by (by eapply lookup_lt_Some).
  split.
  - eapply denotes_mono; [| | |exact Hden]; [done|done|].
    intros l n Hl Hn. simpl. rewrite list_lookup_alter_ne by lia. done.
  - intros Hk. rewrite denotes_unfold in Hden.
    destruct (ap_Typ ap); try (by destruct Hden); done.
Qed.

(** ** Modules without repeated global names *)

(** X12: in a module in which no name is repeated among the global
    variables and functions, the indexing loop of [resolveGlobals] succeeds:
    its index has exactly the names of the module, each bound to the entity
    of that name, and its two order lists are the names of the global
    variables and the names of the functions in the order of the module.
    The resolution of such a module never ends with the
    duplicate-definition error. *)
Theorem distinct_globals_are_indexed (gen : generator) (module : list TopLevelEntity) :
  range_ok -> NoDup (omap global_name module) ->
  (exists st,
     indexGlobals module = Ok st /\
     globalOrder st = omap global_var_name module /\
     funcOrder st = omap func_name module /\
     (forall name, is_Some (gindex st !! name) <-> name ∈ omap global_name module) /\
     (forall name e, gindex st !! name = Some e -> e ∈ module /\ global_name e = Some name)) /\
  (forall name prev new,
     resolveGlobals gen module <> Err (ErrGlobalPresent name prev new)).
Proof.
  intros Hrange Hnodup.
  destruct (indexGlobals_run module [] _ indexed_globals_nil)
    as [(st & Hindex & Hinv)|(name & prev & new & l1 & l2 & l3 & Hm & Hp & Hn & _)].
  2: { exfalso. simpl in Hm. rewrite Hm in Hnodup.
       rewrite omap_app in Hnodup. simpl in Hnodup. rewrite Hp in Hnodup.
       apply NoDup_app in Hnodup as (_ & _ & Hnodup).
       apply NoDup_cons in Hnodup as [Hnot _]. apply Hnot.
       rewrite omap_app. apply elem_of_app. right. simpl. rewrite Hn. left. }
  simpl in Hinv. pose proof Hinv as (_ & Hdom & Hent & Hgo & Hfo).
  split.
  - exists st. split; [exact Hindex|]. split; [done|]. split; [done|].
    split; [|exact Hent].
    intros name. split; [|apply Hdom].
    intros [e He]. destruct (Hent _ _ He) as [Hin Hname].
    apply list_elem_of_omap. eauto.
  - intros name prev new Herr.
    pose proof (resolveGlobals_indexed_outcome gen module st Hrange Hindex) as H.
    rewrite Herr in H. by destruct H as [[? [=]]|[? [=]]].
Qed.

(** ** Literals of types *)

(** Reading back the decimal rendering of a number. *)

Lemma digit_of_pretty_N_char (d : N) :
  (d < 10)%N -> digit_of (pretty_N_char d) = Some (Z.of_N d).
Proof.
  intros Hd.
  assert (d = 0 \/ d = 1 \/ d = 2 \/ d = 3 \/ d = 4 \/ d = 5 \/ d = 6 \/ d = 7 \/
          d = 8 \/ d = 9)%N as Hcases by lia.
  repeat (destruct Hcases as [->|Hcases]; [reflexivity|]). by subst.
Qed.

Lemma parse_digits_pretty_N_go (x : N) :
  forall (s : string) (acc : Z),
    exists k : Z, 0 <= k /\
      parse_digits acc (pretty_N_go x s) = parse_digits (acc * 10 ^ k + Z.of_N x) s.
Proof.
  induction (N.lt_wf_0 x) as [x _ IH]; intros s acc.
  destruct (decide (x = 0)%N) as [->|Hx].
  - exists 0. split; [lia|]. rewrite pretty_N_go_0. f_equal. lia.
  - rewrite pretty_N_go_step by lia.
    destruct (IH (x `div` 10)%N) with
      (s := String (pretty_N_char (x `mod` 10)) s) (acc := acc) as (k & Hk & ->).
    { apply N.div_lt; lia. }
    exists (k + 1). split; [lia|]. simpl.
    rewrite digit_of_pretty_N_char by (apply N.mod_lt; lia).
    f_equal. rewrite Z.pow_add_r by lia.
    rewrite (N.div_mod x 10) at 3 by lia.
    rewrite N2Z.inj_add, N2Z.inj_mul. simpl Z.of_N. lia.
Qed.

Lemma parse_digits_pretty (n : N) : parse_digits 0 (pretty n) = Some (Z.of_N n).
Proof.
  unfold pretty, pretty_N. destruct (decide (n = 0)%N) as [->|Hn]; [done|].
  destruct (parse_digits_pretty_N_go n EmptyString 0) as (k & _ & ->). done.
Qed.

Lemma pretty_N_head (n : N) :
  exists c s, pretty n = String c s /\ c <> "+"%char /\ c <> "-"%char.
Proof.
  destruct (pretty n) as [|c s] eqn:E.
  - pose proof (parse_digits_pretty n) as H. rewrite E in H. simpl in H.
    unfold pretty, pretty_N in E. destruct (decide (n = 0)%N) as [->|Hn]; [done|].
    injection H as H. lia.
  - exists c, s. split; [done|].
    pose proof (parse_digits_pretty n) as H. rewrite E in H. simpl in H.
    split; intros ->; simpl in H; discriminate.
Qed.

Lemma substring_all (s : string) : String.substring 0 (String.length s) s = s.
Proof. induction s as [|c s IH]; simpl; [done|]. by rewrite IH. Qed.

Lemma ParseInt_pretty (n : N) :
  (Z.of_N n < 2 ^ 63) -> ParseInt_10_64 (pretty n) = Some (Z.of_N n).
Proof.
  intros Hn. destruct (pretty_N_head n) as (c & s & E & Hplus & Hminus).
  unfold ParseInt_10_64.
  assert (Hbody : (match pretty n with
                   | String "+"%char r => (false, r)
                   | String "-"%char r => (true, r)
                   | _ => (false, pretty n)
                   end) = (false, pretty n)).
  { rewrite E. destruct c as [[] [] [] [] [] [] [] []]; try done. }
  rewrite Hbody. rewrite E at 1. rewrite parse_digits_pretty.
  rewrite andb_true_intro; [done|]. split; apply Z.leb_le; lia.
Qed.

Lemma ParseInt_10_64_range (s : string) (v : Z) :
  ParseInt_10_64 s = Some v -> - 2 ^ 63 <= v < 2 ^ 63.
Proof.
  unfold ParseInt_10_64.
  destruct (match s with
            | String "+"%char r => (false, r)
            | String "-"%char r => (true, r)
            | _ => (false, s)
            end) as [neg body].
  destruct body as [|c body]; [done|].
  destruct (parse_digits 0 (String c body)) as [v0|]; [|done].
  destruct (_ && _) eqn:Hb; [|done]. intros [= <-].
  apply andb_prop in Hb as [H1 H2]. apply Z.leb_le in H1, H2. lia.
Qed.

(** X13: the bit size of an integer type is the number written after the
    [i], read in base ten: [irIntTypeBitSize] returns [n] for the text [i]
    followed by the decimal rendering of any [n] below [2^63], and panics
    for a number from [2^63] on.  It does not test the sign: a minus sign
    after the [i] gives a negative bit size.  A text that does not start
    with [i] panics with the whole text; and whatever the text, a bit size
    that is returned lies in the range of a signed 64-bit integer. *)
Theorem irIntTypeBitSize_decimal (n : N) (text : string) (x : Z) :
  (Z.of_N n < 2 ^ 63 -> irIntTypeBitSize ("i" +:+ pretty n) = Ok (Z.of_N n)) /\
  (2 ^ 63 <= Z.of_N n ->
     irIntTypeBitSize ("i" +:+ pretty n) = Panic (PanicIntBitSize (pretty n))) /\
  (Z.of_N n <= 2 ^ 63 -> irIntTypeBitSize ("i-" +:+ pretty n) = Ok (- Z.of_N n)) /\
  (String.prefix "i" text = false -> irIntTypeBitSize text = Panic (PanicIntPrefix text)) /\
  (irIntTypeBitSize text = Ok x ->
     String.prefix "i" text = true /\ - 2 ^ 63 <= x < 2 ^ 63).
Proof.
  assert (Hbody : forall s, String.substring 1 (String.length ("i" +:+ s) - 1) ("i" +:+ s) = s).
  { intros s. simpl. rewrite Nat.sub_0_r. apply substring_all. }
  assert (Hparse : forall s, irIntTypeBitSize ("i" +:+ s) =
            match ParseInt_10_64 s with
            | Some x => Ok x
            | None => Panic (PanicIntBitSize s)
            end).
  { intros s. unfold irIntTypeBitSize.
    assert (String.prefix "i" ("i" +:+ s) = true) as -> by (simpl; by destruct s).
    cbn [negb]. cbv zeta. by rewrite Hbody. }
  split; [|split; [|split; [|split]]].
  - intros Hn. by rewrite Hparse, ParseInt_pretty.
  - intros Hn. rewrite Hparse.
    destruct (pretty_N_head n) as (c & s & E & Hplus & Hminus).
    unfold ParseInt_10_64.
    assert (Hsign : (match pretty n with
                     | String "+"%char r => (false, r)
                     | String "-"%char r => (true, r)
                     | _ => (false, pretty n)
                     end) = (false, pretty n)).
    { rewrite E. destruct c as [[] [] [] [] [] [] [] []]; try done. }
    rewrite Hsign. rewrite E at 1. rewrite parse_digits_pretty.
    destruct (_ && _) eqn:Hb; [|done].
    apply andb_prop in Hb as [_ Hb]. apply Z.leb_le in Hb. lia.
  - intros Hn. change ("i-" +:+ pretty n) with ("i" +:+ ("-" +:+ pretty n)).
    rewrite Hparse. unfold ParseInt_10_64.
    change ("-" +:+ pretty n) with (String "-"%char (pretty n)). cbv beta iota.
    destruct (pretty_N_head n) as (c & s & E & _). rewrite E at 1.
    rewrite parse_digits_pretty.
    rewrite andb_true_intro; [done|]. split; apply Z.leb_le; lia.
  - intros Hp. unfold irIntTypeBitSize. by rewrite Hp.
  - unfold irIntTypeBitSize. intros Hx.
    destruct (String.prefix "i" text); [|done]. split; [done|].
    cbn [negb] in Hx. cbv zeta in Hx.
    destruct (ParseInt_10_64 _) as [v|] eqn:Hv; [|done].
    injection Hx as <-. by apply ParseInt_10_64_range in Hv.
Qed.

(** X15: the length of an array or vector type is converted from an
    unsigned to a signed 64-bit integer without a test: the node of the
    type holds the length modulo [2^64] in the signed range, so a length
    from [2^63] on is stored as a negative number.  Its element is a
    location that denotes the element type. *)
Theorem array_length_is_wrapped (gen gen' : generator) (len : Z) (elem : ast_Type)
    (old : ast_Type) (r : loc) :
  0 <= len < 2 ^ 64 ->
  old = ast_ArrayType len elem \/ old = ast_VectorType len elem ->
  irType gen old = Ok (gen', r) ->
  exists n e,
    types_heap gen' !! r = Some n /\
    (n = ArrayType EmptyString (int64_of_uint64 len) (Some e) \/
     n = VectorType EmptyString (int64_of_uint64 len) (Some e)) /\
    denotes (length (types_heap gen)) gen' e elem /\
    - 2 ^ 63 <= int64_of_uint64 len < 2 ^ 63 /\
    int64_of_uint64 len mod 2 ^ 64 = len /\
    (int64_of_uint64 len < 0 <-> 2 ^ 63 <= len).
Proof.
  intros Hlen Hold Hrun.
  assert (Hwrap : - 2 ^ 63 <= int64_of_uint64 len < 2 ^ 63 /\
                  int64_of_uint64 len mod 2 ^ 64 = len /\
                  (int64_of_uint64 len < 0 <-> 2 ^ 63 <= len)).
  { unfold int64_of_uint64. destruct (len <? 2 ^ 63) eqn:E.
    - apply Z.ltb_lt in E. split; [lia|]. split; [apply Z.mod_small; lia|lia].
    - apply Z.ltb_ge in E. split; [lia|]. split; [|lia].
      rewrite <- (Z.mod_unique (len - 2 ^ 64) (2 ^ 64) (-1) len); [done|left; lia|lia]. }
  unfold irType, astToIRTypeDef in Hrun.
  destruct (astToIRType_content _ _ _ _ _ Hrun) as [_ Hden]. specialize (Hden eq_refl).
  rewrite astToIRType_unfold in Hrun. cbv zeta in Hrun.
  destruct Hold as [-> | ->]; rewrite denotes_unfold in Hden;
    destruct Hden as (_ & n & Hn & Hnd); simpl in Hnd;
    unfold astToIRArrayType, astToIRVectorType, type_assert, new_type in Hrun;
    cbn [mbind result_bind] in Hrun; cbv beta iota in Hrun;
    apply bind_Ok in Hrun as ([g1 e] & He & Hrun); cbv beta iota in Hrun;
    injection Hrun as <- <-;
    pose proof Hn as Hn'; rewrite update_type_lookup in Hn;
    destruct (astToIRType_frame _ _ _ _ _ He) as [Hext _];
    match type of Hext with heap_extends None ?g0 _ =>
      assert (H0 : exists z, types_heap g0 !! length (types_heap gen) = Some z /\
                     z = set_Len (int64_of_uint64 len) z /\
                     (z = ArrayType EmptyString (int64_of_uint64 len) None \/
                      z = VectorType EmptyString (int64_of_uint64 len) None))
        by (rewrite update_type_lookup; simpl;
            rewrite lookup_app_r, Nat.sub_diag by lia; simpl; eauto)
    end;
    destruct H0 as (z & Hz & _ & Hzz);
    rewrite (heap_extends_lookup _ _ _ _ Hext Hz) in Hn; simpl in Hn;
    injection Hn as <-;
    (destruct Hzz as [-> | ->]; [|try done]; try done);
    simpl in Hnd; destruct Hnd as [_ Hnd]; eexists _, e;
    (split; [exact Hn'|]); (split; [eauto|]); (split; [exact Hnd|exact Hwrap]).
Qed.

(** ** The table of globals after resolution *)

(** X16: after a successful resolution of the globals and functions the
    table of globals binds the names of the global variables and functions
    of the module and no other name, whatever it held before; each name is
    bound to a global or function that carries that name, is a global for a
    global variable and a function for a function, and has its pointer
    type.  The table of named types and the list of type definitions of the
    module are untouched. *)
Theorem resolveGlobals_binds_defined_names (gen gen' : generator)
    (module : list TopLevelEntity) :
  range_ok -> resolveGlobals gen module = Ok gen' ->
  (forall name, is_Some (gs gen' !! name) <-> name ∈ omap global_name module) /\
  (forall e name, e ∈ module -> global_name e = Some name ->
     exists l c,
       gs gen' !! name = Some l /\ consts_heap gen' !! l = Some c /\
       GlobalName_of c = name /\ entity_kind e = Some (kind_of_const c) /\
       is_Some (Typ_field c)) /\
  ts gen' = ts gen /\ TypeDefs (m gen') = TypeDefs (m gen).
Proof.
  intros Hrange Hrun.
  destruct (resolveGlobals_Ok _ _ _ Hrange Hrun)
    as (st & globals & funcs & Hst & [Hdom Hent] & Hts & Htd & _).
  pose proof (indexGlobals_Ok _ _ Hst) as (Hnodup & Hin & Hix & _).
  assert (Hbound : forall e name, e ∈ module -> global_name e = Some name ->
            gindex st !! name = Some e).
  { intros e name He Hname.
    destruct (Hin name) as [e' He']; [apply list_elem_of_omap; eauto|].
    destruct (Hix _ _ He') as [Hin' Hname'].
    rewrite He'. f_equal.
    apply list_elem_of_split in He as (l1 & l2 & ->).
    rewrite omap_app in Hnodup. simpl in Hnodup. rewrite Hname in Hnodup.
    apply NoDup_app in Hnodup as (Hnd1 & Hdisj & Hnd2).
    apply NoDup_cons in Hnd2 as [Hnot2 _].
    apply elem_of_app in Hin' as [Hin'|Hin'].
    - exfalso. apply (Hdisj name); [apply list_elem_of_omap; eauto|left].
    - apply elem_of_cons in Hin' as [->|Hin']; [done|].
      exfalso. apply Hnot2. apply list_elem_of_omap; eauto. }
  split; [|split; [|done]].
  - intros name. split.
    + intros Hsome. destruct (Hdom _ Hsome) as [e He].
      destruct (Hix _ _ He) as [Hine Hname]. apply list_elem_of_omap; eauto.
    + intros Hname. destruct (Hin _ Hname) as [e He].
      destruct (Hent _ _ He) as (l & c & Hl & _). by eexists.
  - intros e name He Hname. apply Hent. by apply Hbound.
Qed.

(** ** When the translation of a type succeeds *)

Lemma all_translatable (gen : generator) (l : list ast_Type) :
  foldr (fun f acc => translatable gen f /\ acc) True l <-> Forall (translatable gen) l.
Proof.
  induction l as [|f l IH]; simpl; [by split|].
  rewrite Forall_cons. by rewrite IH.
Qed.

(** Only the table of named types matters. *)
Lemma translatable_ts (old : ast_Type) :
  forall g g', ts g = ts g' -> translatable g old -> translatable g' old.
Proof.
  induction old using ast_Type_nested_ind; intros g g' Hts; simpl; try done; eauto.
  - intros [Hr Hps]. split; [eauto|].
    apply all_translatable. apply all_translatable in Hps.
    induction H as [|p ps Hp _ IH]; [done|].
    apply Forall_cons in Hps as [? ?]. constructor; eauto.
  - by rewrite Hts.
  - intros Hfs. apply all_translatable. apply all_translatable in Hfs.
    induction H as [|p ps Hp _ IH]; [done|].
    apply Forall_cons in Hfs as [? ?]. constructor; eauto.
  - intros Hfs. apply all_translatable. apply all_translatable in Hfs.
    induction H as [|p ps Hp _ IH]; [done|].
    apply Forall_cons in Hfs as [? ?]. constructor; eauto.
Qed.

#[local] Abbreviation succeeds_iff old :=
  (forall g, translatable g old <-> exists g' r, astToIRType g None old = Ok (g', r)).

(** A loop over nested types runs to its end exactly when each of them
    can be translated. *)
Lemma fields_loop_succeeds (upd : loc -> types_Type -> types_Type) (typ : loc)
    (fields : list ast_Type) :
  Forall (fun f => succeeds_iff f) fields ->
  forall gen,
    Forall (translatable gen) fields <->
    exists gen',
      foldM (fun gen f => '(gen, field) ← astToIRType gen None f;
                          Ok (update_type gen typ (upd field))) gen fields = Ok gen'.
Proof.
  induction 1 as [|f fields Hf _ IH]; intros gen.
  - split; [by exists gen|done].
  - rewrite foldM_cons. split.
    + intros [Hhead Hrest]%Forall_cons.
      apply Hf in Hhead as (g1 & r & Hstep). rewrite Hstep.
      cbn [mbind result_bind]. cbv beta iota. apply IH.
      apply astToIRType_frame in Hstep as [(Hts & _) _].
      eapply Forall_impl; [exact Hrest|]. intros x. apply translatable_ts.
      simpl. congruence.
    + intros [gen' Hrun]. apply bind_Ok in Hrun as (g2 & Hstep & Hrun).
      apply bind_Ok in Hstep as ([g1 r] & Hstep & Heq). cbv beta iota in Heq.
      injection Heq as <-. constructor; [apply Hf; eauto|].
      assert (Hrest : Forall (translatable (update_type g1 typ (upd r))) fields)
        by (apply IH; eauto).
      apply astToIRType_frame in Hstep as [(Hts & _) _].
      eapply Forall_impl; [exact Hrest|]. intros x. apply translatable_ts.
      simpl. congruence.
Qed.

(** The translation of a type without skeleton succeeds exactly on the
    translatable types. *)
Lemma astToIRType_translatable (gen : generator) (old : ast_Type) :
  translatable gen old <-> exists gen' r, astToIRType gen None old = Ok (gen', r).
Proof.
  revert gen.
  assert (Hts : forall g g' old, ts g = ts g' ->
            translatable g old <-> translatable g' old).
  { intros g g' o Hts. split; apply translatable_ts; done. }
  assert (Hsub : forall (old : ast_Type) g1 g2 (Q : Prop)
                   (k : generator -> loc -> result (generator * loc)),
            (forall g, translatable g old <->
                       exists g' r, astToIRType g None old = Ok (g', r)) ->
            ts g1 = ts g2 ->
            (forall g e, ts g = ts g2 -> Q <-> exists g' r, k g e = Ok (g', r)) ->
            translatable g2 old /\ Q <->
            exists g' r, (astToIRType g1 None old ≫= fun '(g, e) => k g e) = Ok (g', r)).
  { intros o g1 g2 Q k IH Hg Hk. rewrite <- (Hts g1 g2 o Hg), IH. split.
    - intros [(g & e & Hrun) HQ]. rewrite Hrun. cbn [mbind result_bind]. cbv beta iota.
      apply Hk; [|done]. apply astToIRType_frame in Hrun as [(Ht & _) _]. congruence.
    - intros (g' & r & Hrun). apply bind_Ok in Hrun as ([g e] & He & Hrun).
      split; [eauto|]. apply (Hk g e); [|eauto].
      apply astToIRType_frame in He as [(Ht & _) _]. congruence. }
  assert (Hsub1 : forall (old : ast_Type) g1 g2
                    (k : generator -> loc -> result (generator * loc)),
            (forall g, translatable g old <->
                       exists g' r, astToIRType g None old = Ok (g', r)) ->
            ts g1 = ts g2 ->
            (forall g e, exists g' r, k g e = Ok (g', r)) ->
            translatable g2 old <->
            exists g' r, (astToIRType g1 None old ≫= fun '(g, e) => k g e) = Ok (g', r)).
  { intros o g1 g2 k IH Hg Hk.
    rewrite <- (Hsub o g1 g2 True k IH Hg); [tauto|]. intros g e _. split; auto. }
  assert (Hloop : forall (fields : list ast_Type) g1 g2 typ upd
                    (k : generator -> result (generator * loc)),
            Forall (fun f => forall g, translatable g f <->
                       exists g' r, astToIRType g None f = Ok (g', r)) fields ->
            ts g1 = ts g2 ->
            (forall g, exists g' r, k g = Ok (g', r)) ->
            foldr (fun f acc => translatable g2 f /\ acc) True fields <->
            exists g' r,
              (foldM (fun gen f => '(gen, field) ← astToIRType gen None f;
                                   Ok (update_type gen typ (upd field))) g1 fields
                 ≫= k) = Ok (g', r)).
  { intros fields g1 g2 typ upd k IH Hg Hk.
    rewrite all_translatable.
    assert (Forall (translatable g2) fields <-> Forall (translatable g1) fields) as ->.
    { split; intros HF; (eapply Forall_impl; [exact HF|]); intros x; apply Hts; done. }
    rewrite (fields_loop_succeeds upd typ fields IH g1). split.
    - intros [g Hrun]. rewrite Hrun. cbn [mbind result_bind]. apply Hk.
    - intros (g' & r & Hrun). apply bind_Ok in Hrun as (g & Hg' & _). eauto. }
  induction old using ast_Type_nested_ind; intros gen;
    rewrite astToIRType_unfold; cbv zeta;
    unfold astToIRArrayType, astToIRFloatType, astToIRFuncType, astToIRIntType,
      astToIRLabelType, astToIRMMXType, astToIRMetadataType, astToIRNamedType,
      astToIRPointerType, astToIRStructType, astToIRPackedStructType,
      astToIRTokenType, astToIRVectorType, astToIRVoidType, type_assert, new_type;
    cbn [mbind result_bind translatable]; cbv beta iota.
  - apply Hsub1; [exact IHold|done|eauto].
  - split.
    + intros [x ->]. cbn [mbind result_bind]. eauto.
    + intros (g' & r & Hrun). apply bind_Ok in Hrun as (x & Hx & _). eauto.
  - apply Hsub; [exact IHold|done|]. intros g e Hg.
    apply Hloop; [exact H|simpl; congruence|eauto].
  - split.
    + intros [x ->]. cbn [mbind result_bind]. eauto.
    + intros (g' & r & Hrun). apply bind_Ok in Hrun as (x & Hx & _). eauto.
  - split; eauto.
  - split; eauto.
  - split; eauto.
  - destruct (ts gen !! name) as [l|]; split; eauto.
    + by intros [? ?].
    + by intros (? & ? & ?).
  - apply Hsub1; [exact IHold|done|eauto].
  - apply Hloop; [exact H|done|eauto].
  - apply Hloop; [exact H|done|eauto].
  - split; eauto.
  - apply Hsub1; [exact IHold|done|eauto].
  - split; eauto.
Qed.

(** ** Repeated type names *)

Lemma last_definition (p : list TopLevelEntity) (a : string) :
  a ∈ omap type_name p ->
  exists l1 typ l2, p = l1 ++ TypeDef a typ :: l2 /\ a ∉ omap type_name l2.
Proof.
  induction p as [|x p IH]; [by intros ?%elem_of_nil|].
  intros Ha. destruct (decide (a ∈ omap type_name p)) as [Hin|Hnot].
  - destruct (IH Hin) as (l1 & typ & l2 & -> & Hl2).
    exists (x :: l1), typ, l2. by split.
  - destruct x as [b typ| | | | |]; simpl in Ha; try done.
    apply elem_of_cons in Ha as [->|Ha]; [|done].
    exists [], typ, p. by split.
Qed.

Lemma indexTypeDefs_no_panic (module : list TopLevelEntity) :
  (forall a, TypeDef a node_nil ∉ module) ->
  (exists st, indexTypeDefs module = Ok st) \/ (exists e, indexTypeDefs module = Err e).
Proof.
  intros Hnil. destruct (indexTypeDefs module) as [st|e|q|] eqn:Hrun; eauto; exfalso.
  - unfold indexTypeDefs in Hrun.
    apply (foldM_failure _ (fun _ _ => True)) in Hrun
      as (p & x & rest & s1 & -> & _ & Hx); [|done|done|done].
    destruct x as [a typ| | | | |]; simpl in Hx; try done.
    destruct typ; simpl in Hx.
    + apply (Hnil a). apply elem_of_app. right. left.
    + by destruct (index s1 !! a) as [[]|].
    + by destruct (index s1 !! a) as [[]|].
  - unfold indexTypeDefs in Hrun.
    apply (foldM_failure _ (fun _ _ => True)) in Hrun
      as (p & x & rest & s1 & -> & _ & Hx); [|done|done|done].
    pose proof (indexTypeDef_outcome s1 x) as Hout. by rewrite Hx in Hout.
Qed.

(** X18: a type name may be repeated only after opaque declarations.  In
    a module whose type definitions all have a type or an opaque type as
    body, the indexing loop fails exactly when some definition of a name is
    followed by another definition of that name and is not opaque, no
    definition of the name lying between the two; the failure is the
    duplicate-definition error, and the resolution of the module fails
    with it.  When no type name is repeated the loop succeeds and its order
    list is the list of the type names of the module. *)
Theorem type_redefinition_iff (gen : generator) (module : list TopLevelEntity) :
  (forall a, TypeDef a node_nil ∉ module) ->
  ((exists e, indexTypeDefs module = Err e) <->
   (exists l1 a prev l2 typ l3,
      module = l1 ++ TypeDef a prev :: l2 ++ TypeDef a typ :: l3 /\
      prev <> node_OpaqueType /\ a ∉ omap type_name l2)) /\
  (forall e, indexTypeDefs module = Err e ->
     kind_of_error e = DuplicateDefinitionError /\ resolveTypeDefs gen module = Err e) /\
  (NoDup (omap type_name module) ->
   exists st, indexTypeDefs module = Ok st /\ order st = omap type_name module).
Proof.
  intros Hnil.
  assert (Hiff : (exists e, indexTypeDefs module = Err e) <->
    (exists l1 a prev l2 typ l3,
       module = l1 ++ TypeDef a prev :: l2 ++ TypeDef a typ :: l3 /\
       prev <> node_OpaqueType /\ a ∉ omap type_name l2)).
  { split.
    - intros [e Hrun]. unfold indexTypeDefs in Hrun.
      apply (foldM_failure _
               (fun p s => foldM indexTypeDef
                             {| index := ∅; added := ∅; order := [] |} p = Ok s))
        in Hrun as (p & x & rest & s1 & -> & Hp & Hx); [| |done|done].
      2: { intros p x rest s s' _ Hp Hx. by rewrite foldM_app, Hp; simpl; rewrite Hx. }
      destruct x as [a typ| | | | |]; simpl in Hx; try done.
      destruct (index s1 !! a) as [prev|] eqn:Hprev; [|by destruct typ].
      assert (Hne : prev <> node_OpaqueType) by (intros ->; by destruct typ).
      pose proof (indexTypeDefs_Ok p s1 Hp) as (_ & _ & Hix & _).
      destruct (last_definition p a) as (l1 & prev' & l2 & -> & Hl2);
        [apply Hix; by eexists|].
      pose proof (indexTypeDefs_last _ _ _ _ _ Hp Hl2) as Hlast.
      rewrite Hprev in Hlast. injection Hlast as <-.
      exists l1, a, prev, l2, typ, rest. by rewrite <- app_assoc.
    - intros (l1 & a & prev & l2 & typ & l3 & Hm & Hne & Hl2).
      assert (Hm' : module = (l1 ++ TypeDef a prev :: l2) ++ [TypeDef a typ] ++ l3)
        by (rewrite Hm, <- app_assoc; done).
      assert (Htyp : typ <> node_nil).
      { intros ->. apply (Hnil a). rewrite Hm'. apply elem_of_app. right. left. }
      unfold indexTypeDefs. rewrite Hm', foldM_app.
      destruct (indexTypeDefs_no_panic (l1 ++ TypeDef a prev :: l2)) as [[s1 Hs1]|[e He]].
      + intros b Hb. apply (Hnil b). rewrite Hm'. apply elem_of_app. by left.
      + unfold indexTypeDefs in Hs1. rewrite Hs1. cbn [mbind result_bind].
        rewrite foldM_app, foldM_cons.
        rewrite (indexTypeDef_reject s1 a typ prev Htyp); [simpl; eauto| |done].
        by apply (indexTypeDefs_last l1 l2).
      + unfold indexTypeDefs in He. rewrite He. simpl. eauto. }
  split; [exact Hiff|]. split.
  - intros e Hrun. unfold resolveTypeDefs. rewrite Hrun. split; [|done].
    unfold indexTypeDefs in Hrun.
    apply (foldM_failure _ (fun _ _ => True)) in Hrun
      as (p & x & rest & s1 & _ & _ & Hx); [|done|done|done].
    pose proof (indexTypeDef_outcome s1 x) as Hout. rewrite Hx in Hout.
    by destruct Hout as (? & ? & ? & ->).
  - intros Hnodup.
    destruct (indexTypeDefs_no_panic module Hnil) as [[st Hst]|Herr].
    + exists st. split; [done|].
      pose proof (indexTypeDefs_Ok _ _ Hst) as (-> & _).
      by apply first_occurrences_NoDup_id.
    + exfalso. apply Hiff in Herr as (l1 & a & prev & l2 & typ & l3 & -> & _ & _).
      rewrite omap_app in Hnodup. simpl in Hnodup.
      apply NoDup_app in Hnodup as (_ & _ & Hnodup).
      apply NoDup_cons in Hnodup as [Hnot _]. apply Hnot.
      rewrite omap_app. apply elem_of_app. right. simpl. left.
Qed.

(** X17: [irType] succeeds exactly on the types in which every named type
    is bound in the table of named types and every integer type and
    floating-point kind can be read; the order of the definitions in the
    module, forward references among them and the depth of nesting play no
    part.  On any other type it fails with the unresolved-identifier error
    of a named type that is absent from the table or with the panic of a
    literal that cannot be read. *)
Theorem irType_succeeds_iff (gen : generator) (old : ast_Type) :
  (translatable gen old <-> exists gen' r, irType gen old = Ok (gen', r)) /\
  (~ translatable gen old ->
   (exists name, irType gen old = Err (ErrLocateTypeDef (enc_Local name)) /\
                 ts gen !! name = None) \/
   (exists q, irType gen old = Panic q /\ literal_panic q)).
Proof.
  unfold irType, astToIRTypeDef.
  pose proof (astToIRType_translatable gen old) as Hiff.
  split; [exact Hiff|]. intros Hnot.
  pose proof (astToIRType_outcome old gen None) as Hout.
  destruct (astToIRType gen None old) as [[g r]|e|q|]; simpl in Hout.
  - exfalso. apply Hnot, Hiff. eauto.
  - destruct Hout as (name & -> & Hname). left. eauto.
  - destruct Hout as [(l & k & [=] & _)|Hlit]. right. eauto.
  - done.
Qed.

(** ** The fill phase right after the skeleton phase *)

(** X19: the fill of a global declaration on its own skeleton cannot
    fail.  After [newGlobal] and [astToIRGlobalDecl] the global has the
    name it was created with, the attributes of the declaration and no
    initializer; its content type denotes the content type of the
    declaration; its type is the pointer node to the content type that
    the skeleton phase allocated, now with the address space of the
    declaration.  The table of named types and the type nodes that existed
    before are unchanged. *)
Theorem global_declaration_fill (gen g1 : generator) (name : string) (old : ast_Global)
    (l : loc) :
  newGlobal gen name (GlobalDecl old) = Ok (g1, l) ->
  exists g2 ct p,
    astToIRGlobalDecl g1 (Some l) old = Ok (g2, l) /\
    consts_heap g2 =
      consts_heap gen ++
        [Global {| g_GlobalName := name; g_ContentType := Some ct; g_Typ := Some p;
                   g_Linkage := ga_Linkage (ag_Attrs old);
                   g_Preemption := ga_Preemption (ag_Attrs old);
                   g_Visibility := ga_Visibility (ag_Attrs old);
                   g_DLLStorageClass := ga_DLLStorageClass (ag_Attrs old);
                   g_TLSModel := ga_TLSModel (ag_Attrs old);
                   g_UnnamedAddr := ga_UnnamedAddr (ag_Attrs old);
                   g_ExternallyInitialized := ga_ExternallyInitialized (ag_Attrs old);
                   g_Immutable := ga_Immutable (ag_Attrs old);
                   g_Init := None |}] /\
    types_heap g2 !! p =
      Some (PointerType EmptyString (Some ct) (ga_AddrSpace (ag_Attrs old))) /\
    denotes (length (types_heap gen)) g2 ct (ag_ContentType old) /\
    ts g2 = ts gen /\
    (forall l' n, types_heap gen !! l' = Some n -> types_heap g2 !! l' = Some n).
Proof.
  simpl. unfold newGlobal_Global, new_const. cbv beta iota. intros Hrun.
  apply bind_Ok in Hrun as ([gc ct] & Hct & Hrun). cbv beta iota in Hrun.
  unfold types_NewPointer, new_type in Hrun. cbv beta iota in Hrun.
  injection Hrun as Hg1 <-.
  destruct (irType_frame _ _ _ _ Hct) as (Hts & Hgs & Hm & Hc & Hlen & Hframe & _).
  unfold irType, astToIRTypeDef in Hct.
  destruct (astToIRType_content _ _ _ _ _ Hct) as [_ Hden].
  specialize (Hden eq_refl). simpl in Hts, Hgs, Hm, Hc, Hlen, Hframe, Hden.
  set (p := length (types_heap gc)).
  set (G0 := Global {| g_GlobalName := name; g_ContentType := Some ct; g_Typ := Some p;
                       g_Linkage := 0; g_Preemption := 0; g_Visibility := 0;
                       g_DLLStorageClass := 0; g_TLSModel := 0; g_UnnamedAddr := 0;
                       g_ExternallyInitialized := false; g_Immutable := false;
                       g_Init := None |}).
  assert (HF1 : consts_heap g1 = consts_heap gen ++ [G0]).
  { rewrite <- Hg1. unfold update_const. simpl. rewrite Hc.
    rewrite !alter_app_r_alt by (rewrite ?length_app; simpl; lia).
    by rewrite Nat.sub_diag. }
  assert (HF2 : types_heap g1 = types_heap gc ++ [PointerType EmptyString (Some ct) 0])
    by (by rewrite <- Hg1).
  assert (HF3 : ts g1 = ts gen) by (by rewrite <- Hg1).
  clear Hg1.
  unfold astToIRGlobalDecl, const_assert, const_kind_at.
  rewrite HF1, lookup_app_r, Nat.sub_diag by lia.
  cbn [lookup list_lookup fmap option_fmap option_map].
  rewrite decide_True by done. cbn [mbind result_bind].
  unfold Typ_of. rewrite HF1, lookup_app_r, Nat.sub_diag by lia.
  cbn [lookup list_lookup G0 g_Typ set_Typ_AddrSpace mbind result_bind].
  eexists _, ct, p. split; [reflexivity|].
  unfold update_const, update_type.
  cbn [consts_heap set_consts_heap set_types_heap types_heap ts].
  rewrite HF1, HF2, HF3.
  split; [|split; [|split; [|split]]].
  - rewrite alter_app_r_alt by lia. rewrite Nat.sub_diag. reflexivity.
  - rewrite list_lookup_alter_eq, lookup_app_r by (unfold p; lia).
    unfold p. rewrite Nat.sub_diag. reflexivity.
  - eapply denotes_mono; [| | |exact Hden]; [lia|simpl; congruence|].
    intros l' n _ Hl'. simpl. rewrite ?HF2.
    rewrite list_lookup_alter_ne by (apply lookup_lt_Some in Hl'; unfold p; lia).
    by apply lookup_app_l_Some.
  - done.
  - intros l' n Hl'. pose proof (Hframe _ _ Hl' ltac:(done)) as Hl1.
    simpl. rewrite ?HF2. rewrite list_lookup_alter_ne by (apply lookup_lt_Some in Hl1; unfold p; lia).
    by apply lookup_app_l_Some.
Qed.

(** The loop over the parameters of a header runs to its end when the
    types of the parameters are translatable. *)
Lemma header_loop_succeeds (f : loc) (params : list ast_Param) :
  forall gen,
    Forall (translatable gen) (ap_Typ <$> params) ->
    exists gen',
      foldM (fun gen p =>
               '(gen, typ) ← irType gen (ap_Typ p);
               let param := {| p_Typ := typ; p_LocalName := ap_Name p |} in
               Ok (update_const gen f (append_f_Params param)))
            gen params = Ok gen'.
Proof.
  induction params as [|ap params IH]; intros gen Hall; [by exists gen|].
  rewrite fmap_cons in Hall. apply Forall_cons in Hall as [Hhead Hrest].
  apply astToIRType_translatable in Hhead as (g1 & r & Hstep).
  assert (Hstep' : irType gen (ap_Typ ap) = Ok (g1, r)) by exact Hstep.
  rewrite foldM_cons. cbv beta. rewrite Hstep'.
  cbn [mbind result_bind]. cbv beta iota zeta. apply IH.
  apply astToIRType_frame in Hstep as [(Hts & _) _].
  eapply Forall_impl; [exact Hrest|]. intros x. apply translatable_ts.
  simpl. congruence.
Qed.

(** X20: the fill of a function declaration on its own skeleton cannot
    fail: the types of the parameters were translated once for the
    signature, and the table of named types is the same.  After [newGlobal]
    and [astToIRFuncDecl] the function has the name it was created with,
    the linkage, preemption, visibility, DLL storage class and
    unnamed-address policy of the header, one parameter for each parameter
    of the header, in order, with its name and a type that denotes its
    type, and no body; its signature still denotes the function type of the
    header; its type is the pointer node to the signature that the skeleton
    phase allocated, now with the address space of the header. *)
Theorem function_declaration_fill (gen g1 : generator) (name : string)
    (hdr : ast_FuncHeader) (f : loc) :
  newGlobal gen name (FuncDecl hdr) = Ok (g1, f) ->
  exists g2 sig p prms,
    astToIRFuncDecl g1 (Some f) hdr = Ok (g2, f) /\
    consts_heap g2 !! f =
      Some (Function {| f_GlobalName := name; f_Sig := Some sig; f_Typ := Some p;
                        f_Params := prms; f_Linkage := ah_Linkage hdr;
                        f_Preemption := ah_Preemption hdr;
                        f_Visibility := ah_Visibility hdr;
                        f_DLLStorageClass := ah_DLLStorageClass hdr;
                        f_UnnamedAddr := ah_UnnamedAddr hdr; f_Blocks := None |}) /\
    Forall2 (fun prm ap =>
               p_LocalName prm = ap_Name ap /\
               denotes (length (types_heap g1)) g2 (p_Typ prm) (ap_Typ ap))
            prms (ah_Params hdr) /\
    denotes (length (types_heap gen)) g2 sig
      (ast_FuncType (ah_RetType hdr) (ap_Typ <$> ah_Params hdr) (ah_Variadic hdr)) /\
    types_heap g2 !! p = Some (PointerType EmptyString (Some sig) (ah_AddrSpace hdr)) /\
    ts g2 = ts gen.
Proof.
  unfold newGlobal. rewrite newGlobal_Function_sig. intros Hrun.
  apply bind_Ok in Hrun as ([gsig sig] & Hsig & Hrun). cbv beta iota in Hrun.
  unfold types_NewPointer, new_type in Hrun. cbn [fst snd] in Hrun.
  injection Hrun as Hg1 <-.
  destruct (irType_frame _ _ _ _ Hsig) as (Hts & Hgs & Hm & Hc & Hlen & Hframe & _).
  unfold irType, astToIRTypeDef in Hsig.
  destruct (astToIRType_content _ _ _ _ _ Hsig) as [_ Hden]. specialize (Hden eq_refl).
  assert (Htr : translatable gsig
                  (ast_FuncType (ah_RetType hdr) (ap_Typ <$> ah_Params hdr)
                     (ah_Variadic hdr))).
  { eapply translatable_ts; [|apply astToIRType_translatable; eauto]. by rewrite Hts. }
  simpl in Hts, Hgs, Hm, Hc, Hlen, Hframe, Htr.
  destruct Htr as [_ Htr]. apply all_translatable in Htr.
  set (p := length (types_heap gsig)) in *.
  set (F0 := {| f_GlobalName := name; f_Sig := Some sig; f_Typ := Some p;
                f_Params := []; f_Linkage := 0; f_Preemption := 0; f_Visibility := 0;
                f_DLLStorageClass := 0; f_UnnamedAddr := 0; f_Blocks := None |}).
  assert (HF1 : consts_heap g1 = consts_heap gen ++ [Function F0]).
  { rewrite <- Hg1. unfold update_const. simpl. rewrite Hc.
    rewrite alter_app_r_alt by lia. by rewrite Nat.sub_diag. }
  assert (HF2 : types_heap g1 = types_heap gsig ++ [PointerType EmptyString (Some sig) 0])
    by (by rewrite <- Hg1).
  assert (HF3 : ts g1 = ts gsig) by (by rewrite <- Hg1).
  clear Hg1.
  assert (Hf : consts_heap g1 !! length (consts_heap gen) = Some (Function F0)).
  { rewrite HF1, lookup_app_r by lia. by rewrite Nat.sub_diag. }
  unfold astToIRFuncDecl, const_assert, const_kind_at. rewrite Hf.
  cbn [fmap option_fmap option_map kind_of_const]. rewrite decide_True by done.
  cbn [mbind result_bind].
  destruct (header_loop_succeeds (length (consts_heap gen)) (ah_Params hdr)
              (update_const g1 (length (consts_heap gen)) (set_f_Linkage hdr)))
    as [gl Hloop].
  { eapply Forall_impl; [exact Htr|]. intros x. apply translatable_ts. simpl. congruence. }
  destruct (header_loop_content (length (consts_heap gen)) (length (types_heap g1))
              (ah_Params hdr)
              (update_const g1 (length (consts_heap gen)) (set_f_Linkage hdr)) gl
              (set_f_Linkage hdr (Function F0)))
    as (prms & Hfl & Hall & Htsl & _ & _ & Hframel & _);
    [done|by rewrite update_const_lookup, Hf|exact Hloop|].
  simpl in Htsl, Hframel.
  cbn [set_f_Linkage] in Hfl. rewrite foldl_append_f_Params in Hfl. simpl in Hfl.
  unfold astToIRFuncHeader. cbv zeta. cbv zeta in Hloop. rewrite Hloop.
  cbn [mbind result_bind].
  unfold Typ_of. rewrite update_const_lookup, Hfl.
  cbn [fmap option_fmap option_map set_f_UnnamedAddr f_Typ set_Typ_AddrSpace
       mbind result_bind].
  assert (Hp1 : types_heap g1 !! p = Some (PointerType EmptyString (Some sig) 0)).
  { rewrite HF2, lookup_app_r by (unfold p; lia). unfold p. by rewrite Nat.sub_diag. }
  pose proof (lookup_lt_Some _ _ _ Hp1) as Hplt.
  eexists _, sig, p, prms. split; [reflexivity|].
  split; [|split; [|split; [|split]]].
  - simpl. rewrite list_lookup_alter_eq, Hfl. reflexivity.
  - eapply Forall2_impl; [exact Hall|]. intros prm ap [Hname Hd]. split; [done|].
    eapply denotes_mono; [| | |exact Hd]; [done|done|].
    intros l n Hl Hn. simpl. by rewrite list_lookup_alter_ne by lia.
  - eapply denotes_mono; [| | |exact Hden]; [simpl; lia|simpl; congruence|].
    intros l n _ Hl. simpl. pose proof (lookup_lt_Some _ _ _ Hl) as Hlt.
    rewrite list_lookup_alter_ne by (unfold p; lia). apply Hframel.
    rewrite HF2. by apply lookup_app_l_Some.
  - simpl. rewrite list_lookup_alter_eq, (Hframel _ _ Hp1). reflexivity.
  - simpl. congruence.
Qed.

End Proofs.

(** * The theorems on inputs *)

(** [%s = type {%a}] [%a = type %b] [%b = type i32]: the node of [%a], which
    is the field of [%s], is an integer node named [b] of bit size 0; the
    node of [%b] has the bit size 32. *)
Lemma bare_alias_node_is_an_unfilled_copy_witness :
  let l1 : list (@TopLevelEntity demo_Foreign) :=
    [TypeDef "s" (node_Type (ast_StructType [ast_NamedType "a"]))] in
  let l2 : list (@TopLevelEntity demo_Foreign) :=
    [TypeDef "b" (node_Type (ast_IntType "i32"))] in
  let module := l1 ++ TypeDef "a" (node_Type (ast_NamedType "b")) :: l2 in
  let gen' : @generator demo_Foreign :=
    {| ts := {["s" := 0%nat; "a" := 1%nat; "b" := 2%nat]}; gs := ∅;
       m := {| TypeDefs := [Some 0%nat; Some 1%nat; Some 2%nat];
               Globals := []; Funcs := [] |};
       types_heap := [StructType "s" false [1%nat] false; IntType "b" 0; IntType "b" 32];
       consts_heap := [] |} in
  @range_ok demo_Foreign (demo_Collaborators false) /\
  ("a" ∉ omap type_name l2) /\
  node_kind (node_Type (ast_IntType "i32")) = Some KInt /\
  @resolveTypeDefs demo_Foreign (demo_Collaborators false) new_generator module =
    Ok gen' /\
  exists la lb,
    ts gen' !! "a" = Some la /\ ts gen' !! "b" = Some lb /\ la <> lb /\
    types_heap gen' !! la = Some (IntType "b" 0) /\
    types_heap gen' !! lb = Some (IntType "b" 32) /\
    ts gen' !! "s" = Some 0%nat /\
    types_heap gen' !! 0%nat = Some (StructType "s" false [la] false) /\
    @astToIRTypeDef demo_Foreign (demo_Collaborators false) gen' (Some la)
      (node_Type (ast_NamedType "b")) = Ok (gen', lb).
Proof.
  intros l1 l2 module gen'.
  assert (Hrange : @range_ok demo_Foreign (demo_Collaborators false))
    by (intros site A l; reflexivity).
  assert (Ha : "a" ∉ omap type_name l2).
  { simpl. rewrite list_elem_of_singleton. discriminate. }
  assert (Hrun : @resolveTypeDefs demo_Foreign (demo_Collaborators false)
                   new_generator module = Ok gen') by (vm_compute; reflexivity).
  split; [exact Hrange|]. split; [exact Ha|]. split; [reflexivity|].
  split; [exact Hrun|].
  destruct (@bare_alias_node_is_an_unfilled_copy demo_Foreign (demo_Collaborators false)
              new_generator gen' l1 l2
              (l1 ++ [TypeDef "a" (node_Type (ast_NamedType "b"))]) []
              "a" "b" (node_Type (ast_IntType "i32")) KInt Hrange)
    as (la & lb & Hla & Hlb & Hne & Hnode & Hfill);
    [reflexivity|exact Ha|apply not_elem_of_nil|reflexivity|exact Hrun|].
  exists la, lb.
  split; [exact Hla|]. split; [exact Hlb|]. split; [exact Hne|].
  split; [exact Hnode|].
  assert (Hla' : ts gen' !! "a" = Some 1%nat) by (vm_compute; reflexivity).
  assert (Hlb' : ts gen' !! "b" = Some 2%nat) by (vm_compute; reflexivity).
  rewrite Hla' in Hla. injection Hla as <-.
  rewrite Hlb' in Hlb. injection Hlb as <-.
  split; [reflexivity|]. split; [vm_compute; reflexivity|].
  split; [reflexivity|exact Hfill].
Defined.

(** [demo_module] with the maps visited in reverse: [f] calls [g] before
    [g] is defined, and the three lists come out in the order of the text. *)
Lemma module_lists_in_first_occurrence_order_witness :
  @range_ok demo_Foreign (demo_Collaborators true) /\
  exists gen1 gen2 : @generator demo_Foreign,
    @resolveTypeDefs demo_Foreign (demo_Collaborators true) new_generator demo_module =
      Ok gen1 /\
    @resolveGlobals demo_Foreign (demo_Collaborators true) gen1 demo_module = Ok gen2 /\
    module_names gen2 =
      ([Some "t"; Some "s"], [Some "x"; Some "y"], [Some "f"; Some "g"]) /\
    NoDup (first_occurrences (omap type_name demo_module)) /\
    NoDup (omap global_name demo_module) /\
    exists tl gl fl,
      TypeDefs (m gen2) = tl /\ Globals (m gen2) = gl /\ Funcs (m gen2) = fl /\
      length tl = 2%nat /\ length gl = 2%nat /\ length fl = 2%nat.
Proof.
  assert (Hrange : @range_ok demo_Foreign (demo_Collaborators true))
    by (intros site A l; apply reverse_Permutation).
  split; [exact Hrange|].
  eexists _, _. split; [vm_compute; reflexivity|].
  match goal with |- @resolveGlobals _ _ ?g1 _ = _ /\ _ => set (gen1 := g1) end.
  split; [vm_compute; reflexivity|].
  match goal with |- module_names ?g2 = _ /\ _ => set (gen2 := g2) end.
  split; [vm_compute; reflexivity|].
  destruct (@module_lists_in_first_occurrence_order demo_Foreign (demo_Collaborators true)
              new_generator gen1 gen2 demo_module Hrange)
    as (Htypes & _ & _ & Hglobals & tl & gl & fl & Ht & Hg & Hf & Hlt & Hlg & Hlf & _);
    [vm_compute; reflexivity|vm_compute; reflexivity|].
  split; [exact Htypes|]. split; [exact Hglobals|].
  exists tl, gl, fl. split; [exact Ht|]. split; [exact Hg|]. split; [exact Hf|].
  split; [exact Hlt|]. split; [exact Hlg|exact Hlf].
Defined.

(** [%A = type %B] [%B = type %A]. *)
Lemma newIRType_mutual_cycle_witness :
  let ix : gmap string LlvmNode :=
    {["A" := node_Type (ast_NamedType "B"); "B" := node_Type (ast_NamedType "A")]} in
  let e := ErrSelfReferential "%A, %B" in
  @range_ok demo_Foreign (demo_Collaborators false) /\ "A" <> "B" /\
  ix !! "A" = Some (node_Type (ast_NamedType "B")) /\
  ix !! "B" = Some (node_Type (ast_NamedType "A")) /\ (2 <= 2)%nat /\
  @newIRType demo_Foreign (demo_Collaborators false) 2 new_generator "A"
    (node_Type (ast_NamedType "B")) ix ∅ = Err e /\
  @newIRType demo_Foreign (demo_Collaborators false) 2 new_generator "B"
    (node_Type (ast_NamedType "A")) ix ∅ = Err e /\
  kind_of_error e = CyclicTypeAliasError /\
  @resolveTypeDefs demo_Foreign (demo_Collaborators false) new_generator
    [TypeDef "A" (node_Type (ast_NamedType "B"));
     TypeDef "B" (node_Type (ast_NamedType "A"))] = Err e.
Proof.
  intros ix e.
  assert (Hrange : @range_ok demo_Foreign (demo_Collaborators false))
    by (intros site A l; reflexivity).
  assert (Hne : "A" <> "B") by discriminate.
  assert (HA : ix !! "A" = Some (node_Type (ast_NamedType "B"))) by reflexivity.
  assert (HB : ix !! "B" = Some (node_Type (ast_NamedType "A"))) by reflexivity.
  assert (Hfuel : (2 <= 2)%nat) by lia.
  destruct (@newIRType_mutual_cycle demo_Foreign (demo_Collaborators false)
              new_generator "A" "B" ix 2%nat Hrange Hne HA HB Hfuel)
    as (H1 & H2 & H3 & _ & _ & H4).
  split; [exact Hrange|]. split; [exact Hne|]. split; [exact HA|]. split; [exact HB|].
  split; [exact Hfuel|]. split; [exact H1|]. split; [exact H2|]. split; [exact H3|exact H4].
Defined.

(** [%s = type {%t}] [%t = type opaque] [%u = type i1] [%t = type %s*]:
    [%t] is the second of three type definitions and a pointer. *)
Lemma opaque_then_concrete_witness :
  let pre : list (@TopLevelEntity demo_Foreign) :=
    [TypeDef "s" (node_Type (ast_StructType [ast_NamedType "t"]))] in
  let mid : list (@TopLevelEntity demo_Foreign) :=
    [TypeDef "u" (node_Type (ast_IntType "i1"))] in
  let body := ast_PointerType (ast_NamedType "s") 0 in
  let module :=
    pre ++ TypeDef "t" node_OpaqueType :: mid ++ [TypeDef "t" (node_Type body)] in
  @range_ok demo_Foreign (demo_Collaborators false) /\
  ("t" ∉ omap type_name pre) /\ ("t" ∉ omap type_name mid) /\
  expected_kind body = Some KPointer /\
  exists g : @generator demo_Foreign,
    @resolveTypeDefs demo_Foreign (demo_Collaborators false) new_generator module = Ok g /\
    (fun t => l ← t; types_heap g !! l) <$> TypeDefs (m g) =
      [Some (StructType "s" false [2%nat] false);
       Some (PointerType "t" (Some 0%nat) 0);
       Some (IntType "u" 1)] /\
    exists l n tl,
      ts g !! "t" = Some l /\ types_heap g !! l = Some n /\
      kind_of_type n = KPointer /\ Alias_of n = "t" /\
      node_denotes (denotes 0 g) n body /\
      TypeDefs (m g) = tl /\ length tl = 3%nat /\
      tl !! 1%nat = Some (Some l) /\ forall j, tl !! j = Some (Some l) -> j = 1%nat.
Proof.
  intros pre mid body module.
  assert (Hrange : @range_ok demo_Foreign (demo_Collaborators false))
    by (intros site A l; reflexivity).
  assert (Hpre : "t" ∉ omap type_name pre).
  { simpl. rewrite list_elem_of_singleton. discriminate. }
  assert (Hmid : "t" ∉ omap type_name mid).
  { simpl. rewrite list_elem_of_singleton. discriminate. }
  assert (Hpost : "t" ∉ omap type_name ([] : list (@TopLevelEntity demo_Foreign)))
    by apply not_elem_of_nil.
  split; [exact Hrange|]. split; [exact Hpre|]. split; [exact Hmid|].
  split; [reflexivity|].
  eexists. split; [vm_compute; reflexivity|]. split; [vm_compute; reflexivity|].
  match goal with |- context [ts ?g0] => set (g := g0) end.
  destruct (@opaque_then_concrete demo_Foreign (demo_Collaborators false)
              new_generator g g pre mid [] "t" body KPointer
              Hrange Hpre Hmid Hpost eq_refl) as (_ & _ & Hres).
  apply Hres. vm_compute; reflexivity.
Defined.

(** A global variable and a function of the same name [x]. *)
Lemma resolveGlobals_duplicate_witness :
  let module : list (@TopLevelEntity demo_Foreign) :=
    [GlobalDecl (demo_global "x"); TypeDef "x" node_OpaqueType;
     @FuncDef demo_Foreign (demo_header "x") []] in
  ~ NoDup (omap global_name module) /\
  @resolveGlobals demo_Foreign (demo_Collaborators false) new_generator module =
    Err (ErrGlobalPresent "@x" "external global @x" "define @x") /\
  exists name prev new l1 l2 l3,
    module = l1 ++ prev :: l2 ++ new :: l3 /\
    global_name prev = Some name /\ global_name new = Some name /\
    @resolveGlobals demo_Foreign (demo_Collaborators false) new_generator module =
      Err (ErrGlobalPresent (String.append "@" name) (demo_text_entity prev)
             (demo_text_entity new)).
Proof.
  intros module.
  assert (Hdup : ~ NoDup (omap global_name module)).
  { simpl. rewrite NoDup_cons, list_elem_of_singleton. intros [Hx _]. by apply Hx. }
  split; [exact Hdup|]. split; [vm_compute; reflexivity|].
  destruct (@resolveGlobals_duplicate demo_Foreign (demo_Collaborators false)
              new_generator module Hdup)
    as (name & prev & new & l1 & l2 & l3 & Hm & Hp & Hn & Hrun & _).
  exists name, prev, new, l1, l2, l3. split; [exact Hm|]. split; [exact Hp|].
  split; [exact Hn|exact Hrun].
Defined.

(** [%d = type {i32, %d*}]. *)
Lemma self_referential_struct_witness :
  let fields := [ast_IntType "i32"; ast_PointerType (ast_NamedType "d") 0] in
  let module : list (@TopLevelEntity demo_Foreign) :=
    [TypeDef "d" (node_Type (ast_StructType fields))] in
  @range_ok demo_Foreign (demo_Collaborators false) /\
  exists gen' : @generator demo_Foreign,
    @resolveTypeDefs demo_Foreign (demo_Collaborators false) new_generator module =
      Ok gen' /\
    types_heap gen' =
      [StructType "d" false [1%nat; 2%nat] false; IntType EmptyString 32;
       PointerType EmptyString (Some 0%nat) 0] /\
    exists l fs p a',
      ts gen' !! "d" = Some l /\
      types_heap gen' !! l = Some (StructType "d" false fs false) /\
      fs !! 1%nat = Some p /\
      types_heap gen' !! p = Some (PointerType a' (Some l) 0).
Proof.
  intros fields module.
  assert (Hrange : @range_ok demo_Foreign (demo_Collaborators false))
    by (intros site A l; reflexivity).
  split; [exact Hrange|].
  eexists. split; [vm_compute; reflexivity|]. split; [vm_compute; reflexivity|].
  match goal with |- context [ts ?g0] => set (g := g0) end.
  destruct (@self_referential_struct demo_Foreign (demo_Collaborators false)
              new_generator g [] [] "d" fields 1%nat 0 Hrange) as (_ & _ & Hres).
  apply Hres; [vm_compute; reflexivity|apply not_elem_of_nil|reflexivity].
Defined.

(** [%a = type %b] without a definition of [%b]. *)
Lemma absent_alias_target_panics_witness :
  let ix : gmap string LlvmNode := {["a" := node_Type (ast_NamedType "b")]} in
  @range_ok demo_Foreign (demo_Collaborators false) /\ "a" <> "b" /\
  @astToIRTypeDef demo_Foreign (demo_Collaborators false) new_generator None
    (node_Type (ast_NamedType "b")) = Err (ErrLocateTypeDef "%b") /\
  @newIRType demo_Foreign (demo_Collaborators false) 1 new_generator "a"
    (node_Type (ast_NamedType "b")) ix ∅ = Panic PanicNotImplemented /\
  @resolveTypeDefs demo_Foreign (demo_Collaborators false) new_generator
    [TypeDef "a" (node_Type (ast_NamedType "b"))] = Panic PanicNotImplemented.
Proof.
  intros ix.
  assert (Hrange : @range_ok demo_Foreign (demo_Collaborators false))
    by (intros site A l; reflexivity).
  assert (Hne : "a" <> "b") by discriminate.
  destruct (@absent_alias_target_panics demo_Foreign (demo_Collaborators false)
              new_generator "a" "b" ix None 0%nat Hrange Hne) as (H1 & H2 & H3).
  split; [exact Hrange|]. split; [exact Hne|].
  split; [apply H1; reflexivity|]. split; [apply H2; reflexivity|exact H3].
Defined.

(** An integer node given as skeleton of a struct and of an opaque type, a
    function given as skeleton of a global variable. *)
Lemma kind_mismatch_panics_and_is_unreachable_witness :
  let gen : @generator demo_Foreign :=
    {| ts := ∅; gs := ∅; m := {| TypeDefs := []; Globals := []; Funcs := [] |};
       types_heap := [IntType "t" 0]; consts_heap := [zero_Function "f"] |} in
  @range_ok demo_Foreign (demo_Collaborators false) /\
  @astToIRTypeDef demo_Foreign (demo_Collaborators false) gen (Some 0%nat)
    (node_Type (ast_StructType [])) = Panic (PanicInvalidIRType KStruct (Some KInt)) /\
  @astToIRTypeDef demo_Foreign (demo_Collaborators false) gen (Some 0%nat)
    node_OpaqueType = Panic (PanicInvalidIRType KStruct (Some KInt)) /\
  @astToIRGlobal demo_Foreign (demo_Collaborators false) gen (Some 0%nat)
    (GlobalDecl (demo_global "f")) =
    Panic (PanicInvalidIRConstant KGlobal (Some KFunction)) /\
  (forall k' got,
     @resolveTypeDefs demo_Foreign (demo_Collaborators false) gen demo_module <>
       Panic (PanicInvalidIRType k' got)) /\
  (forall k' got,
     @resolveGlobals demo_Foreign (demo_Collaborators false) gen demo_module <>
       Panic (PanicInvalidIRType k' got)) /\
  (forall k' got,
     @resolveGlobals demo_Foreign (demo_Collaborators false) gen demo_module <>
       Panic (PanicInvalidIRConstant k' got)).
Proof.
  intros gen.
  assert (Hrange : @range_ok demo_Foreign (demo_Collaborators false))
    by (intros site A l; reflexivity).
  destruct (@kind_mismatch_panics_and_is_unreachable demo_Foreign
              (demo_Collaborators false) gen 0%nat (ast_StructType []) KStruct
              (Some 0%nat) (GlobalDecl (demo_global "f")) KGlobal demo_module Hrange)
    as (H1 & H2 & H3 & H4 & H5 & H6).
  split; [exact Hrange|].
  split; [apply H1; [reflexivity|discriminate]|].
  split; [apply H2; discriminate|].
  split; [apply H3; [reflexivity|discriminate]|].
  split; [exact H4|]. split; [exact H5|exact H6].
Defined.

(** [%T = type opaque] after [%T = type i8], and opaque declarations of [%T]
    alone. *)
Lemma indexTypeDef_duplicate_iff_witness :
  let st : type_index :=
    {| index := {["T" := node_Type (ast_IntType "i8")]};
       added := {["T" := true]}; order := ["T"] |} in
  node_OpaqueType <> node_nil /\
  (exists e,
     @indexTypeDef demo_Foreign (demo_Collaborators false) st
       (TypeDef "T" node_OpaqueType) = Err e) /\
  @indexTypeDef demo_Foreign (demo_Collaborators false) st
    (TypeDef "T" node_OpaqueType) = Err (ErrTypeDefPresent "%T" "type" "opaque") /\
  (forall n,
     @indexTypeDefs demo_Foreign (demo_Collaborators false)
       (replicate (S n) (TypeDef "T" node_OpaqueType)) =
     Ok {| index := {["T" := node_OpaqueType]}; added := {["T" := true]};
           order := ["T"] |}).
Proof.
  intros st.
  assert (Hne : node_OpaqueType <> node_nil) by discriminate.
  destruct (@indexTypeDef_duplicate_iff demo_Foreign (demo_Collaborators false)
              st "T" node_OpaqueType Hne) as (Hiff & Hrej & _ & _ & Hrep).
  split; [exact Hne|].
  split; [apply Hiff; eexists; split; [reflexivity|discriminate]|].
  split; [apply (Hrej (node_Type (ast_IntType "i8"))); [reflexivity|discriminate]|].
  exact Hrep.
Defined.

(** A vector of an unknown floating-point kind, and a pointer to a type
    that is not defined. *)
Lemma resolveTypeDefs_failure_modes_witness :
  let bad : list (@TopLevelEntity demo_Foreign) :=
    [TypeDef "v" (node_Type (ast_VectorType 4 (ast_FloatType "quad")))] in
  @range_ok demo_Foreign (demo_Collaborators false) /\
  @resolveTypeDefs demo_Foreign (demo_Collaborators false) new_generator bad =
    Panic (PanicFloatKind "quad") /\
  @resolveTypeDefs demo_Foreign (demo_Collaborators false) new_generator bad <>
    OutOfFuel /\
  (forall e,
     @resolveTypeDefs demo_Foreign (demo_Collaborators false) new_generator
       [TypeDef "p" (node_Type (ast_PointerType (ast_NamedType "q") 0))] = Err e ->
     kind_of_error e = UnresolvedIdentifierError).
Proof.
  intros bad.
  assert (Hrange : @range_ok demo_Foreign (demo_Collaborators false))
    by (intros site A l; reflexivity).
  split; [exact Hrange|]. split; [vm_compute; reflexivity|].
  split.
  - apply (@resolveTypeDefs_failure_modes demo_Foreign (demo_Collaborators false)
             new_generator bad Hrange).
  - intros e He.
    destruct (@resolveTypeDefs_failure_modes demo_Foreign (demo_Collaborators false)
                new_generator
                [TypeDef "p" (node_Type (ast_PointerType (ast_NamedType "q") 0))]
                Hrange) as (_ & Herr & _).
    destruct (Herr e He) as [[_ (a & p & n & ->)]|[[_ (names & ->)]|[Hk _]]];
      [vm_compute in He; discriminate|vm_compute in He; discriminate|exact Hk].
Defined.

(** A function whose body calls a function that is not defined. *)
Lemma resolveGlobals_failure_modes_witness :
  let module : list (@TopLevelEntity demo_Foreign) :=
    [@FuncDef demo_Foreign (demo_header "f") ["h"%string]] in
  @range_ok demo_Foreign (demo_Collaborators false) /\
  @resolveGlobals demo_Foreign (demo_Collaborators false) new_generator module =
    Err (ErrForeign "unable to locate global identifier") /\
  @resolveGlobals demo_Foreign (demo_Collaborators false) new_generator module <>
    OutOfFuel /\
  (forall e,
     @resolveGlobals demo_Foreign (demo_Collaborators false) new_generator module <>
       Panic (PanicError e)) /\
  @resolveGlobals demo_Foreign (demo_Collaborators false) new_generator module <>
    Panic PanicNilDeref.
Proof.
  intros module.
  assert (Hrange : @range_ok demo_Foreign (demo_Collaborators false))
    by (intros site A l; reflexivity).
  destruct (@resolveGlobals_failure_modes demo_Foreign (demo_Collaborators false)
              new_generator module Hrange) as (H1 & _ & _ & H2 & H3 & _).
  split; [exact Hrange|]. split; [vm_compute; reflexivity|].
  split; [exact H1|]. split; [exact H2|exact H3].
Defined.

(** [demo_module] with the maps visited in reverse: [%t] is [i8]. *)
Lemma resolveTypeDefs_binds_defined_names_witness :
  @range_ok demo_Foreign (demo_Collaborators true) /\
  exists gen' : @generator demo_Foreign,
    @resolveTypeDefs demo_Foreign (demo_Collaborators true) new_generator demo_module =
      Ok gen' /\
    (forall a, is_Some (ts gen' !! a) <-> a ∈ ["t"; "s"; "t"]) /\
    gs gen' = ∅ /\ consts_heap gen' = [] /\
    exists l n,
      ts gen' !! "t" = Some l /\ types_heap gen' !! l = Some n /\
      kind_of_type n = KInt /\ Alias_of n = "t" /\
      node_denotes (denotes 0 gen') n (ast_IntType "i8").
Proof.
  assert (Hrange : @range_ok demo_Foreign (demo_Collaborators true))
    by (intros site A l; apply reverse_Permutation).
  split; [exact Hrange|].
  eexists. split; [vm_compute; reflexivity|].
  match goal with |- context [ts ?g0] => set (g := g0) end.
  destruct (@resolveTypeDefs_binds_defined_names demo_Foreign (demo_Collaborators true)
              new_generator g demo_module Hrange)
    as (Hdom & Hgs & Hc & _ & _ & Hlast); [vm_compute; reflexivity|].
  split; [exact Hdom|]. split; [exact Hgs|]. split; [exact Hc|].
  apply (Hlast
           [@FuncDef demo_Foreign (demo_header "f") ["g"%string];
            TypeDef "t" node_OpaqueType;
            @GlobalDef demo_Foreign (demo_global "x") 7;
            @FuncDef demo_Foreign (demo_header "g") [];
            TypeDef "s" (node_Type (ast_StructType [ast_NamedType "t"]))]
           [GlobalDecl (demo_global "y")] "t" (ast_IntType "i8") KInt);
    [reflexivity|apply not_elem_of_nil|reflexivity].
Defined.

(** [void (%t, %t*, ...)] with [%t] bound: three nodes are allocated, the
    node of [%t] is shared. *)
Lemma irType_allocates_and_denotes_witness :
  let gen : @generator demo_Foreign :=
    {| ts := {["t" := 0%nat]}; gs := ∅;
       m := {| TypeDefs := []; Globals := []; Funcs := [] |};
       types_heap := [IntType "t" 8]; consts_heap := [] |} in
  let old :=
    ast_FuncType ast_VoidType [ast_NamedType "t"; ast_PointerType (ast_NamedType "t") 0]
      true in
  exists gen' : @generator demo_Foreign,
    @irType demo_Foreign (demo_Collaborators false) gen old = Ok (gen', 1%nat) /\
    types_heap gen' =
      [IntType "t" 8; FuncType EmptyString (Some 2%nat) [0%nat; 3%nat] true;
       VoidType EmptyString; PointerType EmptyString (Some 0%nat) 0] /\
    ts gen' = ts gen /\
    (forall l n, types_heap gen !! l = Some n -> types_heap gen' !! l = Some n) /\
    denotes 1 gen' 1%nat old.
Proof.
  intros gen old.
  eexists. split; [vm_compute; reflexivity|]. split; [vm_compute; reflexivity|].
  match goal with |- ts ?g0 = _ /\ _ => set (g := g0) end.
  destruct (@irType_allocates_and_denotes demo_Foreign (demo_Collaborators false)
              gen g old 1%nat) as (Hts & _ & _ & _ & Hframe & Hden & _);
    [vm_compute; reflexivity|].
  split; [exact Hts|]. split; [exact Hframe|exact Hden].
Defined.

(** [%a = type %b] [%b = type i8]: the skeleton of [%a] is an integer node
    with the alias [b]. *)
Lemma newIRType_alias_takes_target_name_witness :
  let ix : gmap string LlvmNode :=
    {["a" := node_Type (ast_NamedType "b"); "b" := node_Type (ast_IntType "i8")]} in
  ix !! "b" = Some (node_Type (ast_IntType "i8")) /\
  node_kind (node_Type (ast_IntType "i8")) = Some KInt /\
  @newIRType demo_Foreign (demo_Collaborators false) 1 new_generator "a"
    (node_Type (ast_NamedType "b")) ix ∅ =
    Ok (set_types_heap new_generator [IntType "b" 0], 0%nat) /\
  @newIRType demo_Foreign (demo_Collaborators false) 0 new_generator "b"
    (node_Type (ast_IntType "i8")) ix ∅ =
    Ok (set_types_heap new_generator [IntType "b" 0], 0%nat).
Proof.
  intros ix.
  assert (Hb : ix !! "b" = Some (node_Type (ast_IntType "i8"))) by reflexivity.
  assert (Hk : node_kind (node_Type (ast_IntType "i8")) = Some KInt) by reflexivity.
  destruct (@newIRType_alias_takes_target_name demo_Foreign (demo_Collaborators false)
              new_generator new_generator "a" "b" ix ∅ node_nil
              (node_Type (ast_IntType "i8")) KInt 0%nat 0%nat Hb Hk) as (H1 & H2 & _).
  split; [exact Hb|]. split; [exact Hk|]. split; [exact H1|exact H2].
Defined.

(** [%a = type %a]. *)
Lemma self_alias_is_cyclic_witness :
  let ix : gmap string LlvmNode := {["a" := node_Type (ast_NamedType "a")]} in
  @range_ok demo_Foreign (demo_Collaborators false) /\
  ix !! "a" = Some (node_Type (ast_NamedType "a")) /\
  @newIRType demo_Foreign (demo_Collaborators false) 1 new_generator "a"
    (node_Type (ast_NamedType "a")) ix ∅ = Err (ErrSelfReferential "%a") /\
  @resolveTypeDefs demo_Foreign (demo_Collaborators false) new_generator
    [TypeDef "a" (node_Type (ast_NamedType "a"))] = Err (ErrSelfReferential "%a").
Proof.
  intros ix.
  assert (Hrange : @range_ok demo_Foreign (demo_Collaborators false))
    by (intros site A l; reflexivity).
  assert (Ha : ix !! "a" = Some (node_Type (ast_NamedType "a"))) by reflexivity.
  destruct (@self_alias_is_cyclic demo_Foreign (demo_Collaborators false)
              new_generator "a" ix 0%nat Hrange Ha) as (H1 & _ & H2).
  split; [exact Hrange|]. split; [exact Ha|]. split; [exact H1|exact H2].
Defined.

(** [%u = type %o*] and two opaque declarations of [%o]. *)
Lemma opaque_definition_resolves_to_opaque_struct_witness :
  let l1 : list (@TopLevelEntity demo_Foreign) :=
    [TypeDef "u" (node_Type (ast_PointerType (ast_NamedType "o") 0));
     TypeDef "o" node_OpaqueType] in
  @range_ok demo_Foreign (demo_Collaborators false) /\
  exists (gen' : @generator demo_Foreign) l,
    @resolveTypeDefs demo_Foreign (demo_Collaborators false) new_generator
      (l1 ++ [TypeDef "o" node_OpaqueType]) = Ok gen' /\
    ts gen' !! "o" = Some l /\
    types_heap gen' !! l = Some (StructType "o" false [] true).
Proof.
  intros l1.
  assert (Hrange : @range_ok demo_Foreign (demo_Collaborators false))
    by (intros site A l; reflexivity).
  split; [exact Hrange|].
  assert (exists gen' : @generator demo_Foreign,
            @resolveTypeDefs demo_Foreign (demo_Collaborators false) new_generator
              (l1 ++ [TypeDef "o" node_OpaqueType]) = Ok gen') as [gen' Hrun]
    by (eexists; vm_compute; reflexivity).
  destruct (@opaque_definition_resolves_to_opaque_struct demo_Foreign
              (demo_Collaborators false) new_generator gen' l1 [] "o" Hrange Hrun)
    as (l & Hl & Hn); [apply not_elem_of_nil|].
  exists gen', l. split; [exact Hrun|]. split; [exact Hl|exact Hn].
Defined.
(** [declare i32 @f(i8* %p, ...)]. *)
Lemma newGlobal_function_skeleton_witness :
  let hdr : ast_FuncHeader :=
    {| ah_Name := "f"; ah_RetType := ast_IntType "i32";
       ah_Params := [{| ap_Typ := ast_PointerType (ast_IntType "i8") 0; ap_Name := "p" |}];
       ah_Variadic := true; ah_Linkage := 0; ah_Preemption := 0; ah_Visibility := 0;
       ah_DLLStorageClass := 0; ah_UnnamedAddr := 0; ah_AddrSpace := 0 |} in
  exists (gen' : @generator demo_Foreign) sig p,
    @newGlobal demo_Foreign (demo_Collaborators false) new_generator "f" (FuncDecl hdr) =
      Ok (gen', 0%nat) /\
    types_heap gen' =
      [FuncType EmptyString (Some 1%nat) [2%nat] true; IntType EmptyString 32;
       PointerType EmptyString (Some 3%nat) 0; IntType EmptyString 8;
       PointerType EmptyString (Some 0%nat) 0] /\
    consts_heap gen' =
      [Function {| f_GlobalName := "f"; f_Sig := Some sig; f_Typ := Some p;
                   f_Params := []; f_Linkage := 0; f_Preemption := 0;
                   f_Visibility := 0; f_DLLStorageClass := 0; f_UnnamedAddr := 0;
                   f_Blocks := None |}] /\
    denotes 0 gen' sig
      (ast_FuncType (ast_IntType "i32") [ast_PointerType (ast_IntType "i8") 0] true) /\
    types_heap gen' !! p = Some (PointerType EmptyString (Some sig) 0).
Proof.
  intros hdr.
  assert (exists gen' : @generator demo_Foreign,
            @newGlobal demo_Foreign (demo_Collaborators false) new_generator "f"
              (FuncDecl hdr) = Ok (gen', 0%nat) /\
            types_heap gen' =
              [FuncType EmptyString (Some 1%nat) [2%nat] true; IntType EmptyString 32;
               PointerType EmptyString (Some 3%nat) 0; IntType EmptyString 8;
               PointerType EmptyString (Some 0%nat) 0]) as (gen' & Hrun & Hheap)
    by (eexists; split; vm_compute; reflexivity).
  destruct (@newGlobal_function_skeleton demo_Foreign (demo_Collaborators false)
              new_generator gen' "f" (FuncDecl hdr) hdr [] 0%nat (or_introl eq_refl) Hrun)
    as (_ & _ & _ & _ & _ & sig & p & Hc & Hden & Hp).
  exists gen', sig, p. split; [exact Hrun|]. split; [exact Hheap|].
  split; [exact Hc|]. split; [exact Hden|exact Hp].
Defined.

(** A global [@x] of type [[4 x i8]]. *)
Lemma newGlobal_global_skeleton_witness :
  let old : ast_Global :=
    {| ag_Name := "x"; ag_ContentType := ast_ArrayType 4 (ast_IntType "i8");
       ag_Attrs := demo_attrs |} in
  exists (gen' : @generator demo_Foreign) ct p,
    @newGlobal demo_Foreign (demo_Collaborators false) new_generator "x"
      (@GlobalDef demo_Foreign old 7) = Ok (gen', 0%nat) /\
    types_heap gen' =
      [ArrayType EmptyString 4 (Some 1%nat); IntType EmptyString 8;
       PointerType EmptyString (Some 0%nat) 0] /\
    consts_heap gen' =
      [Global {| g_GlobalName := "x"; g_ContentType := Some ct; g_Typ := Some p;
                 g_Linkage := 0; g_Preemption := 0; g_Visibility := 0;
                 g_DLLStorageClass := 0; g_TLSModel := 0; g_UnnamedAddr := 0;
                 g_ExternallyInitialized := false; g_Immutable := false;
                 g_Init := None |}] /\
    denotes 0 gen' ct (ast_ArrayType 4 (ast_IntType "i8")) /\
    types_heap gen' !! p = Some (PointerType EmptyString (Some ct) 0).
Proof.
  intros old.
  assert (exists gen' : @generator demo_Foreign,
            @newGlobal demo_Foreign (demo_Collaborators false) new_generator "x"
              (@GlobalDef demo_Foreign old 7) = Ok (gen', 0%nat) /\
            types_heap gen' =
              [ArrayType EmptyString 4 (Some 1%nat); IntType EmptyString 8;
               PointerType EmptyString (Some 0%nat) 0]) as (gen' & Hrun & Hheap)
    by (eexists; split; vm_compute; reflexivity).
  destruct (@newGlobal_global_skeleton demo_Foreign (demo_Collaborators false)
              new_generator gen' "x" (@GlobalDef demo_Foreign old 7) old 7 0%nat
              (or_intror eq_refl) Hrun)
    as (_ & _ & _ & _ & _ & ct & p & Hc & Hden & Hp).
  exists gen', ct, p. split; [exact Hrun|]. split; [exact Hheap|].
  split; [exact Hc|]. split; [exact Hden|exact Hp].
Defined.

(** [declare void @f(i8 %a, %t %b)] in address space 6: the parameter [%a]
    gets the node 5, the signature has the node 3 for its type; [%b] shares
    the node of [%t]. *)
Lemma astToIRFuncHeader_fills_header_witness :
  let hdr : ast_FuncHeader :=
    {| ah_Name := "f"; ah_RetType := ast_VoidType;
       ah_Params := [{| ap_Typ := ast_IntType "i8"; ap_Name := "a" |};
                     {| ap_Typ := ast_NamedType "t"; ap_Name := "b" |}];
       ah_Variadic := false; ah_Linkage := 1; ah_Preemption := 2; ah_Visibility := 3;
       ah_DLLStorageClass := 4; ah_UnnamedAddr := 5; ah_AddrSpace := 6 |} in
  let gen0 : @generator demo_Foreign :=
    {| ts := {["t" := 0%nat]}; gs := ∅;
       m := {| TypeDefs := []; Globals := []; Funcs := [] |};
       types_heap := [IntType "t" 1]; consts_heap := [] |} in
  exists (gen gen' : @generator demo_Foreign),
    @newGlobal demo_Foreign (demo_Collaborators false) gen0 "f" (FuncDecl hdr) =
      Ok (gen, 0%nat) /\
    @astToIRFuncHeader demo_Foreign (demo_Collaborators false) gen 0%nat hdr = Ok gen' /\
    types_heap gen' =
      [IntType "t" 1; FuncType EmptyString (Some 2%nat) [3%nat; 0%nat] false;
       VoidType EmptyString; IntType EmptyString 8;
       PointerType EmptyString (Some 1%nat) 6; IntType EmptyString 8] /\
    consts_heap gen' =
      [Function {| f_GlobalName := "f"; f_Sig := Some 1%nat; f_Typ := Some 4%nat;
                   f_Params := [{| p_Typ := 5%nat; p_LocalName := "a" |};
                                {| p_Typ := 0%nat; p_LocalName := "b" |}];
                   f_Linkage := 1; f_Preemption := 2; f_Visibility := 3;
                   f_DLLStorageClass := 4; f_UnnamedAddr := 5; f_Blocks := None |}] /\
    exists prms,
      consts_heap gen' !! 0%nat =
        Some (Function {| f_GlobalName := "f"; f_Sig := Some 1%nat; f_Typ := Some 4%nat;
                          f_Params := prms; f_Linkage := 1; f_Preemption := 2;
                          f_Visibility := 3; f_DLLStorageClass := 4;
                          f_UnnamedAddr := 5; f_Blocks := None |}) /\
      Forall2 (fun prm ap =>
                 p_LocalName prm = ap_Name ap /\
                 denotes 5 gen' (p_Typ prm) (ap_Typ ap) /\
                 (expected_kind (ap_Typ ap) <> None -> (5 <= p_Typ prm)%nat))
              prms (ah_Params hdr).
Proof.
  intros hdr gen0.
  eexists _, _. split; [vm_compute; reflexivity|].
  match goal with |- @astToIRFuncHeader _ _ ?g0 _ _ = _ /\ _ => set (gen := g0) end.
  split; [vm_compute; reflexivity|].
  match goal with |- types_heap ?g0 = _ /\ _ => set (gen' := g0) end.
  split; [vm_compute; reflexivity|]. split; [vm_compute; reflexivity|].
  destruct (@astToIRFuncHeader_fills_header demo_Foreign (demo_Collaborators false)
              gen gen' 0%nat 4%nat hdr
              {| f_GlobalName := "f"; f_Sig := Some 1%nat; f_Typ := Some 4%nat;
                 f_Params := []; f_Linkage := 0; f_Preemption := 0; f_Visibility := 0;
                 f_DLLStorageClass := 0; f_UnnamedAddr := 0; f_Blocks := None |}
              (PointerType EmptyString (Some 1%nat) 0))
    as (_ & _ & _ & _ & _ & _ & prms & Hf & Hall);
    [reflexivity|reflexivity|reflexivity|vm_compute; reflexivity|].
  exists prms. split; [exact Hf|exact Hall].
Defined.
(** [demo_module]. *)
Lemma distinct_globals_are_indexed_witness :
  @range_ok demo_Foreign (demo_Collaborators false) /\
  NoDup (omap global_name demo_module) /\
  (exists st,
     @indexGlobals demo_Foreign (demo_Collaborators false) demo_module = Ok st /\
     globalOrder st = ["x"; "y"] /\ funcOrder st = ["f"; "g"]) /\
  (forall name prev new,
     @resolveGlobals demo_Foreign (demo_Collaborators false) new_generator demo_module <>
       Err (ErrGlobalPresent name prev new)).
Proof.
  assert (Hrange : @range_ok demo_Foreign (demo_Collaborators false))
    by (intros site A l; reflexivity).
  assert (Hnodup : NoDup (omap global_name demo_module)).
  { apply (bool_decide_unpack _). vm_compute. exact I. }
  destruct (@distinct_globals_are_indexed demo_Foreign (demo_Collaborators false)
              new_generator demo_module Hrange Hnodup)
    as [(st & Hst & Hgo & Hfo & _) Hnever].
  split; [exact Hrange|]. split; [exact Hnodup|].
  split; [|exact Hnever]. exists st. split; [exact Hst|]. split; [exact Hgo|exact Hfo].
Defined.

(** An array of [2^64 - 1] elements: the length of its node is [-1]. *)
Lemma array_length_is_wrapped_witness :
  let len := 2 ^ 64 - 1 in
  0 <= len < 2 ^ 64 /\
  exists (gen' : @generator demo_Foreign) n e,
    @irType demo_Foreign (demo_Collaborators false) new_generator
      (ast_ArrayType len (ast_IntType "i8")) = Ok (gen', 0%nat) /\
    types_heap gen' =
      [ArrayType EmptyString (-1) (Some 1%nat); IntType EmptyString 8] /\
    types_heap gen' !! 0%nat = Some n /\
    (n = ArrayType EmptyString (int64_of_uint64 len) (Some e) \/
     n = VectorType EmptyString (int64_of_uint64 len) (Some e)) /\
    int64_of_uint64 len < 0.
Proof.
  intros len.
  assert (Hlen : 0 <= len < 2 ^ 64) by (unfold len; lia).
  split; [exact Hlen|].
  assert (exists gen' : @generator demo_Foreign,
            @irType demo_Foreign (demo_Collaborators false) new_generator
              (ast_ArrayType len (ast_IntType "i8")) = Ok (gen', 0%nat) /\
            types_heap gen' =
              [ArrayType EmptyString (-1) (Some 1%nat); IntType EmptyString 8])
    as (gen' & Hrun & Hheap) by (eexists; split; vm_compute; reflexivity).
  destruct (@array_length_is_wrapped demo_Foreign (demo_Collaborators false)
              new_generator gen' len (ast_IntType "i8")
              (ast_ArrayType len (ast_IntType "i8")) 0%nat Hlen (or_introl eq_refl) Hrun)
    as (n & e & Hn & Hcases & _ & _ & _ & Hneg).
  exists gen', n, e. split; [exact Hrun|]. split; [exact Hheap|].
  split; [exact Hn|]. split; [exact Hcases|]. apply Hneg. unfold len. lia.
Defined.

(** [demo_module] with the maps visited in reverse. *)
Lemma resolveGlobals_binds_defined_names_witness :
  @range_ok demo_Foreign (demo_Collaborators true) /\
  exists gen1 gen2 : @generator demo_Foreign,
    @resolveTypeDefs demo_Foreign (demo_Collaborators true) new_generator demo_module =
      Ok gen1 /\
    @resolveGlobals demo_Foreign (demo_Collaborators true) gen1 demo_module = Ok gen2 /\
    (forall name, is_Some (gs gen2 !! name) <-> name ∈ ["f"; "x"; "g"; "y"]) /\
    ts gen2 = ts gen1 /\
    exists l c,
      gs gen2 !! "y" = Some l /\ consts_heap gen2 !! l = Some c /\
      GlobalName_of c = "y" /\ kind_of_const c = KGlobal.
Proof.
  assert (Hrange : @range_ok demo_Foreign (demo_Collaborators true))
    by (intros site A l; apply reverse_Permutation).
  split; [exact Hrange|].
  eexists _, _. split; [vm_compute; reflexivity|].
  match goal with |- @resolveGlobals _ _ ?g1 _ = _ /\ _ => set (gen1 := g1) end.
  split; [vm_compute; reflexivity|].
  match goal with |- context [gs ?g2] => set (gen2 := g2) end.
  destruct (@resolveGlobals_binds_defined_names demo_Foreign (demo_Collaborators true)
              gen1 gen2 demo_module Hrange) as (Hdom & Hent & Hts & _);
    [vm_compute; reflexivity|].
  split; [exact Hdom|]. split; [exact Hts|].
  destruct (Hent (GlobalDecl (demo_global "y")) "y") as (l & c & Hl & Hc & Hn & Hk & _);
    [unfold demo_module; do 6 right; left|reflexivity|].
  exists l, c. split; [exact Hl|]. split; [exact Hc|]. split; [exact Hn|].
  simpl in Hk. by injection Hk as <-.
Defined.

(** [%T = type i8] [%U = type opaque] [%T = type opaque] fails; without the
    third definition the names are indexed in order. *)
Lemma type_redefinition_iff_witness :
  let module : list (@TopLevelEntity demo_Foreign) :=
    [TypeDef "T" (node_Type (ast_IntType "i8")); TypeDef "U" node_OpaqueType;
     TypeDef "T" node_OpaqueType] in
  (forall a, TypeDef a node_nil ∉ module) /\
  @indexTypeDefs demo_Foreign (demo_Collaborators false) module =
    Err (ErrTypeDefPresent "%T" "type" "opaque") /\
  (exists l1 a prev l2 typ l3,
     module = l1 ++ TypeDef a prev :: l2 ++ TypeDef a typ :: l3 /\
     prev <> node_OpaqueType /\ (a ∉ omap type_name l2)) /\
  @resolveTypeDefs demo_Foreign (demo_Collaborators false) new_generator module =
    Err (ErrTypeDefPresent "%T" "type" "opaque") /\
  (exists st,
     @indexTypeDefs demo_Foreign (demo_Collaborators false)
       [TypeDef "T" (node_Type (ast_IntType "i8")); TypeDef "U" node_OpaqueType] = Ok st /\
     order st = ["T"; "U"]).
Proof.
  intros module.
  assert (Hnil : forall a, TypeDef a node_nil ∉ module).
  { intros a Ha. unfold module in Ha.
    repeat (apply elem_of_cons in Ha as [Ha|Ha]; [discriminate|]).
    by apply elem_of_nil in Ha. }
  assert (Hrun : @indexTypeDefs demo_Foreign (demo_Collaborators false) module =
                   Err (ErrTypeDefPresent "%T" "type" "opaque"))
    by (vm_compute; reflexivity).
  destruct (@type_redefinition_iff demo_Foreign (demo_Collaborators false)
              new_generator module Hnil) as (Hiff & Herr & _).
  split; [exact Hnil|]. split; [exact Hrun|].
  split; [apply Hiff; eexists; exact Hrun|].
  split; [by apply Herr|].
  destruct (@type_redefinition_iff demo_Foreign (demo_Collaborators false)
              new_generator
              [TypeDef "T" (node_Type (ast_IntType "i8")); TypeDef "U" node_OpaqueType])
    as (_ & _ & Hok).
  { intros a Ha.
    repeat (apply elem_of_cons in Ha as [Ha|Ha]; [discriminate|]).
    by apply elem_of_nil in Ha. }
  apply Hok. apply (bool_decide_unpack _). vm_compute. exact I.
Defined.

(** A constant [@x] of type [[4 x i8]] in address space 3. *)
Lemma global_declaration_fill_witness :
  let attrs : GlobalAttrs :=
    {| ga_Linkage := 1; ga_Preemption := 0; ga_Visibility := 2; ga_DLLStorageClass := 0;
       ga_TLSModel := 0; ga_UnnamedAddr := 0; ga_AddrSpace := 3;
       ga_ExternallyInitialized := false; ga_Immutable := true |} in
  let old : ast_Global :=
    {| ag_Name := "x"; ag_ContentType := ast_ArrayType 4 (ast_IntType "i8");
       ag_Attrs := attrs |} in
  exists (g1 g2 : @generator demo_Foreign) ct p,
    @newGlobal demo_Foreign (demo_Collaborators false) new_generator "x" (GlobalDecl old) =
      Ok (g1, 0%nat) /\
    @astToIRGlobalDecl demo_Foreign g1 (Some 0%nat) old =
      Ok (g2, 0%nat) /\
    types_heap g2 =
      [ArrayType EmptyString 4 (Some 1%nat); IntType EmptyString 8;
       PointerType EmptyString (Some 0%nat) 3] /\
    consts_heap g2 =
      [Global {| g_GlobalName := "x"; g_ContentType := Some ct; g_Typ := Some p;
                 g_Linkage := 1; g_Preemption := 0; g_Visibility := 2;
                 g_DLLStorageClass := 0; g_TLSModel := 0; g_UnnamedAddr := 0;
                 g_ExternallyInitialized := false; g_Immutable := true;
                 g_Init := None |}] /\
    types_heap g2 !! p = Some (PointerType EmptyString (Some ct) 3) /\
    denotes 0 g2 ct (ast_ArrayType 4 (ast_IntType "i8")).
Proof.
  intros attrs old.
  assert (exists g1 : @generator demo_Foreign,
            @newGlobal demo_Foreign (demo_Collaborators false) new_generator "x"
              (GlobalDecl old) = Ok (g1, 0%nat)) as [g1 Hnew]
    by (eexists; vm_compute; reflexivity).
  destruct (@global_declaration_fill demo_Foreign (demo_Collaborators false)
              new_generator g1 "x" old 0%nat Hnew)
    as (g2 & ct & p & Hfill & Hc & Hp & Hden & _).
  exists g1, g2, ct, p. split; [exact Hnew|]. split; [exact Hfill|].
  split; [|split; [exact Hc|split; [exact Hp|exact Hden]]].
  injection Hnew as <-. vm_compute in Hfill. injection Hfill as <-. reflexivity.
Defined.

(** [declare void @f(i8 %a, %t %b)] in address space 6. *)
Lemma function_declaration_fill_witness :
  let hdr : ast_FuncHeader :=
    {| ah_Name := "f"; ah_RetType := ast_VoidType;
       ah_Params := [{| ap_Typ := ast_IntType "i8"; ap_Name := "a" |};
                     {| ap_Typ := ast_NamedType "t"; ap_Name := "b" |}];
       ah_Variadic := false; ah_Linkage := 1; ah_Preemption := 2; ah_Visibility := 3;
       ah_DLLStorageClass := 4; ah_UnnamedAddr := 5; ah_AddrSpace := 6 |} in
  let gen0 : @generator demo_Foreign :=
    {| ts := {["t" := 0%nat]}; gs := ∅;
       m := {| TypeDefs := []; Globals := []; Funcs := [] |};
       types_heap := [IntType "t" 1]; consts_heap := [] |} in
  exists (g1 g2 : @generator demo_Foreign) sig p prms,
    @newGlobal demo_Foreign (demo_Collaborators false) gen0 "f" (FuncDecl hdr) =
      Ok (g1, 0%nat) /\
    @astToIRFuncDecl demo_Foreign (demo_Collaborators false) g1 (Some 0%nat) hdr =
      Ok (g2, 0%nat) /\
    consts_heap g2 !! 0%nat =
      Some (Function {| f_GlobalName := "f"; f_Sig := Some sig; f_Typ := Some p;
                        f_Params := prms; f_Linkage := 1; f_Preemption := 2;
                        f_Visibility := 3; f_DLLStorageClass := 4; f_UnnamedAddr := 5;
                        f_Blocks := None |}) /\
    p_LocalName <$> prms = ["a"; "b"] /\
    denotes 1 g2 sig (ast_FuncType ast_VoidType [ast_IntType "i8"; ast_NamedType "t"] false) /\
    types_heap g2 !! p = Some (PointerType EmptyString (Some sig) 6).
Proof.
  intros hdr gen0.
  assert (exists g1 : @generator demo_Foreign,
            @newGlobal demo_Foreign (demo_Collaborators false) gen0 "f" (FuncDecl hdr) =
              Ok (g1, 0%nat)) as [g1 Hnew]
    by (eexists; vm_compute; reflexivity).
  destruct (@function_declaration_fill demo_Foreign (demo_Collaborators false)
              gen0 g1 "f" hdr 0%nat Hnew)
    as (g2 & sig & p & prms & Hfill & Hf & Hall & Hden & Hp & _).
  exists g1, g2, sig, p, prms. split; [exact Hnew|]. split; [exact Hfill|].
  split; [exact Hf|]. split; [|split; [exact Hden|exact Hp]].
  apply Forall2_cons_inv_r in Hall as (prm1 & prms1 & [Hn1 _] & Hall & ->).
  apply Forall2_cons_inv_r in Hall as (prm2 & prms2 & [Hn2 _] & Hall & ->).
  apply Forall2_nil_inv_r in Hall as ->. simpl. by rewrite Hn1, Hn2.
Defined.
